(** * micrograd: a scalar reverse-mode autodiff engine and its MNIST trainer

    Shallow embedding of [src/micrograd/engine.py] (module [Engine]) and of
    [src/mnist.py] (module [Mnist]).

    Python objects are identified by their allocation index in a node table
    (the arena): a node can only be built from operands that already exist,
    so the operands of node [i] have indices below [i].  The mutable fields
    [data], [grad] and [_visited] are maps from node indices to values.
    Floats are modelled by the real numbers. *)

From Stdlib Require Import Reals Lra Lia List ListSet Arith ZArith Bool.
From Stdlib Require Import Permutation FinFun.
From Stdlib Require Strings.Byte.
Import ListNotations.

(** ** Python prelude: field maps, loops that may raise, the math module *)

Module Py.

(** Object identities are allocation indices. *)
Abbreviation id := nat (only parsing).

(** [o.f = x] on the field map [f]. *)
Definition upd {A} (f : id -> A) (o : id) (x : A) : id -> A :=
  fun o' => if Nat.eqb o' o then x else f o'.

(** [for x in l: s = body(x, s)] where the body may raise. *)
Fixpoint for_each {A S} (body : A -> S -> option S) (l : list A) (s : S)
  : option S :=
  match l with
  | [] => Some s
  | x :: l' =>
      match body x s with
      | Some s' => for_each body l' s'
      | None => None
      end
  end.

Open Scope R_scope.

(** [math.exp].  Floats are the real numbers here, so the OverflowError
    of a result beyond the largest float is outside the model: what is
    proved of a call that returns holds of the code whenever its own call
    returns. *)
Definition math_exp (x : R) : R := exp x.

(** [math.log]: raises ValueError outside of the positive reals. *)
Definition math_log (x : R) : option R :=
  if Rlt_dec 0 x then Some (ln x) else None.

(** [float(a > b)] and the implicit coercion in [(a > b) * x]. *)
Definition float_gt (a b : R) : R := if Rgt_dec a b then 1 else 0.

(** Is the real [y] an integer value? *)
Definition is_integer (y : R) : bool :=
  if Req_dec_T (IZR (Int_part y)) y then true else false.

(** [math.pow(x, y)] (and [x ** y] on floats): defined for a positive base,
    for a zero base with a non-negative exponent, and for a negative base
    with an integral exponent; raises ValueError (ZeroDivisionError for
    [**]) otherwise.  As for [math_exp], the OverflowError of a result
    beyond the largest float is outside the model. *)
Definition math_pow (x y : R) : option R :=
  if Rlt_dec 0 x then Some (Rpower x y)
  else if Req_dec_T x 0 then
    (if Rlt_dec 0 y then Some 0
     else if Req_dec_T y 0 then Some 1 else None)
  else
    (if is_integer y then Some (powerRZ x (Int_part y)) else None).

(** [a / b] on floats: raises ZeroDivisionError for a zero divisor. *)
Definition py_div (a b : R) : option R :=
  if Req_dec_T b 0 then None else Some (a / b).

(** The builtin [max(a, b)]: the first argument unless the second is
    strictly greater. *)
Definition py_max (a b : R) : R := if Rgt_dec b a then b else a.

(** [x] if [v] is the object [a], else nothing: the share of one operand
    slot in a gradient update. *)
Definition hit (v a : id) (x : R) : R := if Nat.eqb v a then x else 0.

Lemma hit_eq v x : hit v v x = x.
Proof. unfold hit. now rewrite Nat.eqb_refl. Qed.

Lemma hit_neq v a x : v <> a -> hit v a x = 0.
Proof. unfold hit. intros H. apply Nat.eqb_neq in H. now rewrite H. Qed.

Close Scope R_scope.

Lemma upd_acc (f : id -> R) a x v :
  upd f a (f a + x)%R v = (f v + hit v a x)%R.
Proof.
  unfold upd, hit. destruct (Nat.eqb_spec v a) as [->|]; lra.
Qed.

Lemma upd_eq {A} (f : id -> A) o x : upd f o x o = x.
Proof. unfold upd. now rewrite Nat.eqb_refl. Qed.

Lemma upd_neq {A} (f : id -> A) o o' x : o' <> o -> upd f o x o' = f o'.
Proof. unfold upd. intros H. apply Nat.eqb_neq in H. now rewrite H. Qed.

Lemma for_each_app {A S} (body : A -> S -> option S) l1 l2 s :
  for_each body (l1 ++ l2) s =
  match for_each body l1 s with
  | Some s' => for_each body l2 s'
  | None => None
  end.
Proof.
  revert s. induction l1 as [|x l1 IH]; intros s; simpl; [reflexivity|].
  destruct (body x s); [apply IH | reflexivity].
Qed.

End Py.

Import Py.

(** ** Depth-first post-order over an arena

    Both engines order the graph by the same recursive walk: a node that is
    already marked is left alone; otherwise it is marked, its operands are
    walked from left to right, and it is appended to the order.  [skip]
    stands for the nodes whose walk is overridden to do nothing. *)

Section Dfs.

Variable prev : id -> list id.
Variable skip : id -> bool.

Fixpoint dfs (fuel : nat) (v : id) (st : (id -> bool) * list id)
  : option ((id -> bool) * list id) :=
  match fuel with
  | O => None
  | S fuel' =>
      if skip v then Some st
      else if fst st v then Some st
      else
        match for_each (dfs fuel') (prev v) (upd (fst st) v true, snd st) with
        | Some st' => Some (fst st', snd st' ++ [v])
        | None => None
        end
  end.

(** [reach r x]: [x] is [r] or one of its transitive operands. *)
Inductive reach (r : id) : id -> Prop :=
| reach_refl : reach r r
| reach_step x c : reach r x -> In c (prev x) -> reach r c.

(** Every listed node comes after all of its listed-able operands. *)
Definition topo_sorted (T : list id) : Prop :=
  forall l1 x l2, T = l1 ++ x :: l2 ->
    forall c, In c (prev x) -> skip c = false -> In c l1.

(** The order with duplicates that the walk would give without marks. *)
Fixpoint tree_post (fuel : nat) (v : id) : list id :=
  match fuel with
  | O => []
  | S fuel' =>
      if skip v then []
      else flat_map (tree_post fuel') (prev v) ++ [v]
  end.

(** Keep the first occurrence of every element, after those of [T]. *)
Definition keep_first (T l : list id) : list id :=
  fold_left (fun T x => if existsb (Nat.eqb x) T then T else T ++ [x]) l T.

Lemma for_each_mono {A S} (f f' : A -> S -> option S) l :
  (forall a s r, f a s = Some r -> f' a s = Some r) ->
  forall s r, for_each f l s = Some r -> for_each f' l s = Some r.
Proof.
  intros H. induction l as [|a l IH]; intros s r E; simpl in *; [exact E|].
  destruct (f a s) as [s1|] eqn:E1; [|discriminate].
  rewrite (H a s s1 E1). now apply IH.
Qed.

(** A walk that returns within some recursion depth returns the same
    within any larger one. *)
Lemma dfs_mono fuel : forall fuel' v st r,
  fuel <= fuel' -> dfs fuel v st = Some r -> dfs fuel' v st = Some r.
Proof.
  induction fuel as [|fuel IH]; intros fuel' v st r Hle E; [discriminate|].
  destruct fuel' as [|fuel']; [lia|]. simpl in *.
  destruct (skip v); [exact E|]. destruct (fst st v); [exact E|].
  destruct (for_each (dfs fuel) (prev v) (upd (fst st) v true, snd st))
    as [st'|] eqn:E1; [|discriminate].
  rewrite (for_each_mono (dfs fuel) (dfs fuel') (prev v)
             (fun a s r' => IH fuel' a s r' (le_S_n _ _ Hle)) _ _ E1).
  exact E.
Qed.

Hypothesis prev_lt : forall v c, In c (prev v) -> c < v.

Lemma reach_le r x : reach r x -> x <= r.
Proof.
  induction 1 as [|x c _ IH Hc]; [lia|]. apply prev_lt in Hc. lia.
Qed.

Lemma reach_trans r x y : reach r x -> reach x y -> reach r y.
Proof.
  intros Hrx Hxy. induction Hxy as [|y c _ IH Hc]; [assumption|].
  eapply reach_step; eassumption.
Qed.

Lemma topo_sorted_nil : topo_sorted [].
Proof. intros l1 x l2 H. destruct l1; discriminate. Qed.

Lemma topo_sorted_snoc T v :
  topo_sorted T ->
  (forall c, In c (prev v) -> skip c = false -> In c T) ->
  topo_sorted (T ++ [v]).
Proof.
  intros HT Hv l1 x l2 E c Hc Hs.
  destruct l2 as [|y l2] using rev_ind.
  - replace (l1 ++ [x]) with (l1 ++ [x]) in E by reflexivity.
    apply app_inj_tail in E. destruct E as [-> ->]. now apply Hv.
  - clear IHl2. rewrite app_comm_cons, app_assoc in E.
    apply app_inj_tail in E. destruct E as [E _].
    eapply HT; eassumption.
Qed.

Lemma topo_sorted_closed T x c :
  topo_sorted T -> In x T -> In c (prev x) -> skip c = false -> In c T.
Proof.
  intros HT Hx Hc Hs. apply in_split in Hx. destruct Hx as (l1 & l2 & E).
  rewrite E. apply in_or_app. left. eapply HT; eassumption.
Qed.

Lemma mem_In x (T : list id) : existsb (Nat.eqb x) T = true <-> In x T.
Proof.
  rewrite existsb_exists. split.
  - intros (y & Hy & E). apply Nat.eqb_eq in E. now subst.
  - intros H. exists x. split; [exact H | apply Nat.eqb_refl].
Qed.

Lemma keep_first_app T l1 l2 :
  keep_first T (l1 ++ l2) = keep_first (keep_first T l1) l2.
Proof. unfold keep_first. apply fold_left_app. Qed.

Lemma keep_first_known T l :
  (forall x, In x l -> In x T) -> keep_first T l = T.
Proof.
  induction l as [|x l IH]; intros H; [reflexivity|].
  unfold keep_first. simpl.
  destruct (existsb (Nat.eqb x) T) eqn:E.
  - apply IH. intros y Hy. apply H. now right.
  - assert (In x T) as Hx by (apply H; now left).
    apply mem_In in Hx. congruence.
Qed.

Lemma keep_first_new T x : ~ In x T -> keep_first T [x] = T ++ [x].
Proof.
  intros H. unfold keep_first. simpl.
  destruct (existsb (Nat.eqb x) T) eqn:E; [|reflexivity].
  apply mem_In in E. contradiction.
Qed.

Lemma tree_post_known fuel : forall v x T,
  topo_sorted T -> In v T -> In x (tree_post fuel v) -> In x T.
Proof.
  induction fuel as [|fuel IH]; intros v x T HT Hv Hx; [contradiction|].
  simpl in Hx. destruct (skip v); [contradiction|].
  apply in_app_or in Hx. destruct Hx as [Hx|[<-|[]]]; [|exact Hv].
  apply in_flat_map in Hx. destruct Hx as (c & Hc & Hx).
  assert (Hsc : skip c = false).
  { destruct fuel; [contradiction|]. simpl in Hx.
    destruct (skip c); [contradiction | reflexivity]. }
  apply (IH c x T HT); [|exact Hx].
  eapply topo_sorted_closed; eassumption.
Qed.

(** What one walk adds to a state whose marks agree with the order on the
    nodes up to [v]. *)
Definition walk_post (v : id) (f : id -> bool) (T : list id)
  (f' : id -> bool) (D : list id) : Prop :=
  (forall x, f' x = true <-> f x = true \/ In x D) /\
  (forall x, In x D -> reach v x /\ skip x = false /\ ~ In x T) /\
  NoDup D /\
  (skip v = false -> In v (T ++ D)) /\
  (skip v = false -> f v = false -> exists D', D = D' ++ [v]) /\
  topo_sorted (T ++ D).

Definition agree (b : id) (f : id -> bool) (T : list id) : Prop :=
  forall x, x <= b -> skip x = false -> (f x = true <-> In x T).

Lemma dfs_children fuel :
  (forall v f T, v < fuel -> agree v f T -> topo_sorted T ->
     exists f' D, dfs fuel v (f, T) = Some (f', T ++ D) /\ walk_post v f T f' D /\
       T ++ D = keep_first T (tree_post fuel v)) ->
  forall cs b f T,
    (forall c, In c cs -> c < fuel /\ c < b) ->
    (forall x, x < b -> skip x = false -> (f x = true <-> In x T)) ->
    topo_sorted T ->
    exists f' D, for_each (dfs fuel) cs (f, T) = Some (f', T ++ D) /\
      (forall x, f' x = true <-> f x = true \/ In x D) /\
      (forall x, In x D -> (exists c, In c cs /\ reach c x) /\ skip x = false /\ ~ In x T) /\
      NoDup D /\
      (forall c, In c cs -> skip c = false -> In c (T ++ D)) /\
      topo_sorted (T ++ D) /\
      T ++ D = keep_first T (flat_map (tree_post fuel) cs).
Proof.
  intros IH cs. induction cs as [|c cs IHcs]; intros b f T Hcs Hag HT.
  - exists f, []. simpl. rewrite !app_nil_r.
    split; [reflexivity|]. split; [tauto|]. split; [tauto|].
    split; [constructor|]. split; [tauto|]. split; [exact HT | reflexivity].
  - simpl.
    destruct (Hcs c (or_introl eq_refl)) as [Hcf Hcb].
    assert (Hagc : agree c f T).
    { intros x Hx. apply Hag. lia. }
    destruct (IH c f T Hcf Hagc HT)
      as (f1 & D1 & E1 & (Hf1 & HD1 & Hnd1 & Hin1 & _ & Hts1) & Hk1).
    assert (Hcs' : forall c', In c' cs -> c' < fuel /\ c' < b).
    { intros c' Hc'. apply Hcs. now right. }
    assert (Hag1 : forall x, x < b -> skip x = false ->
                     (f1 x = true <-> In x (T ++ D1))).
    { intros x Hx Hs. rewrite Hf1, in_app_iff.
      specialize (Hag x Hx Hs). tauto. }
    destruct (IHcs b f1 (T ++ D1) Hcs' Hag1 Hts1)
      as (f2 & D2 & E2 & Hf2 & HD2 & Hnd2 & Hin2 & Hts2 & Hk2).
    exists f2, (D1 ++ D2). rewrite E1, !app_assoc. split; [exact E2|].
    split; [|split; [|split; [|split; [|split]]]].
    + intros x. rewrite Hf2, Hf1, in_app_iff. tauto.
    + intros x Hx. apply in_app_or in Hx. destruct Hx as [Hx|Hx].
      * destruct (HD1 x Hx) as (Hr & Hs & Hn).
        split; [|split; assumption].
        exists c. split; [now left | exact Hr].
      * destruct (HD2 x Hx) as ((c' & Hc' & Hr) & Hs & Hn).
        split; [|split; [assumption|]].
        -- exists c'. split; [now right | exact Hr].
        -- intros HxT. apply Hn. apply in_or_app. now left.
    + apply NoDup_app; [exact Hnd1 | exact Hnd2 |].
      intros x Hx1 Hx2. destruct (HD2 x Hx2) as (_ & _ & Hn).
      apply Hn. apply in_or_app. now right.
    + intros c' [<-|Hc'] Hs.
      * apply in_or_app. left. now apply Hin1.
      * now apply Hin2.
    + exact Hts2.
    + rewrite keep_first_app, <- Hk1. exact Hk2.
Qed.

Lemma dfs_spec fuel : forall v f T,
  v < fuel -> agree v f T -> topo_sorted T ->
  exists f' D, dfs fuel v (f, T) = Some (f', T ++ D) /\ walk_post v f T f' D /\
    T ++ D = keep_first T (tree_post fuel v).
Proof.
  induction fuel as [|fuel IH]; intros v f T Hv Hag HT; [lia|].
  simpl. destruct (skip v) eqn:Hskip.
  { exists f, []. unfold walk_post. rewrite !app_nil_r.
    split; [reflexivity|]. split; [|reflexivity].
    split; [simpl; tauto|]. split; [simpl; tauto|].
    split; [constructor|]. split; [congruence|].
    split; [congruence | exact HT]. }
  destruct (f v) eqn:Hfv.
  { assert (HvT : In v T) by (apply (Hag v); auto).
    exists f, []. unfold walk_post. rewrite !app_nil_r.
    split; [reflexivity|]. split.
    - split; [simpl; tauto|]. split; [simpl; tauto|].
      split; [constructor|]. split; [|split; [congruence | exact HT]].
      intros _. exact HvT.
    - symmetry. apply keep_first_known. intros x Hx.
      apply (tree_post_known (S fuel) v x T HT HvT).
      simpl. rewrite Hskip. exact Hx. }
  assert (Hcs : forall c, In c (prev v) -> c < fuel /\ c < v).
  { intros c Hc. apply prev_lt in Hc. lia. }
  assert (Hag1 : forall x, x < v -> skip x = false ->
                   (upd f v true x = true <-> In x T)).
  { intros x Hx Hs. rewrite upd_neq by lia. apply Hag; auto. lia. }
  destruct (dfs_children fuel IH (prev v) v (upd f v true) T Hcs Hag1 HT)
    as (f' & D & E & Hf' & HD & Hnd & Hin & Hts & Hk).
  exists f', (D ++ [v]). rewrite E, app_assoc. simpl.
  split; [reflexivity|].
  assert (HvT : ~ In v T).
  { intros H. apply (Hag v) in H; auto. congruence. }
  assert (HvD : ~ In v D).
  { intros H. destruct (HD v H) as ((c & Hc & Hr) & _ & _).
    apply prev_lt in Hc. apply reach_le in Hr. lia. }
  split; [|rewrite keep_first_app, <- Hk; symmetry; apply keep_first_new;
           intros H; apply in_app_or in H; tauto].
  split; [|split; [|split; [|split; [|split]]]].
  - intros x. rewrite Hf', in_app_iff. unfold upd. simpl.
    destruct (Nat.eqb_spec x v) as [->|Hne]; [tauto|].
    split; [tauto|]. intros [H|[H|[H|[]]]]; auto; try (now subst).
  - intros x Hx. apply in_app_or in Hx. destruct Hx as [Hx|[<-|[]]].
    + destruct (HD x Hx) as ((c & Hc & Hr) & Hs & Hn).
      split; [|split; assumption].
      eapply reach_trans; [|exact Hr].
      eapply reach_step; [apply reach_refl | exact Hc].
    + split; [apply reach_refl | split; assumption].
  - apply NoDup_app; [exact Hnd | repeat constructor; simpl; tauto |].
    intros x Hx [<-|[]]. contradiction.
  - intros _. apply in_or_app. right. apply in_or_app. right. now left.
  - intros _ _. exists D. reflexivity.
  - rewrite app_assoc. apply topo_sorted_snoc; [exact Hts|].
    intros c Hc Hs. now apply Hin.
Qed.

(** The walk from a state without marks. *)
Lemma dfs_fresh fuel r :
  r < fuel ->
  exists f' T, dfs fuel r (fun _ => false, []) = Some (f', T) /\
    NoDup T /\ topo_sorted T /\
    (forall x, In x T -> reach r x /\ skip x = false) /\
    (skip r = false -> exists T', T = T' ++ [r]) /\
    (skip r = true -> T = []) /\
    (forall x, f' x = true <-> In x T) /\
    T = keep_first [] (tree_post fuel r).
Proof.
  intros Hr.
  destruct (dfs_spec fuel r (fun _ => false) [] Hr) as (f' & D & E & HW & Hk).
  { intros x _ _. simpl. split; [discriminate | tauto]. }
  { apply topo_sorted_nil. }
  simpl in *. destruct HW as (Hf' & HD & Hnd & Hin & Hlast & Hts).
  exists f', D. split; [exact E|]. split; [exact Hnd|]. split; [exact Hts|].
  split; [intros x Hx; destruct (HD x Hx) as (? & ? & _); now split|].
  split; [intros Hs; now apply Hlast|].
  split.
  { intros Hs. destruct fuel; [lia|]. simpl in E. rewrite Hs in E.
    now inversion E. }
  split; [|exact Hk].
  intros x. rewrite Hf'. split; [intros [H|H]; [discriminate | exact H] | tauto].
Qed.

(** A sorted order is closed under operands, so it holds everything that
    can be reached from any of its members. *)
Lemma topo_sorted_reach T r x :
  (forall v, skip v = true -> prev v = []) ->
  topo_sorted T -> In r T -> reach r x -> skip x = false -> In x T.
Proof.
  intros Hleaf HT Hr Hreach. induction Hreach as [|y c Hry IH Hc]; intros Hs.
  - exact Hr.
  - destruct (skip y) eqn:Hsy.
    + rewrite (Hleaf y Hsy) in Hc. contradiction.
    + apply (topo_sorted_closed T y c HT (IH eq_refl) Hc Hs).
Qed.

(** In a sorted order without repetition the operands of a node sit at
    strictly smaller positions. *)
Lemma topo_sorted_index T i x c :
  topo_sorted T -> nth_error T i = Some x -> In c (prev x) -> skip c = false ->
  exists j, j < i /\ nth_error T j = Some c.
Proof.
  intros HT Hi Hc Hs.
  destruct (nth_error_split T i Hi) as (l1 & l2 & E & Hlen).
  assert (Hin : In c l1) by (eapply HT; eassumption).
  apply In_nth_error in Hin. destruct Hin as (j & Hj).
  exists j. assert (j < length l1).
  { apply nth_error_Some. congruence. }
  split; [lia|]. rewrite E, nth_error_app1; assumption.
Qed.

(** Operands never occur at or after their consumer. *)
Definition operands_earlier (T : list id) : Prop :=
  forall l1 x l2, T = l1 ++ x :: l2 ->
    forall c, In c (prev x) -> ~ In c (x :: l2).

Lemma topo_sorted_operands_earlier T :
  NoDup T -> topo_sorted T -> (forall x, In x T -> skip x = false) ->
  operands_earlier T.
Proof.
  intros Hnd HT Hsk l1 x l2 E c Hc Hin.
  assert (Hs : skip c = false).
  { apply Hsk. rewrite E. apply in_or_app. now right. }
  assert (Hc1 : In c l1) by (eapply HT; eassumption).
  subst T. apply in_split in Hc1. destruct Hc1 as (a & b & ->).
  rewrite <- app_assoc in Hnd. simpl in Hnd.
  apply NoDup_remove_2 in Hnd. apply Hnd.
  apply in_or_app. right. apply in_or_app. now right.
Qed.

(** Read backwards, a sorted order without repetition meets every node
    before all of its operands. *)
Lemma topo_sorted_rev T l1 x l2 c :
  NoDup T -> topo_sorted T -> rev T = l1 ++ x :: l2 ->
  In c (prev x) -> skip c = false ->
  In c l2 /\ ~ In c (l1 ++ [x]).
Proof.
  intros Hnd HT E Hc Hs.
  assert (ET : T = rev l2 ++ x :: rev l1).
  { rewrite <- (rev_involutive T), E, rev_app_distr. simpl.
    now rewrite <- app_assoc. }
  assert (Hin : In c (rev l2)) by (eapply HT; eassumption).
  split; [now apply in_rev|].
  intros Hc1. subst T. apply in_split in Hin. destruct Hin as (a & b & Eab).
  rewrite Eab, <- app_assoc in Hnd. simpl in Hnd.
  apply NoDup_remove_2 in Hnd. apply Hnd.
  apply in_or_app. right. apply in_or_app. right.
  apply in_app_or in Hc1. destruct Hc1 as [Hc1|[->|[]]].
  - right. now apply in_rev in Hc1.
  - now left.
Qed.

End Dfs.

(** ** Reverse sweep of accumulating rules

    [bw u g] applies the backward rule of node [u] to the gradient map [g];
    it may raise.  When it does not, it adds [contrib u (g u) v] to the
    gradient of every node [v], and that amount is zero unless [v] is an
    operand of [u]. *)

Section Sweep.

Open Scope R_scope.

Variable prev : id -> list id.
Variable bw : id -> (id -> R) -> option (id -> R).
Variable contrib : id -> R -> id -> R.
Variable defined : id -> Prop.

Hypothesis bw_accumulates : forall u g g',
  bw u g = Some g' -> forall v, g' v = g v + contrib u (g u) v.
Hypothesis bw_defined : forall u g, defined u -> exists g', bw u g = Some g'.
Hypothesis bw_raises : forall u g g', bw u g = Some g' -> defined u.
Hypothesis contrib_operand : forall u x v,
  ~ In v (prev u) -> contrib u x v = 0.

(** [sum(f(u) for u in l)]. *)
Fixpoint Rsum (f : id -> R) (l : list id) : R :=
  match l with
  | [] => 0
  | u :: l' => f u + Rsum f l'
  end.

Lemma Rsum_app f l1 l2 : Rsum f (l1 ++ l2) = Rsum f l1 + Rsum f l2.
Proof. induction l1 as [|u l1 IH]; simpl; [lra | rewrite IH; lra]. Qed.

Lemma Rsum_zero f l : (forall u, In u l -> f u = 0) -> Rsum f l = 0.
Proof.
  induction l as [|u l IH]; intros H; simpl; [reflexivity|].
  rewrite (H u), IH; [lra | | now left]. intros w Hw. apply H. now right.
Qed.

Lemma Rsum_ext f f' l :
  (forall u, In u l -> f u = f' u) -> Rsum f l = Rsum f' l.
Proof.
  induction l as [|u l IH]; intros H; simpl; [reflexivity|].
  rewrite (H u), IH; [reflexivity | | now left]. intros w Hw. apply H. now right.
Qed.


(** [for v in reversed(T): v._backward()]. *)
Definition sweep (T : list id) (g : id -> R) : option (id -> R) :=
  for_each bw (rev T) g.

Lemma sweep_snoc T u g :
  sweep (T ++ [u]) g =
  match bw u g with Some g1 => sweep T g1 | None => None end.
Proof. unfold sweep. rewrite rev_app_distr. reflexivity. Qed.

Lemma operands_earlier_app (T1 T2 : list id) :
  operands_earlier prev (T1 ++ T2) -> operands_earlier prev T1.
Proof.
  intros H l1 x l2 E c Hc Hin.
  apply (H l1 x (l2 ++ T2)) with (c := c); auto.
  - rewrite E, <- app_assoc. reflexivity.
  - rewrite app_comm_cons. apply in_or_app. now left.
Qed.

(** The adjoint equations: every gradient ends as its initial value plus
    the contributions of all the listed nodes, each taken at the final
    gradient of the contributing node. *)
Theorem sweep_adjoint T : forall g G,
  operands_earlier prev T -> sweep T g = Some G ->
  forall v, G v = g v + Rsum (fun u => contrib u (G u) v) T.
Proof.
  induction T as [|u T IH] using rev_ind; intros g G Hop E v.
  - unfold sweep in E. simpl in E. inversion E. simpl. lra.
  - rewrite sweep_snoc in E. destruct (bw u g) as [g1|] eqn:Eu; [|discriminate].
    pose proof (IH g1 G (operands_earlier_app _ _ Hop) E) as HG.
    assert (Hself : ~ In u (prev u)).
    { intros H. apply (Hop T u [] eq_refl u H). now left. }
    assert (Hlater : forall w, In w T -> ~ In u (prev w)).
    { intros w Hw H. apply in_split in Hw. destruct Hw as (a & b & ->).
      apply (Hop a w (b ++ [u])) with (c := u); auto.
      - rewrite <- app_assoc. reflexivity.
      - right. apply in_or_app. right. now left. }
    assert (HGu : G u = g u).
    { rewrite (HG u), (bw_accumulates u g g1 Eu u).
      rewrite contrib_operand by exact Hself.
      rewrite Rsum_zero; [lra|]. intros w Hw. apply contrib_operand. now apply Hlater. }
    rewrite (HG v), (bw_accumulates u g g1 Eu v), Rsum_app. simpl.
    rewrite HGu. lra.
Qed.

(** The sweep goes through exactly when no listed rule raises. *)
Lemma sweep_defined T : forall g,
  (forall u, In u T -> defined u) -> exists G, sweep T g = Some G.
Proof.
  induction T as [|u T IH] using rev_ind; intros g H.
  - exists g. reflexivity.
  - rewrite sweep_snoc.
    destruct (bw_defined u g) as (g1 & ->); [apply H, in_or_app; right; now left|].
    apply IH. intros w Hw. apply H, in_or_app. now left.
Qed.

Lemma sweep_raises T : forall g G,
  sweep T g = Some G -> forall u, In u T -> defined u.
Proof.
  induction T as [|u T IH] using rev_ind; intros g G E w Hw; [contradiction|].
  rewrite sweep_snoc in E. destruct (bw u g) as [g1|] eqn:Eu; [|discriminate].
  apply in_app_or in Hw. destruct Hw as [Hw|[<-|[]]].
  - eapply IH; eassumption.
  - eapply bw_raises; eassumption.
Qed.

(** Gradients that sit on nodes whose rule passes nothing on are carried
    through the sweep unchanged: starting [delta] higher ends [delta]
    higher. *)
Lemma sweep_shift T : forall g g' G G' (delta : id -> R),
  (forall v, g' v = g v + delta v) ->
  (forall u, In u T -> delta u = 0 \/ (forall x v, contrib u x v = 0)) ->
  sweep T g = Some G -> sweep T g' = Some G' ->
  forall v, G' v = G v + delta v.
Proof.
  induction T as [|u T IH] using rev_ind; intros g g' G G' delta Hg Hd E E' v.
  - unfold sweep in *. simpl in *. inversion E; inversion E'; subst. apply Hg.
  - rewrite sweep_snoc in E, E'.
    destruct (bw u g) as [g1|] eqn:Eu; [|discriminate].
    destruct (bw u g') as [g1'|] eqn:Eu'; [|discriminate].
    apply (IH g1 g1' G G' delta); auto.
    + intros w. rewrite (bw_accumulates u g' g1' Eu' w),
        (bw_accumulates u g g1 Eu w), (Hg w).
      destruct (Hd u) as [H0|H0]; [apply in_or_app; right; now left | |].
      * rewrite (Hg u), H0, Rplus_0_r. lra.
      * rewrite !H0. lra.
    + intros w Hw. apply Hd. apply in_or_app. now left.
Qed.

End Sweep.

(** ** Derivatives of the operations of the [math] module *)

Section Calculus.

Open Scope R_scope.

(** [P] holds on a neighbourhood of [t0]. *)
Definition near (t0 : R) (P : R -> Prop) : Prop :=
  exists delta, 0 < delta /\ forall t, Rabs (t - t0) < delta -> P t.

Lemma near_all t0 (P : R -> Prop) : (forall t, P t) -> near t0 P.
Proof. intros H. exists 1. split; [lra | auto]. Qed.

Lemma near_self t0 P : near t0 P -> P t0.
Proof.
  intros (dl & Hd & H). apply H. rewrite Rminus_diag, Rabs_R0. exact Hd.
Qed.

Lemma near_mono t0 (P Q : R -> Prop) :
  (forall t, P t -> Q t) -> near t0 P -> near t0 Q.
Proof. intros H (dl & Hd & HP). exists dl. split; auto. Qed.

Lemma near_and t0 (P Q : R -> Prop) :
  near t0 P -> near t0 Q -> near t0 (fun t => P t /\ Q t).
Proof.
  intros (d1 & H1 & HP) (d2 & H2 & HQ). exists (Rmin d1 d2). split.
  - now apply Rmin_pos.
  - intros t Ht. split; [apply HP | apply HQ];
      eapply Rlt_le_trans; try exact Ht; [apply Rmin_l | apply Rmin_r].
Qed.

Lemma near_gt x c : c < x -> near x (fun u => c < u).
Proof.
  intros H. exists (x - c). split; [lra|]. intros t Ht.
  apply Rabs_def2 in Ht. lra.
Qed.

Lemma near_lt x c : x < c -> near x (fun u => u < c).
Proof.
  intros H. exists (c - x). split; [lra|]. intros t Ht.
  apply Rabs_def2 in Ht. lra.
Qed.

(** A function with a derivative at [t0] is continuous there. *)
Lemma deriv_continuous F t0 l eps :
  derivable_pt_lim F t0 l -> 0 < eps ->
  near t0 (fun t => Rabs (F t - F t0) < eps).
Proof.
  intros HF Heps.
  assert (Hc : continuity_pt F t0).
  { apply derivable_continuous_pt. exists l. exact HF. }
  destruct (Hc eps Heps) as (alp & Halp & H).
  exists alp. split; [lra|]. intros t Ht.
  destruct (Req_dec t0 t) as [<-|Hne].
  - rewrite Rminus_diag, Rabs_R0. exact Heps.
  - apply (H t). split; [split; [exact I | exact Hne] | exact Ht].
Qed.

Lemma near_comp F t0 l (P : R -> Prop) :
  derivable_pt_lim F t0 l -> near (F t0) P -> near t0 (fun t => P (F t)).
Proof.
  intros HF (eps & Heps & HP).
  apply (near_mono t0 (fun t => Rabs (F t - F t0) < eps)); [intros t; apply HP|].
  eapply deriv_continuous; eassumption.
Qed.

(** The outcome of a comparison is the same near a point where the two
    sides differ. *)
Lemma float_gt_near F H t0 lf lh :
  derivable_pt_lim F t0 lf -> derivable_pt_lim H t0 lh -> F t0 <> H t0 ->
  near t0 (fun t => float_gt (F t) (H t) = float_gt (F t0) (H t0)).
Proof.
  intros HF HH Hne.
  assert (He : exists e, 0 < e /\ (e = F t0 - H t0 \/ e = H t0 - F t0)).
  { destruct (Rlt_dec (H t0) (F t0)); [exists (F t0 - H t0) | exists (H t0 - F t0)];
      split; lra. }
  destruct He as (e & He & Hcase).
  assert (He2 : 0 < e / 2) by lra.
  pose proof (near_and _ _ _ (deriv_continuous F t0 lf _ HF He2)
                (deriv_continuous H t0 lh _ HH He2)) as Hn.
  revert Hn. apply near_mono. intros t [H1 H2].
  apply Rabs_def2 in H1, H2. unfold float_gt.
  destruct (Rgt_dec (F t) (H t)) as [G|G], (Rgt_dec (F t0) (H t0)) as [G0|G0];
    try reflexivity; exfalso; unfold Rgt in *; lra.
Qed.

Lemma derivable_pt_lim_eq (F : R -> R) t0 l l' :
  derivable_pt_lim F t0 l -> l = l' -> derivable_pt_lim F t0 l'.
Proof. now intros H <-. Qed.

Lemma Int_part_IZR z : Int_part (IZR z) = z.
Proof. symmetry. apply Int_part_spec. lra. Qed.

Lemma is_integer_IZR z : is_integer (IZR z) = true.
Proof.
  unfold is_integer. rewrite Int_part_IZR.
  destruct (Req_dec_T (IZR z) (IZR z)); [reflexivity | contradiction].
Qed.

Lemma is_integer_elim k : is_integer k = true -> k = IZR (Int_part k).
Proof.
  unfold is_integer. destruct (Req_dec_T _ _) as [E|]; [now symmetry | discriminate].
Qed.

(** [x ** n] for a whole, positive [n], whatever the base. *)
Lemma math_pow_nat u n : (1 <= n)%nat -> math_pow u (INR n) = Some (u ^ n).
Proof.
  intros Hn. unfold math_pow.
  destruct (Rlt_dec 0 u) as [Hu|Hu].
  - now rewrite Rpower_pow.
  - destruct (Req_dec_T u 0) as [->|Hu0].
    + assert (0 < INR n) by (apply lt_0_INR; lia).
      destruct (Rlt_dec 0 (INR n)); [|contradiction].
      now rewrite pow_i by lia.
    + rewrite INR_IZR_INZ, is_integer_IZR, Int_part_IZR, <- pow_powerRZ.
      reflexivity.
Qed.

(** The rule of [PowValue]: wherever [x ** k] and [x ** (k - 1)] are both
    defined, except at a zero base with an exponent that is not a whole
    positive number, [k * x ** (k - 1)] is the derivative of [x ** k]. *)
Lemma pow_rule x k z p :
  math_pow x k = Some z -> math_pow x (k - 1) = Some p ->
  (x <> 0 \/ exists n, (1 <= n)%nat /\ k = INR n) ->
  exists P : R -> R,
    near x (fun u => math_pow u k = Some (P u)) /\
    derivable_pt_lim P x (k * p).
Proof.
  intros Ez Ep Hx.
  destruct (Rlt_dec 0 x) as [Hpos|Hnpos].
  - exists (fun u => Rpower u k). split.
    + apply (near_mono x (fun u => 0 < u)); [|now apply near_gt].
      intros u Hu. unfold math_pow. now destruct (Rlt_dec 0 u).
    + unfold math_pow in Ep. destruct (Rlt_dec 0 x); [|contradiction].
      injection Ep as <-. now apply derivable_pt_lim_power.
  - destruct (Req_dec_T x 0) as [->|Hne].
    + destruct Hx as [Hx|(n & Hn & ->)]; [contradiction|].
      exists (fun u => u ^ n). split.
      * apply near_all. intros u. now apply math_pow_nat.
      * eapply derivable_pt_lim_eq; [apply derivable_pt_lim_pow|].
        f_equal. destruct n as [|[|n]]; [lia | |].
        -- replace (INR 1 - 1) with 0 in Ep by (simpl; lra).
           unfold math_pow in Ep.
           destruct (Rlt_dec 0 0); [lra|].
           destruct (Req_dec_T 0 0); [|contradiction].
           destruct (Rlt_dec 0 0); [lra|].
           destruct (Req_dec_T 0 0); [|contradiction].
           injection Ep as <-. reflexivity.
        -- replace (INR (S (S n)) - 1) with (INR (S n)) in Ep
             by (rewrite (S_INR (S n)); lra).
           rewrite math_pow_nat in Ep by lia. now injection Ep as <-.
    + assert (Hneg : x < 0) by lra.
      assert (Hint : is_integer k = true).
      { unfold math_pow in Ez. destruct (Rlt_dec 0 x); [contradiction|].
        destruct (Req_dec_T x 0); [contradiction|].
        destruct (is_integer k); [reflexivity | discriminate]. }
      apply is_integer_elim in Hint. set (n := Int_part k) in *.
      assert (Ep' : p = powerRZ x (n - 1)).
      { unfold math_pow in Ep. destruct (Rlt_dec 0 x); [contradiction|].
        destruct (Req_dec_T x 0); [contradiction|].
        replace (k - 1) with (IZR (n - 1)) in Ep by (rewrite minus_IZR; lra).
        rewrite is_integer_IZR, Int_part_IZR in Ep. now injection Ep as <-. }
      assert (Hsplit : forall u m, u < 0 ->
                powerRZ u m = powerRZ (-1) m * Rpower (- u) (IZR m)).
      { intros u m Hu. rewrite <- powerRZ_Rpower by lra.
        rewrite <- powerRZ_mult. f_equal. lra. }
      exists (fun u => powerRZ (-1) n * Rpower (- u) k). split.
      * apply (near_mono x (fun u => u < 0)); [|now apply near_lt].
        intros u Hu. unfold math_pow.
        destruct (Rlt_dec 0 u); [lra|].
        destruct (Req_dec_T u 0); [lra|].
        rewrite Hint at 1. rewrite is_integer_IZR. fold n.
        rewrite (Hsplit u n Hu), <- Hint. reflexivity.
      * eapply derivable_pt_lim_eq.
        { apply (derivable_pt_lim_scal (fun u => Rpower (- u) k) (powerRZ (-1) n)).
          apply (derivable_pt_lim_comp (fun u => - u) (fun v => Rpower v k)).
          - apply (derivable_pt_lim_opp Ranalysis1.id). apply derivable_pt_lim_id.
          - apply derivable_pt_lim_power. lra. }
        rewrite Ep', (Hsplit x (n - 1)%Z Hneg), minus_IZR, <- Hint.
        replace (n - 1)%Z with (n + - 1)%Z by lia.
        rewrite powerRZ_add by lra.
        replace (powerRZ (-1) (-1)) with (-1) by (simpl; field).
        ring.
Qed.

Lemma log_rule x :
  0 < x ->
  near x (fun u => math_log u = Some (ln u)) /\ derivable_pt_lim ln x (/ x).
Proof.
  intros Hx. split; [|now apply derivable_pt_lim_ln].
  apply (near_mono x (fun u => 0 < u)); [|now apply near_gt].
  intros u Hu. unfold math_log. now destruct (Rlt_dec 0 u).
Qed.

End Calculus.

(** ** Reverse sweep against forward propagation

    The gradients that the reverse sweep leaves satisfy the adjoint
    equations.  When every rule is linear in the gradient it passes down,
    they are tied to any solution [dot] of the tangent equations, which
    push a perturbation [e] of the nodes up the graph. *)

Section Duality.

Open Scope R_scope.

Variable contrib : id -> R -> id -> R.
Hypothesis contrib_linear : forall u x v, contrib u x v = x * contrib u 1 v.

Lemma Rsum_plus f f' l :
  Rsum (fun u => f u + f' u) l = Rsum f l + Rsum f' l.
Proof. induction l as [|u l IH]; simpl; [lra | rewrite IH; lra]. Qed.

Lemma Rsum_scal_l c f l : Rsum (fun u => c * f u) l = c * Rsum f l.
Proof. induction l as [|u l IH]; simpl; [lra | rewrite IH; lra]. Qed.

Lemma Rsum_scal_r c f l : Rsum (fun u => f u * c) l = Rsum f l * c.
Proof. induction l as [|u l IH]; simpl; [lra | rewrite IH; lra]. Qed.

Lemma Rsum_swap (f : id -> id -> R) l1 l2 :
  Rsum (fun u => Rsum (fun c => f u c) l2) l1
  = Rsum (fun c => Rsum (fun u => f u c) l1) l2.
Proof.
  induction l1 as [|u l1 IH]; simpl.
  - symmetry. now apply Rsum_zero.
  - rewrite IH, <- Rsum_plus. reflexivity.
Qed.

(** One term of a sum over a list without repetition. *)
Lemma Rsum_pick f l x :
  NoDup l -> In x l -> (forall u, In u l -> u <> x -> f u = 0) ->
  Rsum f l = f x.
Proof.
  intros Hnd Hin Hz. apply in_split in Hin. destruct Hin as (a & b & ->).
  apply NoDup_remove_2 in Hnd. rewrite Rsum_app. simpl.
  rewrite (Rsum_zero f a), (Rsum_zero f b); [lra | |].
  - intros u Hu. apply Hz; [apply in_or_app; right; now right|].
    intros ->. apply Hnd, in_or_app. now right.
  - intros u Hu. apply Hz; [apply in_or_app; now left|].
    intros ->. apply Hnd, in_or_app. now left.
Qed.

Theorem adjoint_tangent T (g0 G e dot : id -> R) :
  (forall v, In v T -> G v = g0 v + Rsum (fun u => contrib u (G u) v) T) ->
  (forall u, In u T -> dot u = e u + Rsum (fun c => contrib u 1 c * dot c) T) ->
  Rsum (fun u => G u * e u) T = Rsum (fun c => g0 c * dot c) T.
Proof.
  intros HG Hdot.
  assert (E1 : Rsum (fun u => G u * e u) T
               + Rsum (fun u => Rsum (fun c => G u * contrib u 1 c * dot c) T) T
               = Rsum (fun u => G u * dot u) T).
  { rewrite <- Rsum_plus. apply Rsum_ext. intros u Hu.
    rewrite (Hdot u Hu).
    rewrite (Rsum_ext (fun c => G u * contrib u 1 c * dot c)
               (fun c => G u * (contrib u 1 c * dot c))) by (intros; ring).
    rewrite Rsum_scal_l. ring. }
  assert (E2 : Rsum (fun c => g0 c * dot c) T
               + Rsum (fun c => Rsum (fun u => G u * contrib u 1 c * dot c) T) T
               = Rsum (fun c => G c * dot c) T).
  { rewrite <- Rsum_plus. apply Rsum_ext. intros c Hc.
    rewrite (HG c Hc).
    rewrite (Rsum_ext (fun u => contrib u (G u) c)
               (fun u => G u * contrib u 1 c)) by (intros; apply contrib_linear).
    rewrite (Rsum_scal_r (dot c) (fun u => G u * contrib u 1 c)). ring. }
  rewrite (Rsum_swap (fun u c => G u * contrib u 1 c * dot c)) in E1.
  lra.
Qed.

End Duality.

Section PowFacts.

Open Scope R_scope.

(** Where [x ** k] exists, [x ** (k - 1)] exists too unless [x] is 0 and
    [k] is below 1. *)
Lemma math_pow_pred_defined x k z :
  math_pow x k = Some z ->
  (math_pow x (k - 1) <> None <-> x <> 0 \/ 1 <= k).
Proof.
  intros Ez. unfold math_pow in *.
  destruct (Rlt_dec 0 x) as [Hx|Hx].
  - split; [intros _; left; lra | discriminate].
  - destruct (Req_dec_T x 0) as [->|Hne].
    + destruct (Rlt_dec 0 (k - 1)).
      * split; [intros _; right; lra | discriminate].
      * destruct (Req_dec_T (k - 1) 0).
        -- split; [intros _; right; lra | discriminate].
        -- split; [congruence | intros [H|H]; [congruence | lra]].
    + destruct (is_integer k) eqn:Hk; [|discriminate].
      apply is_integer_elim in Hk.
      replace (k - 1) with (IZR (Int_part k - 1))
        by (rewrite minus_IZR; lra).
      rewrite is_integer_IZR. split; [intros _; now left | discriminate].
Qed.

End PowFacts.

(** ** The eager engine of [micrograd/engine.py] *)

Module Engine.

Open Scope R_scope.

(** The closure stored in [_backward], by the operation that created it,
    with the variables it captures. *)
Inductive op : Type :=
| Leaf
| Add (self other : id)
| Mul (self other : id)
| Pow (self : id) (other : R)
| ReLU (self : id)
| Exp (self : id)
| Log (self : id)
| MaxOp (left' right' : id).

(** A [Value] without its [grad], which lives in a map of its own. *)
Record Value : Type := mkValue { data : R; _op : op }.

Definition heap := list Value.

Definition get (h : heap) (v : id) : Value := nth v h (mkValue 0 Leaf).

Definition _prev (h : heap) (v : id) : list id :=
  match _op (get h v) with
  | Leaf => []
  | Add a b | Mul a b | MaxOp a b => [a; b]
  | Pow a _ | ReLU a | Exp a | Log a => [a]
  end.

Definition alloc (h : heap) (n : Value) : heap * id := (h ++ [n], length h).

(** [Value(data)]. *)
Definition new_Value (h : heap) (d : R) : heap * id := alloc h (mkValue d Leaf).

Definition __add__ (h : heap) (self other : id) : heap * id :=
  alloc h (mkValue (data (get h self) + data (get h other)) (Add self other)).

Definition __mul__ (h : heap) (self other : id) : heap * id :=
  alloc h (mkValue (data (get h self) * data (get h other)) (Mul self other)).

Definition __pow__ (h : heap) (self : id) (other : R) : option (heap * id) :=
  match math_pow (data (get h self)) other with
  | Some d => Some (alloc h (mkValue d (Pow self other)))
  | None => None
  end.

Definition relu (h : heap) (self : id) : heap * id :=
  let d := data (get h self) in
  alloc h (mkValue (if Rlt_dec d 0 then 0 else d) (ReLU self)).

Definition exp (h : heap) (self : id) : heap * id :=
  alloc h (mkValue (math_exp (data (get h self))) (Exp self)).

Definition log (h : heap) (self : id) : option (heap * id) :=
  match math_log (data (get h self)) with
  | Some d => Some (alloc h (mkValue d (Log self)))
  | None => None
  end.

(** [Max(left, right)]. *)
Definition Max (h : heap) (left' right' : id) : heap * id :=
  alloc h (mkValue (py_max (data (get h left')) (data (get h right')))
                   (MaxOp left' right')).

(** [out._backward()]. *)
Definition _backward (h : heap) (out : id) (grad : id -> R)
  : option (id -> R) :=
  match _op (get h out) with
  | Leaf => Some grad
  | Add self other =>
      let grad := upd grad self (grad self + grad out) in
      Some (upd grad other (grad other + grad out))
  | Mul self other =>
      let grad := upd grad self (grad self + data (get h other) * grad out) in
      Some (upd grad other (grad other + data (get h self) * grad out))
  | Pow self other =>
      match math_pow (data (get h self)) (other - 1) with
      | Some p => Some (upd grad self (grad self + (other * p) * grad out))
      | None => None
      end
  | ReLU self =>
      Some (upd grad self (grad self + float_gt (data (get h out)) 0 * grad out))
  | Exp self =>
      Some (upd grad self (grad self + math_exp (data (get h self)) * grad out))
  | Log self =>
      match py_div 1 (data (get h self)) with
      | Some q => Some (upd grad self (grad self + q * grad out))
      | None => None
      end
  | MaxOp left' right' =>
      if Rgt_dec (data (get h left')) (data (get h right'))
      then Some (upd grad left' (grad left' + grad out))
      else Some (upd grad right' (grad right' + grad out))
  end.

(** The nested [build_topo] of [backward], with its two captured
    variables [visited] and [topo] passed along. *)
Fixpoint build_topo (fuel : nat) (h : heap) (v : id)
  (st : set id * list id) : option (set id * list id) :=
  match fuel with
  | O => None
  | S fuel' =>
      if set_mem Nat.eq_dec v (fst st) then Some st
      else
        match for_each (build_topo fuel' h) (_prev h v)
                (set_add Nat.eq_dec v (fst st), snd st) with
        | Some st' => Some (fst st', snd st' ++ [v])
        | None => None
        end
  end.

Definition backward (fuel : nat) (h : heap) (self : id) (grad : id -> R)
  : option (id -> R) :=
  match build_topo fuel h self (empty_set id, []) with
  | Some (_, topo) =>
      let grad := upd grad self 1 in
      for_each (_backward h) (rev topo) grad
  | None => None
  end.

(** Operands are allocated before the node that uses them. *)
Definition wf (h : heap) : Prop := forall v c, In c (_prev h v) -> (c < v)%nat.

Definition wf_check (h : heap) : bool :=
  forallb (fun v => forallb (fun c => Nat.ltb c v) (_prev h v)) (seq 0 (length h)).

(** The amount that the rule of [out], run when the gradient of [out] is
    [x], adds to the gradient of [v]: one term per operand slot that
    holds [v]. *)
Definition contribution (h : heap) (out : id) (x : R) (v : id) : R :=
  match _op (get h out) with
  | Leaf => 0
  | Add a b => hit v a x + hit v b x
  | Mul a b => hit v a (data (get h b) * x) + hit v b (data (get h a) * x)
  | Pow a k =>
      match math_pow (data (get h a)) (k - 1) with
      | Some p => hit v a ((k * p) * x)
      | None => 0
      end
  | ReLU a => hit v a (float_gt (data (get h out)) 0 * x)
  | Exp a => hit v a (math_exp (data (get h a)) * x)
  | Log a => hit v a (1 / data (get h a) * x)
  | MaxOp a b =>
      if Rgt_dec (data (get h a)) (data (get h b)) then hit v a x else hit v b x
  end.

(** The rule of [out] does not raise. *)
Definition defined (h : heap) (out : id) : Prop :=
  match _op (get h out) with
  | Pow a k => math_pow (data (get h a)) (k - 1) <> None
  | Log a => data (get h a) <> 0
  | _ => True
  end.

Lemma get_out_of_range h v : (length h <= v)%nat -> get h v = mkValue 0 Leaf.
Proof. intros H. unfold get. now apply nth_overflow. Qed.

Lemma engine_wf_check_sound h : wf_check h = true -> wf h.
Proof.
  unfold wf_check, wf. intros H v c Hc.
  destruct (Nat.lt_ge_cases v (length h)) as [Hv|Hv].
  - rewrite forallb_forall in H. specialize (H v).
    rewrite forallb_forall in H. apply Nat.ltb_lt. apply H; [|exact Hc].
    apply in_seq. lia.
  - unfold _prev in Hc. rewrite get_out_of_range in Hc by exact Hv.
    contradiction.
Qed.





Lemma set_mem_add x v (s : set id) :
  set_mem Nat.eq_dec x (set_add Nat.eq_dec v s)
  = (Nat.eqb x v || set_mem Nat.eq_dec x s)%bool.
Proof.
  destruct (set_mem Nat.eq_dec x (set_add Nat.eq_dec v s)) eqn:E.
  - apply set_mem_correct1, set_add_elim in E. symmetry. apply orb_true_iff.
    destruct E as [->|E]; [left; apply Nat.eqb_refl|].
    right. now apply set_mem_correct2.
  - symmetry. apply orb_false_iff. split.
    + apply Nat.eqb_neq. intros ->.
      apply set_mem_complete1 in E. apply E. apply set_add_intro2. reflexivity.
    + destruct (set_mem Nat.eq_dec x s) eqn:E'; [|reflexivity].
      apply set_mem_correct1 in E'. apply set_mem_complete1 in E.
      exfalso. apply E. now apply set_add_intro1.
Qed.

(** [build_topo] is the walk of section [Dfs] that skips nothing, the set
    [visited] playing the part of the marks. *)
Definition marks_of (s : set id) (f : id -> bool) : Prop :=
  forall x, set_mem Nat.eq_dec x s = f x.

Definition same_walk (r : option (set id * list id))
  (r' : option ((id -> bool) * list id)) : Prop :=
  match r, r' with
  | Some (s, T), Some (f, T') => marks_of s f /\ T = T'
  | None, None => True
  | _, _ => False
  end.

Lemma build_topo_dfs h fuel : forall v s f T,
  marks_of s f ->
  same_walk (build_topo fuel h v (s, T))
            (dfs (_prev h) (fun _ => false) fuel v (f, T)).
Proof.
  induction fuel as [|fuel IH]; intros v s f T Hm; simpl; [exact I|].
  rewrite (Hm v). destruct (f v) eqn:Hfv; [now split|].
  assert (Hm1 : marks_of (set_add Nat.eq_dec v s) (upd f v true)).
  { intros x. rewrite set_mem_add, (Hm x). unfold upd.
    now destruct (Nat.eqb x v). }
  assert (Hcs : forall cs s f T, marks_of s f ->
            same_walk (for_each (build_topo fuel h) cs (s, T))
                      (for_each (dfs (_prev h) (fun _ => false) fuel) cs (f, T))).
  { clear - IH. induction cs as [|c cs IHcs]; intros s f T Hm; simpl; [now split|].
    specialize (IH c s f T Hm). unfold same_walk in IH.
    destruct (build_topo fuel h c (s, T)) as [[s1 T1]|],
             (dfs _ _ fuel c (f, T)) as [[f1 T1']|]; try contradiction.
    - destruct IH as [Hm1 <-]. now apply IHcs.
    - exact I. }
  specialize (Hcs (_prev h v) _ _ T Hm1). unfold same_walk in Hcs.
  destruct (for_each (build_topo fuel h) _ _) as [[s1 T1]|],
           (for_each (dfs _ _ fuel) _ _) as [[f1 T1']|]; try contradiction.
  - destruct Hcs as [Hm2 <-]. now split.
  - exact I.
Qed.

(** A new [Value] whose children already exist keeps the heap well
    formed: the operators can only build graphs without cycles. *)
Lemma alloc_wf h n :
  wf h ->
  (forall c, In c (match _op n with
                   | Leaf => []
                   | Add a b | Mul a b | MaxOp a b => [a; b]
                   | Pow a _ | ReLU a | Exp a | Log a => [a]
                   end) -> (c < length h)%nat) ->
  wf (fst (alloc h n)).
Proof.
  intros Hwf Hn v c Hc. unfold alloc, _prev, get in *. simpl in *.
  destruct (Nat.lt_trichotomy v (length h)) as [Hv|[Hv|Hv]].
  - rewrite app_nth1 in Hc by exact Hv. now apply (Hwf v c).
  - subst v. rewrite app_nth2, Nat.sub_diag in Hc by lia. simpl in Hc.
    now apply Hn.
  - rewrite nth_overflow in Hc; [contradiction|].
    rewrite length_app. simpl. lia.
Qed.

Lemma add_wf h self other :
  wf h -> (self < length h)%nat -> (other < length h)%nat ->
  wf (fst (__add__ h self other)).
Proof.
  intros Hwf Hs Ho. apply alloc_wf; [exact Hwf|]. simpl.
  intros c [<-|[<-|[]]]; assumption.
Qed.

Lemma mul_wf h self other :
  wf h -> (self < length h)%nat -> (other < length h)%nat ->
  wf (fst (__mul__ h self other)).
Proof.
  intros Hwf Hs Ho. apply alloc_wf; [exact Hwf|]. simpl.
  intros c [<-|[<-|[]]]; assumption.
Qed.

(** The order built from an empty [visited] set. *)
Lemma build_topo_fresh h r fuel :
  wf h -> (r < fuel)%nat ->
  exists s T, build_topo fuel h r (empty_set id, []) = Some (s, T) /\
    NoDup T /\ topo_sorted (_prev h) (fun _ => false) T /\
    (forall x, In x T <-> reach (_prev h) r x) /\
    (exists T', T = T' ++ [r]) /\
    T = keep_first [] (tree_post (_prev h) (fun _ => false) fuel r).
Proof.
  intros Hwf Hr.
  destruct (dfs_fresh (_prev h) (fun _ => false) Hwf fuel r Hr)
    as (f & T & E & Hnd & Hts & Hin & Hlast & _ & _ & Hk).
  pose proof (build_topo_dfs h fuel r (empty_set id) (fun _ => false) []) as Hsim.
  rewrite E in Hsim. unfold same_walk in Hsim.
  destruct (build_topo fuel h r (empty_set id, [])) as [[s T0]|];
    [|exfalso; apply Hsim; intros x; reflexivity].
  destruct Hsim as [_ ->]; [intros x; reflexivity|].
  destruct (Hlast eq_refl) as (T' & ET).
  exists s, T. split; [reflexivity|]. split; [exact Hnd|]. split; [exact Hts|].
  split; [|split; [exists T'; exact ET | exact Hk]].
  intros x. split; [intros Hx; now apply Hin|].
  intros Hx. apply (topo_sorted_reach (_prev h) (fun _ => false) T r x); auto.
  - discriminate.
  - rewrite ET. apply in_or_app. right. now left.
Qed.




(** *** The operators defined from [+], [*] and [**] *)

(** The right operand of an operator: a [Value] or a Python number. *)
Inductive operand : Type :=
| Obj (v : id)
| Num (x : R).

(** [other if isinstance(other, Value) else Value(other)]. *)
Definition as_Value (h : heap) (other : operand) : heap * id :=
  match other with
  | Obj v => (h, v)
  | Num x => new_Value h x
  end.

(** [self + other] and [self * other] for any operand: the first line of
    [__add__] and [__mul__] wraps a number in a new [Value]. *)
Definition add_operand (h : heap) (self : id) (other : operand) : heap * id :=
  let '(h, other) := as_Value h other in __add__ h self other.

Definition mul_operand (h : heap) (self : id) (other : operand) : heap * id :=
  let '(h, other) := as_Value h other in __mul__ h self other.

(** [-self]: [self * -1]. *)
Definition __neg__ (h : heap) (self : id) : heap * id :=
  mul_operand h self (Num (-1)).

(** [other + self]: [self + other]. *)
Definition __radd__ (h : heap) (self : id) (other : operand) : heap * id :=
  add_operand h self other.

(** [self - other]: [self + (-other)]; the negation of a number is a
    number. *)
Definition __sub__ (h : heap) (self : id) (other : operand) : heap * id :=
  match other with
  | Obj o => let '(h, n) := __neg__ h o in add_operand h self (Obj n)
  | Num x => add_operand h self (Num (- x))
  end.

(** [other - self], for a number [other]: [other + (-self)], which Python
    evaluates as [(-self).__radd__(other)]. *)
Definition __rsub__ (h : heap) (self : id) (other : R) : heap * id :=
  let '(h, n) := __neg__ h self in __radd__ h n (Num other).

(** [other * self]: [self * other]. *)
Definition __rmul__ (h : heap) (self : id) (other : operand) : heap * id :=
  mul_operand h self other.

(** [self / other]: [self * other**-1]; the power of a number is a
    number. *)
Definition __div__ (h : heap) (self : id) (other : operand)
  : option (heap * id) :=
  match other with
  | Obj o =>
      match __pow__ h o (-1) with
      | Some (h, p) => Some (mul_operand h self (Obj p))
      | None => None
      end
  | Num x =>
      match math_pow x (-1) with
      | Some y => Some (mul_operand h self (Num y))
      | None => None
      end
  end.

(** [other / self], for a number [other]: [other * self**-1], which
    Python evaluates as [(self**-1).__rmul__(other)]. *)
Definition __rdiv__ (h : heap) (self : id) (other : R) : option (heap * id) :=
  match __pow__ h self (-1) with
  | Some (h, p) => Some (__rmul__ h p (Num other))
  | None => None
  end.

(** The data of an operand. *)
Definition operand_data (h : heap) (o : operand) : R :=
  match o with
  | Obj v => data (get h v)
  | Num x => x
  end.

(** An operand that is a [Value] exists. *)
Definition operand_ok (h : heap) (o : operand) : Prop :=
  match o with
  | Obj v => (v < length h)%nat
  | Num _ => True
  end.

(** *** Running the construction again *)

(** The operation that built the [Value] [n], run again on the heap
    [h']. *)
Definition again (h' : heap) (n : Value) : option heap :=
  match _op n with
  | Leaf => Some (fst (new_Value h' (data n)))
  | Add a b => Some (fst (__add__ h' a b))
  | Mul a b => Some (fst (__mul__ h' a b))
  | Pow a k => option_map fst (__pow__ h' a k)
  | ReLU a => Some (fst (relu h' a))
  | Exp a => Some (fst (exp h' a))
  | Log a => option_map fst (log h' a)
  | MaxOp a b => Some (fst (Max h' a b))
  end.

(** The same, a leaf being created with the data that [ld] gives for its
    position. *)
Definition step (ld : id -> R) (n : Value) (h' : heap) : option heap :=
  again h' (match _op n with
            | Leaf => mkValue (ld (length h')) Leaf
            | _ => n
            end).

(** The operations that built [h], run again in the same order from an
    empty heap, the leaf at position [i] created as [Value(ld i)]. *)
Definition rerun (h : heap) (ld : id -> R) : option heap :=
  for_each (step ld) h [].

(** A heap that the operators have built, and in which no data has been
    assigned since: running the operations again gives the same heap. *)
Definition built (h : heap) : Prop :=
  rerun h (fun v => data (get h v)) = Some h.

Lemma get_app h l v : (v < length h)%nat -> get (h ++ l) v = get h v.
Proof. intros H. unfold get. now rewrite app_nth1. Qed.

Lemma get_new h n : get (h ++ [n]) (length h) = n.
Proof. unfold get. rewrite app_nth2, Nat.sub_diag by lia. reflexivity. Qed.

Lemma step_length ld n h0 h1 :
  step ld n h0 = Some h1 -> length h1 = S (length h0).
Proof.
  unfold step, again, new_Value, __add__, __mul__, __pow__, relu, exp, log,
    Max, alloc.
  destruct (_op n); cbn [_op data];
    repeat match goal with
    | |- context [match ?x with _ => _ end] => destruct x
    end; cbn [option_map fst]; intros E; try discriminate;
    injection E as <-; rewrite length_app; simpl; lia.
Qed.

(** A run reads [ld] at the positions it fills only. *)
Lemma run_ext ld ld' suf : forall h0,
  (forall i, (length h0 <= i < length h0 + length suf)%nat -> ld i = ld' i) ->
  for_each (step ld) suf h0 = for_each (step ld') suf h0.
Proof.
  induction suf as [|n suf IH]; intros h0 H; simpl; [reflexivity|].
  assert (E : step ld n h0 = step ld' n h0).
  { unfold step. rewrite (H (length h0)) by (simpl; lia). reflexivity. }
  rewrite <- E. destruct (step ld n h0) as [h1|] eqn:E1; [|reflexivity].
  apply IH. intros i Hi. apply H.
  rewrite (step_length _ _ _ _ E1) in Hi. simpl. lia.
Qed.

(** One more operation on a heap that the operators have built. *)
Lemma built_snoc h m :
  built h -> step (fun v => data (get (h ++ [m]) v)) m h = Some (h ++ [m]) ->
  built (h ++ [m]).
Proof.
  unfold built, rerun. intros Hb Hm. rewrite for_each_app.
  rewrite (run_ext _ (fun v => data (get h v)) h []).
  - rewrite Hb. simpl. now rewrite Hm.
  - intros i Hi. simpl in Hi. now rewrite get_app by lia.
Qed.

(** What an operator may do to the heap: append, and return a [Value]
    that exists in a heap that is still well formed and that the
    operators have built. *)
Record grows (h h' : heap) (out : id) : Prop := mkGrows {
  g_ext : exists l, h' = h ++ l;
  g_out : (out < length h')%nat;
  g_wf : wf h -> wf h';
  g_built : built h -> built h'
}.

Lemma grows_refl h v : (v < length h)%nat -> grows h h v.
Proof.
  intros H.
  constructor; [exists []; now rewrite app_nil_r | exact H | auto | auto].
Qed.

Lemma grows_trans h1 h2 h3 v w :
  grows h1 h2 v -> grows h2 h3 w -> grows h1 h3 w.
Proof.
  intros [[l1 ->] _ W1 B1] [[l2 ->] O2 W2 B2].
  constructor;
    [exists (l1 ++ l2); now rewrite app_assoc | exact O2 | auto | auto].
Qed.

Lemma grows_get h h' out v :
  grows h h' out -> (v < length h)%nat -> get h' v = get h v.
Proof. intros [[l ->] _ _] H. now apply get_app. Qed.

Lemma grows_lt h h' out v :
  grows h h' out -> (v < length h)%nat -> (v < length h')%nat.
Proof. intros [[l ->] _ _] H. rewrite length_app. lia. Qed.

Lemma grows_alloc h n :
  (forall c, In c (match _op n with
                   | Leaf => []
                   | Add a b | Mul a b | MaxOp a b => [a; b]
                   | Pow a _ | ReLU a | Exp a | Log a => [a]
                   end) -> (c < length h)%nat) ->
  step (fun v => data (get (h ++ [n]) v)) n h = Some (h ++ [n]) ->
  grows h (fst (alloc h n)) (snd (alloc h n)).
Proof.
  intros Hn Hs. constructor; simpl.
  - now exists [n].
  - rewrite length_app. simpl. lia.
  - intros Hwf. now apply (alloc_wf h n).
  - intros Hb. now apply built_snoc.
Qed.

Lemma engine_as_Value_spec h o :
  operand_ok h o ->
  let '(h', v) := as_Value h o in
  grows h h' v /\ data (get h' v) = operand_data h o.
Proof.
  destruct o as [v|x]; simpl; intros Ho.
  - split; [now apply grows_refl | reflexivity].
  - split.
    + apply (grows_alloc h (mkValue x Leaf)); [intros c []|].
      unfold step, again. cbn [_op data]. now rewrite get_new.
    + now rewrite get_new.
Qed.






Lemma engine_add_spec h self other :
  (self < length h)%nat -> (other < length h)%nat ->
  let '(h', out) := __add__ h self other in
  grows h h' out /\
  data (get h' out) = data (get h self) + data (get h other).
Proof.
  intros Hs Ho. unfold __add__. split.
  - apply (grows_alloc h (mkValue _ (Add self other))); [|reflexivity].
    intros c [<-|[<-|[]]]; assumption.
  - simpl. now rewrite get_new.
Qed.

Lemma engine_mul_spec h self other :
  (self < length h)%nat -> (other < length h)%nat ->
  let '(h', out) := __mul__ h self other in
  grows h h' out /\
  data (get h' out) = data (get h self) * data (get h other).
Proof.
  intros Hs Ho. unfold __mul__. split.
  - apply (grows_alloc h (mkValue _ (Mul self other))); [|reflexivity].
    intros c [<-|[<-|[]]]; assumption.
  - simpl. now rewrite get_new.
Qed.

Lemma engine_pow_spec h self k :
  (self < length h)%nat ->
  match __pow__ h self k with
  | Some (h', out) =>
      grows h h' out /\ math_pow (data (get h self)) k = Some (data (get h' out))
  | None => math_pow (data (get h self)) k = None
  end.
Proof.
  intros Hs. unfold __pow__.
  destruct (math_pow (data (get h self)) k) as [d|] eqn:E; [|reflexivity].
  split.
  - apply (grows_alloc h (mkValue d (Pow self k))).
    + intros c [<-|[]]. exact Hs.
    + unfold step, again, __pow__. cbn [_op]. now rewrite E.
  - simpl. now rewrite get_new.
Qed.

Lemma engine_add_operand_spec h self other :
  (self < length h)%nat -> operand_ok h other ->
  let '(h', out) := add_operand h self other in
  grows h h' out /\
  data (get h' out) = data (get h self) + operand_data h other.
Proof.
  intros Hs Ho. unfold add_operand.
  pose proof (engine_as_Value_spec h other Ho) as H1.
  destruct (as_Value h other) as [h1 o]. destruct H1 as [G1 D1].
  pose proof (engine_add_spec h1 self o (grows_lt _ _ _ _ G1 Hs) (g_out _ _ _ G1)) as H2.
  destruct (__add__ h1 self o) as [h2 out]. destruct H2 as [G2 D2].
  split; [eapply grows_trans; eassumption|].
  now rewrite D2, D1, (grows_get _ _ _ _ G1 Hs).
Qed.

Lemma engine_mul_operand_spec h self other :
  (self < length h)%nat -> operand_ok h other ->
  let '(h', out) := mul_operand h self other in
  grows h h' out /\
  data (get h' out) = data (get h self) * operand_data h other.
Proof.
  intros Hs Ho. unfold mul_operand.
  pose proof (engine_as_Value_spec h other Ho) as H1.
  destruct (as_Value h other) as [h1 o]. destruct H1 as [G1 D1].
  pose proof (engine_mul_spec h1 self o (grows_lt _ _ _ _ G1 Hs) (g_out _ _ _ G1)) as H2.
  destruct (__mul__ h1 self o) as [h2 out]. destruct H2 as [G2 D2].
  split; [eapply grows_trans; eassumption|].
  now rewrite D2, D1, (grows_get _ _ _ _ G1 Hs).
Qed.

Lemma engine_neg_spec h self :
  (self < length h)%nat ->
  let '(h', out) := __neg__ h self in
  grows h h' out /\ data (get h' out) = - data (get h self).
Proof.
  intros Hs. unfold __neg__.
  pose proof (engine_mul_operand_spec h self (Num (-1)) Hs I) as H.
  destruct (mul_operand h self (Num (-1))) as [h' out].
  destruct H as [G D]. split; [exact G|]. rewrite D. simpl. lra.
Qed.

Lemma engine_sub_spec h self other :
  (self < length h)%nat -> operand_ok h other ->
  let '(h', out) := __sub__ h self other in
  grows h h' out /\
  data (get h' out) = data (get h self) - operand_data h other.
Proof.
  intros Hs Ho. unfold __sub__. destruct other as [o|x].
  - pose proof (engine_neg_spec h o Ho) as H1.
    destruct (__neg__ h o) as [h1 n]. destruct H1 as [G1 D1].
    pose proof (engine_add_operand_spec h1 self (Obj n) (grows_lt _ _ _ _ G1 Hs)
                  (g_out _ _ _ G1)) as H2.
    destruct (add_operand h1 self (Obj n)) as [h2 out]. destruct H2 as [G2 D2].
    split; [eapply grows_trans; eassumption|].
    rewrite D2. simpl. rewrite D1, (grows_get _ _ _ _ G1 Hs). lra.
  - pose proof (engine_add_operand_spec h self (Num (- x)) Hs I) as H.
    destruct (add_operand h self (Num (- x))) as [h' out].
    destruct H as [G D]. split; [exact G|]. rewrite D. simpl. lra.
Qed.

Lemma engine_rsub_spec h self other :
  (self < length h)%nat ->
  let '(h', out) := __rsub__ h self other in
  grows h h' out /\ data (get h' out) = other - data (get h self).
Proof.
  intros Hs. unfold __rsub__, __radd__.
  pose proof (engine_neg_spec h self Hs) as H1.
  destruct (__neg__ h self) as [h1 n]. destruct H1 as [G1 D1].
  pose proof (engine_add_operand_spec h1 n (Num other) (g_out _ _ _ G1) I) as H2.
  destruct (add_operand h1 n (Num other)) as [h2 out]. destruct H2 as [G2 D2].
  split; [eapply grows_trans; eassumption|].
  rewrite D2, D1. simpl. lra.
Qed.

(** [x ** -1] is [1 / x], and raises exactly at 0. *)
Lemma math_pow_minus_one x :
  math_pow x (-1) = if Req_dec_T x 0 then None else Some (/ x).
Proof.
  unfold math_pow.
  destruct (Rlt_dec 0 x) as [Hx|Hx].
  - destruct (Req_dec_T x 0); [lra|]. f_equal.
    unfold Rpower. replace (-1 * ln x) with (- ln x) by lra.
    now rewrite exp_Ropp, exp_ln.
  - destruct (Req_dec_T x 0) as [->|Hne].
    + destruct (Rlt_dec 0 (-1)); [lra|].
      destruct (Req_dec_T (-1) 0); [lra | reflexivity].
    + replace (-1) with (IZR (-1)) by reflexivity.
      rewrite is_integer_IZR, Int_part_IZR. f_equal.
      simpl. rewrite Rmult_1_r. reflexivity.
Qed.

Lemma engine_div_spec h self other :
  (self < length h)%nat -> operand_ok h other ->
  match __div__ h self other with
  | Some (h', out) =>
      operand_data h other <> 0 /\ grows h h' out /\
      data (get h' out) = data (get h self) / operand_data h other
  | None => operand_data h other = 0
  end.
Proof.
  intros Hs Ho. unfold __div__. destruct other as [o|x]; simpl in *.
  - pose proof (engine_pow_spec h o (-1) Ho) as H1.
    destruct (__pow__ h o (-1)) as [[h1 p]|].
    + destruct H1 as [G1 D1]. rewrite math_pow_minus_one in D1.
      destruct (Req_dec_T (data (get h o)) 0) as [|Hne]; [discriminate|].
      injection D1 as D1.
      pose proof (engine_mul_operand_spec h1 self (Obj p) (grows_lt _ _ _ _ G1 Hs)
                    (g_out _ _ _ G1)) as H2.
      destruct (mul_operand h1 self (Obj p)) as [h2 out]. destruct H2 as [G2 D2].
      split; [exact Hne|]. split; [eapply grows_trans; eassumption|].
      rewrite D2. simpl. rewrite <- D1, (grows_get _ _ _ _ G1 Hs). reflexivity.
    + rewrite math_pow_minus_one in H1.
      destruct (Req_dec_T (data (get h o)) 0); [assumption | discriminate].
  - rewrite math_pow_minus_one.
    destruct (Req_dec_T x 0) as [->|Hne]; [reflexivity|].
    pose proof (engine_mul_operand_spec h self (Num (/ x)) Hs I) as H.
    destruct (mul_operand h self (Num (/ x))) as [h' out].
    destruct H as [G D]. split; [exact Hne|]. split; [exact G|].
    rewrite D. reflexivity.
Qed.

Lemma engine_rdiv_spec h self other :
  (self < length h)%nat ->
  match __rdiv__ h self other with
  | Some (h', out) =>
      data (get h self) <> 0 /\ grows h h' out /\
      data (get h' out) = other / data (get h self)
  | None => data (get h self) = 0
  end.
Proof.
  intros Hs. unfold __rdiv__, __rmul__.
  pose proof (engine_pow_spec h self (-1) Hs) as H1.
  destruct (__pow__ h self (-1)) as [[h1 p]|].
  - destruct H1 as [G1 D1]. rewrite math_pow_minus_one in D1.
    destruct (Req_dec_T (data (get h self)) 0) as [|Hne]; [discriminate|].
    injection D1 as D1.
    pose proof (engine_mul_operand_spec h1 p (Num other) (g_out _ _ _ G1) I) as H2.
    destruct (mul_operand h1 p (Num other)) as [h2 out]. destruct H2 as [G2 D2].
    split; [exact Hne|]. split; [eapply grows_trans; eassumption|].
    rewrite D2, <- D1. simpl. unfold Rdiv. ring.
  - rewrite math_pow_minus_one in H1.
    destruct (Req_dec_T (data (get h self)) 0); [assumption | discriminate].
Qed.

(** The points at which the function of a node has no derivative: [relu]
    at 0, [Max] at a tie, and a power of 0 unless the exponent is a whole
    positive number. *)
Definition smooth_at (h : heap) (v : id) : Prop :=
  match _op (get h v) with
  | ReLU a => data (get h a) <> 0
  | MaxOp a b => data (get h a) <> data (get h b)
  | Pow a k => data (get h a) <> 0 \/ exists n, (1 <= n)%nat /\ k = INR n
  | _ => True
  end.

End Engine.

(** ** The build-once engine and the trainer of [mnist.py] *)

Module Mnist.

Open Scope R_scope.

(** The class of an object together with its immutable fields. *)
Inductive node : Type :=
| Const (_const_data : R)
| Value
| AddValue (_prev0 _prev1 : id)
| MulValue (_prev0 _prev1 : id)
| PowValue (_prev0 : id) (exponent : R)
| ReluValue (_prev0 : id)
| LogValue (_prev0 : id)
| ExpValue (_prev0 : id)
| Max (_prev0 _prev1 : id).

Definition graph := list node.

Definition cls (g : graph) (v : id) : node := nth v g Value.

Definition is_const (g : graph) (v : id) : bool :=
  match cls g v with Const _ => true | _ => false end.

(** The fields [_prev0] and [_prev1] of an object of class [n]. *)
Definition operands (n : node) : list id :=
  match n with
  | Const _ | Value => []
  | AddValue a b | MulValue a b | Max a b => [a; b]
  | PowValue a _ | ReluValue a | LogValue a | ExpValue a => [a]
  end.

(** The operands walked by [_build_topo_recurse], in its order. *)
Definition _prev (g : graph) (v : id) : list id := operands (cls g v).

(** [v.get_data()]. *)
Definition get_data (g : graph) (data : id -> R) (v : id) : R :=
  match cls g v with
  | Const c => c
  | _ => data v
  end.

(** The value that [v._forward()] stores in [v.data], if it stores one. *)
Definition forward_value (g : graph) (data : id -> R) (v : id)
  : option (option R) :=
  match cls g v with
  | Const _ | Value => Some None
  | AddValue a b => Some (Some (get_data g data a + get_data g data b))
  | MulValue a b => Some (Some (get_data g data a * get_data g data b))
  | PowValue a k => option_map Some (math_pow (get_data g data a) k)
  | ReluValue a =>
      Some (Some (float_gt (get_data g data a) 0 * get_data g data a))
  | LogValue a => option_map Some (math_log (get_data g data a))
  | ExpValue a => Some (Some (math_exp (get_data g data a)))
  | Max a b =>
      let leftdata := get_data g data a in
      let rightdata := get_data g data b in
      let left_bigger := float_gt leftdata rightdata in
      Some (Some (left_bigger * leftdata + (1 - left_bigger) * rightdata))
  end.

(** [v._forward()]. *)
Definition _forward (g : graph) (v : id) (data : id -> R)
  : option (id -> R) :=
  match forward_value g data v with
  | Some (Some x) => Some (upd data v x)
  | Some None => Some data
  | None => None
  end.

(** [out._backward()]. *)
Definition _backward (g : graph) (data : id -> R) (out : id)
  (grad : id -> R) : option (id -> R) :=
  match cls g out with
  | Const _ | Value => Some grad
  | AddValue self other =>
      let grad := upd grad self (grad self + grad out) in
      Some (upd grad other (grad other + grad out))
  | MulValue self other =>
      let grad := upd grad self (grad self + get_data g data other * grad out) in
      Some (upd grad other (grad other + get_data g data self * grad out))
  | PowValue self exponent =>
      match math_pow (get_data g data self) (exponent - 1) with
      | Some p => Some (upd grad self (grad self + (exponent * p) * grad out))
      | None => None
      end
  | ReluValue self =>
      Some (upd grad self
              (grad self + float_gt (get_data g data out) 0 * grad out))
  | LogValue self =>
      match py_div 1 (get_data g data self) with
      | Some q => Some (upd grad self (grad self + q * grad out))
      | None => None
      end
  | ExpValue self =>
      Some (upd grad self
              (grad self + math_exp (get_data g data self) * grad out))
  | Max left' right' =>
      let leftdata := get_data g data left' in
      let rightdata := get_data g data right' in
      let left_bigger := float_gt leftdata rightdata in
      let grad := upd grad left' (grad left' + left_bigger * grad out) in
      Some (upd grad right' (grad right' + (1 - left_bigger) * grad out))
  end.

(** [v._build_topo(topo)]; the state is the [_visited] marks and the list
    [topo].  A [Const] overrides it to do nothing. *)
Fixpoint _build_topo (fuel : nat) (g : graph) (v : id)
  (st : (id -> bool) * list id) : option ((id -> bool) * list id) :=
  match fuel with
  | O => None
  | S fuel' =>
      match cls g v with
      | Const _ => Some st
      | n =>
          if fst st v then Some st
          else
            let st := (upd (fst st) v true, snd st) in
            let recurse :=
              match n with
              | Const _ | Value => Some st
              | PowValue a _ | ReluValue a | LogValue a | ExpValue a =>
                  _build_topo fuel' g a st
              | AddValue a b | MulValue a b | Max a b =>
                  match _build_topo fuel' g a st with
                  | Some st => _build_topo fuel' g b st
                  | None => None
                  end
              end in
            match recurse with
            | Some st => Some (fst st, snd st ++ [v])
            | None => None
            end
      end
  end.

(** [self.topo()]. *)
Definition topo (fuel : nat) (g : graph) (self : id) (_visited : id -> bool)
  : option ((id -> bool) * list id) :=
  _build_topo fuel g self (_visited, []).

(** [BaseValue.backward]. *)
Definition backward (fuel : nat) (g : graph) (data : id -> R) (self : id)
  (_visited : id -> bool) (grad : id -> R)
  : option ((id -> bool) * (id -> R)) :=
  match topo fuel g self _visited with
  | Some (_visited, topo) =>
      let grad := upd grad self 1 in
      match for_each (_backward g data) (rev topo) grad with
      | Some grad => Some (_visited, grad)
      | None => None
      end
  | None => None
  end.

Definition wf (g : graph) : Prop := forall v c, In c (_prev g v) -> (c < v)%nat.

Definition wf_check (g : graph) : bool :=
  forallb (fun v => forallb (fun c => Nat.ltb c v) (_prev g v)) (seq 0 (length g)).

(** What the rule of [out], run when the gradient of [out] is [x], adds to
    the gradient of [v]. *)
Definition contribution (g : graph) (data : id -> R) (out : id) (x : R)
  (v : id) : R :=
  match cls g out with
  | Const _ | Value => 0
  | AddValue a b => hit v a x + hit v b x
  | MulValue a b =>
      hit v a (get_data g data b * x) + hit v b (get_data g data a * x)
  | PowValue a k =>
      match math_pow (get_data g data a) (k - 1) with
      | Some p => hit v a ((k * p) * x)
      | None => 0
      end
  | ReluValue a => hit v a (float_gt (get_data g data out) 0 * x)
  | LogValue a => hit v a (1 / get_data g data a * x)
  | ExpValue a => hit v a (math_exp (get_data g data a) * x)
  | Max a b =>
      let lb := float_gt (get_data g data a) (get_data g data b) in
      hit v a (lb * x) + hit v b ((1 - lb) * x)
  end.

Definition defined (g : graph) (data : id -> R) (out : id) : Prop :=
  match cls g out with
  | PowValue a k => math_pow (get_data g data a) (k - 1) <> None
  | LogValue a => get_data g data a <> 0
  | _ => True
  end.

Lemma cls_out_of_range g v : (length g <= v)%nat -> cls g v = Value.
Proof. intros H. unfold cls. now apply nth_overflow. Qed.

Lemma mnist_wf_check_sound g : wf_check g = true -> wf g.
Proof.
  unfold wf_check, wf. intros H v c Hc.
  destruct (Nat.lt_ge_cases v (length g)) as [Hv|Hv].
  - rewrite forallb_forall in H. specialize (H v).
    rewrite forallb_forall in H. apply Nat.ltb_lt. apply H; [|exact Hc].
    apply in_seq. lia.
  - unfold _prev in Hc. rewrite cls_out_of_range in Hc by exact Hv.
    contradiction.
Qed.

Lemma mnist_backward_accumulates g data out gr gr' :
  wf g -> _backward g data out gr = Some gr' ->
  forall v, gr' v = gr v + contribution g data out (gr out) v.
Proof.
  intros Hwf E v. unfold _backward, contribution in *.
  assert (Hp : forall c, In c (_prev g out) -> out <> c).
  { intros c Hc. apply Hwf in Hc. lia. }
  unfold _prev in Hp.
  destruct (cls g out) as [c| |a b|a b|a k|a|a|a|a b]; cbv zeta in *.
  - injection E as <-. lra.
  - injection E as <-. lra.
  - injection E as <-. rewrite !upd_acc.
    rewrite (hit_neq out a), Rplus_0_r by (apply Hp; simpl; tauto). lra.
  - injection E as <-. rewrite !upd_acc.
    rewrite (hit_neq out a), Rplus_0_r by (apply Hp; simpl; tauto). lra.
  - destruct (math_pow _ _); [|discriminate].
    injection E as <-. now rewrite upd_acc.
  - injection E as <-. now rewrite upd_acc.
  - unfold py_div in E. destruct (Req_dec_T _ 0); [discriminate|].
    injection E as <-. now rewrite upd_acc.
  - injection E as <-. now rewrite upd_acc.
  - injection E as <-. rewrite !upd_acc.
    rewrite (hit_neq out a), Rplus_0_r by (apply Hp; simpl; tauto). lra.
Qed.

Lemma mnist_backward_defined g data out gr :
  defined g data out -> exists gr', _backward g data out gr = Some gr'.
Proof.
  unfold defined, _backward, py_div.
  destruct (cls g out) as [c| |a b|a b|a k|a|a|a|a b]; intros H; eauto.
  - destruct (math_pow _ _); [eauto | contradiction].
  - destruct (Req_dec_T _ 0); [contradiction | eauto].
Qed.

Lemma mnist_backward_raises g data out gr gr' :
  _backward g data out gr = Some gr' -> defined g data out.
Proof.
  unfold defined, _backward, py_div.
  destruct (cls g out) as [c| |a b|a b|a k|a|a|a|a b]; intros H; auto.
  - destruct (math_pow _ _); [discriminate | discriminate].
  - destruct (Req_dec_T _ 0); [discriminate | assumption].
Qed.

Lemma mnist_contribution_operand g data out x v :
  ~ In v (_prev g out) -> contribution g data out x v = 0.
Proof.
  unfold contribution, _prev.
  destruct (cls g out) as [c| |a b|a b|a k|a|a|a|a b]; simpl; intros H;
    try reflexivity;
    repeat match goal with
    | |- context [match ?x with _ => _ end] => destruct x
    end;
    repeat match goal with
    | |- context [hit v ?a _] => rewrite (hit_neq v a) by (intros ->; tauto)
    end; lra.
Qed.

(** [_build_topo] is the walk of section [Dfs] that skips the constants. *)
Lemma _build_topo_dfs g fuel : forall v st,
  _build_topo fuel g v st = dfs (_prev g) (is_const g) fuel v st.
Proof.
  induction fuel as [|fuel IH]; intros v st; simpl; [reflexivity|].
  assert (Hs : is_const g v = match cls g v with Const _ => true | _ => false end)
    by reflexivity.
  assert (Hp : _prev g v = match cls g v with
                           | Const _ | Value => []
                           | AddValue a b | MulValue a b | Max a b => [a; b]
                           | PowValue a _ | ReluValue a | LogValue a
                           | ExpValue a => [a]
                           end) by reflexivity.
  destruct (cls g v) as [c| |a b|a b|a k|a|a|a|a b]; rewrite ?Hs, ?Hp;
    try reflexivity;
    destruct (fst st v); try reflexivity; simpl; rewrite ?IH;
    repeat match goal with
    | |- context [dfs ?p ?s fuel ?a ?st] =>
        destruct (dfs p s fuel a st) as [[? ?]|]; simpl; rewrite ?IH
    end; reflexivity.
Qed.

Lemma is_const_leaf g v : is_const g v = true -> _prev g v = [].
Proof. unfold is_const, _prev. now destruct (cls g v). Qed.

(** The order built when no node is marked. *)
Lemma topo_fresh g r fuel :
  wf g -> (r < fuel)%nat ->
  exists f T, topo fuel g r (fun _ => false) = Some (f, T) /\
    NoDup T /\ topo_sorted (_prev g) (is_const g) T /\
    (forall x, In x T <-> reach (_prev g) r x /\ is_const g x = false) /\
    (is_const g r = false -> exists T', T = T' ++ [r]) /\
    (is_const g r = true -> T = []) /\
    (forall x, f x = true <-> In x T) /\
    T = keep_first [] (tree_post (_prev g) (is_const g) fuel r).
Proof.
  intros Hwf Hr. unfold topo. rewrite _build_topo_dfs.
  destruct (dfs_fresh (_prev g) (is_const g) Hwf fuel r Hr)
    as (f & T & E & Hnd & Hts & Hin & Hlast & Hempty & Hf & Hk).
  exists f, T. split; [exact E|]. split; [exact Hnd|]. split; [exact Hts|].
  split; [|split; [exact Hlast | split; [exact Hempty | split; [exact Hf | exact Hk]]]].
  intros x. split; [apply Hin|]. intros [Hx Hs].
  destruct (is_const g r) eqn:Hcr.
  - exfalso. assert (Hxr : x = r).
    { clear Hs. induction Hx as [|y c _ IH Hc]; [reflexivity|].
      subst y. rewrite (is_const_leaf g r Hcr) in Hc. contradiction. }
    congruence.
  - apply (topo_sorted_reach (_prev g) (is_const g) T r x); auto.
    + apply is_const_leaf.
    + destruct (Hlast eq_refl) as (T' & ->). apply in_or_app. right. now left.
Qed.

(** The marks are never cleared: a second [topo] from a root that a first
    one has marked returns the empty order. *)
Lemma topo_marked g r fuel f :
  (0 < fuel)%nat -> f r = true -> topo fuel g r f = Some (f, []).
Proof.
  intros Hf Hr. unfold topo. destruct fuel as [|fuel]; [lia|]. simpl.
  rewrite Hr. now destruct (cls g r).
Qed.

Lemma topo_twice g r fuel f T :
  wf g -> (r < fuel)%nat -> is_const g r = false ->
  topo fuel g r (fun _ => false) = Some (f, T) ->
  topo fuel g r f = Some (f, []).
Proof.
  intros Hwf Hr Hnc E.
  destruct (topo_fresh g r fuel Hwf Hr)
    as (f' & T' & E' & _ & _ & _ & Hlast & _ & Hf & _).
  rewrite E in E'. inversion E'; subst f' T'.
  apply topo_marked; [lia|]. apply Hf.
  destruct (Hlast Hnc) as (T0 & ->). apply in_or_app. right. now left.
Qed.




(** *** Batching *)

(** The loop of [grouper]: [allres] and [currlist] after the iteration. *)
Fixpoint grouper_loop {A} (n : Z) (iterable : list A)
  (allres : list (list A)) (currlist : list A) : list (list A) * list A :=
  match iterable with
  | [] => (allres, currlist)
  | x :: iterable' =>
      let currlist := currlist ++ [x] in
      if (Z.of_nat (length currlist) =? n)%Z
      then grouper_loop n iterable' (allres ++ [currlist]) []
      else grouper_loop n iterable' allres currlist
  end.

Definition grouper {A} (n : Z) (iterable : list A) (fillvalue : A)
  : list (list A) :=
  let '(allres, currlist) := grouper_loop n iterable [] [] in
  if (Z.of_nat (length currlist) <? n)%Z
  then allres ++
       [currlist ++
        repeat fillvalue (Z.to_nat (n - Z.of_nat (length currlist)))]
  else allres.

(** *** Facts about [grouper] *)

Definition full {A} (n : Z) (grp : list A) : Prop := Z.of_nat (length grp) = n.

Lemma grouper_loop_spec {A} (n : Z) : (0 < n)%Z ->
  forall (l : list A) allres curr,
    (Z.of_nat (length curr) < n)%Z ->
    exists G curr',
      grouper_loop n l allres curr = (allres ++ G, curr') /\
      concat G ++ curr' = curr ++ l /\
      Forall (full n) G /\
      (Z.of_nat (length curr') < n)%Z.
Proof.
  intros Hn l. induction l as [|x l IH]; intros allres curr Hc; simpl.
  - exists [], curr. rewrite !app_nil_r. simpl. repeat split; auto.
  - destruct (Z.eqb_spec (Z.of_nat (length (curr ++ [x]))) n) as [E|E].
    + destruct (IH (allres ++ [curr ++ [x]]) []) as (G & c' & E1 & E2 & HF & Hc').
      { simpl. lia. }
      exists ((curr ++ [x]) :: G), c'. split; [|split; [|split]].
      * rewrite E1, <- app_assoc. reflexivity.
      * simpl. rewrite <- !app_assoc. simpl. simpl in E2. rewrite E2. reflexivity.
      * constructor; [exact E | exact HF].
      * exact Hc'.
    + destruct (IH allres (curr ++ [x])) as (G & c' & E1 & E2 & HF & Hc').
      { rewrite length_app in *. simpl in *. lia. }
      exists G, c'. split; [exact E1|]. split; [|split; assumption].
      rewrite E2, <- app_assoc. reflexivity.
Qed.

(** For a positive group size the result is a run of full groups cut from
    the input, followed by the remainder filled up to the group size. *)
Lemma grouper_spec {A} (n : Z) (l : list A) (fillvalue : A) :
  (0 < n)%Z ->
  exists G rest,
    grouper n l fillvalue =
      G ++ [rest ++ repeat fillvalue (Z.to_nat (n - Z.of_nat (length rest)))] /\
    concat G ++ rest = l /\
    Forall (full n) G /\
    (Z.of_nat (length rest) < n)%Z.
Proof.
  intros Hn.
  destruct (grouper_loop_spec n Hn l [] []) as (G & rest & E & Hcat & HF & Hr).
  { simpl. lia. }
  exists G, rest. unfold grouper. rewrite E. simpl.
  destruct (Z.ltb_spec (Z.of_nat (length rest)) n); [|lia].
  repeat split; auto.
Qed.

Lemma concat_full_length {A} (n : Z) (G : list (list A)) :
  Forall (full n) G ->
  Z.of_nat (length (concat G)) = (Z.of_nat (length G) * n)%Z.
Proof.
  induction 1 as [|grp G Hg _ IH]; [reflexivity|].
  cbn [concat length]. rewrite length_app, Nat2Z.inj_add, Nat2Z.inj_succ, IH.
  unfold full in Hg. lia.
Qed.

(** *** Building the graph

    A construction runs on the node table and may raise. *)

Definition M (A : Type) : Type := graph -> option (A * graph).

Definition ret {A} (x : A) : M A := fun g => Some (x, g).

Definition bind {A B} (m : M A) (k : A -> M B) : M B :=
  fun g => match m g with
           | Some (x, g') => k x g'
           | None => None
           end.

Notation "x <- m ;; k" := (bind m (fun x => k))
  (at level 61, m at next level, right associativity).

(** [l[i]] for a non-negative [i]: IndexError past the end. *)
Definition index {A} (l : list A) (i : nat) : M A :=
  fun g => match nth_error l i with
           | Some x => Some (x, g)
           | None => None
           end.

(** [acc = body(x, acc)] for [x] in [l]. *)
Fixpoint foldM {A B} (body : A -> B -> M B) (l : list A) (acc : B) : M B :=
  match l with
  | [] => ret acc
  | x :: l' => acc' <- body x acc ;; foldM body l' acc'
  end.

(** [[f(x) for x in l]]. *)
Fixpoint mapM {A B} (f : A -> M B) (l : list A) : M (list B) :=
  match l with
  | [] => ret []
  | x :: l' => y <- f x ;; ys <- mapM f l' ;; ret (y :: ys)
  end.

(** [range(lo, hi)]. *)
Definition range (lo hi : nat) : list nat := seq lo (hi - lo).

(** A new object of class [n]. *)
Definition new (n : node) : M id := fun g => Some (length g, g ++ [n]).

Definition add (self other : id) : M id := new (AddValue self other).
Definition mul (self other : id) : M id := new (MulValue self other).
Definition sub (self other : id) : M id :=
  c <- new (Const (-1)) ;; m <- mul other c ;; add self m.
Definition pow (self : id) (other : R) : M id := new (PowValue self other).
Definition div (self other : id) : M id :=
  p <- pow other (-1) ;; mul self p.
Definition relu (self : id) : M id := new (ReluValue self).
Definition log (self : id) : M id := new (LogValue self).
Definition exp (self : id) : M id := new (ExpValue self).

Definition stable_softmax (output : list id) : M (list id) :=
  max_ <- index output 0 ;;
  max_ <- foldM (fun i max_ => o <- index output i ;; new (Max max_ o))
            (range 1 (length output)) max_ ;;
  shiftx <- mapM (fun o => sub o max_) output ;;
  exps <- mapM exp shiftx ;;
  sum_ <- index exps 0 ;;
  sum_ <- foldM (fun index_ sum_ => e <- index exps index_ ;; add sum_ e)
            (range 1 (length exps)) sum_ ;;
  mapM (fun o => div o sum_) exps.

Record Neuron : Type := mkNeuron {
  w : list id;
  b : id;
  nonlin : bool;
  neuron_parameters : list id
}.

Record Layer : Type := mkLayer {
  neurons : list Neuron;
  layer_parameters : list id
}.

Record MLP : Type := mkMLP {
  layers : list Layer;
  mlp_parameters : list id
}.

Definition evalneuron (self : Neuron) (x : list id) : M id :=
  result <- foldM (fun i result =>
                     wi <- index (w self) i ;;
                     xi <- index x i ;;
                     m <- mul wi xi ;;
                     add result m)
              (range 0 (length x)) (b self) ;;
  if nonlin self then relu result else ret result.

Definition evallayer (self : Layer) (x : list id) : M (list id) :=
  mapM (fun n => evalneuron n x) (neurons self).

Definition evalmlp (self : MLP) (x : list id) : M (list id) :=
  foldM (fun layer x => evallayer layer x) (layers self) x.

Definition loss_of (model : MLP) (inp_ expected_onehot : list id) : M id :=
  output <- evalmlp model inp_ ;;
  softmax_output <- stable_softmax output ;;
  result <- new (Const 0) ;;
  result <- foldM (fun i result =>
                     exp_ <- index expected_onehot i ;;
                     act <- index softmax_output i ;;
                     c <- new (Const 0.0001) ;;
                     s <- add act c ;;
                     l <- log s ;;
                     m <- mul l exp_ ;;
                     add result m)
              (range 0 (length expected_onehot)) result ;;
  c <- new (Const (-1)) ;;
  mul result c.

(** *** Creating the model

    [rrandom.Random] is a library generator; its state is modelled by the
    stream of the numbers it has yet to return. *)

Definition Random : Type := nat -> R.

(** [random.random()]. *)
Definition random (r : Random) : R * Random := (r O, fun n => r (S n)).

Record store : Type := mkStore { data : id -> R; grad : id -> R }.

Record world : Type := mkWorld {
  nodes : graph;
  mem : store;
  rng : Random
}.

(** [Value()]: a new leaf with [data = 0.0] and [grad = 0]. *)
Definition new_Value (wd : world) : id * world :=
  let v := length (nodes wd) in
  (v, mkWorld (nodes wd ++ [Value])
              (mkStore (upd (data (mem wd)) v 0) (upd (grad (mem wd)) v 0))
              (rng wd)).

(** The loop of [Neuron.__init__] that creates the weights. *)
Fixpoint new_weights (nin : nat) (w : list id) (wd : world)
  : list id * world :=
  match nin with
  | O => (w, wd)
  | S nin' =>
      let '(v, wd) := new_Value wd in
      let '(x, r) := random (rng wd) in
      let wd := mkWorld (nodes wd)
                        (mkStore (upd (data (mem wd)) v x) (grad (mem wd))) r in
      new_weights nin' (w ++ [v]) wd
  end.

Definition new_Neuron (nin : nat) (nonlin : bool) (wd : world)
  : Neuron * world :=
  let '(w, wd) := new_weights nin [] wd in
  let '(b, wd) := new_Value wd in
  (mkNeuron w b nonlin (w ++ [b]), wd).

(** [[Neuron(nin, nonlin) for _ in range(nout)]]. *)
Fixpoint new_neurons (nin nout : nat) (nonlin : bool) (wd : world)
  : list Neuron * world :=
  match nout with
  | O => ([], wd)
  | S nout' =>
      let '(n, wd) := new_Neuron nin nonlin wd in
      let '(ns, wd) := new_neurons nin nout' nonlin wd in
      (n :: ns, wd)
  end.

Definition new_Layer (nin nout : nat) (nonlin : bool) (wd : world)
  : Layer * world :=
  let '(ns, wd) := new_neurons nin nout nonlin wd in
  (mkLayer ns (flat_map neuron_parameters ns), wd).

(** [[Layer(sz[i], sz[i+1], nonlin=i!=len(nouts)-1) for i in ...]]: the
    list [sz] is walked from position [i]; [last] stands for
    [len(nouts) - 1]. *)
Fixpoint new_layers (sz : list nat) (i : nat) (last : Z) (wd : world)
  : list Layer * world :=
  match sz with
  | nin :: ((nout :: _) as sz') =>
      let '(l, wd) :=
        new_Layer nin nout (negb (Z.of_nat i =? last)%Z) wd in
      let '(ls, wd) := new_layers sz' (S i) last wd in
      (l :: ls, wd)
  | _ => ([], wd)
  end.

Definition new_MLP (nin : nat) (nouts : list nat) (wd : world)
  : MLP * world :=
  let sz := nin :: nouts in
  let '(ls, wd) := new_layers sz 0 (Z.of_nat (length nouts) - 1) wd in
  (mkMLP ls (flat_map layer_parameters ls), wd).

(** [[Value() for _ in range(n)]]. *)
Fixpoint new_Values (n : nat) (wd : world) : list id * world :=
  match n with
  | O => ([], wd)
  | S n' =>
      let '(v, wd) := new_Value wd in
      let '(vs, wd) := new_Values n' wd in
      (v :: vs, wd)
  end.

(** *** The trainer *)

Record image : Type := mkImage { label : nat; pixels : list nat }.

(** The variables that the closures of [make_main] capture. *)
Record env : Type := mkEnv {
  g : graph;
  inp_ : list id;
  model : MLP;
  expected_onehot : list id;
  loss : id;
  topo_ : list id;
  params : list id;
  non_params : list id;
  reverse_topo : list id
}.

(** [p not in params_set]. *)
Definition not_in (p : id) (params_set : list id) : bool :=
  negb (existsb (Nat.eqb p) params_set).

Definition DIM : nat := 28 * 28.
Definition NUM_DIGITS : nat := 10.

(** The body of [make_main] up to the closures, for an input width [dim]
    and layer widths [nouts]; [make_main] itself fixes them. *)
Definition make_env (dim : nat) (nouts : list nat) (ndigits : nat)
  (fuel : nat) (wd : world) : option (env * world) :=
  let '(inp_, wd) := new_Values dim wd in
  let '(model, wd) := new_MLP dim nouts wd in
  let '(expected_onehot, wd) := new_Values ndigits wd in
  match loss_of model inp_ expected_onehot (nodes wd) with
  | Some (loss, g) =>
      match topo fuel g loss (fun _ => false) with
      | Some (_, topo) =>
          let params := mlp_parameters model in
          let non_params := filter (fun p => not_in p params) topo in
          let reverse_topo := rev topo in
          Some (mkEnv g inp_ model expected_onehot loss topo params
                      non_params reverse_topo,
                mkWorld g (mem wd) (rng wd))
      | None => None
      end
  | None => None
  end.

Definition make_main (fuel : nat) (wd : world) : option (env * world) :=
  make_env DIM [50%nat; NUM_DIGITS] NUM_DIGITS fuel wd.

(** [for o in l: o.data = x]. *)
Definition set_all (l : list id) (x : R) (f : id -> R) : id -> R :=
  fold_left (fun f o => upd f o x) l f.

(** The loop of [forward] that copies the pixels into the input leaves. *)
Fixpoint load_pixels (inp_ : list id) (i : nat) (pixels : list nat)
  (d : id -> R) : option (id -> R) :=
  match inp_ with
  | [] => Some d
  | v :: inp' =>
      match nth_error pixels i with
      | Some px => load_pixels inp' (S i) pixels (upd d v (INR px / 255))
      | None => None
      end
  end.

(** The closure [forward(image)]: the new [data] and the returned
    [loss.data]. *)
Definition forward (e : env) (im : image) (d : id -> R)
  : option ((id -> R) * R) :=
  let d := set_all (expected_onehot e) 0 d in
  match nth_error (expected_onehot e) (label im) with
  | Some t =>
      let d := upd d t 1 in
      match load_pixels (inp_ e) 0 (pixels im) d with
      | Some d =>
          match for_each (_forward (g e)) (topo_ e) d with
          | Some d => Some (d, d (loss e))
          | None => None
          end
      | None => None
      end
  | None => None
  end.

(** The closure [backward()]. *)
Definition backward_ (e : env) (d : id -> R) (gr : id -> R)
  : option (id -> R) :=
  let gr := set_all (non_params e) 0 gr in
  let gr := upd gr (loss e) 1 in
  for_each (_backward (g e) d) (reverse_topo e) gr.

(** The closure [zero_grad()]. *)
Definition zero_grad (e : env) (gr : id -> R) : id -> R :=
  set_all (topo_ e) 0 gr.

(** The closure [update_params()]. *)
Definition update_params (e : env) (st : store) : store :=
  fold_left (fun st p =>
               mkStore (upd (data st) p (data st p - 0.1 * grad st p))
                       (grad st))
            (mlp_parameters (model e)) st.

(** The body of [for im in batch]: the state is the store and
    [batch_loss]; [None] is the padding of [grouper]. *)
Definition example_step (e : env) (im : option image) (st : store * R)
  : option (store * R) :=
  match im with
  | None => Some st
  | Some im =>
      match forward e im (data (fst st)) with
      | Some (d, l) =>
          match backward_ e d (grad (fst st)) with
          | Some gr => Some (mkStore d gr, snd st + l)
          | None => None
          end
      | None => None
      end
  end.

(** The body of [for batch_idx, batch in enumerate(batches)]: the new
    store and [batch_loss]. *)
Definition train_batch (e : env) (batch : list (option image)) (st : store)
  : option (store * R) :=
  let st := mkStore (data st) (zero_grad e (grad st)) in
  match for_each (example_step e) batch (st, 0) with
  | Some (st, batch_loss) => Some (update_params e st, batch_loss)
  | None => None
  end.

(** *** Forward evaluation

    [evals g d v x]: from the leaf data [d], the node [v] evaluates to
    [x] and no operation on the way raises. *)

Inductive evals (g : graph) (d : id -> R) : id -> R -> Prop :=
| ev_const v c : cls g v = Const c -> evals g d v c
| ev_leaf v : cls g v = Value -> evals g d v (d v)
| ev_add v a b x y :
    cls g v = AddValue a b -> evals g d a x -> evals g d b y ->
    evals g d v (x + y)
| ev_mul v a b x y :
    cls g v = MulValue a b -> evals g d a x -> evals g d b y ->
    evals g d v (x * y)
| ev_pow v a k x z :
    cls g v = PowValue a k -> evals g d a x -> math_pow x k = Some z ->
    evals g d v z
| ev_relu v a x :
    cls g v = ReluValue a -> evals g d a x ->
    evals g d v (float_gt x 0 * x)
| ev_log v a x z :
    cls g v = LogValue a -> evals g d a x -> math_log x = Some z ->
    evals g d v z
| ev_exp v a x :
    cls g v = ExpValue a -> evals g d a x -> evals g d v (math_exp x)
| ev_max v a b x y :
    cls g v = Max a b -> evals g d a x -> evals g d b y ->
    evals g d v (float_gt x y * x + (1 - float_gt x y) * y).

Lemma evals_eq g d v x y : evals g d v x -> x = y -> evals g d v y.
Proof. now intros H <-. Qed.

Lemma evals_fun g d v x : evals g d v x -> forall y, evals g d v y -> x = y.
Proof.
  induction 1 as [v c Hc|v Hc|v a b x y Hc _ IHa _ IHb|v a b x y Hc _ IHa _ IHb
                 |v a k x z Hc _ IHa Hz|v a x Hc _ IHa|v a x z Hc _ IHa Hz
                 |v a x Hc _ IHa|v a b x y Hc _ IHa _ IHb];
    intros y' H'; inversion H'; subst; try congruence;
    match goal with
    | H1 : cls g v = _, H2 : cls g v = _ |- _ =>
        rewrite H1 in H2; inversion H2; subst
    end;
    repeat match goal with
    | IH : forall y, evals g d ?a y -> ?x = y, H : evals g d ?a ?w |- _ =>
        apply IH in H; subst
    end; congruence.
Qed.

(** What evaluates has operands that evaluate. *)
Lemma evals_operand g d v x c :
  evals g d v x -> In c (_prev g v) -> exists y, evals g d c y.
Proof.
  unfold _prev.
  intros H Hc; inversion H; subst;
    match goal with
    | H1 : cls g v = _ |- _ => rewrite H1 in Hc; simpl in Hc
    end;
    repeat match goal with
    | H : _ \/ _ |- _ => destruct H
    | H : False |- _ => contradiction
    end; subst; eauto.
Qed.

Lemma evals_reach g d v x u :
  evals g d v x -> reach (_prev g) v u -> exists y, evals g d u y.
Proof.
  intros H Hr. induction Hr as [|w c _ IH Hc]; [eauto|].
  destruct IH as (y & Hy). eapply evals_operand; eassumption.
Qed.

(** The data the forward sweep has reached after a prefix of the
    order. *)
Definition swept (g : graph) (d : id -> R) (T : list id) (d' : id -> R)
  : Prop :=
  (forall u, In u T -> evals g d u (d' u)) /\
  (forall v, ~ In v T -> d' v = d v).

Lemma topo_sorted_prefix (prev : id -> list id) (skip : id -> bool) T1 T2 :
  topo_sorted prev skip (T1 ++ T2) -> topo_sorted prev skip T1.
Proof.
  intros H l1 x l2 E c Hc Hs. apply (H l1 x (l2 ++ T2)); auto.
  rewrite E, <- app_assoc. reflexivity.
Qed.

(** [get_data] on an operand of a node that is about to be evaluated. *)
Lemma swept_operand g d T d' c :
  swept g d T d' ->
  (is_const g c = false -> In c T) ->
  (exists y, evals g d c y) ->
  evals g d c (get_data g d' c).
Proof.
  intros [Hin _] Hc (y & Hy). unfold get_data.
  destruct (cls g c) eqn:E;
    try (apply Hin, Hc; unfold is_const; now rewrite E).
  now constructor.
Qed.

(** [for node in topo: node._forward()] on an order that lists every node
    after its operands: it returns when every listed node evaluates, and
    then every listed node holds its value and no other data has
    changed. *)
Lemma forward_sweep g d T :
  NoDup T -> topo_sorted (_prev g) (is_const g) T ->
  (forall u, In u T -> is_const g u = false) ->
  (forall u, In u T -> exists x, evals g d u x) ->
  exists d', for_each (_forward g) T d = Some d' /\ swept g d T d'.
Proof.
  induction T as [|u T IH] using rev_ind; intros Hnd Hts Hnc Hev.
  - exists d. split; [reflexivity|]. split; [intros u []|reflexivity].
  - assert (HndT : NoDup T) by (now apply NoDup_app_remove_r in Hnd).
    assert (HuT : ~ In u T).
    { apply NoDup_remove_2 in Hnd. now rewrite app_nil_r in Hnd. }
    destruct IH as (d1 & E1 & Hsw); auto.
    { eapply topo_sorted_prefix; eassumption. }
    { intros w Hw. apply Hnc, in_or_app. now left. }
    { intros w Hw. apply Hev, in_or_app. now left. }
    rewrite for_each_app, E1. cbn [for_each].
    destruct (Hev u) as (x & Hx); [apply in_or_app; right; now left|].
    assert (Hop : forall c, In c (_prev g u) -> evals g d c (get_data g d1 c)).
    { intros c Hc. apply (swept_operand g d T d1 c Hsw).
      - intros Hs. apply (Hts T u [] eq_refl c Hc Hs).
      - eapply evals_operand; eassumption. }
    assert (Hd1u : d1 u = d u) by (apply (proj2 Hsw); exact HuT).
    assert (Hkeep : forall y, swept g d (T ++ [u]) (upd d1 u y) <-> evals g d u y).
    { intros y. split.
      - intros [H _]. specialize (H u). rewrite upd_eq in H.
        apply H, in_or_app. right. now left.
      - intros Hy. split.
        + intros w Hw. apply in_app_or in Hw. destruct Hw as [Hw|[<-|[]]].
          * rewrite upd_neq by (intros ->; contradiction). now apply (proj1 Hsw).
          * now rewrite upd_eq.
        + intros w Hw. rewrite upd_neq.
          * apply (proj2 Hsw). intros H. apply Hw, in_or_app. now left.
          * intros ->. apply Hw, in_or_app. right. now left. }
    assert (Hnu : is_const g u = false) by (apply Hnc, in_or_app; right; now left).
    unfold _forward, forward_value. unfold _prev in Hop. unfold is_const in Hnu.
    inversion Hx; subst;
      match goal with
      | H1 : cls g u = _ |- _ => rewrite H1 in *; simpl in Hop
      end; try discriminate.
    + exists d1. split; [reflexivity|]. split.
      * intros w Hw. apply in_app_or in Hw. destruct Hw as [Hw|[<-|[]]].
        -- now apply (proj1 Hsw).
        -- rewrite Hd1u. exact Hx.
      * intros w Hw. apply (proj2 Hsw). intros Hq. apply Hw, in_or_app. now left.
    + eexists. split; [reflexivity|]. apply Hkeep.
      eapply ev_add; eauto.
    + eexists. split; [reflexivity|]. apply Hkeep.
      eapply ev_mul; eauto.
    + assert (Ea : get_data g d1 a = x0).
      { eapply evals_fun; [apply Hop; now left | eassumption]. }
      rewrite Ea. match goal with H : math_pow _ _ = Some _ |- _ => rewrite H end.
      eexists. split; [reflexivity|]. now apply Hkeep.
    + eexists. split; [reflexivity|]. apply Hkeep.
      eapply ev_relu; eauto.
    + assert (Ea : get_data g d1 a = x0).
      { eapply evals_fun; [apply Hop; now left | eassumption]. }
      rewrite Ea. match goal with H : math_log _ = Some _ |- _ => rewrite H end.
      eexists. split; [reflexivity|]. now apply Hkeep.
    + eexists. split; [reflexivity|]. apply Hkeep.
      eapply ev_exp; eauto.
    + eexists. split; [reflexivity|]. apply Hkeep.
      eapply ev_max; eauto.
Qed.

(** The converse reading of a sweep that went through: every listed node
    holds the value it evaluates to. *)
Lemma forward_sweep_inv g d T : forall d',
  NoDup T -> topo_sorted (_prev g) (is_const g) T ->
  (forall u, In u T -> is_const g u = false) ->
  for_each (_forward g) T d = Some d' -> swept g d T d'.
Proof.
  induction T as [|u T IH] using rev_ind; intros d' Hnd Hts Hnc E.
  - simpl in E. inversion E; subst. split; [intros u []|reflexivity].
  - assert (HndT : NoDup T) by (now apply NoDup_app_remove_r in Hnd).
    assert (HuT : ~ In u T).
    { apply NoDup_remove_2 in Hnd. now rewrite app_nil_r in Hnd. }
    rewrite for_each_app in E.
    destruct (for_each (_forward g) T d) as [d1|] eqn:E1; [|discriminate].
    assert (Hsw : swept g d T d1).
    { apply IH; auto.
      - eapply topo_sorted_prefix; eassumption.
      - intros w Hw. apply Hnc, in_or_app. now left. }
    cbn [for_each] in E.
    destruct (_forward g u d1) as [d2|] eqn:E2; [|discriminate].
    inversion E; subst d2. clear E.
    assert (Hop : forall c, In c (_prev g u) -> evals g d c (get_data g d1 c)).
    { intros c Hc. unfold get_data. destruct (cls g c) eqn:Ec;
        try (apply (proj1 Hsw); apply (Hts T u [] eq_refl c Hc);
             unfold is_const; now rewrite Ec).
      now constructor. }
    assert (Hd1u : d1 u = d u) by (apply (proj2 Hsw); exact HuT).
    assert (Hkeep : forall y, evals g d u y -> swept g d (T ++ [u]) (upd d1 u y)).
    { intros y Hy. split.
      - intros w Hw. apply in_app_or in Hw. destruct Hw as [Hw|[<-|[]]].
        + rewrite upd_neq by (intros ->; contradiction). now apply (proj1 Hsw).
        + now rewrite upd_eq.
      - intros w Hw. rewrite upd_neq.
        + apply (proj2 Hsw). intros Hq. apply Hw, in_or_app. now left.
        + intros ->. apply Hw, in_or_app. right. now left. }
    assert (Hnu : is_const g u = false) by (apply Hnc, in_or_app; right; now left).
    unfold _forward, forward_value in E2. unfold _prev in Hop.
    unfold is_const in Hnu.
    destruct (cls g u) as [c| |a b|a b|a k|a|a|a|a b] eqn:Ec;
      simpl in Hop; try discriminate.
    + inversion E2; subst d'. split.
      * intros w Hw. apply in_app_or in Hw. destruct Hw as [Hw|[<-|[]]].
        -- now apply (proj1 Hsw).
        -- rewrite Hd1u. now constructor.
      * intros w Hw. apply (proj2 Hsw). intros Hq. apply Hw, in_or_app. now left.
    + inversion E2; subst d'. apply Hkeep. eapply ev_add; eauto.
    + inversion E2; subst d'. apply Hkeep. eapply ev_mul; eauto.
    + destruct (math_pow _ _) as [z|] eqn:Ez; [|discriminate].
      inversion E2; subst d'. apply Hkeep. eapply ev_pow; eauto.
    + inversion E2; subst d'. apply Hkeep. eapply ev_relu; eauto.
    + destruct (math_log _) as [z|] eqn:Ez; [|discriminate].
      inversion E2; subst d'. apply Hkeep. eapply ev_log; eauto.
    + inversion E2; subst d'. apply Hkeep. eapply ev_exp; eauto.
    + inversion E2; subst d'. apply Hkeep. eapply ev_max; eauto.
Qed.

(** *** Reasoning about constructions

    A construction only appends to the node table. *)

Definition ext (g g' : graph) : Prop := exists l, g' = g ++ l.

(** [v] is an object of the node table. *)
Definition bnd (g : graph) (v : id) : Prop := (v < length g)%nat.

Lemma ext_refl g : ext g g.
Proof. exists []. now rewrite app_nil_r. Qed.

Lemma ext_trans g1 g2 g3 : ext g1 g2 -> ext g2 g3 -> ext g1 g3.
Proof. intros (l1 & ->) (l2 & ->). exists (l1 ++ l2). now rewrite app_assoc. Qed.

Lemma ext_bnd g g' v : ext g g' -> bnd g v -> bnd g' v.
Proof. intros (l & ->). unfold bnd. rewrite length_app. lia. Qed.

Lemma ext_nth g g' v n :
  ext g g' -> nth_error g v = Some n -> nth_error g' v = Some n.
Proof.
  intros (l & ->) H. rewrite nth_error_app1; [exact H|].
  apply nth_error_Some. congruence.
Qed.

Lemma nth_cls g v n : nth_error g v = Some n -> cls g v = n.
Proof. intros H. unfold cls. now apply nth_error_nth. Qed.

Lemma nth_bnd g v n : nth_error g v = Some n -> bnd g v.
Proof. intros H. apply nth_error_Some. congruence. Qed.

Lemma ext_cls g g' v : ext g g' -> bnd g v -> cls g' v = cls g v.
Proof. intros (l & ->) H. unfold cls. now apply app_nth1. Qed.

(** [triple R m Q]: run on a well-formed table on which [R] holds and
    keeps holding, a construction [m] that returns [x] has only appended
    nodes, the table is still well formed, and [Q _ x] holds on it and on
    every longer table. *)
Definition triple {A} (R : graph -> Prop) (m : M A) (Q : graph -> A -> Prop)
  : Prop :=
  forall g0 x g1, wf g0 -> (forall G, ext g0 G -> R G) -> m g0 = Some (x, g1) ->
    ext g0 g1 /\ wf g1 /\ (forall G, ext g1 G -> Q G x).

Lemma triple_conseq {A} (R R' : graph -> Prop) (Q Q' : graph -> A -> Prop) m :
  triple R m Q ->
  (forall G, R' G -> R G) ->
  (forall G x, R' G -> Q G x -> Q' G x) ->
  triple R' m Q'.
Proof.
  intros Hm HR HQ g0 x g1 Hwf Hpre E.
  destruct (Hm g0 x g1 Hwf (fun G HG => HR G (Hpre G HG)) E) as (He & Hw & Hq).
  split; [exact He|]. split; [exact Hw|].
  intros G HG. apply HQ; [|now apply Hq].
  apply Hpre. eapply ext_trans; eassumption.
Qed.

Lemma triple_ret {A} (R : graph -> Prop) (x : A) :
  triple R (ret x) (fun _ y => y = x).
Proof.
  intros g0 y g1 Hwf _ E. inversion E; subst.
  split; [apply ext_refl|]. split; [exact Hwf|]. reflexivity.
Qed.

Lemma triple_bind {A B} (R : graph -> Prop) (Q1 : graph -> A -> Prop)
  (Q2 : graph -> B -> Prop) (m : M A) (k : A -> M B) :
  triple R m Q1 ->
  (forall x, triple (fun G => R G /\ Q1 G x) (k x) Q2) ->
  triple R (bind m k) Q2.
Proof.
  intros Hm Hk g0 y g2 Hwf Hpre E. unfold bind in E.
  destruct (m g0) as [[x g1]|] eqn:Em; [|discriminate].
  destruct (Hm g0 x g1 Hwf Hpre Em) as (He1 & Hw1 & Hq1).
  destruct (Hk x g1 y g2 Hw1) as (He2 & Hw2 & Hq2); [|exact E|].
  { intros G HG. split; [|now apply Hq1].
    apply Hpre. eapply ext_trans; eassumption. }
  split; [eapply ext_trans; eassumption|]. split; [exact Hw2 | exact Hq2].
Qed.

Lemma triple_index {A} (R : graph -> Prop) (l : list A) i :
  triple R (index l i) (fun _ x => nth_error l i = Some x).
Proof.
  intros g0 x g1 Hwf _ E. unfold index in E.
  destruct (nth_error l i) as [y|] eqn:El; [|discriminate].
  inversion E; subst. split; [apply ext_refl|]. split; [exact Hwf|].
  reflexivity.
Qed.

Lemma wf_new g n :
  wf g -> Forall (bnd g) (operands n) -> wf (g ++ [n]).
Proof.
  intros Hwf Hn v c Hc. unfold _prev in Hc.
  destruct (Nat.lt_trichotomy v (length g)) as [Hv|[Hv|Hv]].
  - rewrite (ext_cls g (g ++ [n]) v) in Hc; [|now exists [n] | exact Hv].
    now apply Hwf.
  - subst v. unfold cls in Hc. rewrite app_nth2, Nat.sub_diag in Hc by lia.
    simpl in Hc. rewrite Forall_forall in Hn. now apply Hn.
  - unfold cls in Hc. rewrite nth_overflow in Hc; [contradiction|].
    rewrite length_app. simpl. lia.
Qed.

Lemma triple_new n :
  triple (fun G => Forall (bnd G) (operands n)) (new n)
         (fun G v => nth_error G v = Some n).
Proof.
  intros g0 v g1 Hwf Hpre E. unfold new in E. inversion E; subst.
  split; [now exists [n]|]. split.
  - apply wf_new; [exact Hwf|]. apply Hpre, ext_refl.
  - intros G HG. apply (ext_nth (g0 ++ [n])); [exact HG|].
    rewrite nth_error_app2, Nat.sub_diag by lia. reflexivity.
Qed.

Lemma triple_mapM {A B} (R : graph -> Prop) (Q : graph -> A -> B -> Prop)
  (f : A -> M B) (l : list A) :
  (forall a, In a l -> triple R (f a) (fun G y => Q G a y)) ->
  triple R (mapM f l) (fun G ys => Forall2 (Q G) l ys).
Proof.
  induction l as [|a l IH]; intros Hf; simpl.
  - apply (triple_conseq R R (fun _ y => y = [])); [apply triple_ret | auto |].
    intros G x _ ->. constructor.
  - apply (triple_bind R (fun G y => Q G a y)); [apply Hf; now left|].
    intros y.
    apply (triple_bind _ (fun G ys => Forall2 (Q G) l ys)).
    + apply (triple_conseq R _ (fun G ys => Forall2 (Q G) l ys)).
      * apply IH. intros a' Ha'. apply Hf. now right.
      * intros G [HR _]. exact HR.
      * intros G ys _ H. exact H.
    + intros ys.
      apply (triple_conseq (fun _ => True) _ (fun _ z => z = y :: ys));
        [apply triple_ret | auto |].
      intros G x [[_ Hy] Hys] ->. now constructor.
Qed.

(** The accumulators of a loop, linked step by step. *)
Inductive chain {A B} (S : A -> B -> B -> Prop) : list A -> B -> B -> Prop :=
| chain_nil acc : chain S [] acc acc
| chain_cons a l acc acc1 acc2 :
    S a acc acc1 -> chain S l acc1 acc2 -> chain S (a :: l) acc acc2.

Lemma triple_foldM {A B} (R : graph -> Prop) (I : graph -> B -> Prop)
  (S : graph -> A -> B -> B -> Prop) (body : A -> B -> M B) (l : list A) :
  (forall a acc, In a l ->
     triple (fun G => R G /\ I G acc) (body a acc)
            (fun G acc' => I G acc' /\ S G a acc acc')) ->
  forall acc0,
    triple (fun G => R G /\ I G acc0) (foldM body l acc0)
           (fun G acc => I G acc /\ chain (S G) l acc0 acc).
Proof.
  induction l as [|a l IH]; intros Hb acc0; simpl.
  - apply (triple_conseq (fun _ => True) _ (fun _ y => y = acc0));
      [apply triple_ret | auto |].
    intros G x [_ HI] ->. split; [exact HI | constructor].
  - apply (triple_bind _ (fun G acc' => I G acc' /\ S G a acc0 acc'));
      [apply Hb; now left|].
    intros acc1.
    apply (triple_conseq (fun G => R G /\ I G acc1) _
             (fun G acc => I G acc /\ chain (S G) l acc1 acc)).
    + apply IH. intros a' acc Ha'. apply Hb. now right.
    + intros G [[HR _] [HI _]]. now split.
    + intros G acc [_ [_ HS]] [HI Hc]. split; [exact HI|].
      econstructor; eassumption.
Qed.

(** A loop over [range(lo, len(l))] that reads [l[i]] is a loop over the
    elements of [l] from position [lo]. *)
Lemma foldM_index {A B} (f : A -> B -> M B) (l : list A) : forall n lo acc g,
  (lo + n = length l)%nat ->
  foldM (fun i acc => o <- index l i ;; f o acc) (seq lo n) acc g
  = foldM f (skipn lo l) acc g.
Proof.
  induction n as [|n IH]; intros lo acc g Hlen.
  - rewrite skipn_all2 by lia. reflexivity.
  - destruct (nth_error l lo) as [o|] eqn:Eo.
    2:{ apply nth_error_None in Eo. lia. }
    assert (Es : skipn lo l = o :: skipn (S lo) l).
    { clear - Eo. revert lo Eo. induction l as [|a l IHl]; intros [|lo] Eo;
        simpl in *; try discriminate.
      - now inversion Eo.
      - now apply IHl. }
    rewrite Es. change (seq lo (S n)) with (lo :: seq (S lo) n).
    cbn [foldM]. unfold bind, index. rewrite Eo.
    destruct (f o acc g) as [[acc1 g1]|]; [|reflexivity].
    apply IH. lia.
Qed.

(** The same for a loop that reads two lists at the same index, when it
    returns. *)
Lemma foldM_index2 {A B C} (f : A -> B -> C -> M C) (l1 : list A) (l2 : list B) :
  forall n lo acc g r,
  (lo + n = length l1)%nat ->
  foldM (fun i acc => a <- index l1 i ;; c <- index l2 i ;; f a c acc)
        (seq lo n) acc g = Some r ->
  foldM (fun ac acc => f (fst ac) (snd ac) acc)
        (combine (skipn lo l1) (skipn lo l2)) acc g = Some r /\
  (n <= length (skipn lo l2))%nat.
Proof.
  induction n as [|n IH]; intros lo acc g r Hlen E.
  - rewrite (skipn_all2 l1) by lia. simpl in *. split; [exact E | lia].
  - change (seq lo (S n)) with (lo :: seq (S lo) n) in E.
    cbn [foldM] in E. unfold bind, index in E.
    destruct (nth_error l1 lo) as [a|] eqn:Ea; [|discriminate].
    destruct (nth_error l2 lo) as [c|] eqn:Ec; [|discriminate].
    assert (Es : forall X (l : list X) lo x, nth_error l lo = Some x ->
              skipn lo l = x :: skipn (S lo) l).
    { clear. intros X l. induction l as [|y l IHl]; intros [|lo] x Eo;
        simpl in *; try discriminate.
      - now inversion Eo.
      - now apply IHl. }
    rewrite (Es _ l1 lo a Ea), (Es _ l2 lo c Ec).
    cbn [combine foldM fst snd length]. unfold bind.
    destruct (f a c acc g) as [[acc1 g1]|]; [|discriminate].
    destruct (IH (S lo) acc1 g1 r) as [H1 H2]; [lia | exact E |].
    split; [exact H1 | lia].
Qed.

Lemma triple_ext {A} (R : graph -> Prop) (Q : graph -> A -> Prop) (m m' : M A) :
  (forall g, m g = m' g) -> triple R m' Q -> triple R m Q.
Proof.
  intros Hm H g0 x g1 Hwf Hpre E. rewrite Hm in E. now apply (H g0 x g1).
Qed.

(** A fact that the precondition provides whatever the table. *)
Lemma triple_assume {A} (R : graph -> Prop) (Q : graph -> A -> Prop) (m : M A)
  (P : Prop) :
  (forall G, R G -> P) -> (P -> triple R m Q) -> triple R m Q.
Proof.
  intros HP H g0 x g1 Hwf Hpre E.
  apply (H (HP g0 (Hpre g0 (ext_refl g0))) g0 x g1 Hwf Hpre E).
Qed.

Lemma triple_new_nth (R : graph -> Prop) n :
  (forall G, R G -> Forall (bnd G) (operands n)) ->
  triple R (new n) (fun G v => nth_error G v = Some n).
Proof.
  intros H. apply (triple_conseq _ R _ _ _ (triple_new n)); auto.
Qed.

(** *** The loss as the specification writes it *)

(** [sum(l)]. *)
Definition Rsum_list (l : list R) : R := fold_right Rplus 0 l.

(** The left-to-right fold of max over a list. *)
Definition fold_max (os : list R) : R := fold_left Rmax (tl os) (hd 0 os).

(** [softmax_i = e_i / s] with [e_i = exp(o_i - m)] and [s] the sum of
    the [e_i]. *)
Definition softmax (os : list R) : list R :=
  let m := fold_max os in
  let e := map (fun o => Rtrigo_def.exp (o - m)) os in
  let s := Rsum_list e in
  map (fun ei => ei / s) e.

(** [loss = - sum_i t_i * log(softmax_i + 1e-4)]. *)
Definition cross_entropy (os ts : list R) : R :=
  - Rsum_list (map (fun tsm => fst tsm * ln (snd tsm + 0.0001))
                   (combine ts (softmax os))).

Lemma branch_free_max x y :
  float_gt x y * x + (1 - float_gt x y) * y = Rmax x y.
Proof.
  unfold float_gt, Rmax.
  destruct (Rgt_dec x y) as [H|H], (Rle_dec x y) as [H'|H'];
    unfold Rgt in *; lra.
Qed.

Lemma math_pow_inverse y : 0 < y -> math_pow y (-1) = Some (/ y).
Proof.
  intros Hy. unfold math_pow. destruct (Rlt_dec 0 y); [|contradiction].
  f_equal. replace (-1) with (- (1)) by lra.
  rewrite Rpower_Ropp, Rpower_1 by exact Hy. reflexivity.
Qed.

Lemma math_log_positive x : 0 < x -> math_log x = Some (ln x).
Proof.
  intros Hx. unfold math_log. now destruct (Rlt_dec 0 x).
Qed.

Lemma fold_left_Rplus xs : forall x0,
  fold_left Rplus xs x0 = x0 + Rsum_list xs.
Proof.
  induction xs as [|x xs IH]; intros x0; simpl; [lra|]. rewrite IH. lra.
Qed.

Lemma Rsum_list_pos xs :
  xs <> [] -> Forall (fun x => 0 < x) xs -> 0 < Rsum_list xs.
Proof.
  intros Hne H. induction H as [|x xs Hx Hxs IH]; [congruence|].
  simpl. destruct xs as [|y xs]; [simpl; lra|].
  assert (0 < Rsum_list (y :: xs)) by (apply IH; discriminate). lra.
Qed.

Lemma Rsum_list_scale xs c :
  Rsum_list (map (fun x => x * c) xs) = Rsum_list xs * c.
Proof. induction xs as [|x xs IH]; simpl; [lra | rewrite IH; lra]. Qed.

Lemma fold_left_Rmax_shift xs c : forall m,
  fold_left Rmax (map (fun x => x + c) xs) (m + c)
  = fold_left Rmax xs m + c.
Proof.
  induction xs as [|x xs IH]; intros m; simpl; [reflexivity|].
  rewrite <- IH. f_equal. unfold Rmax.
  destruct (Rle_dec (m + c) (x + c)), (Rle_dec m x); lra.
Qed.

(** The softmax values add up to 1. *)
Lemma softmax_sums_to_one os : os <> [] -> Rsum_list (softmax os) = 1.
Proof.
  intros Hne. unfold softmax. cbv zeta.
  set (e := map (fun o => Rtrigo_def.exp (o - fold_max os)) os).
  assert (Hpos : 0 < Rsum_list e).
  { apply Rsum_list_pos.
    - unfold e. destruct os; [congruence | discriminate].
    - unfold e. apply Forall_forall. intros x Hx. apply in_map_iff in Hx.
      destruct Hx as (o & <- & _). apply exp_pos. }
  unfold Rdiv. rewrite Rsum_list_scale. field. lra.
Qed.

(** Adding one constant to every input does not change the softmax. *)
Lemma softmax_shift os c : softmax (map (fun o => o + c) os) = softmax os.
Proof.
  assert (Hm : fold_max (map (fun o => o + c) os) = fold_max os + c
               \/ os = []).
  { destruct os as [|o os]; [now right|]. left. unfold fold_max. simpl.
    apply fold_left_Rmax_shift. }
  destruct Hm as [Hm| ->]; [|reflexivity].
  unfold softmax. cbv zeta. rewrite Hm, !map_map.
  assert (He : forall o, Rtrigo_def.exp (o + c - (fold_max os + c))
                         = Rtrigo_def.exp (o - fold_max os)).
  { intros o. f_equal. lra. }
  assert (Hmap : map (fun x => Rtrigo_def.exp (x + c - (fold_max os + c))) os
                 = map (fun o => Rtrigo_def.exp (o - fold_max os)) os).
  { apply map_ext. exact He. }
  rewrite Hmap. apply map_ext. intros o. now rewrite He.
Qed.

(** *** What the constructions build *)

Lemma sub_spec a c :
  triple (fun G => bnd G a /\ bnd G c) (sub a c)
    (fun G v => bnd G v /\
       forall d x y, evals G d a x -> evals G d c y -> evals G d v (x - y)).
Proof.
  unfold sub.
  eapply triple_bind; [apply triple_new_nth; intros; constructor|].
  intros k. eapply triple_bind.
  { apply triple_new_nth. intros G [[_ Hc] Hk]. simpl.
    repeat constructor; [exact Hc | eapply nth_bnd; eassumption]. }
  intros m. eapply triple_conseq.
  { apply (triple_new (AddValue a m)). }
  - intros G [[[Ha _] _] Hm]. simpl.
    repeat constructor; [exact Ha | eapply nth_bnd; eassumption].
  - intros G v [[[_ _] Hk] Hm] Hv. cbv beta in *.
    split; [eapply nth_bnd; eassumption|].
    intros d x y Hx Hy. apply (evals_eq G d v (x + y * -1)); [|lra].
    eapply ev_add; [apply nth_cls; eassumption | exact Hx |].
    eapply ev_mul; [apply nth_cls; eassumption | exact Hy |].
    apply ev_const. apply nth_cls; eassumption.
Qed.

Lemma div_spec a c :
  triple (fun G => bnd G a /\ bnd G c) (div a c)
    (fun G v => (bnd G v /\ is_const G v = false) /\
       forall d x y, evals G d a x -> evals G d c y -> 0 < y ->
         evals G d v (x / y)).
Proof.
  unfold div, pow.
  eapply triple_bind.
  { apply triple_new_nth. intros G [_ Hc]. simpl. now repeat constructor. }
  intros p. eapply triple_conseq.
  { apply (triple_new (MulValue a p)). }
  - intros G [[Ha _] Hp]. simpl.
    repeat constructor; [exact Ha | eapply nth_bnd; eassumption].
  - intros G v [_ Hp] Hv. cbv beta in *.
    split; [split; [eapply nth_bnd; eassumption|]|].
    { unfold is_const. now rewrite (nth_cls G v _ Hv). }
    intros d x y Hx Hy Hpos. unfold Rdiv.
    eapply ev_mul; [apply nth_cls; eassumption | exact Hx |].
    eapply ev_pow; [apply nth_cls; eassumption | exact Hy |].
    now apply math_pow_inverse.
Qed.

Lemma exp_spec a :
  triple (fun G => bnd G a) (exp a)
    (fun G v => bnd G v /\
       forall d x, evals G d a x -> evals G d v (Rtrigo_def.exp x)).
Proof.
  unfold exp. eapply triple_conseq.
  { apply (triple_new (ExpValue a)). }
  - intros G Ha. simpl. now repeat constructor.
  - intros G v _ Hv. cbv beta in Hv. split; [eapply nth_bnd; eassumption|].
    intros d x Hx. eapply ev_exp; [apply nth_cls; eassumption | exact Hx].
Qed.

(** The loop that folds [Max] over the outputs, element by element. *)
Lemma max_loop_spec l : forall acc0,
  triple (fun G => Forall (bnd G) l /\ bnd G acc0)
    (foldM (fun o acc => new (Max acc o)) l acc0)
    (fun G v => bnd G v /\
       forall d m0 xs, evals G d acc0 m0 -> Forall2 (evals G d) l xs ->
         evals G d v (fold_left Rmax xs m0)).
Proof.
  intros acc0.
  eapply triple_conseq.
  { apply (triple_foldM (fun G => Forall (bnd G) l) bnd
             (fun G o acc acc' => nth_error G acc' = Some (Max acc o))).
    intros o acc Ho. eapply triple_conseq.
    { apply (triple_new (Max acc o)). }
    - intros G [Hl Hacc]. simpl. repeat constructor; [exact Hacc|].
      rewrite Forall_forall in Hl. now apply Hl.
    - intros G v _ Hv. cbv beta in Hv.
      split; [eapply nth_bnd; eassumption | exact Hv]. }
  - auto.
  - intros G v _ [Hb Hc]. split; [exact Hb|].
    clear Hb. induction Hc as [acc|o l' acc acc1 acc2 Hs _ IH];
      intros d m0 xs Hm Hxs; inversion Hxs; subst; simpl.
    + exact Hm.
    + apply IH; [|assumption]. rewrite <- branch_free_max.
      eapply ev_max; [apply nth_cls; eassumption | exact Hm | assumption].
Qed.

(** The loop that adds up the exponentials, element by element. *)
Lemma sum_loop_spec l : forall acc0,
  triple (fun G => Forall (bnd G) l /\ bnd G acc0)
    (foldM (fun e acc => add acc e) l acc0)
    (fun G v => bnd G v /\
       forall d s0 xs, evals G d acc0 s0 -> Forall2 (evals G d) l xs ->
         evals G d v (fold_left Rplus xs s0)).
Proof.
  intros acc0.
  eapply triple_conseq.
  { apply (triple_foldM (fun G => Forall (bnd G) l) bnd
             (fun G o acc acc' => nth_error G acc' = Some (AddValue acc o))).
    intros o acc Ho. eapply triple_conseq.
    { apply (triple_new (AddValue acc o)). }
    - intros G [Hl Hacc]. simpl. repeat constructor; [exact Hacc|].
      rewrite Forall_forall in Hl. now apply Hl.
    - intros G v _ Hv. cbv beta in Hv.
      split; [eapply nth_bnd; eassumption | exact Hv]. }
  - auto.
  - intros G v _ [Hb Hc]. split; [exact Hb|].
    clear Hb. induction Hc as [acc|o l' acc acc1 acc2 Hs _ IH];
      intros d m0 xs Hm Hxs; inversion Hxs; subst; simpl.
    + exact Hm.
    + apply IH; [|assumption].
      eapply ev_add; [apply nth_cls; eassumption | exact Hm | assumption].
Qed.

Lemma Forall2_evals_map G d (F : R -> R) (l vs : list id) (xs : list R) :
  Forall2 (fun a v => forall x, evals G d a x -> evals G d v (F x)) l vs ->
  Forall2 (evals G d) l xs ->
  Forall2 (evals G d) vs (map F xs).
Proof.
  intros H. revert xs. induction H as [|a v l vs Hav _ IH]; intros xs Hxs;
    inversion Hxs; subst; simpl; constructor; auto.
Qed.

Lemma Forall2_weaken {A B} (P Q : A -> B -> Prop) l l' :
  (forall a c, P a c -> Q a c) -> Forall2 P l l' -> Forall2 Q l l'.
Proof. intros H. induction 1; constructor; auto. Qed.

Lemma Forall2_right {A B} (P : A -> B -> Prop) (Q : B -> Prop) l l' :
  (forall a c, P a c -> Q c) -> Forall2 P l l' -> Forall Q l'.
Proof. intros H. induction 1; constructor; eauto. Qed.

Lemma stable_softmax_spec output :
  triple (fun G => Forall (bnd G) output) (stable_softmax output)
    (fun G sm =>
       Forall (fun v => bnd G v /\ is_const G v = false) sm /\
       length sm = length output /\ output <> [] /\
       forall d os, Forall2 (evals G d) output os ->
         Forall2 (evals G d) sm (softmax os)).
Proof.
  unfold stable_softmax.
  eapply triple_bind; [apply triple_index|]. intros max0.
  apply (triple_assume _ _ _ (nth_error output 0 = Some max0));
    [intros G [_ H]; exact H|].
  intros H0. destruct output as [|o0 rest]; [discriminate|].
  simpl in H0. inversion H0; subst max0. clear H0.
  eapply triple_bind.
  { apply (triple_ext _ _ _ (foldM (fun o acc => new (Max acc o)) rest o0)).
    - intros g0. unfold range.
      apply (foldM_index (fun o acc => new (Max acc o)) (o0 :: rest)
               (length (o0 :: rest) - 1) 1 o0 g0).
      simpl. lia.
    - eapply triple_conseq; [apply (max_loop_spec rest o0) | |].
      + intros G [HR _]. inversion HR; subst. now split.
      + intros G v _ H. exact H. }
  intros max_.
  eapply triple_bind.
  { apply (triple_mapM _
             (fun G o v => bnd G v /\
                forall d x y, evals G d o x -> evals G d max_ y ->
                  evals G d v (x - y))).
    intros o Ho. eapply triple_conseq; [apply (sub_spec o max_) | |].
    - intros G [[HR _] [Hm _]]. split; [|exact Hm].
      rewrite Forall_forall in HR. now apply HR.
    - intros G v _ H. exact H. }
  intros shiftx.
  eapply triple_bind.
  { apply (triple_mapM _
             (fun G sh v => bnd G v /\
                forall d x, evals G d sh x ->
                  evals G d v (Rtrigo_def.exp x))).
    intros sh Hsh. eapply triple_conseq; [apply (exp_spec sh) | |].
    - intros G [_ Hshift]. cbv beta in Hshift.
      assert (Hall : Forall (bnd G) shiftx).
      { eapply Forall2_right; [|exact Hshift]. intros a c [Hc _]. exact Hc. }
      rewrite Forall_forall in Hall. now apply Hall.
    - intros G v _ H. exact H. }
  intros exps.
  eapply triple_bind; [apply triple_index|]. intros sum0.
  apply (triple_assume _ _ _ (nth_error exps 0 = Some sum0));
    [intros G [_ H]; exact H|].
  intros H0. destruct exps as [|e0 erest]; [discriminate|].
  simpl in H0. inversion H0; subst sum0. clear H0.
  eapply triple_bind.
  { apply (triple_ext _ _ _ (foldM (fun e acc => add acc e) erest e0)).
    - intros g0. unfold range.
      apply (foldM_index (fun e acc => add acc e) (e0 :: erest)
               (length (e0 :: erest) - 1) 1 e0 g0).
      simpl. lia.
    - eapply triple_conseq; [apply (sum_loop_spec erest e0) | |].
      + intros G [[_ Hexps] _]. cbv beta in Hexps.
        assert (Hall : Forall (bnd G) (e0 :: erest)).
        { eapply Forall2_right; [|exact Hexps]. intros a c [Hc _]. exact Hc. }
        inversion Hall; subst. now split.
      + intros G v _ H. exact H. }
  intros sum_.
  eapply triple_conseq.
  { apply (triple_mapM (fun G => bnd G sum_ /\ Forall (bnd G) (e0 :: erest))
             (fun G e v => (bnd G v /\ is_const G v = false) /\
                forall d x y, evals G d e x -> evals G d sum_ y -> 0 < y ->
                  evals G d v (x / y))).
    intros e He. eapply triple_conseq; [apply (div_spec e sum_) | |].
    - intros G [Hs Hall]. split; [|exact Hs].
      rewrite Forall_forall in Hall. now apply Hall.
    - intros G v _ H. exact H. }
  - intros G [[[_ Hexps] _] [Hs _]]. cbv beta in Hexps. split; [exact Hs|].
    eapply Forall2_right; [|exact Hexps]. intros a c [Hc _]. exact Hc.
  - intros G sm [[[[[[_ _] [_ Hmax]] Hshift] Hexps] _] [_ Hsum]] Hsm.
    cbv beta in *.
    split; [eapply Forall2_right; [|exact Hsm]; intros a c [Hc _]; exact Hc|].
    split.
    { apply Forall2_length in Hshift, Hexps, Hsm. congruence. }
    split; [discriminate|].
    intros d os Hos. inversion Hos as [|o x rest' xs Hx Hxs]; subst.
    set (m := fold_max (x :: xs)).
    assert (Hm : evals G d max_ m) by (now apply Hmax).
    assert (Hsh : Forall2 (evals G d) shiftx (map (fun o => o - m) (x :: xs))).
    { apply (Forall2_evals_map G d (fun o => o - m) (o0 :: rest)); [|exact Hos].
      eapply Forall2_weaken; [|exact Hshift].
      intros a c [_ H] y Hy. now apply H. }
    assert (Hes : Forall2 (evals G d) (e0 :: erest)
                    (map Rtrigo_def.exp (map (fun o => o - m) (x :: xs)))).
    { apply (Forall2_evals_map G d Rtrigo_def.exp shiftx); [|exact Hsh].
      eapply Forall2_weaken; [|exact Hexps].
      intros a c [_ H] y Hy. now apply H. }
    rewrite map_map in Hes.
    set (es := map (fun o => Rtrigo_def.exp (o - m)) (x :: xs)) in *.
    assert (Hs : evals G d sum_ (Rsum_list es)).
    { unfold es in *. simpl in Hes. inversion Hes; subst.
      eapply evals_eq; [apply Hsum; eassumption|].
      rewrite fold_left_Rplus. reflexivity. }
    assert (Hpos : 0 < Rsum_list es).
    { apply Rsum_list_pos; [unfold es; discriminate|].
      unfold es. apply Forall_forall. intros y Hy. apply in_map_iff in Hy.
      destruct Hy as (o & <- & _). apply exp_pos. }
    unfold softmax. cbv zeta. fold m. fold es.
    apply (Forall2_evals_map G d (fun ei => ei / Rsum_list es) (e0 :: erest));
      [|exact Hes].
    eapply Forall2_weaken; [|exact Hsm].
    intros a c [_ H] y Hy. now apply (H d y (Rsum_list es)).
Qed.

Lemma triple_imp {A} (R : graph -> Prop) (Q : graph -> A -> Prop) (m m' : M A) :
  (forall g r, m g = Some r -> m' g = Some r) -> triple R m' Q -> triple R m Q.
Proof.
  intros Hm H g0 x g1 Hwf Hpre E. apply Hm in E. now apply (H g0 x g1).
Qed.

Lemma fold_left_terms {A} (F : A -> R) (l : list A) : forall r0,
  fold_left (fun r a => r + F a) l r0 = r0 + Rsum_list (map F l).
Proof.
  induction l as [|a l IH]; intros r0; simpl; [lra|]. rewrite IH. lra.
Qed.

Lemma softmax_positive os : os <> [] -> Forall (fun x => 0 < x) (softmax os).
Proof.
  intros Hne. unfold softmax. cbv zeta.
  set (e := map (fun o => Rtrigo_def.exp (o - fold_max os)) os).
  assert (He : Forall (fun x => 0 < x) e).
  { unfold e. apply Forall_forall. intros x Hx. apply in_map_iff in Hx.
    destruct Hx as (o & <- & _). apply exp_pos. }
  assert (Hpos : 0 < Rsum_list e).
  { apply Rsum_list_pos; [|exact He].
    unfold e. destruct os; [congruence | discriminate]. }
  apply Forall_forall. intros x Hx. apply in_map_iff in Hx.
  destruct Hx as (y & <- & Hy). rewrite Forall_forall in He.
  apply Rdiv_lt_0_compat; auto.
Qed.

(** The body of the loop of [loss_of], on the pair [(exp, act)]. *)
Definition loss_term (ac : id * id) (result : id) : M id :=
  c <- new (Const 0.0001) ;;
  s <- add (snd ac) c ;;
  l <- log s ;;
  m <- mul l (fst ac) ;;
  add result m.

Lemma loss_term_spec ac result :
  triple (fun G => bnd G (fst ac) /\ bnd G (snd ac) /\ bnd G result)
    (loss_term ac result)
    (fun G v => bnd G v /\
       forall d r t a, evals G d result r -> evals G d (fst ac) t ->
         evals G d (snd ac) a -> 0 < a + 0.0001 ->
         evals G d v (r + ln (a + 0.0001) * t)).
Proof.
  unfold loss_term, add, log, mul.
  eapply triple_bind; [apply triple_new_nth; intros; constructor|].
  intros c. eapply triple_bind.
  { apply triple_new_nth. intros G [(_ & Ha & _) Hc]. simpl.
    repeat constructor; [exact Ha | eapply nth_bnd; eassumption]. }
  intros sm. eapply triple_bind.
  { apply triple_new_nth. intros G [_ Hs]. simpl.
    repeat constructor. eapply nth_bnd; eassumption. }
  intros l. eapply triple_bind.
  { apply triple_new_nth. intros G [[[(Ht & _) _] _] Hl]. simpl.
    repeat constructor; [eapply nth_bnd; eassumption | exact Ht]. }
  intros m. eapply triple_conseq.
  { apply (triple_new (AddValue result m)). }
  - intros G [[[[(_ & _ & Hr) _] _] _] Hm]. simpl.
    repeat constructor; [exact Hr | eapply nth_bnd; eassumption].
  - intros G v [[[[_ Hc] Hs] Hl] Hm] Hv. cbv beta in *.
    split; [eapply nth_bnd; eassumption|].
    intros d r t a Hr Ht Ha Hpos.
    eapply ev_add; [apply nth_cls; eassumption | exact Hr |].
    eapply ev_mul; [apply nth_cls; eassumption | | exact Ht].
    eapply ev_log; [apply nth_cls; eassumption | | now apply math_log_positive].
    eapply ev_add; [apply nth_cls; eassumption | exact Ha |].
    apply ev_const. apply nth_cls; eassumption.
Qed.

Lemma loss_loop_spec pairs : forall acc0,
  triple (fun G => Forall (fun ac => bnd G (fst ac) /\ bnd G (snd ac)) pairs
                   /\ bnd G acc0)
    (foldM loss_term pairs acc0)
    (fun G v => bnd G v /\
       forall d r0 tas, evals G d acc0 r0 ->
         Forall2 (fun ac ta => evals G d (fst ac) (fst ta) /\
                               evals G d (snd ac) (snd ta)) pairs tas ->
         Forall (fun ta => 0 < snd ta + 0.0001) tas ->
         evals G d v
           (fold_left (fun r ta => r + ln (snd ta + 0.0001) * fst ta) tas r0)).
Proof.
  intros acc0.
  eapply triple_conseq.
  { apply (triple_foldM
             (fun G => Forall (fun ac => bnd G (fst ac) /\ bnd G (snd ac)) pairs)
             bnd
             (fun G ac acc acc' =>
                forall d r t a, evals G d acc r -> evals G d (fst ac) t ->
                  evals G d (snd ac) a -> 0 < a + 0.0001 ->
                  evals G d acc' (r + ln (a + 0.0001) * t))).
    intros ac acc Hac. eapply triple_conseq; [apply (loss_term_spec ac acc) | |].
    - intros G [Hall Hacc]. rewrite Forall_forall in Hall.
      destruct (Hall ac Hac). auto.
    - intros G v _ H. exact H. }
  - auto.
  - intros G v _ [Hb Hc]. split; [exact Hb|].
    clear Hb. induction Hc as [acc|ac l' acc acc1 acc2 Hs _ IH];
      intros d r0 tas Hr Htas Hpos; inversion Htas; subst; simpl.
    + exact Hr.
    + inversion Hpos; subst.
      match goal with H : _ /\ _ |- _ => destruct H as [Ht Ha] end.
      apply IH; [|assumption|assumption]. now apply Hs.
Qed.

Lemma Forall2_combine {A B C D} (P : A -> C -> Prop) (Q : B -> D -> Prop)
  (l1 : list A) (l2 : list B) (l3 : list C) (l4 : list D) :
  Forall2 P l1 l3 -> Forall2 Q l2 l4 ->
  Forall2 (fun ab cd => P (fst ab) (fst cd) /\ Q (snd ab) (snd cd))
          (combine l1 l2) (combine l3 l4).
Proof.
  intros H. revert l2 l4. induction H as [|a c l1 l3 Hac _ IH];
    intros l2 l4 H2; simpl; [constructor|].
  inversion H2; subst; simpl; constructor; auto.
Qed.

(** [loss_of] after the outputs of the model are known. *)
Definition loss_tail (output expected_onehot : list id) : M id :=
  softmax_output <- stable_softmax output ;;
  result <- new (Const 0) ;;
  result <- foldM (fun i result =>
                     exp_ <- index expected_onehot i ;;
                     act <- index softmax_output i ;;
                     c <- new (Const 0.0001) ;;
                     s <- add act c ;;
                     l <- log s ;;
                     m <- mul l exp_ ;;
                     add result m)
              (range 0 (length expected_onehot)) result ;;
  c <- new (Const (-1)) ;;
  mul result c.

Lemma loss_of_tail model inp_ expected_onehot :
  loss_of model inp_ expected_onehot
  = (output <- evalmlp model inp_ ;; loss_tail output expected_onehot).
Proof. reflexivity. Qed.

Lemma loss_tail_spec output expected :
  triple (fun G => Forall (bnd G) output /\ Forall (bnd G) expected)
    (loss_tail output expected)
    (fun G loss =>
       output <> [] /\
       (exists a c, nth_error G loss = Some (MulValue a c)) /\
       forall d os ts, Forall2 (evals G d) output os ->
         Forall2 (evals G d) expected ts ->
         length expected = length output ->
         evals G d loss (cross_entropy os ts)).
Proof.
  unfold loss_tail.
  eapply triple_bind.
  { eapply triple_conseq; [apply (stable_softmax_spec output) | |].
    - intros G [H _]. exact H.
    - intros G sm _ H. exact H. }
  intros sm. eapply triple_bind; [apply triple_new_nth; intros; constructor|].
  intros r0. eapply triple_bind.
  { apply (triple_imp _ _ _ (foldM loss_term (combine expected sm) r0)).
    - intros g0 r E. unfold range in E. rewrite Nat.sub_0_r in E.
      apply (foldM_index2
               (fun exp_ act result => loss_term (exp_, act) result)
               expected sm (length expected) 0 r0 g0 r eq_refl) in E.
      destruct E as [E _]. simpl in E.
      erewrite <- E. clear E. f_equal.
    - eapply triple_conseq; [apply (loss_loop_spec (combine expected sm) r0) | |].
      + intros G [[[_ Hexp] (Hsm & _)] Hr0]. cbv beta in *. split.
        * apply Forall_forall. intros [t a] Hin. simpl.
          rewrite Forall_forall in Hexp, Hsm. split.
          -- apply Hexp. eapply in_combine_l; eassumption.
          -- apply Hsm. eapply in_combine_r; eassumption.
        * eapply nth_bnd; eassumption.
      + intros G v _ H. exact H. }
  intros res. eapply triple_bind.
  { apply triple_new_nth. intros; constructor. }
  intros c. eapply triple_conseq.
  { apply (triple_new (MulValue res c)). }
  - intros G [[_ [Hres _]] Hc]. simpl.
    repeat constructor; [exact Hres | eapply nth_bnd; eassumption].
  - intros G loss [[[[_ Hsm] Hr0] Hres] Hc] Hloss. cbv beta in *.
    destruct Hsm as (_ & Hlen & Hne & Hsm). destruct Hres as [_ Hres].
    split; [exact Hne|]. split; [eauto|].
    intros d os ts Hos Hts Hlen'.
    assert (Hos_ne : os <> []).
    { apply Forall2_length in Hos. destruct output; [congruence|].
      destruct os; [discriminate | discriminate]. }
    apply (evals_eq G d loss
             (fold_left (fun r ta => r + ln (snd ta + 0.0001) * fst ta)
                        (combine ts (softmax os)) 0 * -1)).
    + eapply ev_mul; [apply nth_cls; eassumption | | apply ev_const, nth_cls; eassumption].
      apply Hres.
      * apply ev_const. apply nth_cls; eassumption.
      * apply Forall2_combine; [exact Hts | now apply Hsm].
      * apply Forall_forall. intros [t a] Hin. simpl.
        apply in_combine_r in Hin.
        pose proof (softmax_positive os Hos_ne) as Hp.
        rewrite Forall_forall in Hp. specialize (Hp a Hin). lra.
    + unfold cross_entropy.
      rewrite (fold_left_terms (fun ta => ln (snd ta + 0.0001) * fst ta)).
      assert (Hmap : map (fun ta : R * R => ln (snd ta + 0.0001) * fst ta)
                         (combine ts (softmax os))
                     = map (fun tsm => fst tsm * ln (snd tsm + 0.0001))
                           (combine ts (softmax os))).
      { apply map_ext. intros ta. lra. }
      rewrite Hmap. lra.
Qed.

(** [v] is an object of the table that evaluates whatever the data. *)
Definition ev (G : graph) (v : id) : Prop :=
  bnd G v /\ forall d, exists y, evals G d v y.

(** [v] is a plain [Value] of the table. *)
Definition is_leaf (g : graph) (v : id) : Prop := nth_error g v = Some Value.

Lemma leaf_ev g G v : is_leaf g v -> ext g G -> ev G v.
Proof.
  intros Hl He. apply (ext_nth g G) in Hl; [|exact He]. split.
  - eapply nth_bnd; eassumption.
  - intros d. exists (d v). apply ev_leaf. now apply nth_cls.
Qed.

Lemma ev_all G l d :
  Forall (ev G) l -> exists xs, Forall2 (evals G d) l xs.
Proof.
  induction 1 as [|v l [_ Hv] _ (xs & IH)]; [exists []; constructor|].
  destruct (Hv d) as (y & Hy). exists (y :: xs). now constructor.
Qed.

(** The parameters of a neuron, of a model, evaluate. *)
Definition neuron_ok (G : graph) (n : Neuron) : Prop :=
  Forall (ev G) (w n) /\ ev G (b n).

Definition model_ok (G : graph) (m : MLP) : Prop :=
  Forall (fun l => Forall (neuron_ok G) (neurons l)) (layers m).

(** The parameters of a model are plain [Value]s. *)
Definition model_leaves (g : graph) (m : MLP) : Prop :=
  Forall (fun l => Forall (fun n => Forall (is_leaf g) (w n) /\ is_leaf g (b n))
                          (neurons l)) (layers m).

Lemma model_leaves_ok g G m : model_leaves g m -> ext g G -> model_ok G m.
Proof.
  intros H He. unfold model_leaves, model_ok in *.
  eapply Forall_impl; [|exact H]. intros l Hl.
  eapply Forall_impl; [|exact Hl]. intros n [Hw Hb]. split.
  - eapply Forall_impl; [|exact Hw]. intros v Hv. now apply (leaf_ev g).
  - now apply (leaf_ev g).
Qed.

Lemma nth_error_Forall {A} (P : A -> Prop) l i x :
  Forall P l -> nth_error l i = Some x -> P x.
Proof.
  intros H Hi. rewrite Forall_forall in H. apply H.
  eapply nth_error_In; eassumption.
Qed.

Lemma evalneuron_spec n x :
  triple (fun G => neuron_ok G n /\ Forall (ev G) x) (evalneuron n x)
         (fun G v => ev G v).
Proof.
  unfold evalneuron.
  eapply triple_bind.
  { eapply triple_conseq.
    { apply (triple_foldM (fun G => neuron_ok G n /\ Forall (ev G) x) ev
               (fun _ _ _ _ => True)).
      intros i acc _.
      eapply triple_bind; [apply triple_index|]. intros wi.
      eapply triple_bind; [apply triple_index|]. intros xi.
      eapply triple_bind.
      { apply triple_new_nth.
        intros G [[[[[Hw _] Hx] _] Hwi] Hxi]. simpl. repeat constructor.
        - exact (proj1 (nth_error_Forall (ev G) (w n) i wi Hw Hwi)).
        - exact (proj1 (nth_error_Forall (ev G) x i xi Hx Hxi)). }
      intros m. eapply triple_conseq.
      { apply (triple_new (AddValue acc m)). }
      - intros G [[[[_ Hacc] _] _] Hm]. simpl.
        repeat constructor; [exact (proj1 Hacc) | eapply nth_bnd; eassumption].
      - intros G v [[[[[[Hw _] Hx] Hacc] Hwi] Hxi] Hm] Hv. cbv beta in *.
        split; [split; [eapply nth_bnd; eassumption|] | exact I].
        intros d.
        destruct (proj2 Hacc d) as (ya & Hya).
        destruct (proj2 (nth_error_Forall (ev G) (w n) i wi Hw Hwi) d) as (yw & Hyw).
        destruct (proj2 (nth_error_Forall (ev G) x i xi Hx Hxi) d) as (yx & Hyx).
        exists (ya + yw * yx).
        eapply ev_add; [apply nth_cls; eassumption | exact Hya |].
        eapply ev_mul; [apply nth_cls; eassumption | exact Hyw | exact Hyx]. }
    - intros G [[Hw Hb] Hx].
      split; [split; [split; assumption | assumption] | assumption].
    - intros G v _ [H _]. exact H. }
  intros result. destruct (nonlin n).
  - eapply triple_conseq.
    { apply (triple_new (ReluValue result)). }
    + intros G [_ Hr]. simpl. repeat constructor. exact (proj1 Hr).
    + intros G v [_ Hr] Hv. cbv beta in *.
      split; [eapply nth_bnd; eassumption|]. intros d.
      destruct (proj2 Hr d) as (y & Hy). eexists.
      eapply ev_relu; [apply nth_cls; eassumption | exact Hy].
  - eapply triple_conseq;
      [apply (triple_ret (fun _ => True) result) | intros; exact I |].
    intros G v [_ Hr] ->. exact Hr.
Qed.

Lemma evallayer_spec l x :
  triple (fun G => Forall (neuron_ok G) (neurons l) /\ Forall (ev G) x)
         (evallayer l x) (fun G out => Forall (ev G) out).
Proof.
  unfold evallayer. eapply triple_conseq.
  { apply (triple_mapM
             (fun G => Forall (neuron_ok G) (neurons l) /\ Forall (ev G) x)
             (fun G _ v => ev G v)).
    intros n Hn. eapply triple_conseq; [apply (evalneuron_spec n x) | |].
    - intros G [Hl Hx]. split; [|exact Hx].
      rewrite Forall_forall in Hl. now apply Hl.
    - intros G v _ H. exact H. }
  - auto.
  - intros G out _ H. eapply Forall2_right; [|exact H]. auto.
Qed.

Lemma evalmlp_layers_spec ls : forall x,
  triple (fun G => Forall (fun l => Forall (neuron_ok G) (neurons l)) ls
                   /\ Forall (ev G) x)
         (foldM (fun layer x => evallayer layer x) ls x)
         (fun G out => Forall (ev G) out).
Proof.
  intros x. eapply triple_conseq.
  { apply (triple_foldM
             (fun G => Forall (fun l => Forall (neuron_ok G) (neurons l)) ls)
             (fun G x => Forall (ev G) x) (fun _ _ _ _ => True)).
    intros l acc Hl. eapply triple_conseq; [apply (evallayer_spec l acc) | |].
    - intros G [Hls Hacc]. split; [|exact Hacc].
      rewrite Forall_forall in Hls. now apply Hls.
    - intros G out _ H. split; [exact H | exact I]. }
  - auto.
  - intros G out _ [H _]. exact H.
Qed.

Lemma evalmlp_spec m x :
  triple (fun G => model_ok G m /\ Forall (ev G) x) (evalmlp m x)
         (fun G out => Forall (ev G) out).
Proof. apply evalmlp_layers_spec. Qed.

(** The graph that [loss_of] builds on a model whose parameters, inputs
    and targets are leaves: the outputs of the model evaluate, the root is
    a product, and it evaluates to the cross-entropy of the softmax of
    the outputs. *)
Lemma loss_of_spec model inp expected g0 loss g1 :
  wf g0 -> model_leaves g0 model -> Forall (is_leaf g0) inp ->
  Forall (is_leaf g0) expected ->
  loss_of model inp expected g0 = Some (loss, g1) ->
  exists output gm,
    evalmlp model inp g0 = Some (output, gm) /\
    ext g0 g1 /\ wf g1 /\
    Forall (ev g1) output /\ output <> [] /\
    (exists a c, nth_error g1 loss = Some (MulValue a c)) /\
    forall d os ts,
      Forall2 (evals g1 d) output os -> Forall2 (evals g1 d) expected ts ->
      length expected = length output ->
      evals g1 d loss (cross_entropy os ts).
Proof.
  intros Hwf Hm Hinp Hexp E. rewrite loss_of_tail in E. unfold bind in E.
  destruct (evalmlp model inp g0) as [[output gm]|] eqn:Em; [|discriminate].
  destruct (evalmlp_spec model inp g0 output gm Hwf) as (He1 & Hw1 & Hout);
    [|exact Em|].
  { intros G HG. split; [now apply (model_leaves_ok g0)|].
    eapply Forall_impl; [|exact Hinp]. intros v Hv. now apply (leaf_ev g0). }
  destruct (loss_tail_spec output expected gm loss g1 Hw1) as (He2 & Hw2 & Hq);
    [|exact E|].
  { intros G HG. split.
    - eapply Forall_impl; [|apply (Hout G HG)]. intros v Hv. exact (proj1 Hv).
    - eapply Forall_impl; [|exact Hexp]. intros v Hv.
      apply (leaf_ev g0 G v Hv). eapply ext_trans; eassumption. }
  exists output, gm. split; [reflexivity|].
  split; [eapply ext_trans; eassumption|]. split; [exact Hw2|].
  split; [now apply Hout|].
  apply (Hq g1 (ext_refl g1)).
Qed.

(** The forward sweep over the order of a root that evaluates: it
    returns, and the root holds its value. *)
Lemma forward_root g d r x fuel :
  wf g -> (r < fuel)%nat -> is_const g r = false -> evals g d r x ->
  exists f T d',
    topo fuel g r (fun _ => false) = Some (f, T) /\
    for_each (_forward g) T d = Some d' /\
    swept g d T d' /\
    (forall u, In u T <-> reach (_prev g) r u /\ is_const g u = false) /\
    In r T /\ d' r = x.
Proof.
  intros Hwf Hr Hnc Hx.
  destruct (topo_fresh g r fuel Hwf Hr)
    as (f & T & ET & Hnd & Hts & Hin & Hlast & _).
  destruct (forward_sweep g d T Hnd Hts) as (d' & Ed & Hsw).
  { intros u Hu. now apply Hin in Hu. }
  { intros u Hu. apply Hin in Hu. eapply evals_reach; [exact Hx | apply Hu]. }
  assert (HrT : In r T).
  { destruct (Hlast Hnc) as (T' & ->). apply in_or_app. right. now left. }
  exists f, T, d'. repeat (split; [assumption|]).
  eapply evals_fun; [apply (proj1 Hsw); exact HrT | exact Hx].
Qed.

(** *** Facts about model creation *)

Lemma new_weights_spec nin : forall w wd w' wd',
  new_weights nin w wd = (w', wd') ->
  let n0 := length (nodes wd) in
  w' = w ++ seq n0 nin /\
  nodes wd' = nodes wd ++ repeat Value nin /\
  (forall k, (k < nin)%nat -> data (mem wd') (n0 + k)%nat = rng wd k) /\
  (forall k, (k < nin)%nat -> grad (mem wd') (n0 + k)%nat = 0) /\
  (forall v, (v < n0 \/ n0 + nin <= v)%nat ->
     data (mem wd') v = data (mem wd) v /\
     grad (mem wd') v = grad (mem wd) v) /\
  (forall k, rng wd' k = rng wd (nin + k)%nat).
Proof.
  induction nin as [|nin IH]; intros w wd w' wd' E; cbv zeta.
  - simpl in E. inversion E; subst. rewrite !app_nil_r.
    repeat split; auto; intros; lia.
  - simpl in E. apply IH in E. cbv zeta in E. simpl in E.
    rewrite length_app in E. simpl in E.
    destruct E as (Ew & En & Hd & Hg & Hold & Hr).
    set (n0 := length (nodes wd)) in *.
    split; [|split; [|split; [|split; [|split]]]].
    + rewrite Ew, <- app_assoc. simpl. now rewrite Nat.add_1_r.
    + rewrite En, <- app_assoc. reflexivity.
    + intros k Hk. destruct k as [|k].
      * rewrite Nat.add_0_r. destruct (Hold n0) as [-> _]; [lia|].
        now rewrite upd_eq.
      * replace (n0 + S k)%nat with (n0 + 1 + k)%nat by lia.
        rewrite Hd by lia. reflexivity.
    + intros k Hk. destruct k as [|k].
      * rewrite Nat.add_0_r. destruct (Hold n0) as [_ ->]; [lia|].
        now rewrite upd_eq.
      * replace (n0 + S k)%nat with (n0 + 1 + k)%nat by lia.
        apply Hg. lia.
    + intros v Hv. destruct (Hold v) as [-> ->]; [lia|].
      rewrite !upd_neq by lia. split; reflexivity.
    + intros k. rewrite Hr. reflexivity.
Qed.

Lemma new_Neuron_spec nin nl wd n wd' :
  new_Neuron nin nl wd = (n, wd') ->
  let n0 := length (nodes wd) in
  w n = seq n0 nin /\ b n = (n0 + nin)%nat /\ nonlin n = nl /\
  neuron_parameters n = w n ++ [b n] /\
  nodes wd' = nodes wd ++ repeat Value (S nin) /\
  (forall k, (k < nin)%nat -> data (mem wd') (n0 + k)%nat = rng wd k) /\
  data (mem wd') (b n) = 0 /\
  (forall k, (k <= nin)%nat -> grad (mem wd') (n0 + k)%nat = 0) /\
  (forall v, (v < n0 \/ n0 + S nin <= v)%nat ->
     data (mem wd') v = data (mem wd) v /\
     grad (mem wd') v = grad (mem wd) v) /\
  (forall k, rng wd' k = rng wd (nin + k)%nat).
Proof.
  unfold new_Neuron. intros E.
  destruct (new_weights nin [] wd) as [w0 wd0] eqn:Ew.
  apply new_weights_spec in Ew. cbv zeta in Ew. simpl in Ew.
  destruct Ew as (-> & En & Hd & Hg & Hold & Hr).
  unfold new_Value in E. inversion E; subst n wd'. clear E. cbv zeta. simpl.
  set (n0 := length (nodes wd)) in *.
  assert (Hlen : length (nodes wd0) = (n0 + nin)%nat).
  { rewrite En, length_app, repeat_length. reflexivity. }
  rewrite Hlen.
  split; [reflexivity|]. split; [reflexivity|]. split; [reflexivity|].
  split; [reflexivity|]. split.
  { rewrite En, <- app_assoc. f_equal. symmetry. apply repeat_cons. }
  split. { intros k Hk. rewrite upd_neq by lia. now apply Hd. }
  split. { now rewrite upd_eq. }
  split.
  { intros k Hk. destruct (Nat.eq_dec k nin) as [->|Hne].
    - now rewrite upd_eq.
    - rewrite upd_neq by lia. apply Hg. lia. }
  split.
  { intros v Hv. rewrite !upd_neq by lia. apply Hold. lia. }
  exact Hr.
Qed.

Lemma new_Values_spec n : forall wd vs wd',
  new_Values n wd = (vs, wd') ->
  vs = seq (length (nodes wd)) n /\
  nodes wd' = nodes wd ++ repeat Value n.
Proof.
  induction n as [|n IH]; intros wd vs wd' E; simpl in E.
  - inversion E; subst. simpl. now rewrite app_nil_r.
  - destruct (new_Values n _) as [vs1 wd1] eqn:E1. inversion E; subst.
    apply IH in E1. simpl in E1. rewrite length_app in E1. simpl in E1.
    destruct E1 as [-> ->]. split.
    + simpl. now rewrite Nat.add_1_r.
    + rewrite <- app_assoc. reflexivity.
Qed.

(** The fields of a neuron are among its parameters. *)
Definition fields_listed (n : Neuron) : Prop :=
  forall v, In v (w n) \/ v = b n -> In v (neuron_parameters n).

Lemma new_neurons_spec nin nl nout : forall wd ns wd',
  new_neurons nin nout nl wd = (ns, wd') ->
  exists k,
    nodes wd' = nodes wd ++ repeat Value k /\
    flat_map neuron_parameters ns = seq (length (nodes wd)) k /\
    Forall fields_listed ns.
Proof.
  induction nout as [|nout IH]; intros wd ns wd' E; simpl in E.
  - inversion E; subst. exists 0%nat. simpl. rewrite app_nil_r. auto.
  - destruct (new_Neuron nin nl wd) as [n wd1] eqn:E1.
    destruct (new_neurons nin nout nl wd1) as [ns1 wd2] eqn:E2.
    inversion E; subst. clear E.
    apply new_Neuron_spec in E1. cbv zeta in E1.
    destruct E1 as (Hw & Hb & _ & Hp & Hn & _).
    apply IH in E2. destruct E2 as (k & Hn2 & Hps & Hf).
    exists (S nin + k)%nat. split; [|split].
    + rewrite Hn2, Hn, <- app_assoc, <- repeat_app. reflexivity.
    + cbn [flat_map]. rewrite Hps, Hp, Hw, Hb, Hn, length_app, repeat_length.
      rewrite seq_app. f_equal.
      replace (S nin) with (nin + 1)%nat by lia. rewrite seq_app. reflexivity.
    + constructor; [|exact Hf]. intros v Hv. rewrite Hp.
      apply in_or_app. destruct Hv as [Hv| ->]; [now left | right; now left].
Qed.

(** The layers list their neurons' parameters, whose fields are among
    them. *)
Definition layer_listed (l : Layer) : Prop :=
  layer_parameters l = flat_map neuron_parameters (neurons l) /\
  Forall fields_listed (neurons l).

Lemma new_layers_cons nin nout sz' i last wd :
  new_layers (nin :: nout :: sz') i last wd =
  let '(l, wd) := new_Layer nin nout (negb (Z.of_nat i =? last)%Z) wd in
  let '(ls, wd) := new_layers (nout :: sz') (S i) last wd in
  (l :: ls, wd).
Proof. reflexivity. Qed.

Lemma new_layers_spec sz : forall i last wd ls wd',
  new_layers sz i last wd = (ls, wd') ->
  exists k,
    nodes wd' = nodes wd ++ repeat Value k /\
    flat_map layer_parameters ls = seq (length (nodes wd)) k /\
    Forall layer_listed ls.
Proof.
  induction sz as [|nin sz IH]; intros i last wd ls wd' E.
  - simpl in E. inversion E; subst. exists 0%nat. simpl.
    rewrite app_nil_r. auto.
  - destruct sz as [|nout sz'].
    + simpl in E. inversion E; subst. exists 0%nat. simpl.
      rewrite app_nil_r. auto.
    + rewrite new_layers_cons in E. unfold new_Layer in E.
      destruct (new_neurons nin nout _ wd) as [ns wd1] eqn:E1.
      destruct (new_layers (nout :: sz') (S i) last wd1) as [ls1 wd2] eqn:E2.
      inversion E; subst. clear E.
      apply new_neurons_spec in E1. destruct E1 as (k1 & Hn1 & Hp1 & Hf1).
      apply IH in E2. destruct E2 as (k2 & Hn2 & Hp2 & Hf2).
      exists (k1 + k2)%nat. split; [|split].
      * rewrite Hn2, Hn1, <- app_assoc, <- repeat_app. reflexivity.
      * cbn [flat_map layer_parameters]. rewrite Hp1, Hp2, Hn1, length_app,
          repeat_length, seq_app. reflexivity.
      * constructor; [|exact Hf2]. split; [reflexivity | exact Hf1].
Qed.

Lemma new_MLP_spec nin nouts wd m wd' :
  new_MLP nin nouts wd = (m, wd') ->
  exists k,
    nodes wd' = nodes wd ++ repeat Value k /\
    mlp_parameters m = seq (length (nodes wd)) k /\
    Forall (fun l => Forall (fun n => forall v, In v (w n) \/ v = b n ->
                                 In v (mlp_parameters m)) (neurons l))
           (layers m).
Proof.
  unfold new_MLP. intros E.
  destruct (new_layers (nin :: nouts) 0 _ wd) as [ls wd1] eqn:E1.
  inversion E; subst. clear E.
  apply new_layers_spec in E1. destruct E1 as (k & Hn & Hp & Hf).
  exists k. split; [exact Hn|]. split; [exact Hp|]. simpl.
  apply Forall_forall. intros l Hl. apply Forall_forall. intros n Hn' v Hv.
  rewrite Forall_forall in Hf. destruct (Hf l Hl) as [Hlp Hfl].
  rewrite Forall_forall in Hfl. apply in_flat_map. exists l. split; [exact Hl|].
  rewrite Hlp. apply in_flat_map. exists n. split; [exact Hn'|].
  now apply Hfl.
Qed.

Lemma wf_leaves g k : wf g -> wf (g ++ repeat Value k).
Proof.
  intros Hwf. induction k as [|k IH]; [now rewrite app_nil_r|].
  replace (S k) with (k + 1)%nat by lia.
  rewrite repeat_app, app_assoc. apply wf_new; [exact IH | constructor].
Qed.

Lemma leaf_in_repeat g k v :
  (length g <= v < length g + k)%nat -> is_leaf (g ++ repeat Value k) v.
Proof.
  intros Hv. unfold is_leaf. rewrite nth_error_app2 by lia.
  apply nth_error_repeat. lia.
Qed.

(** *** The closures of [make_main] *)

(** What [make_main] establishes about the variables it captures. *)
Record env_ok (e : env) : Prop := mkEnvOk {
  ok_wf : wf (g e);
  ok_topo : exists fuel f,
      (loss e < fuel)%nat /\
      topo fuel (g e) (loss e) (fun _ => false) = Some (f, topo_ e);
  ok_params : params e = mlp_parameters (model e);
  ok_non_params :
    non_params e = filter (fun p => not_in p (params e)) (topo_ e);
  ok_reverse : reverse_topo e = rev (topo_ e);
  ok_leaves : forall p, In p (params e) -> cls (g e) p = Value;
  ok_nodup : NoDup (params e);
  ok_loss : exists a c, cls (g e) (loss e) = MulValue a c
}.

Lemma set_all_spec l x (f : id -> R) v :
  set_all l x f v = if existsb (Nat.eqb v) l then x else f v.
Proof.
  unfold set_all. revert f. induction l as [|o l IH]; intros f; simpl.
  - reflexivity.
  - rewrite IH. unfold upd.
    destruct (Nat.eqb_spec v o) as [->|Hne]; simpl.
    + now destruct (existsb _ l).
    + reflexivity.
Qed.

Lemma not_in_spec p l : not_in p l = true <-> ~ In p l.
Proof.
  unfold not_in. rewrite negb_true_iff, <- mem_In.
  now destruct (existsb (Nat.eqb p) l).
Qed.

Lemma existsb_In v (l : list id) :
  existsb (Nat.eqb v) l = true <-> In v l.
Proof. apply mem_In. Qed.

(** The gradients from which the sweep of [backward] starts. *)
Definition start_grad (e : env) (gr : id -> R) : id -> R :=
  upd (set_all (non_params e) 0 gr) (loss e) 1.

Lemma loss_not_param e : env_ok e -> ~ In (loss e) (params e).
Proof.
  intros He Hin. apply (ok_leaves e He) in Hin.
  destruct (ok_loss e He) as (a & c & Hl). congruence.
Qed.

Lemma start_grad_spec e gr v :
  env_ok e ->
  start_grad e gr v =
    if Nat.eqb v (loss e) then 1
    else if existsb (Nat.eqb v) (topo_ e) && not_in v (params e)
         then 0 else gr v.
Proof.
  intros He. unfold start_grad, upd.
  destruct (Nat.eqb v (loss e)); [reflexivity|].
  rewrite set_all_spec, (ok_non_params e He).
  destruct (existsb (Nat.eqb v) (filter _ _)) eqn:E.
  - apply existsb_In, filter_In in E. destruct E as [E1 E2].
    apply existsb_In in E1. now rewrite E1, E2.
  - destruct (existsb (Nat.eqb v) (topo_ e)) eqn:E1; [|reflexivity].
    destruct (not_in v (params e)) eqn:E2; [|reflexivity].
    exfalso. apply existsb_In in E1.
    assert (In v (filter (fun p => not_in p (params e)) (topo_ e)))
      by (apply filter_In; now split).
    apply existsb_In in H. congruence.
Qed.

(** [backward()] leaves the gradient of every parameter as it is before
    the rules run. *)
Lemma start_grad_param e gr p :
  env_ok e -> In p (params e) -> start_grad e gr p = gr p.
Proof.
  intros He Hp. rewrite start_grad_spec by exact He.
  destruct (Nat.eqb_spec p (loss e)) as [->|_].
  - exfalso. now apply (loss_not_param e He).
  - destruct (not_in p (params e)) eqn:E.
    + apply not_in_spec in E. contradiction.
    + now rewrite andb_false_r.
Qed.

Lemma topo_facts e :
  env_ok e ->
  NoDup (topo_ e) /\ topo_sorted (_prev (g e)) (is_const (g e)) (topo_ e) /\
  (forall x, In x (topo_ e) <->
     reach (_prev (g e)) (loss e) x /\ is_const (g e) x = false) /\
  operands_earlier (_prev (g e)) (topo_ e) /\
  In (loss e) (topo_ e).
Proof.
  intros He. destruct (ok_topo e He) as (fuel & f & Hf & ET).
  destruct (topo_fresh (g e) (loss e) fuel (ok_wf e He) Hf)
    as (f' & T & ET' & Hnd & Hts & Hin & Hlast & _).
  rewrite ET in ET'. inversion ET'; subst f' T.
  split; [exact Hnd|]. split; [exact Hts|]. split; [exact Hin|]. split.
  - apply (topo_sorted_operands_earlier _ (is_const (g e))); auto.
    intros x Hx. now apply Hin in Hx.
  - destruct (ok_loss e He) as (a & c & Hl).
    destruct Hlast as (T' & ->); [unfold is_const; now rewrite Hl|].
    apply in_or_app. right. now left.
Qed.

Lemma backward_is_sweep e d gr :
  env_ok e ->
  backward_ e d gr = sweep (_backward (g e) d) (topo_ e) (start_grad e gr).
Proof.
  intros He. unfold backward_, sweep, start_grad.
  now rewrite (ok_reverse e He).
Qed.

(** Whether [backward()] raises depends on the data only. *)
Lemma backward_defined_any e d gr gr' G :
  env_ok e -> backward_ e d gr = Some G ->
  exists G', backward_ e d gr' = Some G'.
Proof.
  intros He E. rewrite backward_is_sweep in * by exact He.
  apply (sweep_defined (_backward (g e) d) (defined (g e) d)
           (mnist_backward_defined (g e) d)).
  apply (sweep_raises (_backward (g e) d) (defined (g e) d)
           (mnist_backward_raises (g e) d) _ _ _ E).
Qed.

(** [backward()] adds to the gradient that a parameter holds what it
    leaves there when it starts from gradients that are all zero. *)
Lemma backward_from_zero e d gr G p :
  env_ok e -> backward_ e d gr = Some G -> In p (params e) ->
  exists G0, backward_ e d (fun _ => 0) = Some G0 /\ G p = gr p + G0 p.
Proof.
  intros He E Hp.
  destruct (backward_defined_any e d gr (fun _ => 0) G He E) as (G0 & E0).
  exists G0. split; [exact E0|].
  rewrite backward_is_sweep in E, E0 by exact He.
  pose (delta := fun v => start_grad e gr v - start_grad e (fun _ => 0) v).
  pose proof (sweep_shift (_backward (g e) d) (contribution (g e) d)
                (fun u a c => mnist_backward_accumulates (g e) d u a c (ok_wf e He))
                (topo_ e) (start_grad e (fun _ => 0)) (start_grad e gr)
                G0 G delta) as Hshift.
  rewrite Hshift; auto.
  - unfold delta. rewrite !start_grad_param by assumption. lra.
  - intros v. unfold delta. lra.
  - intros u Hu. unfold delta. rewrite !start_grad_spec by exact He.
    destruct (Nat.eqb u (loss e)); [left; lra|].
    apply existsb_In in Hu. rewrite Hu. simpl.
    destruct (not_in u (params e)) eqn:Enp; [left; lra|]. right.
    assert (Hin : In u (params e)).
    { destruct (in_dec Nat.eq_dec u (params e)) as [H|H]; [exact H|].
      apply not_in_spec in H. congruence. }
    intros x v. unfold contribution. now rewrite (ok_leaves e He u Hin).
Qed.

Lemma zero_grad_spec e gr v :
  zero_grad e gr v = if existsb (Nat.eqb v) (topo_ e) then 0 else gr v.
Proof. apply set_all_spec. Qed.

Lemma update_params_spec e st :
  NoDup (mlp_parameters (model e)) ->
  (forall p, grad (update_params e st) p = grad st p) /\
  (forall p, In p (mlp_parameters (model e)) ->
     data (update_params e st) p = data st p - 0.1 * grad st p) /\
  (forall p, ~ In p (mlp_parameters (model e)) ->
     data (update_params e st) p = data st p).
Proof.
  unfold update_params. generalize (mlp_parameters (model e)) as ps.
  intros ps. revert st. induction ps as [|q ps IH]; intros st Hnd; simpl.
  - repeat split; auto. intros p [].
  - inversion Hnd as [|? ? Hq Hnd']; subst.
    destruct (IH (mkStore (upd (data st) q (data st q - 0.1 * grad st q))
                          (grad st)) Hnd') as (Hg & Hin & Hout).
    split; [|split].
    + intros p. rewrite Hg. reflexivity.
    + intros p [<-|Hp].
      * rewrite Hout by exact Hq. simpl. now rewrite upd_eq.
      * rewrite Hin by exact Hp. simpl. rewrite upd_neq; [reflexivity|].
        intros ->. contradiction.
    + intros p Hp. rewrite Hout by tauto. simpl. rewrite upd_neq; [reflexivity|].
      intros ->. apply Hp. now left.
Qed.

(** [make_main] establishes [env_ok]: on a well-formed table, whatever the
    widths, the captured variables of the closures satisfy it. *)
Theorem make_env_ok dim nouts ndigits fuel wd e wd' :
  wf (nodes wd) ->
  make_env dim nouts ndigits fuel wd = Some (e, wd') ->
  env_ok e.
Proof.
  intros Hwf E. unfold make_env in E.
  destruct (new_Values dim wd) as [inp wd1] eqn:E1.
  destruct (new_MLP dim nouts wd1) as [m wd2] eqn:E2.
  destruct (new_Values ndigits wd2) as [expd wd3] eqn:E3.
  destruct (loss_of m inp expd (nodes wd3)) as [[l g1]|] eqn:E4; [|discriminate].
  destruct (topo fuel g1 l (fun _ => false)) as [[f T]|] eqn:E5; [|discriminate].
  inversion E; subst e wd'. clear E.
  apply new_Values_spec in E1. destruct E1 as [Hinp Hn1].
  apply new_MLP_spec in E2. destruct E2 as (k & Hn2 & Hp & Hfields).
  apply new_Values_spec in E3. destruct E3 as [Hexp Hn3].
  set (n0 := length (nodes wd)) in *.
  assert (Hl1 : length (nodes wd1) = (n0 + dim)%nat)
    by (rewrite Hn1, length_app, repeat_length; reflexivity).
  assert (Hl2 : length (nodes wd2) = (n0 + dim + k)%nat)
    by (rewrite Hn2, length_app, repeat_length, Hl1; reflexivity).
  assert (Hn3' : nodes wd3 = nodes wd ++ repeat Value (dim + k + ndigits)).
  { rewrite Hn3, Hn2, Hn1, <- !app_assoc, <- !repeat_app.
    f_equal. f_equal. lia. }
  assert (Hwf3 : wf (nodes wd3)) by (rewrite Hn3'; now apply wf_leaves).
  assert (Hleaf : forall v, (n0 <= v < n0 + (dim + k + ndigits))%nat ->
                    is_leaf (nodes wd3) v).
  { intros v Hv. rewrite Hn3'. now apply leaf_in_repeat. }
  assert (Hparams : forall p, In p (mlp_parameters m) -> is_leaf (nodes wd3) p).
  { intros p Hin. rewrite Hp, Hl1 in Hin. apply in_seq in Hin.
    apply Hleaf. lia. }
  assert (Hml : model_leaves (nodes wd3) m).
  { unfold model_leaves. eapply Forall_impl; [|exact Hfields].
    intros ly Hly. eapply Forall_impl; [|exact Hly]. intros n Hn. split.
    - apply Forall_forall. intros v Hv. apply Hparams, Hn. now left.
    - apply Hparams, Hn. now right. }
  assert (Hil : Forall (is_leaf (nodes wd3)) inp).
  { apply Forall_forall. intros v Hv. rewrite Hinp in Hv. apply in_seq in Hv.
    apply Hleaf. fold n0 in Hv. lia. }
  assert (Hel : Forall (is_leaf (nodes wd3)) expd).
  { apply Forall_forall. intros v Hv. rewrite Hexp, Hl2 in Hv.
    apply in_seq in Hv. apply Hleaf. lia. }
  destruct (loss_of_spec m inp expd (nodes wd3) l g1 Hwf3 Hml Hil Hel E4)
    as (output & gm & _ & Hext & Hwf1 & _ & _ & Hloss & _).
  constructor; simpl.
  - exact Hwf1.
  - exists (Nat.max fuel (S l)), f. split; [lia|].
    unfold topo in *. rewrite _build_topo_dfs in *.
    apply (dfs_mono (_prev g1) (is_const g1) fuel); [lia | exact E5].
  - reflexivity.
  - reflexivity.
  - reflexivity.
  - intros p Hin. apply nth_cls. apply (ext_nth (nodes wd3)); [exact Hext|].
    now apply Hparams.
  - rewrite Hp. apply seq_NoDup.
  - destruct Hloss as (a & c & Hl). exists a, c. now apply nth_cls.
Qed.

(** *** The gradient is the derivative *)

(** Every rule is linear in the gradient of the node it belongs to. *)
Lemma contribution_linear g d u x v :
  contribution g d u x v = x * contribution g d u 1 v.
Proof.
  unfold contribution, hit.
  destruct (cls g u); cbv zeta;
    repeat match goal with
    | |- context [match ?c with _ => _ end] => destruct c
    end; ring.
Qed.

(** Evaluation reads the data of the leaves only. *)
Lemma evals_ext_data g d d' v y :
  (forall u, d u = d' u) -> evals g d v y -> evals g d' v y.
Proof.
  intros H. induction 1; try (econstructor; eassumption).
  rewrite H. now constructor.
Qed.

(** The points at which the function of a node has no derivative, or at
    which its rule and its value do not both exist on a neighbourhood:
    [relu] at 0, [Max] at a tie, and a power of 0 unless the exponent is
    a whole positive number. *)
Definition smooth (g : graph) (data : id -> R) (v : id) : Prop :=
  match cls g v with
  | ReluValue a => get_data g data a <> 0
  | Max a b => get_data g data a <> get_data g data b
  | PowValue a k =>
      get_data g data a <> 0 \/ exists n, (1 <= n)%nat /\ k = INR n
  | _ => True
  end.

(** The derivative of a node with respect to the leaf [x], from the
    derivatives [dot] of its operands, by the chain rule. *)
Definition tangent_rule (g : graph) (data : id -> R) (x : id)
  (dot : id -> R) (v : id) : R :=
  let val := get_data g data in
  match cls g v with
  | Const _ => 0
  | Value => if Nat.eqb v x then 1 else 0
  | AddValue a b => dot a + dot b
  | MulValue a b => dot a * val b + val a * dot b
  | PowValue a k =>
      match math_pow (val a) (k - 1) with
      | Some p => (k * p) * dot a
      | None => 0
      end
  | ReluValue a => float_gt (val v) 0 * dot a
  | LogValue a => / val a * dot a
  | ExpValue a => math_exp (val a) * dot a
  | Max a b =>
      float_gt (val a) (val b) * dot a
      + (1 - float_gt (val a) (val b)) * dot b
  end.

Fixpoint tangent_at (g : graph) (data : id -> R) (x : id) (fuel : nat)
  (v : id) : R :=
  match fuel with
  | O => 0
  | S fuel' => tangent_rule g data x (tangent_at g data x fuel') v
  end.

Definition tangent (g : graph) (data : id -> R) (x : id) (v : id) : R :=
  tangent_at g data x (S v) v.

Lemma tangent_rule_ext g data x dot dot' v :
  (forall c, In c (_prev g v) -> dot c = dot' c) ->
  tangent_rule g data x dot v = tangent_rule g data x dot' v.
Proof.
  unfold tangent_rule, _prev. intros H.
  destruct (cls g v) as [c| |a b|a b|a k|a|a|a|a b]; simpl in H;
    rewrite ?(H a), ?(H b) by tauto; reflexivity.
Qed.

Lemma tangent_fuel g data x :
  wf g ->
  forall fuel fuel' v, (v < fuel)%nat -> (v < fuel')%nat ->
    tangent_at g data x fuel v = tangent_at g data x fuel' v.
Proof.
  intros Hwf. induction fuel as [|fuel IH]; intros fuel' v Hv Hv'; [lia|].
  destruct fuel' as [|fuel']; [lia|]. cbn [tangent_at].
  apply tangent_rule_ext. intros c Hc. apply Hwf in Hc. apply IH; lia.
Qed.

Lemma tangent_unfold g data x v :
  wf g -> tangent g data x v = tangent_rule g data x (tangent g data x) v.
Proof.
  intros Hwf. unfold tangent at 1. cbn [tangent_at].
  apply tangent_rule_ext. intros c Hc. apply Hwf in Hc.
  apply tangent_fuel; [exact Hwf | lia | lia].
Qed.

(** Where the value of a power exists and the point is smooth, the rule
    of the power does not raise. *)
Lemma pow_backward_defined x k z :
  math_pow x k = Some z ->
  (x <> 0 \/ exists n, (1 <= n)%nat /\ k = INR n) ->
  exists p, math_pow x (k - 1) = Some p.
Proof.
  intros Ez Hx. unfold math_pow in *.
  destruct (Rlt_dec 0 x); [eauto|].
  destruct (Req_dec_T x 0) as [->|Hne].
  - destruct Hx as [Hx|(m & Hm & ->)]; [contradiction|].
    destruct (Rlt_dec 0 (INR m - 1)); [eauto|].
    destruct (Req_dec_T (INR m - 1) 0); [eauto|]. exfalso.
    destruct m as [|[|m]]; [lia | simpl in *; lra |].
    rewrite (S_INR (S m)) in *. pose proof (pos_INR (S m)). lra.
  - destruct (is_integer k) eqn:Hk; [|discriminate].
    apply is_integer_elim in Hk. rewrite Hk.
    replace (IZR (Int_part k) - 1) with (IZR (Int_part k - 1))
      by (rewrite minus_IZR; lra).
    rewrite is_integer_IZR. eauto.
Qed.

Lemma float_gt_relu x : float_gt (float_gt x 0 * x) 0 = float_gt x 0.
Proof.
  unfold float_gt. destruct (Rgt_dec x 0) as [H|H].
  - rewrite Rmult_1_l. now destruct (Rgt_dec x 0).
  - rewrite Rmult_0_l. destruct (Rgt_dec 0 0) as [H0|H0]; [|reflexivity].
    unfold Rgt in H0. lra.
Qed.

Lemma tangent_is_derivative g d data x :
  wf g -> cls g x = Value ->
  forall v y, evals g d v y ->
    (forall u, reach (_prev g) v u -> evals g d u (get_data g data u)) ->
    (forall u, reach (_prev g) v u -> smooth g data u) ->
    exists F : R -> R,
      near (d x) (fun t => evals g (upd d x t) v (F t)) /\
      derivable_pt_lim F (d x) (tangent g data x v).
Proof.
  intros Hwf Hx.
  assert (Hat : forall F a, near (d x) (fun t => evals g (upd d x t) a (F t)) ->
            evals g d a (get_data g data a) -> F (d x) = get_data g data a).
  { intros F a Hn Ha. apply near_self in Hn.
    eapply evals_fun; [|exact Ha].
    eapply evals_ext_data; [|exact Hn].
    intros u. unfold upd. destruct (Nat.eqb_spec u x) as [->|]; reflexivity. }
  assert (Hstep : forall v c u, In c (_prev g v) -> reach (_prev g) c u ->
            reach (_prev g) v u).
  { intros v c u Hc Hu. induction Hu as [|w c' _ IH Hc'].
    - eapply reach_step; [apply reach_refl | exact Hc].
    - eapply reach_step; eassumption. }
  induction 1 as [v c Hc|v Hc|v a b xa xb Hc Ha IHa Hb IHb
                 |v a b xa xb Hc Ha IHa Hb IHb|v a k xa z Hc Ha IHa Hz
                 |v a xa Hc Ha IHa|v a xa z Hc Ha IHa Hz|v a xa Hc Ha IHa
                 |v a b xa xb Hc Ha IHa Hb IHb];
    intros Hval Hsm;
    pose proof (Hsm v (reach_refl _ v)) as Hsv;
    unfold smooth in Hsv;
    rewrite (tangent_unfold g data x v Hwf); unfold tangent_rule; cbv zeta;
    rewrite Hc in *;
    try (destruct IHa as (Fa & Hna & Hda);
         [intros u Hu; apply Hval; apply (Hstep v a); [unfold _prev; rewrite Hc; simpl; tauto | exact Hu]
         |intros u Hu; apply Hsm; apply (Hstep v a); [unfold _prev; rewrite Hc; simpl; tauto | exact Hu]|];
         assert (Hva : evals g d a (get_data g data a))
           by (apply Hval; eapply reach_step; [apply reach_refl | unfold _prev; rewrite Hc; simpl; tauto]);
         pose proof (Hat Fa a Hna Hva) as Eqa;
         assert (Exa : xa = get_data g data a) by (eapply evals_fun; eassumption));
    try (destruct IHb as (Fb & Hnb & Hdb);
         [intros u Hu; apply Hval; apply (Hstep v b); [unfold _prev; rewrite Hc; simpl; tauto | exact Hu]
         |intros u Hu; apply Hsm; apply (Hstep v b); [unfold _prev; rewrite Hc; simpl; tauto | exact Hu]|];
         assert (Hvb : evals g d b (get_data g data b))
           by (apply Hval; eapply reach_step; [apply reach_refl | unfold _prev; rewrite Hc; simpl; tauto]);
         pose proof (Hat Fb b Hnb Hvb) as Eqb;
         assert (Exb : xb = get_data g data b) by (eapply evals_fun; eassumption)).
  - (* Const *)
    exists (fct_cte c). split.
    + apply near_all. intros t. now apply ev_const.
    + apply derivable_pt_lim_const.
  - (* Value *)
    destruct (Nat.eqb_spec v x) as [->|Hne].
    + exists Ranalysis1.id. split.
      * apply near_all. intros t.
        eapply evals_eq; [apply ev_leaf; exact Hc|]. now rewrite upd_eq.
      * apply derivable_pt_lim_id.
    + exists (fct_cte (d v)). split.
      * apply near_all. intros t.
        eapply evals_eq; [apply ev_leaf; exact Hc|]. now rewrite upd_neq.
      * apply derivable_pt_lim_const.
  - (* AddValue *)
    exists (fun t => Fa t + Fb t). split.
    + apply (near_mono _ _ _ (fun t H => ev_add g _ v a b _ _ Hc (proj1 H) (proj2 H))).
      now apply near_and.
    + now apply (derivable_pt_lim_plus Fa Fb).
  - (* MulValue *)
    exists (fun t => Fa t * Fb t). split.
    + apply (near_mono _ _ _ (fun t H => ev_mul g _ v a b _ _ Hc (proj1 H) (proj2 H))).
      now apply near_and.
    + rewrite <- Eqa, <- Eqb. now apply (derivable_pt_lim_mult Fa Fb).
  - (* PowValue *)
    subst xa.
    destruct (pow_backward_defined _ _ _ Hz Hsv) as (p & Ep). rewrite Ep.
    destruct (pow_rule _ _ _ _ Hz Ep Hsv) as (P & HnP & HdP).
    exists (comp P Fa). split.
    + rewrite <- Eqa in HnP.
      pose proof (near_and _ _ _ Hna (near_comp Fa (d x) _ _ Hda HnP)) as Hn.
      revert Hn. apply near_mono. intros t [H1 H2].
      eapply ev_pow; eassumption.
    + apply derivable_pt_lim_comp; [exact Hda|]. now rewrite Eqa.
  - (* ReluValue *)
    subst xa. unfold get_data at 1. rewrite Hc.
    assert (Ev : evals g d v (get_data g data v)) by (apply Hval, reach_refl).
    assert (Edv : get_data g data v
                  = float_gt (get_data g data a) 0 * get_data g data a).
    { eapply evals_fun; [exact Ev|]. eapply ev_relu; eassumption. }
    unfold get_data in Edv at 1. rewrite Hc in Edv. rewrite Edv, float_gt_relu.
    exists (fun t => float_gt (get_data g data a) 0 * Fa t). split.
    + pose proof (float_gt_near Fa (fct_cte 0) (d x) _ 0 Hda
                    (derivable_pt_lim_const 0 (d x))) as Hgt.
      unfold fct_cte in Hgt. rewrite Eqa in Hgt. specialize (Hgt Hsv).
      pose proof (near_and _ _ _ Hna Hgt) as Hn.
      revert Hn. apply near_mono. intros t [H1 H2].
      rewrite <- H2. eapply ev_relu; eassumption.
    + apply (derivable_pt_lim_scal Fa). exact Hda.
  - (* LogValue *)
    subst xa.
    assert (Hpos : 0 < get_data g data a).
    { unfold math_log in Hz. now destruct (Rlt_dec 0 _). }
    destruct (log_rule _ Hpos) as (Hnl & Hdl).
    exists (comp ln Fa). split.
    + rewrite <- Eqa in Hnl.
      pose proof (near_and _ _ _ Hna (near_comp Fa (d x) _ _ Hda Hnl)) as Hn.
      revert Hn. apply near_mono. intros t [H1 H2].
      eapply ev_log; eassumption.
    + apply derivable_pt_lim_comp; [exact Hda|]. now rewrite Eqa.
  - (* ExpValue *)
    subst xa. exists (comp Rtrigo_def.exp Fa). split.
    + revert Hna. apply near_mono. intros t H1. now apply (ev_exp g _ v a).
    + apply derivable_pt_lim_comp; [exact Hda|]. rewrite Eqa.
      apply derivable_pt_lim_exp.
  - (* Max *)
    subst xa xb.
    set (lb := float_gt (get_data g data a) (get_data g data b)).
    exists (fun t => lb * Fa t + (1 - lb) * Fb t). split.
    + pose proof (float_gt_near Fa Fb (d x) _ _ Hda Hdb) as Hgt.
      rewrite Eqa, Eqb in Hgt. specialize (Hgt Hsv).
      pose proof (near_and _ _ _ (near_and _ _ _ Hna Hnb) Hgt) as Hn.
      revert Hn. apply near_mono. intros t [[H1 H2] H3].
      unfold lb. rewrite <- H3. eapply ev_max; eassumption.
    + apply (derivable_pt_lim_plus (fun t => lb * Fa t) (fun t => (1 - lb) * Fb t)).
      * now apply (derivable_pt_lim_scal Fa).
      * now apply (derivable_pt_lim_scal Fb).
Qed.

Lemma Rsum_hit T a w (f : id -> R) :
  NoDup T -> In a T \/ f a = 0 ->
  Rsum (fun c => hit c a w * f c) T = w * f a.
Proof.
  intros Hnd [Hin|Hz].
  - rewrite (Rsum_pick _ T a Hnd Hin).
    + now rewrite hit_eq.
    + intros u _ Hne. rewrite hit_neq by exact Hne. ring.
  - destruct (in_dec Nat.eq_dec a T) as [Hin|Hin].
    + rewrite (Rsum_pick _ T a Hnd Hin).
      * now rewrite hit_eq.
      * intros u _ Hne. rewrite hit_neq by exact Hne. ring.
    + rewrite Hz, Rmult_0_r. apply Rsum_zero. intros u Hu.
      rewrite hit_neq; [ring|]. intros ->. contradiction.
Qed.

(** The tangent equations: the derivative of a listed node is its own
    perturbation plus what its operands pass up, each weighted by the
    factor that the rule of the node applies to the gradient. *)
Lemma tangent_equation g data x T u :
  wf g -> cls g x = Value -> NoDup T ->
  topo_sorted (_prev g) (is_const g) T -> In u T ->
  tangent g data x u
  = (if Nat.eqb u x then 1 else 0)
    + Rsum (fun c => contribution g data u 1 c * tangent g data x c) T.
Proof.
  intros Hwf Hx Hnd Hts Hu.
  assert (Hop : forall c, In c (_prev g u) ->
            In c T \/ tangent g data x c = 0).
  { intros c Hc. destruct (is_const g c) eqn:Ec.
    - right. rewrite tangent_unfold by exact Hwf. unfold tangent_rule.
      unfold is_const in Ec. now destruct (cls g c).
    - left. eapply topo_sorted_closed; eassumption. }
  assert (Hsplit : forall f1 f2 : id -> R,
            Rsum (fun c => (f1 c + f2 c) * tangent g data x c) T
            = Rsum (fun c => f1 c * tangent g data x c) T
              + Rsum (fun c => f2 c * tangent g data x c) T).
  { intros f1 f2. rewrite <- Rsum_plus. apply Rsum_ext. intros; ring. }
  rewrite tangent_unfold by exact Hwf.
  unfold tangent_rule, contribution, _prev in *. cbv zeta.
  destruct (Nat.eqb_spec u x) as [->|Hne].
  - rewrite Hx. rewrite Rsum_zero; [lra | intros; ring].
  - destruct (cls g u) as [c| |a b|a b|a k|a|a|a|a b] eqn:Ec; simpl in Hop;
      rewrite ?Hsplit, ?Rsum_hit by (auto; apply Hop; tauto);
      try (rewrite Rsum_zero by (intros; ring)); try lra.
    destruct (math_pow _ _).
    + rewrite Rsum_hit by (auto; apply Hop; tauto). lra.
    + rewrite Rsum_zero by (intros; ring). lra.
Qed.

(** Gradients that satisfy the adjoint equations of a root [r] are the
    derivatives of the value of [r]. *)
Lemma adjoint_is_derivative g d x r T d' G :
  wf g -> cls g x = Value ->
  NoDup T -> topo_sorted (_prev g) (is_const g) T ->
  (forall u, In u T <-> reach (_prev g) r u /\ is_const g u = false) ->
  In r T -> swept g d T d' ->
  (forall u, In u T -> smooth g d' u) ->
  (forall v, G v = (if Nat.eqb v r then 1 else 0)
                   + Rsum (fun u => contribution g d' u (G u) v) T) ->
  exists F : R -> R,
    near (d x) (fun t => evals g (upd d x t) r (F t)) /\
    derivable_pt_lim F (d x) (G x).
Proof.
  intros Hwf Hx Hnd Hts Hin Hr [Hsw _] Hsm HG.
  assert (Hval : forall u, reach (_prev g) r u ->
            evals g d u (get_data g d' u)).
  { intros u Hu. unfold get_data. destruct (cls g u) eqn:Ec;
      try (apply Hsw, Hin; split; [exact Hu | unfold is_const; now rewrite Ec]).
    now apply ev_const. }
  assert (Hsm' : forall u, reach (_prev g) r u -> smooth g d' u).
  { intros u Hu. destruct (is_const g u) eqn:Ec.
    - unfold smooth. unfold is_const in Ec. now destruct (cls g u).
    - apply Hsm, Hin. now split. }
  destruct (tangent_is_derivative g d d' x Hwf Hx r _ (Hval r (reach_refl _ r))
              Hval Hsm') as (F & HnF & HdF).
  exists F. split; [exact HnF|].
  eapply derivable_pt_lim_eq; [exact HdF|].
  pose proof (adjoint_tangent (contribution g d') (contribution_linear g d') T
                (fun v => if Nat.eqb v r then 1 else 0) G
                (fun u => if Nat.eqb u x then 1 else 0) (tangent g d' x)
                (fun v _ => HG v)
                (fun u Hu => tangent_equation g d' x T u Hwf Hx Hnd Hts Hu))
    as Hdual.
  assert (Er : Rsum (fun c => (if Nat.eqb c r then 1 else 0) * tangent g d' x c) T
               = tangent g d' x r).
  { rewrite (Rsum_pick _ T r Hnd Hr).
    - rewrite Nat.eqb_refl. ring.
    - intros u _ Hne. cbv beta. apply Nat.eqb_neq in Hne. rewrite Hne. ring. }
  cbv beta in Hdual. rewrite Er in Hdual. rewrite <- Hdual.
  destruct (in_dec Nat.eq_dec x T) as [HxT|HxT].
  - rewrite (Rsum_pick _ T x Hnd HxT).
    + rewrite Nat.eqb_refl. ring.
    + intros u _ Hne. cbv beta. apply Nat.eqb_neq in Hne. rewrite Hne. ring.
  - rewrite (Rsum_zero (fun u => G u * _)).
    2:{ intros u Hu. cbv beta.
        destruct (Nat.eqb_spec u x) as [->|]; [contradiction | ring]. }
    rewrite (HG x). destruct (Nat.eqb_spec x r) as [->|_]; [contradiction|].
    rewrite Rsum_zero; [lra|]. intros u Hu.
    apply mnist_contribution_operand. intros Hc. apply HxT.
    apply (topo_sorted_closed (_prev g) (is_const g) T u x Hts Hu Hc).
    unfold is_const. now rewrite Hx.
Qed.

(** [BaseValue.backward], run from gradients that are all 0 after a
    forward sweep: the gradient it leaves in a leaf is the derivative, with
    respect to the data of that leaf, of the data that the forward sweep
    leaves in the root. *)
Lemma mnist_backward_derivative g d x r fuel f T d' f' G :
  wf g -> (r < fuel)%nat -> cls g x = Value -> is_const g r = false ->
  topo fuel g r (fun _ => false) = Some (f, T) ->
  for_each (_forward g) T d = Some d' ->
  (forall u, In u T -> smooth g d' u) ->
  backward fuel g d' r (fun _ => false) (fun _ => 0) = Some (f', G) ->
  exists F : R -> R,
    near (d x) (fun t => exists dt,
                  for_each (_forward g) T (upd d x t) = Some dt /\
                  dt r = F t) /\
    derivable_pt_lim F (d x) (G x).
Proof.
  intros Hwf Hr Hx Hnc ET Ef Hsm Eb.
  destruct (topo_fresh g r fuel Hwf Hr)
    as (f0 & T0 & ET0 & Hnd & Hts & Hin & Hlast & _).
  rewrite ET in ET0. inversion ET0; subst f0 T0. clear ET0.
  assert (HrT : In r T).
  { destruct (Hlast Hnc) as (T' & ->). apply in_or_app. right. now left. }
  assert (Hnc' : forall u, In u T -> is_const g u = false)
    by (intros u Hu; now apply Hin in Hu).
  pose proof (forward_sweep_inv g d T d' Hnd Hts Hnc' Ef) as Hsw.
  unfold backward in Eb. rewrite ET in Eb.
  destruct (for_each (_backward g d') (rev T) (upd (fun _ => 0) r 1)) as [G0|] eqn:Es;
    [|discriminate].
  inversion Eb; subst f' G0. clear Eb.
  assert (Hop : operands_earlier (_prev g) T).
  { apply (topo_sorted_operands_earlier _ (is_const g)); auto. }
  pose proof (sweep_adjoint (_prev g) (_backward g d') (contribution g d')
                (fun u a c => mnist_backward_accumulates g d' u a c Hwf)
                (mnist_contribution_operand g d') T (upd (fun _ => 0) r 1) G
                Hop Es) as HG.
  destruct (adjoint_is_derivative g d x r T d' G Hwf Hx Hnd Hts Hin HrT Hsw Hsm)
    as (F & HnF & HdF).
  { intros v. rewrite (HG v). unfold upd. reflexivity. }
  exists F. split; [|exact HdF].
  revert HnF. apply near_mono. intros t Ht.
  destruct (forward_root g (upd d x t) r (F t) fuel Hwf Hr Hnc Ht)
    as (f1 & T1 & dt & ET1 & Edt & _ & _ & _ & Hroot).
  rewrite ET in ET1. inversion ET1; subst f1 T1.
  exists dt. split; assumption.
Qed.

(** *** The gradient of one example

    The gradient of the loss with respect to a leaf is defined from the
    operands up, by the chain rule ([tangent]), without any reverse
    sweep.  What the reverse sweep of [backward()] adds to a parameter
    is compared with it. *)

(** Gradients that satisfy the adjoint equations of a root [r] hold, in
    every leaf, the chain-rule derivative of [r] with respect to that
    leaf. *)
Lemma adjoint_is_tangent g d x r T G :
  wf g -> cls g x = Value ->
  NoDup T -> topo_sorted (_prev g) (is_const g) T -> In r T ->
  (forall v, G v = (if Nat.eqb v r then 1 else 0)
                   + Rsum (fun u => contribution g d u (G u) v) T) ->
  G x = tangent g d x r.
Proof.
  intros Hwf Hx Hnd Hts Hr HG.
  pose proof (adjoint_tangent (contribution g d) (contribution_linear g d) T
                (fun v => if Nat.eqb v r then 1 else 0) G
                (fun u => if Nat.eqb u x then 1 else 0) (tangent g d x)
                (fun v _ => HG v)
                (fun u Hu => tangent_equation g d x T u Hwf Hx Hnd Hts Hu))
    as Hdual.
  assert (Er : Rsum (fun c => (if Nat.eqb c r then 1 else 0) * tangent g d x c) T
               = tangent g d x r).
  { rewrite (Rsum_pick _ T r Hnd Hr).
    - rewrite Nat.eqb_refl. ring.
    - intros u _ Hne. cbv beta. apply Nat.eqb_neq in Hne. rewrite Hne. ring. }
  cbv beta in Hdual. rewrite Er in Hdual. rewrite <- Hdual.
  destruct (in_dec Nat.eq_dec x T) as [HxT|HxT].
  - rewrite (Rsum_pick _ T x Hnd HxT).
    + rewrite Nat.eqb_refl. ring.
    + intros u _ Hne. cbv beta. apply Nat.eqb_neq in Hne. rewrite Hne. ring.
  - rewrite (Rsum_zero (fun u => G u * _)).
    2:{ intros u Hu. cbv beta.
        destruct (Nat.eqb_spec u x) as [->|]; [contradiction | ring]. }
    rewrite (HG x). destruct (Nat.eqb_spec x r) as [->|_]; [contradiction|].
    rewrite Rsum_zero; [lra|]. intros u Hu.
    apply mnist_contribution_operand. intros Hc. apply HxT.
    apply (topo_sorted_closed (_prev g) (is_const g) T u x Hts Hu Hc).
    unfold is_const. now rewrite Hx.
Qed.

(** The gradient of the example whose data are [d], for the leaf [p]:
    the derivative of the loss with respect to [p] by the chain rule. *)
Definition example_grad (e : env) (d : id -> R) (p : id) : R :=
  tangent (g e) d p (loss e).

(** The adjoint equations of [backward()]. *)
Lemma backward_adjoint e d gr G :
  env_ok e -> backward_ e d gr = Some G ->
  forall v, G v = start_grad e gr v
                  + Rsum (fun u => contribution (g e) d u (G u) v) (topo_ e).
Proof.
  intros He E. rewrite backward_is_sweep in E by exact He.
  destruct (topo_facts e He) as (_ & _ & _ & Hop & _).
  exact (sweep_adjoint (_prev (g e)) (_backward (g e) d) (contribution (g e) d)
           (fun u a c => mnist_backward_accumulates (g e) d u a c (ok_wf e He))
           (mnist_contribution_operand (g e) d) (topo_ e) (start_grad e gr) G
           Hop E).
Qed.

(** No listed node has the loss as an operand. *)
Lemma loss_has_no_consumer e d (G : id -> R) :
  env_ok e ->
  Rsum (fun u => contribution (g e) d u (G u) (loss e)) (topo_ e) = 0.
Proof.
  intros He. destruct (topo_facts e He) as (_ & _ & Hin & _ & _).
  apply Rsum_zero. intros u Hu. apply mnist_contribution_operand.
  intros Hc. apply (ok_wf e He) in Hc. apply Hin in Hu. destruct Hu as [Hu _].
  apply (reach_le (_prev (g e)) (ok_wf e He)) in Hu. lia.
Qed.

(** [backward()] adds the gradient of the example to the gradient that
    each parameter already holds. *)
Lemma backward_adds_example_grad e d gr G p :
  env_ok e -> backward_ e d gr = Some G -> In p (params e) ->
  G p = gr p + example_grad e d p.
Proof.
  intros He E Hp.
  destruct (backward_from_zero e d gr G p He E Hp) as (G0 & E0 & ->).
  f_equal. unfold example_grad.
  destruct (topo_facts e He) as (Hnd & Hts & _ & _ & HlT).
  apply (adjoint_is_tangent (g e) d p (loss e) (topo_ e) G0 (ok_wf e He)
           (ok_leaves e He p Hp) Hnd Hts HlT).
  intros v. rewrite (backward_adjoint e d (fun _ => 0) G0 He E0 v).
  f_equal. rewrite start_grad_spec by exact He.
  destruct (Nat.eqb v (loss e)); [reflexivity|].
  now destruct (existsb (Nat.eqb v) (topo_ e) && not_in v (params e))%bool.
Qed.

(** The gradients of the examples of a batch, added up; [d] is the data
    before the batch, and the data of an example are those that its
    forward sweep leaves. *)
Fixpoint batch_grad (e : env) (batch : list (option image)) (d : id -> R)
  (p : id) : R :=
  match batch with
  | [] => 0
  | None :: batch' => batch_grad e batch' d p
  | Some im :: batch' =>
      match forward e im d with
      | Some (d', _) => example_grad e d' p + batch_grad e batch' d' p
      | None => 0
      end
  end.

Lemma batch_accumulates e batch : forall st l st' l' p,
  env_ok e -> In p (params e) ->
  for_each (example_step e) batch (st, l) = Some (st', l') ->
  grad st' p = grad st p + batch_grad e batch (data st) p.
Proof.
  induction batch as [|[im|] batch IH]; intros st l st' l' p He Hp E.
  - simpl in E. inversion E. simpl. lra.
  - cbn [for_each example_step fst snd] in E. cbn [batch_grad].
    destruct (forward e im (data st)) as [[d lo]|]; [|discriminate].
    destruct (backward_ e d (grad st)) as [gr|] eqn:Eb; [|discriminate].
    rewrite (IH _ _ _ _ p He Hp E). cbn [grad data].
    rewrite (backward_adds_example_grad e d (grad st) gr p He Eb Hp). lra.
  - cbn [for_each example_step] in E. cbn [batch_grad]. eapply IH; eassumption.
Qed.

(** What [backward()] leaves: 1 in the loss; in every other node of
    [non_params] the contributions of the listed nodes and nothing of
    what it held before; in a parameter what it held before plus those
    contributions, which add up to the gradient of the example. *)
Lemma backward_closure_spec e d gr G :
  env_ok e -> backward_ e d gr = Some G ->
  G (loss e) = 1 /\
  (forall v, In v (non_params e) -> v <> loss e ->
     G v = Rsum (fun u => contribution (g e) d u (G u) v) (topo_ e)) /\
  (forall p, In p (params e) ->
     G p = gr p + Rsum (fun u => contribution (g e) d u (G u) p) (topo_ e) /\
     G p = gr p + example_grad e d p).
Proof.
  intros He E. pose proof (backward_adjoint e d gr G He E) as HG.
  split; [|split].
  - rewrite (HG (loss e)), loss_has_no_consumer by exact He.
    unfold start_grad. rewrite upd_eq. lra.
  - intros v Hv Hne. rewrite (HG v) at 1. unfold start_grad.
    rewrite upd_neq by exact Hne. rewrite set_all_spec.
    apply existsb_In in Hv. rewrite Hv. lra.
  - intros p Hp. split.
    + rewrite (HG p) at 1. now rewrite start_grad_param.
    + now apply backward_adds_example_grad.
Qed.

(** *** The expression that a node stands for

    [builds g v e]: unfolding the node [v] of the table [g] along its
    operand fields gives the expression [e]; the unfolding may stop at any
    node, which is then written [ENode]. *)

Inductive expr : Type :=
| ENode (v : id)
| ELit (c : R)
| EAdd (a b : expr)
| EMul (a b : expr)
| EPow (a : expr) (k : R)
| ERelu (a : expr)
| ELog (a : expr)
| EExp (a : expr)
| EMax (a b : expr).

Inductive builds (g : graph) : id -> expr -> Prop :=
| b_node v : builds g v (ENode v)
| b_const v c : nth_error g v = Some (Const c) -> builds g v (ELit c)
| b_add v a b ea eb :
    nth_error g v = Some (AddValue a b) -> builds g a ea -> builds g b eb ->
    builds g v (EAdd ea eb)
| b_mul v a b ea eb :
    nth_error g v = Some (MulValue a b) -> builds g a ea -> builds g b eb ->
    builds g v (EMul ea eb)
| b_pow v a k ea :
    nth_error g v = Some (PowValue a k) -> builds g a ea ->
    builds g v (EPow ea k)
| b_relu v a ea :
    nth_error g v = Some (ReluValue a) -> builds g a ea ->
    builds g v (ERelu ea)
| b_log v a ea :
    nth_error g v = Some (LogValue a) -> builds g a ea ->
    builds g v (ELog ea)
| b_exp v a ea :
    nth_error g v = Some (ExpValue a) -> builds g a ea ->
    builds g v (EExp ea)
| b_max v a b ea eb :
    nth_error g v = Some (Max a b) -> builds g a ea -> builds g b eb ->
    builds g v (EMax ea eb).







Lemma builds_ext g G v e : ext g G -> builds g v e -> builds G v e.
Proof.
  intros He. induction 1;
    try (econstructor; try eassumption; eapply ext_nth; eassumption).
Qed.




(** *** The expressions of the constructions *)













(** *** When the backward sweep raises *)

(** After a forward sweep that went through, the rule of a listed node
    raises only at a power whose base holds 0 and whose exponent is
    below 1. *)
Definition pow_safe (g : graph) (data : id -> R) (u : id) : Prop :=
  match cls g u with
  | PowValue a k => get_data g data a <> 0 \/ 1 <= k
  | _ => True
  end.

Lemma defined_after_forward g d T d' u :
  (forall v, In v T -> is_const g v = false) ->
  topo_sorted (_prev g) (is_const g) T ->
  swept g d T d' -> In u T ->
  (defined g d' u <-> pow_safe g d' u).
Proof.
  intros Hnc Hts Hsw Hu.
  pose proof (proj1 Hsw u Hu) as Hev.
  assert (Hop : forall c, In c (_prev g u) -> evals g d c (get_data g d' c)).
  { intros c Hc. apply (swept_operand g d T d' c Hsw).
    - intros Hs. eapply topo_sorted_closed; eassumption.
    - eapply evals_operand; eassumption. }
  unfold defined, pow_safe, _prev in *.
  inversion Hev; subst;
    match goal with
    | H1 : cls g u = _ |- _ => rewrite H1 in *; simpl in Hop
    end; try tauto.
  - assert (Ea : x = get_data g d' a).
    { eapply evals_fun; [eassumption | apply Hop; now left]. }
    subst x. eapply math_pow_pred_defined; eassumption.
  - assert (Ea : x = get_data g d' a).
    { eapply evals_fun; [eassumption | apply Hop; now left]. }
    subst x. split; [tauto|]. intros _.
    match goal with
    | H : math_log _ = Some _ |- _ =>
        unfold math_log in H; destruct (Rlt_dec 0 (get_data g d' a)); [lra | discriminate]
    end.
Qed.

(** The sweep of the rules after a forward sweep over the same order:
    it goes through exactly when no listed power has a base of 0 with an
    exponent below 1. *)
Lemma backward_after_forward g r fuel f T d d' gr :
  wf g -> (r < fuel)%nat ->
  topo fuel g r (fun _ => false) = Some (f, T) ->
  for_each (_forward g) T d = Some d' ->
  ((exists G, for_each (_backward g d') (rev T) gr = Some G) <->
   (forall u, In u T -> pow_safe g d' u)).
Proof.
  intros Hwf Hr ET Ef.
  destruct (topo_fresh g r fuel Hwf Hr)
    as (f0 & T0 & ET0 & Hnd & Hts & Hin & _).
  rewrite ET in ET0. inversion ET0; subst f0 T0. clear ET0.
  assert (Hnc : forall u, In u T -> is_const g u = false)
    by (intros u Hu; now apply Hin in Hu).
  pose proof (forward_sweep_inv g d T d' Hnd Hts Hnc Ef) as Hsw.
  split.
  - intros (G & EG) u Hu.
    apply (defined_after_forward g d T d' u Hnc Hts Hsw Hu).
    apply (sweep_raises (_backward g d') (defined g d')
             (mnist_backward_raises g d') T gr G EG u Hu).
  - intros Hsafe.
    apply (sweep_defined (_backward g d') (defined g d')
             (mnist_backward_defined g d') T gr).
    intros u Hu. apply (defined_after_forward g d T d' u Hnc Hts Hsw Hu).
    now apply Hsafe.
Qed.

(** *** What a construction appends *)

(** Every node that the construction [m] appends satisfies [P]. *)
Definition adds {A} (P : node -> Prop) (m : M A) : Prop :=
  forall g x g', m g = Some (x, g') -> exists l, g' = g ++ l /\ Forall P l.

Lemma adds_ret {A} P (x : A) : adds P (ret x).
Proof.
  intros g y g' E. inversion E; subst. exists []. split.
  - now rewrite app_nil_r.
  - constructor.
Qed.

Lemma adds_bind {A B} P (m : M A) (k : A -> M B) :
  adds P m -> (forall x, adds P (k x)) -> adds P (bind m k).
Proof.
  intros Hm Hk g y g2 E. unfold bind in E.
  destruct (m g) as [[x g1]|] eqn:Em; [|discriminate].
  destruct (Hm g x g1 Em) as (l1 & -> & H1).
  destruct (Hk x _ y g2 E) as (l2 & -> & H2).
  exists (l1 ++ l2). split; [now rewrite app_assoc|].
  apply Forall_app. now split.
Qed.

Lemma adds_index {A} P (l : list A) i : adds P (index l i).
Proof.
  intros g x g' E. unfold index in E.
  destruct (nth_error l i); [|discriminate]. inversion E; subst.
  exists []. split; [now rewrite app_nil_r | constructor].
Qed.

Lemma adds_new (P : node -> Prop) n : P n -> adds P (new n).
Proof.
  intros Hn g x g' E. unfold new in E. inversion E; subst.
  exists [n]. split; [reflexivity | now constructor].
Qed.

Lemma adds_foldM {A B} P (body : A -> B -> M B) l :
  (forall a acc, adds P (body a acc)) -> forall acc, adds P (foldM body l acc).
Proof.
  intros Hb. induction l as [|a l IH]; intros acc; simpl.
  - apply adds_ret.
  - apply adds_bind; [apply Hb | exact IH].
Qed.

Lemma adds_mapM {A B} P (f : A -> M B) l :
  (forall a, adds P (f a)) -> adds P (mapM f l).
Proof.
  intros Hf. induction l as [|a l IH]; simpl.
  - apply adds_ret.
  - apply adds_bind; [apply Hf|]. intros y.
    apply adds_bind; [exact IH|]. intros ys. apply adds_ret.
Qed.

(** The only power that the trainer builds is the inverse [x ** -1] of
    [div]. *)
Definition inverse_only (n : node) : Prop :=
  match n with
  | PowValue _ k => k = -1
  | _ => True
  end.

Ltac adds_step :=
  first [ apply adds_ret
        | apply adds_index
        | apply adds_new; exact I
        | apply adds_new; reflexivity
        | apply adds_bind; [|intro]
        | apply adds_foldM; intros
        | apply adds_mapM; intros ].

Lemma adds_evalneuron n x : adds inverse_only (evalneuron n x).
Proof.
  unfold evalneuron, mul, add, relu.
  apply adds_bind; [repeat adds_step|].
  intros result. destruct (nonlin n); repeat adds_step.
Qed.

Lemma adds_evalmlp m x : adds inverse_only (evalmlp m x).
Proof.
  unfold evalmlp, evallayer. apply adds_foldM. intros l acc.
  apply adds_mapM. intros n. apply adds_evalneuron.
Qed.

Lemma adds_stable_softmax output : adds inverse_only (stable_softmax output).
Proof.
  unfold stable_softmax, sub, div, pow, mul, add, exp. repeat adds_step.
Qed.

Lemma adds_loss_of model inp expected :
  adds inverse_only (loss_of model inp expected).
Proof.
  unfold loss_of, mul, add, log.
  apply adds_bind; [apply adds_evalmlp|]. intros output.
  apply adds_bind; [apply adds_stable_softmax|]. intros sm.
  repeat adds_step.
Qed.

(** *** The shape of a model *)

(** The number of parameters, and of weights, of [MLP(nin, nouts)]. *)
Fixpoint param_count (nin : nat) (nouts : list nat) : nat :=
  match nouts with
  | [] => 0
  | nout :: rest => ((nin + 1) * nout + param_count nout rest)%nat
  end.

Fixpoint weight_count (nin : nat) (nouts : list nat) : nat :=
  match nouts with
  | [] => 0
  | nout :: rest => (nin * nout + weight_count nout rest)%nat
  end.

(** A layer of [nout] neurons with [nin] weights each. *)
Definition neuron_shape (nin : nat) (nl : bool) (n : Neuron) : Prop :=
  length (w n) = nin /\ nonlin n = nl /\
  neuron_parameters n = w n ++ [b n].

Definition layer_shape (nin nout : nat) (nl : bool) (l : Layer) : Prop :=
  length (neurons l) = nout /\
  Forall (neuron_shape nin nl) (neurons l) /\
  layer_parameters l = flat_map neuron_parameters (neurons l).

(** The layers for the sizes [sz], the first of them at position [i]. *)
Fixpoint layers_shape (sz : list nat) (i : nat) (last : Z) (ls : list Layer)
  : Prop :=
  match sz, ls with
  | nin :: ((nout :: _) as sz'), l :: ls' =>
      layer_shape nin nout (negb (Z.of_nat i =? last)%Z) l /\
      layers_shape sz' (S i) last ls'
  | nin :: (nout :: _), [] => False
  | _, [] => True
  | _, _ :: _ => False
  end.

Lemma new_neurons_layout nin nl nout : forall wd ns wd',
  new_neurons nin nout nl wd = (ns, wd') ->
  length ns = nout /\
  Forall (neuron_shape nin nl) ns /\
  nodes wd' = nodes wd ++ repeat Value ((nin + 1) * nout) /\
  flat_map neuron_parameters ns
    = seq (length (nodes wd)) ((nin + 1) * nout) /\
  (forall k, rng wd' k = rng wd (nin * nout + k)%nat).
Proof.
  induction nout as [|nout IH]; intros wd ns wd' E; simpl in E.
  - inversion E; subst. rewrite !Nat.mul_0_r. simpl. rewrite app_nil_r.
    repeat split; auto.
  - destruct (new_Neuron nin nl wd) as [n wd1] eqn:E1.
    destruct (new_neurons nin nout nl wd1) as [ns1 wd2] eqn:E2.
    inversion E; subst. clear E.
    apply new_Neuron_spec in E1. cbv zeta in E1.
    destruct E1 as (Hw & Hb & Hnl & Hp & Hn & _ & _ & _ & _ & Hr).
    apply IH in E2. destruct E2 as (Hlen & HF & Hn2 & Hps & Hr2).
    split; [simpl; now rewrite Hlen|]. split.
    { constructor; [|exact HF]. unfold neuron_shape.
      rewrite Hw, length_seq. repeat split; auto. now rewrite <- Hw. }
    split.
    { rewrite Hn2, Hn, <- app_assoc, <- repeat_app. f_equal. f_equal. lia. }
    split.
    { cbn [flat_map]. rewrite Hps, Hp, Hw, Hb, Hn, length_app, repeat_length.
      replace ((nin + 1) * S nout)%nat with (nin + 1 + (nin + 1) * nout)%nat
        by lia.
      rewrite (seq_app (nin + 1)), (seq_app nin 1). simpl.
      repeat f_equal; lia. }
    intros k. rewrite Hr2, Hr. f_equal. lia.
Qed.

Lemma new_layers_layout sz : forall i last wd ls wd',
  new_layers sz i last wd = (ls, wd') ->
  layers_shape sz i last ls /\
  map (fun l => length (neurons l)) ls = tl sz /\
  nodes wd' = nodes wd ++ repeat Value (param_count (hd 0%nat sz) (tl sz)) /\
  flat_map layer_parameters ls
    = seq (length (nodes wd)) (param_count (hd 0%nat sz) (tl sz)) /\
  (forall k, rng wd' k
             = rng wd (weight_count (hd 0%nat sz) (tl sz) + k)%nat).
Proof.
  induction sz as [|nin sz IH]; intros i last wd ls wd' E.
  - simpl in E. inversion E; subst. simpl. rewrite app_nil_r. auto.
  - destruct sz as [|nout sz'].
    + simpl in E. inversion E; subst. simpl. rewrite app_nil_r. auto.
    + rewrite new_layers_cons in E. unfold new_Layer in E.
      destruct (new_neurons nin nout _ wd) as [ns wd1] eqn:E1.
      destruct (new_layers (nout :: sz') (S i) last wd1) as [ls1 wd2] eqn:E2.
      inversion E; subst. clear E.
      apply new_neurons_layout in E1.
      destruct E1 as (Hlen & HF & Hn1 & Hp1 & Hr1).
      apply IH in E2. destruct E2 as (Hsh & Hmap & Hn2 & Hp2 & Hr2).
      cbn [hd tl] in *. cbn [param_count weight_count].
      split; [|split; [|split; [|split]]].
      * cbn [layers_shape]. split; [|exact Hsh].
        split; [exact Hlen|]. split; [exact HF | reflexivity].
      * cbn [map neurons]. now rewrite Hlen, Hmap.
      * rewrite Hn2, Hn1, <- app_assoc, <- repeat_app. reflexivity.
      * cbn [flat_map layer_parameters]. rewrite Hp1, Hp2, Hn1, length_app,
          repeat_length, seq_app. reflexivity.
      * intros k. rewrite Hr2, Hr1. f_equal. lia.
Qed.

(** [MLP(nin, nouts)]: one layer per entry of [nouts], layer [j] with
    [nouts[j]] neurons of as many weights as the layer before it is wide;
    the parameters are [param_count nin nouts] new leaves, and the
    generator has given one number per weight. *)
Lemma new_MLP_layout nin nouts wd m wd' :
  new_MLP nin nouts wd = (m, wd') ->
  layers_shape (nin :: nouts) 0 (Z.of_nat (length nouts) - 1) (layers m) /\
  map (fun l => length (neurons l)) (layers m) = nouts /\
  nodes wd' = nodes wd ++ repeat Value (param_count nin nouts) /\
  mlp_parameters m = seq (length (nodes wd)) (param_count nin nouts) /\
  (forall k, rng wd' k = rng wd (weight_count nin nouts + k)%nat).
Proof.
  unfold new_MLP. intros E.
  destruct (new_layers (nin :: nouts) 0 _ wd) as [ls wd1] eqn:E1.
  inversion E; subst. clear E.
  apply new_layers_layout in E1. exact E1.
Qed.

Lemma new_MLP_flat nin nouts wd m wd' :
  new_MLP nin nouts wd = (m, wd') ->
  mlp_parameters m = flat_map layer_parameters (layers m).
Proof.
  unfold new_MLP. intros E.
  destruct (new_layers (nin :: nouts) 0 _ wd) as [ls wd1].
  now inversion E.
Qed.

(** Layer [j] of a model of that shape. *)
Lemma layers_shape_nth sz : forall i last ls j l,
  layers_shape sz i last ls -> nth_error ls j = Some l ->
  layer_shape (nth j sz 0%nat) (nth (S j) sz 0%nat)
              (negb (Z.of_nat (i + j) =? last)%Z) l.
Proof.
  induction sz as [|nin sz IH]; intros i last ls j l Hs Hj.
  - destruct ls; [destruct j; discriminate | contradiction].
  - destruct sz as [|nout sz'].
    + destruct ls; [destruct j; discriminate | contradiction].
    + destruct ls as [|l0 ls]; [contradiction|].
      cbn [layers_shape] in Hs. destruct Hs as [H0 Hs].
      destruct j as [|j].
      * simpl in Hj. inversion Hj; subst. rewrite Nat.add_0_r. exact H0.
      * simpl in Hj. specialize (IH (S i) last ls j l Hs Hj).
        replace (i + S j)%nat with (S i + j)%nat by lia. exact IH.
Qed.

(** *** The width of the output *)

Lemma mapM_length {A B} (f : A -> M B) (l : list A) : forall g ys g',
  mapM f l g = Some (ys, g') -> length ys = length l.
Proof.
  induction l as [|a l IH]; intros g ys g' E; simpl in E.
  - inversion E. reflexivity.
  - unfold bind in E. destruct (f a g) as [[y g1]|]; [|discriminate].
    destruct (mapM f l g1) as [[ys1 g2]|] eqn:E1; [|discriminate].
    inversion E; subst. simpl. f_equal. eapply IH; eassumption.
Qed.

Lemma evalmlp_length m x g out g' :
  evalmlp m x g = Some (out, g') ->
  length out = last (map (fun l => length (neurons l)) (layers m)) (length x).
Proof.
  unfold evalmlp. generalize (layers m) as ls. intros ls. revert x g.
  induction ls as [|l ls IH]; intros x g E; simpl in E.
  - inversion E. reflexivity.
  - unfold bind in E.
    destruct (evallayer l x g) as [[x1 g1]|] eqn:E1; [|discriminate].
    apply mapM_length in E1. apply IH in E. rewrite E, E1.
    destruct ls as [|l0 ls]; [reflexivity|].
    change (map (fun l1 => length (neurons l1)) (l :: l0 :: ls))
      with (length (neurons l) :: map (fun l1 => length (neurons l1)) (l0 :: ls)).
    generalize (map (fun l1 => length (neurons l1)) (l0 :: ls)) as ns.
    intros ns. cbn [last]. destruct ns as [|n ns]; [reflexivity|].
    clear. revert n. induction ns as [|n' ns IHns]; intros n; [reflexivity|].
    cbn [last] in *. apply IHns.
Qed.

(** *** The closures on the environment that [make_main] builds *)

(** Evaluation reads the data of the plain [Value]s only. *)
Lemma evals_leaf_data g d d' v y :
  (forall u, cls g u = Value -> d u = d' u) ->
  evals g d v y -> evals g d' v y.
Proof.
  intros H. induction 1; try (econstructor; eassumption).
  rewrite (H v) by assumption. now constructor.
Qed.

(** A forward sweep leaves the data of the plain [Value]s as they are. *)
Lemma swept_leaves g d T d' :
  swept g d T d' -> forall u, cls g u = Value -> d u = d' u.
Proof.
  intros [Hin Hout] u Hu. destruct (in_dec Nat.eq_dec u T) as [HT|HT].
  - eapply evals_fun; [apply ev_leaf; exact Hu | now apply Hin].
  - symmetry. now apply Hout.
Qed.

Lemma load_pixels_spec inp : forall i pixels d,
  NoDup inp ->
  ((i + length inp <= length pixels)%nat ->
   exists d', load_pixels inp i pixels d = Some d' /\
     (forall v, ~ In v inp -> d' v = d v) /\
     (forall j v, nth_error inp j = Some v ->
        d' v = INR (nth (i + j) pixels 0%nat) / 255)) /\
  ((i <= length pixels < i + length inp)%nat ->
   load_pixels inp i pixels d = None).
Proof.
  induction inp as [|v inp IH]; intros i pixels d Hnd; cbn [load_pixels length].
  - split; [|lia]. intros _. exists d. split; [reflexivity|].
    split; [reflexivity|]. intros [|j] u H; discriminate.
  - inversion Hnd as [|? ? Hv Hnd']; subst.
    destruct (nth_error pixels i) as [px|] eqn:Epx.
    + destruct (IH (S i) pixels (upd d v (INR px / 255)) Hnd') as [Hok Hbad].
      split.
      * intros Hlen. destruct Hok as (d' & E & Hout & Hin); [lia|].
        exists d'. split; [exact E|]. split.
        -- intros u Hu. rewrite Hout by (intros H; apply Hu; now right).
           apply upd_neq. intros ->. apply Hu. now left.
        -- intros [|j] u Hj; simpl in Hj.
           ++ inversion Hj; subst u. rewrite Hout by exact Hv.
              rewrite upd_eq, Nat.add_0_r.
              now rewrite (nth_error_nth pixels i 0%nat Epx).
           ++ rewrite (Hin j u Hj). do 2 f_equal. f_equal. lia.
      * intros Hlen. apply Hbad.
        assert (i < length pixels)%nat by (apply nth_error_Some; congruence).
        lia.
    + apply nth_error_None in Epx. split; [lia | reflexivity].
Qed.

(** The sum of the terms of a cross-entropy against a one-hot target. *)
Lemma onehot_sum (F : R -> R) (L : nat) : forall (sm : list R) (base : nat),
  Rsum_list (map (fun p => fst p * F (snd p))
               (combine (map (fun j => if Nat.eqb j L then 1 else 0)
                             (seq base (length sm))) sm))
  = if (base <=? L)%nat && (L <? base + length sm)%nat
    then F (nth (L - base) sm 0) else 0.
Proof.
  induction sm as [|s sm IH]; intros base; cbn [length seq map combine Rsum_list fold_right fst snd].
  - rewrite Nat.add_0_r.
    destruct (Nat.leb_spec base L), (Nat.ltb_spec L base); simpl; try lra; lia.
  - change (fold_right Rplus 0 ?l) with (Rsum_list l). rewrite IH.
    destruct (Nat.eqb_spec base L) as [->|Hne].
    + rewrite Nat.leb_refl, Nat.sub_diag.
      destruct (Nat.ltb_spec L (L + S (length sm))); [|lia].
      destruct (Nat.leb_spec (S L) L); [lia|]. simpl. lra.
    + replace (base + S (length sm))%nat with (S base + length sm)%nat by lia.
      destruct (Nat.leb_spec base L), (Nat.leb_spec (S base) L);
        try lia; cbn [andb].
      * destruct (Nat.ltb_spec L (S base + length sm)); [|lra].
        replace (L - base)%nat with (S (L - S base)) by lia. cbn [nth]. lra.
      * lra.
Qed.

Lemma softmax_length os : length (softmax os) = length os.
Proof. unfold softmax. now rewrite !length_map. Qed.

(** Each softmax value is at most 1. *)
Lemma softmax_le_1 os x : In x (softmax os) -> 0 < x <= 1.
Proof.
  intros Hx.
  assert (Hne : os <> []).
  { intros ->. contradiction. }
  pose proof (softmax_positive os Hne) as Hpos.
  pose proof (softmax_sums_to_one os Hne) as Hsum.
  rewrite Forall_forall in Hpos. split; [now apply Hpos|].
  revert Hpos Hsum Hx. generalize (softmax os) as l. intros l Hpos.
  assert (H : forall l', (forall y, In y l' -> 0 < y) ->
            forall y, In y l' -> y <= Rsum_list l').
  { induction l' as [|a l' IH]; intros Hp y Hy; [contradiction|].
    destruct Hy as [<-|Hy]; simpl.
    - assert (0 <= Rsum_list l').
      { clear - Hp. induction l' as [|b l' IH]; simpl; [lra|].
        assert (0 < b) by (apply Hp; right; now left).
        assert (0 <= Rsum_list l').
        { apply IH. intros y [<-|Hy]; apply Hp; [now left | right; now right]. }
        lra. }
      lra.
    - assert (0 < a) by (apply Hp; now left).
      assert (y <= Rsum_list l').
      { apply IH; [|exact Hy]. intros z Hz. apply Hp. now right. }
      lra. }
  intros Hsum Hx. rewrite <- Hsum. now apply H.
Qed.

(** What [make_main] leaves in the environment that its closures
    capture. *)
Record built (dim : nat) (nouts : list nat) (ndigits : nat) (wd : world)
  (e : env) : Prop := mkBuilt {
  b_inp : inp_ e = seq (length (nodes wd)) dim;
  b_params :
    mlp_parameters (model e)
    = seq (length (nodes wd) + dim) (param_count dim nouts);
  b_expected :
    expected_onehot e
    = seq (length (nodes wd) + dim + param_count dim nouts) ndigits;
  b_loss :
    loss_of (model e) (inp_ e) (expected_onehot e)
      (nodes wd ++ repeat Value (dim + param_count dim nouts + ndigits))
    = Some (loss e, g e);
  b_flat :
    mlp_parameters (model e) = flat_map layer_parameters (layers (model e));
  b_widths : map (fun l => length (neurons l)) (layers (model e)) = nouts;
  b_shape :
    layers_shape (dim :: nouts) 0 (Z.of_nat (length nouts) - 1)
      (layers (model e));
  b_leaves :
    model_leaves
      (nodes wd ++ repeat Value (dim + param_count dim nouts + ndigits))
      (model e)
}.

Lemma make_env_built dim nouts ndigits fuel wd e wd' :
  make_env dim nouts ndigits fuel wd = Some (e, wd') ->
  built dim nouts ndigits wd e.
Proof.
  intros E. unfold make_env in E.
  destruct (new_Values dim wd) as [inp wd1] eqn:E1.
  destruct (new_MLP dim nouts wd1) as [m wd2] eqn:E2.
  destruct (new_Values ndigits wd2) as [expd wd3] eqn:E3.
  destruct (loss_of m inp expd (nodes wd3)) as [[l g1]|] eqn:E4; [|discriminate].
  destruct (topo fuel g1 l (fun _ => false)) as [[f T]|] eqn:E5; [|discriminate].
  inversion E; subst e wd'. clear E.
  apply new_Values_spec in E1. destruct E1 as [Hinp Hn1].
  pose proof (new_MLP_spec _ _ _ _ _ E2) as (k0 & _ & _ & Hfields).
  pose proof (new_MLP_flat _ _ _ _ _ E2) as Hflat.
  apply new_MLP_layout in E2. destruct E2 as (Hsh & Hw & Hn2 & Hp & _).
  apply new_Values_spec in E3. destruct E3 as [Hexp Hn3].
  set (n0 := length (nodes wd)) in *.
  set (k := param_count dim nouts) in *.
  assert (Hl1 : length (nodes wd1) = (n0 + dim)%nat)
    by (rewrite Hn1, length_app, repeat_length; reflexivity).
  assert (Hl2 : length (nodes wd2) = (n0 + dim + k)%nat)
    by (rewrite Hn2, length_app, repeat_length, Hl1; reflexivity).
  assert (Hn3' : nodes wd3 = nodes wd ++ repeat Value (dim + k + ndigits)).
  { rewrite Hn3, Hn2, Hn1, <- !app_assoc, <- !repeat_app.
    f_equal. f_equal. lia. }
  constructor; cbn [inp_ model expected_onehot loss g]; fold n0; fold k.
  - exact Hinp.
  - now rewrite Hp, Hl1.
  - now rewrite Hexp, Hl2.
  - now rewrite <- Hn3'.
  - exact Hflat.
  - exact Hw.
  - exact Hsh.
  - rewrite <- Hn3'.
    assert (Hparams : forall p, In p (mlp_parameters m) -> is_leaf (nodes wd3) p).
    { intros p Hin. rewrite Hp, Hl1 in Hin. apply in_seq in Hin.
      rewrite Hn3'. apply leaf_in_repeat. fold n0. fold k in Hin. lia. }
    unfold model_leaves. eapply Forall_impl; [|exact Hfields].
    intros ly Hly. eapply Forall_impl; [|exact Hly]. intros n Hn. split.
    + apply Forall_forall. intros v Hv. apply Hparams, Hn. now left.
    + apply Hparams, Hn. now right.
Qed.

Lemma onehot_sum_nth (F : R -> R) (L : nat) (ts sm : list R) :
  length ts = length sm ->
  (forall j, (j < length sm)%nat -> nth j ts 0 = if Nat.eqb j L then 1 else 0) ->
  (L < length sm)%nat ->
  Rsum_list (map (fun p => fst p * F (snd p)) (combine ts sm))
  = F (nth L sm 0).
Proof.
  intros Hlen Hnth HL.
  set (f := fun j : nat => if Nat.eqb j L then 1 else 0) in *.
  assert (Ets : ts = map f (seq 0 (length sm))).
  { apply (nth_ext _ _ 0 0).
    - now rewrite length_map, length_seq.
    - intros j Hj. rewrite Hlen in Hj. rewrite (Hnth j Hj).
      rewrite (nth_indep (map f (seq 0 (length sm))) 0 (f 0%nat))
        by (now rewrite length_map, length_seq).
      now rewrite map_nth, seq_nth. }
  rewrite Ets. unfold f. rewrite onehot_sum. cbn [Nat.leb andb]. rewrite Nat.sub_0_r.
  destruct (Nat.ltb_spec L (0 + length sm)); [reflexivity | lia].
Qed.

(** The images that [forward] accepts in an environment built for inputs
    of [dim] pixels and [ndigits] classes. *)
Definition valid (dim ndigits : nat) (im : image) : Prop :=
  (label im < ndigits)%nat /\ (dim <= length (pixels im))%nat.

(** The closure [forward] on the environment of [make_main]. *)
Lemma forward_closure dim nouts ndigits fuel wd e wd' :
  wf (nodes wd) ->
  make_env dim nouts ndigits fuel wd = Some (e, wd') ->
  last nouts dim = ndigits ->
  forall im d,
    (valid dim ndigits im ->
     exists d' dl output gm os,
       forward e im d
         = Some (d', - ln (nth (label im) (softmax os) 0 + 0.0001)) /\
       for_each (_forward (g e)) (topo_ e) dl = Some d' /\
       evalmlp (model e) (inp_ e)
         (nodes wd ++ repeat Value (dim + param_count dim nouts + ndigits))
         = Some (output, gm) /\
       Forall2 (evals (g e) d') output os /\
       length os = ndigits /\
       (forall j v, nth_error (inp_ e) j = Some v ->
          d' v = INR (nth j (pixels im) 0%nat) / 255) /\
       (forall j v, nth_error (expected_onehot e) j = Some v ->
          d' v = if Nat.eqb j (label im) then 1 else 0) /\
       (forall p, In p (mlp_parameters (model e)) -> d' p = d p)) /\
    (~ valid dim ndigits im -> forward e im d = None).
Proof.
  intros Hwf E Hlast im d.
  pose proof (make_env_ok _ _ _ _ _ _ _ Hwf E) as He.
  pose proof (make_env_built _ _ _ _ _ _ _ E) as Hb.
  destruct Hb as [Hinp Hpar Hexp Hloss Hflat Hwid Hsh Hml].
  set (n0 := length (nodes wd)) in *.
  set (k := param_count dim nouts) in *.
  set (g3 := nodes wd ++ repeat Value (dim + k + ndigits)) in *.
  set (base := (n0 + dim + k)%nat) in *.
  assert (Hnth : forall j, (j < ndigits)%nat ->
            nth_error (expected_onehot e) j = Some (base + j)%nat).
  { intros j Hj. rewrite Hexp. rewrite nth_error_nth' with (d := 0%nat)
      by (now rewrite length_seq).
    now rewrite seq_nth. }
  assert (Hnthi : forall j v, nth_error (inp_ e) j = Some v ->
            (j < dim)%nat /\ v = (n0 + j)%nat).
  { intros j v Hj. rewrite Hinp in Hj.
    assert (Hlt : (j < dim)%nat).
    { assert (Hl : (j < length (seq n0 dim))%nat)
        by (apply nth_error_Some; congruence).
      now rewrite length_seq in Hl. }
    split; [exact Hlt|].
    rewrite nth_error_nth' with (d := 0%nat) in Hj by (now rewrite length_seq).
    rewrite seq_nth in Hj by exact Hlt. now inversion Hj. }
  split.
  - intros [HL Hpx].
    unfold forward. rewrite (Hnth _ HL).
    set (d2 := upd (set_all (expected_onehot e) 0 d) (base + label im) 1).
    destruct (load_pixels_spec (inp_ e) 0 (pixels im) d2) as [Hok _].
    { rewrite Hinp. apply seq_NoDup. }
    destruct Hok as (d3 & E3 & Hout3 & Hin3).
    { rewrite Hinp, length_seq. lia. }
    rewrite E3.
    assert (Hwf3 : wf g3) by (unfold g3; now apply wf_leaves).
    assert (Hleaf : forall v, (n0 <= v < n0 + (dim + k + ndigits))%nat ->
              is_leaf g3 v).
    { intros v Hv. unfold g3. now apply leaf_in_repeat. }
    assert (Hil : Forall (is_leaf g3) (inp_ e)).
    { apply Forall_forall. intros v Hv. rewrite Hinp in Hv. apply in_seq in Hv.
      apply Hleaf. lia. }
    assert (Hel : Forall (is_leaf g3) (expected_onehot e)).
    { apply Forall_forall. intros v Hv. rewrite Hexp in Hv. apply in_seq in Hv.
      apply Hleaf. unfold base in Hv. lia. }
    destruct (loss_of_spec _ _ _ _ _ _ Hwf3 Hml Hil Hel Hloss)
      as (output & gm & Em & Hext & Hwf1 & Hout & Hne & Hmul & Hsem).
    destruct (ev_all (g e) output d3 Hout) as (os & Hos).
    assert (Hts : Forall2 (evals (g e) d3) (expected_onehot e)
                    (map d3 (expected_onehot e))).
    { clear - Hel Hext. induction Hel as [|v l Hv _ IH]; simpl; constructor; auto.
      apply ev_leaf. apply nth_cls. now apply (ext_nth g3). }
    assert (Hlo : length output = ndigits).
    { rewrite (evalmlp_length _ _ _ _ _ Em), Hwid, Hinp, length_seq.
      exact Hlast. }
    assert (Hle : length (expected_onehot e) = length output).
    { now rewrite Hexp, length_seq, Hlo. }
    pose proof (Hsem d3 os _ Hos Hts Hle) as Hev.
    destruct (ok_topo e He) as (fuel' & f' & Hf' & ET).
    destruct (ok_loss e He) as (a & c & Hcl).
    assert (Hnc : is_const (g e) (loss e) = false)
      by (unfold is_const; now rewrite Hcl).
    destruct (forward_root (g e) d3 (loss e) _ fuel' Hwf1 Hf' Hnc Hev)
      as (f1 & T1 & d' & ET1 & Ef & Hsw & _ & _ & Hroot).
    rewrite ET in ET1. inversion ET1; subst f1 T1. clear ET1.
    rewrite Ef.
    assert (Hlos : length os = ndigits).
    { apply Forall2_length in Hos. congruence. }
    assert (Hd3e : forall j, (j < ndigits)%nat ->
              d3 (base + j)%nat = if Nat.eqb j (label im) then 1 else 0).
    { intros j Hj. rewrite Hout3.
      - unfold d2, upd.
        destruct (Nat.eqb_spec (base + j) (base + label im)) as [Heq|Hneq].
        + replace j with (label im) by lia. now rewrite Nat.eqb_refl.
        + destruct (Nat.eqb_spec j (label im)) as [->|_]; [lia|].
          rewrite set_all_spec.
          assert (Hin : In (base + j)%nat (expected_onehot e)).
          { rewrite Hexp. apply in_seq. lia. }
          apply existsb_In in Hin. now rewrite Hin.
      - rewrite Hinp. intros Hin. apply in_seq in Hin. unfold base in Hin. lia. }
    assert (Hleafd : forall u, cls (g e) u = Value -> d3 u = d' u)
      by (apply (swept_leaves _ _ _ _ Hsw)).
    assert (Hgleaf : forall v, is_leaf g3 v -> cls (g e) v = Value).
    { intros v Hv. apply nth_cls. now apply (ext_nth g3). }
    exists d', d3, output, gm, os.
    split; [|split; [exact Ef|split; [exact Em|split; [|split; [exact Hlos|split; [|split]]]]]].
    + do 2 f_equal. rewrite Hroot. unfold cross_entropy. f_equal.
      rewrite (onehot_sum_nth (fun s => ln (s + 0.0001)) (label im)).
      * reflexivity.
      * rewrite length_map, softmax_length, Hexp, length_seq. now symmetry.
      * intros j Hj. rewrite softmax_length, Hlos in Hj.
        rewrite (nth_indep (map d3 (expected_onehot e)) 0 (d3 0%nat))
          by (now rewrite length_map, Hexp, length_seq).
        rewrite map_nth, Hexp, seq_nth by exact Hj. now apply Hd3e.
      * now rewrite softmax_length, Hlos.
    + clear - Hos Hleafd. induction Hos; constructor; auto.
      eapply evals_leaf_data; eassumption.
    + intros j v Hj. destruct (Hnthi j v Hj) as [Hlt ->].
      rewrite <- Hleafd.
      * now rewrite (Hin3 j _ Hj).
      * apply Hgleaf, Hleaf. lia.
    + intros j v Hj.
      assert (Hlt : (j < ndigits)%nat).
      { assert (Hl : (j < length (expected_onehot e))%nat)
          by (apply nth_error_Some; congruence).
        now rewrite Hexp, length_seq in Hl. }
      rewrite (Hnth j Hlt) in Hj. inversion Hj; subst v.
      rewrite <- Hleafd; [now apply Hd3e|].
      apply Hgleaf, Hleaf. unfold base. lia.
    + intros p Hp. rewrite Hpar in Hp. apply in_seq in Hp.
      rewrite <- Hleafd by (apply Hgleaf, Hleaf; fold k in Hp; lia).
      rewrite Hout3 by (rewrite Hinp; intros Hin; apply in_seq in Hin; fold n0 in Hin; lia).
      unfold d2. rewrite upd_neq by (unfold base; fold k in Hp; lia).
      rewrite set_all_spec.
      destruct (existsb (Nat.eqb p) (expected_onehot e)) eqn:Ex; [|reflexivity].
      apply existsb_In in Ex. rewrite Hexp in Ex. apply in_seq in Ex.
      unfold base in Ex. fold k in Hp. lia.
  - intros Hnv. unfold forward.
    destruct (nth_error (expected_onehot e) (label im)) as [t|] eqn:Et;
      [|reflexivity].
    assert (HL : (label im < ndigits)%nat).
    { assert (Hl : (label im < length (expected_onehot e))%nat)
        by (apply nth_error_Some; congruence).
      now rewrite Hexp, length_seq in Hl. }
    destruct (load_pixels_spec (inp_ e) 0 (pixels im)
                (upd (set_all (expected_onehot e) 0 d) t 1)) as [_ Hbad].
    { rewrite Hinp. apply seq_NoDup. }
    rewrite Hbad; [reflexivity|].
    rewrite Hinp, length_seq. unfold valid in Hnv. lia.
Qed.

(** Every power of the graph that [make_main] builds is an inverse. *)
Lemma built_inverse_only dim nouts ndigits wd e :
  built dim nouts ndigits wd e -> Forall inverse_only (nodes wd) ->
  forall u a k, cls (g e) u = PowValue a k -> k = -1.
Proof.
  intros Hb Hwd u a k Hu.
  destruct (adds_loss_of _ _ _ _ _ _ (b_loss _ _ _ _ _ Hb)) as (l & Hg & Hl).
  assert (HF : Forall inverse_only (g e)).
  { rewrite Hg. apply Forall_app. split; [apply Forall_app; split|]; auto.
    apply Forall_forall. intros n Hn. apply repeat_spec in Hn. now subst. }
  destruct (Nat.lt_ge_cases u (length (g e))) as [Hlt|Hge].
  - rewrite Forall_forall in HF. specialize (HF (cls (g e) u)).
    rewrite Hu in HF. apply HF. rewrite <- Hu. unfold cls. now apply nth_In.
  - rewrite cls_out_of_range in Hu by exact Hge. discriminate.
Qed.

Lemma evals_pow_inv g d v a k y :
  cls g v = PowValue a k -> evals g d v y ->
  exists x, evals g d a x /\ math_pow x k = Some y.
Proof.
  intros Hc H. inversion H; subst; try congruence.
  match goal with
  | H1 : cls g v = PowValue _ _ |- _ => rewrite Hc in H1; inversion H1; subst
  end.
  eauto.
Qed.

(** After [forward], [backward] does not raise. *)
Lemma backward_closure_total dim nouts ndigits fuel wd e wd' dl d' gr :
  wf (nodes wd) -> Forall inverse_only (nodes wd) ->
  make_env dim nouts ndigits fuel wd = Some (e, wd') ->
  for_each (_forward (g e)) (topo_ e) dl = Some d' ->
  exists G, backward_ e d' gr = Some G.
Proof.
  intros Hwf Hwd E Ef.
  pose proof (make_env_ok _ _ _ _ _ _ _ Hwf E) as He.
  pose proof (make_env_built _ _ _ _ _ _ _ E) as Hb.
  destruct (ok_topo e He) as (fuel' & f' & Hf' & ET).
  destruct (topo_facts e He) as (Hnd & Hts & Hin & _ & _).
  assert (Hnc : forall u, In u (topo_ e) -> is_const (g e) u = false)
    by (intros u Hu; now apply Hin in Hu).
  pose proof (forward_sweep_inv _ _ _ _ Hnd Hts Hnc Ef) as Hsw.
  unfold backward_. rewrite (ok_reverse e He).
  apply (proj2 (backward_after_forward (g e) (loss e) fuel' f' (topo_ e) dl d' _
                  (ok_wf e He) Hf' ET Ef)).
  intros u Hu. unfold pow_safe. destruct (cls (g e) u) eqn:Ec; try exact I.
  left.
  pose proof (built_inverse_only _ _ _ _ _ Hb Hwd u _ _ Ec) as ->.
  pose proof (proj1 Hsw u Hu) as Hev.
  destruct (evals_pow_inv _ _ _ _ _ _ Ec Hev) as (x & Hx & Hz).
  assert (Ea : x = get_data (g e) d' _prev0).
  { eapply evals_fun; [eassumption|].
    apply (swept_operand (g e) dl (topo_ e) d' _prev0 Hsw).
    - intros Hs. apply (topo_sorted_closed _ _ _ u _prev0 Hts Hu); [|exact Hs].
      unfold _prev. rewrite Ec. now left.
    - eauto. }
  rewrite <- Ea. intros ->.
  unfold math_pow in Hz.
  destruct (Rlt_dec 0 0); [lra|].
  destruct (Req_dec_T 0 0); [|contradiction].
  destruct (Rlt_dec 0 (-1)); [lra|].
  destruct (Req_dec_T (-1) 0); [lra | discriminate].
Qed.

(** The entries of a batch on which the loop body does not raise. *)
Definition valid_entry (dim ndigits : nat) (im : option image) : Prop :=
  match im with
  | None => True
  | Some im => valid dim ndigits im
  end.

Lemma valid_dec dim ndigits im : {valid dim ndigits im} + {~ valid dim ndigits im}.
Proof.
  unfold valid.
  destruct (lt_dec (label im) ndigits), (le_dec dim (length (pixels im)));
    [left; tauto | right; tauto | right; tauto | right; tauto].
Qed.

(** A training step raises exactly when the batch holds an image whose
    label is not a class or that has too few pixels. *)
Lemma train_batch_total dim nouts ndigits fuel wd e wd' :
  wf (nodes wd) -> Forall inverse_only (nodes wd) ->
  make_env dim nouts ndigits fuel wd = Some (e, wd') ->
  last nouts dim = ndigits ->
  forall batch st,
    (exists st' batch_loss, train_batch e batch st = Some (st', batch_loss))
    <-> Forall (valid_entry dim ndigits) batch.
Proof.
  intros Hwf Hwd E Hlast batch st.
  assert (Hloop : forall s,
            (exists s', for_each (example_step e) batch s = Some s')
            <-> Forall (valid_entry dim ndigits) batch).
  { induction batch as [|[im|] batch IH]; intros s; cbn [for_each example_step].
    - split; [constructor | eauto].
    - destruct (forward_closure _ _ _ _ _ _ _ Hwf E Hlast im (data (fst s)))
        as [Hok Hbad].
      destruct (valid_dec dim ndigits im) as [Hv|Hv].
      + destruct (Hok Hv) as (d' & dl & output & gm & os & Ef & Esw & _).
        rewrite Ef.
        destruct (backward_closure_total _ _ _ _ _ _ _ dl d' (grad (fst s))
                    Hwf Hwd E Esw) as (G & EG).
        rewrite EG. rewrite IH. split.
        * intros H. constructor; assumption.
        * intros H. now inversion H.
      + rewrite (Hbad Hv). split.
        * intros (s' & Hs). discriminate.
        * intros H. inversion H; subst. contradiction.
    - rewrite IH. split.
      + intros H. constructor; [exact I | assumption].
      + intros H. now inversion H. }
  unfold train_batch. rewrite <- (Hloop (mkStore (data st) (zero_grad e (grad st)), 0)).
  destruct (for_each (example_step e) batch _) as [[st1 l1]|]; split.
  - eauto.
  - eauto.
  - intros (st' & l & H). discriminate.
  - intros (s' & H). discriminate.
Qed.

(** *** The gradient of an example *)








(** *** What the model computes *)

(** The value of a neuron with weights [ws] and bias [bv] on the inputs
    [xs]: the bias plus the products, added from left to right, through
    [relu] when the neuron is not linear. *)
Definition neuron_value (ws : list R) (bv : R) (nl : bool) (xs : list R) : R :=
  let act := fold_left (fun acc p => acc + fst p * snd p) (combine ws xs) bv in
  if nl then float_gt act 0 * act else act.

(** The values of the outputs of a layer and of a model whose parameters
    hold the data [d]. *)
Definition layer_value (d : id -> R) (l : Layer) (xs : list R) : list R :=
  map (fun n => neuron_value (map d (w n)) (d (b n)) (nonlin n) xs) (neurons l).

Definition mlp_value (d : id -> R) (m : MLP) (xs : list R) : list R :=
  fold_left (fun xs l => layer_value d l xs) (layers m) xs.

(** The body of the loop of [evalneuron]. *)
Definition neuron_body (self : Neuron) (x : list id) (i : nat) (result : id)
  : M id :=
  wi <- index (w self) i ;;
  xi <- index x i ;;
  m <- mul wi xi ;;
  add result m.

Lemma neuron_body_run self x i result g :
  neuron_body self x i result g =
  match nth_error (w self) i, nth_error x i with
  | Some wi, Some xi =>
      Some (S (length g),
            g ++ [MulValue wi xi] ++ [AddValue result (length g)])
  | _, _ => None
  end.
Proof.
  unfold neuron_body, bind, index, mul, add, new.
  destruct (nth_error (w self) i) as [wi|]; [|reflexivity].
  destruct (nth_error x i) as [xi|]; [|reflexivity].
  rewrite length_app, <- app_assoc. simpl. f_equal. f_equal. lia.
Qed.

(** The loop of [evalneuron] raises exactly when it reaches an index at
    which the neuron has no weight. *)
Lemma neuron_loop_total self x : forall k lo result g,
  (lo + k <= length x)%nat ->
  (foldM (neuron_body self x) (seq lo k) result g <> None <->
   (k = 0 \/ lo + k <= length (w self))%nat).
Proof.
  induction k as [|k IH]; intros lo result g Hx.
  - simpl. split; [auto | discriminate].
  - cbn [seq foldM]. unfold bind. rewrite neuron_body_run.
    destruct (nth_error (w self) lo) as [wi|] eqn:Ew.
    + destruct (nth_error x lo) as [xi|] eqn:Ex.
      2:{ apply nth_error_None in Ex. lia. }
      rewrite IH by lia.
      assert (lo < length (w self))%nat by (apply nth_error_Some; congruence).
      split; intros [H0|H0]; right; lia.
    + apply nth_error_None in Ew. split; [congruence|].
      intros [H0|H0]; [discriminate | lia].
Qed.

(** [evalneuron] raises exactly when it gets more inputs than the neuron
    has weights. *)
Lemma evalneuron_total self x g :
  evalneuron self x g <> None <-> (length x <= length (w self))%nat.
Proof.
  unfold evalneuron, range. rewrite Nat.sub_0_r.
  change (fun i result => wi <- index (w self) i ;; xi <- index x i ;;
                          m <- mul wi xi ;; add result m)
    with (neuron_body self x).
  unfold bind.
  pose proof (neuron_loop_total self x (length x) 0 (b self) g
                ltac:(simpl; lia)) as H. simpl in H.
  destruct (foldM (neuron_body self x) (seq 0 (length x)) (b self) g)
    as [[r g1]|].
  - destruct (proj1 H ltac:(discriminate)) as [H0|H0].
    + split; [intros _; lia|]. intros _.
      destruct (nonlin self); unfold relu, new, ret; discriminate.
    + split; [intros _; exact H0|]. intros _.
      destruct (nonlin self); unfold relu, new, ret; discriminate.
  - split; [intros Hc; now elim Hc|]. intros Hle. exfalso.
    assert (Hn : (length x = 0 \/ length x <= length (w self))%nat) by (right; exact Hle).
    apply H in Hn. now apply Hn.
Qed.

Lemma Forall2_nth_error {A B} (P : A -> B -> Prop) l l' i a (b0 : B) :
  Forall2 P l l' -> nth_error l i = Some a -> P a (nth i l' b0).
Proof.
  intros H. revert i. induction H as [|x y l l' Hxy _ IH]; intros [|i] Hi;
    simpl in *; try discriminate.
  - now inversion Hi; subst.
  - now apply IH.
Qed.

(** One step of the loop adds the product of the weight and the input
    at its index. *)
Definition neuron_step (self : Neuron) (x : list id) (G : graph) (i : nat)
  (acc acc' : id) : Prop :=
  exists wi xi,
    nth_error (w self) i = Some wi /\ nth_error x i = Some xi /\
    forall d a yw yx,
      evals G d acc a -> evals G d wi yw -> evals G d xi yx ->
      evals G d acc' (a + yw * yx).

Lemma neuron_body_spec self x i acc :
  triple (fun G => (Forall (bnd G) (w self) /\ Forall (bnd G) x) /\ bnd G acc)
         (neuron_body self x i acc)
         (fun G acc' => bnd G acc' /\ neuron_step self x G i acc acc').
Proof.
  unfold neuron_body.
  eapply triple_bind; [apply triple_index|]. intros wi.
  eapply triple_bind; [apply triple_index|]. intros xi.
  eapply triple_bind.
  { apply triple_new_nth.
    intros G [[[[Hw Hx] _] Hwi] Hxi]. simpl. repeat constructor.
    - exact (nth_error_Forall (bnd G) (w self) i wi Hw Hwi).
    - exact (nth_error_Forall (bnd G) x i xi Hx Hxi). }
  intros m. eapply triple_conseq.
  { apply (triple_new (AddValue acc m)). }
  - intros G [[[[_ Hacc] _] _] Hm]. simpl.
    repeat constructor; [exact Hacc | eapply nth_bnd; eassumption].
  - intros G v [[[[_ Hacc] Hwi] Hxi] Hm] Hv. cbv beta in *.
    split; [eapply nth_bnd; eassumption|].
    exists wi, xi. split; [exact Hwi|]. split; [exact Hxi|].
    intros d a yw yx Ha Hyw Hyx.
    eapply ev_add; [apply nth_cls; eassumption | exact Ha |].
    eapply ev_mul; [apply nth_cls; eassumption | exact Hyw | exact Hyx].
Qed.

Lemma neuron_chain self x G d ws xs :
  Forall2 (evals G d) (w self) ws -> Forall2 (evals G d) x xs ->
  forall is_ acc0 acc,
    chain (neuron_step self x G) is_ acc0 acc ->
    forall a0, evals G d acc0 a0 ->
      evals G d acc
        (fold_left (fun a i => a + nth i ws 0 * nth i xs 0) is_ a0).
Proof.
  intros Hw Hx. induction 1 as [acc|i is_ acc acc1 acc2 Hs _ IH];
    intros a0 Ha; simpl; [exact Ha|].
  apply IH. destruct Hs as (wi & xi & Hwi & Hxi & Hev).
  apply Hev; [exact Ha | |].
  - now apply (Forall2_nth_error _ (w self) ws i).
  - now apply (Forall2_nth_error _ x xs i).
Qed.

Lemma skipn_cons_nth {A} (l : list A) (lo : nat) (a0 : A) :
  (lo < length l)%nat -> skipn lo l = nth lo l a0 :: skipn (S lo) l.
Proof.
  revert lo. induction l as [|a l IH]; intros [|lo] H; simpl in *; try lia.
  - reflexivity.
  - apply IH. lia.
Qed.

Lemma fold_indices ws xs : forall k lo a0,
  (lo + k = length xs)%nat -> (length xs <= length ws)%nat ->
  fold_left (fun a i => a + nth i ws 0 * nth i xs 0) (seq lo k) a0
  = fold_left (fun acc p => acc + fst p * snd p)
      (combine (skipn lo ws) (skipn lo xs)) a0.
Proof.
  induction k as [|k IH]; intros lo a0 Hk Hle.
  - rewrite (skipn_all2 xs) by lia. rewrite combine_nil. reflexivity.
  - rewrite (skipn_cons_nth ws lo 0), (skipn_cons_nth xs lo 0) by lia.
    cbn [seq fold_left combine fst snd]. apply IH; lia.
Qed.

(** [evalneuron]: the node it returns evaluates to the value of the
    neuron. *)
Lemma evalneuron_value self x :
  triple (fun G => (Forall (bnd G) (w self) /\ bnd G (b self))
                   /\ Forall (bnd G) x)
         (evalneuron self x)
         (fun G v => bnd G v /\
            forall d ws bv xs,
              Forall2 (evals G d) (w self) ws -> evals G d (b self) bv ->
              Forall2 (evals G d) x xs ->
              evals G d v (neuron_value ws bv (nonlin self) xs)).
Proof.
  intros g0 v g1 Hwf Hpre E.
  assert (Hlen : (length x <= length (w self))%nat).
  { apply (evalneuron_total self x g0). congruence. }
  revert g0 v g1 Hwf Hpre E. change (triple
    (fun G => (Forall (bnd G) (w self) /\ bnd G (b self)) /\ Forall (bnd G) x)
    (evalneuron self x)
    (fun G v => bnd G v /\
       forall d ws bv xs,
         Forall2 (evals G d) (w self) ws -> evals G d (b self) bv ->
         Forall2 (evals G d) x xs ->
         evals G d v (neuron_value ws bv (nonlin self) xs))).
  unfold evalneuron.
  change (fun i result => wi <- index (w self) i ;; xi <- index x i ;;
                          m <- mul wi xi ;; add result m)
    with (neuron_body self x).
  assert (Hfold : forall G d ws xs bv acc,
            Forall2 (evals G d) (w self) ws -> evals G d (b self) bv ->
            Forall2 (evals G d) x xs ->
            chain (neuron_step self x G) (range 0 (length x)) (b self) acc ->
            evals G d acc
              (fold_left (fun acc p => acc + fst p * snd p) (combine ws xs) bv)).
  { intros G d ws xs bv acc Hw Hb Hx Hc.
    pose proof (neuron_chain self x G d ws xs Hw Hx _ _ _ Hc bv Hb) as H.
    unfold range in H. rewrite Nat.sub_0_r in H.
    pose proof (Forall2_length Hw) as Lw. pose proof (Forall2_length Hx) as Lx.
    rewrite Lx in H. rewrite (fold_indices ws xs (length xs) 0 bv) in H
      by (simpl; lia). exact H. }
  eapply triple_bind.
  { eapply triple_conseq.
    { apply (triple_foldM
               (fun G => Forall (bnd G) (w self) /\ Forall (bnd G) x)
               (fun G acc => bnd G acc) (neuron_step self x)
               (neuron_body self x) (range 0 (length x))).
      intros i acc _. apply neuron_body_spec. }
    - intros G [[Hw Hb] Hx]. split; [split; assumption | assumption].
    - intros G acc _ H. exact H. }
  intros result. unfold neuron_value. cbv zeta. destruct (nonlin self).
  - eapply triple_conseq.
    { apply (triple_new (ReluValue result)). }
    + intros G [_ [Hr _]]. simpl. repeat constructor. exact Hr.
    + intros G v [_ [_ Hc]] Hv. cbv beta in *.
      split; [eapply nth_bnd; eassumption|]. intros d ws bv xs Hw Hb Hx.
      eapply ev_relu; [apply nth_cls; eassumption|].
      now apply Hfold.
  - eapply triple_conseq;
      [apply (triple_ret (fun _ => True) result) | intros; exact I |].
    intros G v [_ [Hr Hc]] ->. split; [exact Hr|].
    intros d ws bv xs Hw Hb Hx. now apply Hfold.
Qed.

(** The parameters of a neuron are leaves of the table, those of a model
    too. *)
Definition neuron_leaves (G : graph) (n : Neuron) : Prop :=
  Forall (is_leaf G) (w n) /\ is_leaf G (b n).

Lemma is_leaf_bnd G v : is_leaf G v -> bnd G v.
Proof. intros H. eapply nth_bnd; exact H. Qed.

Lemma leaves_evals G d l : Forall (is_leaf G) l -> Forall2 (evals G d) l (map d l).
Proof.
  induction 1 as [|v l Hv _ IH]; simpl; constructor; [|exact IH].
  apply ev_leaf. now apply nth_cls.
Qed.

Lemma evallayer_value l x :
  triple (fun G => Forall (neuron_leaves G) (neurons l) /\ Forall (bnd G) x)
         (evallayer l x)
         (fun G out => Forall (bnd G) out /\
            forall d xs, Forall2 (evals G d) x xs ->
              Forall2 (evals G d) out (layer_value d l xs)).
Proof.
  unfold evallayer. eapply triple_conseq.
  { apply (triple_mapM
             (fun G => Forall (neuron_leaves G) (neurons l) /\ Forall (bnd G) x)
             (fun G n v => bnd G v /\
                forall d xs, Forall2 (evals G d) x xs ->
                  evals G d v (neuron_value (map d (w n)) (d (b n)) (nonlin n) xs))).
    intros n Hn. eapply triple_conseq; [apply (evalneuron_value n x) | |].
    - intros G [Hl Hx]. rewrite Forall_forall in Hl.
      destruct (Hl n Hn) as [Hw Hb].
      split; [split|exact Hx].
      + eapply Forall_impl; [|exact Hw]. intros v. apply is_leaf_bnd.
      + now apply is_leaf_bnd.
    - intros G v [Hl Hx] [Hv Hev]. split; [exact Hv|].
      intros d xs Hxs. rewrite Forall_forall in Hl.
      destruct (Hl n Hn) as [Hw Hb].
      apply Hev; [now apply leaves_evals | | exact Hxs].
      apply ev_leaf. now apply nth_cls. }
  - auto.
  - intros G out _ H. split.
    + eapply Forall2_right; [|exact H]. intros a y [Hy _]. exact Hy.
    + intros d xs Hxs. unfold layer_value.
      clear - H Hxs. induction H as [|n v ns vs [_ Hv] _ IH]; simpl;
        constructor; [now apply Hv | exact IH].
Qed.

Lemma layers_chain G d : forall ls x0 x1,
  chain (fun l x x' =>
           forall d xs, Forall2 (evals G d) x xs ->
             Forall2 (evals G d) x' (layer_value d l xs)) ls x0 x1 ->
  forall xs, Forall2 (evals G d) x0 xs ->
    Forall2 (evals G d) x1 (fold_left (fun xs l => layer_value d l xs) ls xs).
Proof.
  induction 1 as [x0|l ls x0 x1 x2 Hs _ IH]; intros xs Hxs; simpl;
    [exact Hxs|].
  apply IH. now apply Hs.
Qed.

(** [evalmlp]: the nodes it returns evaluate to the values of the outputs
    of the model. *)
Lemma evalmlp_value m x :
  triple (fun G => Forall (fun l => Forall (neuron_leaves G) (neurons l))
                     (layers m) /\ Forall (bnd G) x)
         (evalmlp m x)
         (fun G out => Forall (bnd G) out /\
            forall d xs, Forall2 (evals G d) x xs ->
              Forall2 (evals G d) out (mlp_value d m xs)).
Proof.
  unfold evalmlp. eapply triple_conseq.
  { apply (triple_foldM
             (fun G => Forall (fun l => Forall (neuron_leaves G) (neurons l))
                         (layers m))
             (fun G x => Forall (bnd G) x)
             (fun G l x x' =>
                forall d xs, Forall2 (evals G d) x xs ->
                  Forall2 (evals G d) x' (layer_value d l xs))).
    intros l acc Hl. eapply triple_conseq; [apply (evallayer_value l acc) | |].
    - intros G [Hls Hacc]. split; [|exact Hacc].
      rewrite Forall_forall in Hls. now apply Hls.
    - intros G out _ H. exact H. }
  - auto.
  - intros G out _ [Hb Hc]. split; [exact Hb|].
    intros d xs Hxs. unfold mlp_value. now apply (layers_chain G d (layers m) x).
Qed.

(** The same without the logic of constructions. *)
Lemma evalmlp_computes m x g out g' :
  wf g -> model_leaves g m -> Forall (bnd g) x ->
  evalmlp m x g = Some (out, g') ->
  forall d xs, Forall2 (evals g' d) x xs ->
    Forall2 (evals g' d) out (mlp_value d m xs).
Proof.
  intros Hwf Hm Hx E.
  destruct (evalmlp_value m x g out g' Hwf) as (_ & _ & H); [|exact E|].
  - intros G HG. split.
    + unfold model_leaves in Hm. eapply Forall_impl; [|exact Hm].
      intros l Hl. eapply Forall_impl; [|exact Hl]. intros n [Hw Hb]. split.
      * eapply Forall_impl; [|exact Hw]. intros v Hv.
        now apply (ext_nth g G).
      * now apply (ext_nth g G).
    + eapply Forall_impl; [|exact Hx]. intros v Hv.
      now apply (ext_bnd g G).
  - apply (H g' (ext_refl g')).
Qed.

(** *** When the construction of the graph raises *)

(** The construction [m] does not raise, whatever the table, and what it
    returns satisfies [P]. *)
Definition yields {A} (P : A -> Prop) (m : M A) : Prop :=
  forall g, exists x g', m g = Some (x, g') /\ P x.

Lemma yields_ret {A} (P : A -> Prop) x : P x -> yields P (ret x).
Proof. intros H g. exists x, g. now split. Qed.

Lemma yields_new n : yields (fun _ => True) (new n).
Proof. intros g. unfold new. eauto. Qed.

Lemma yields_bind {A B} (P : A -> Prop) (Q : B -> Prop) (m : M A) (k : A -> M B) :
  yields P m -> (forall x, P x -> yields Q (k x)) -> yields Q (bind m k).
Proof.
  intros Hm Hk g. unfold bind. destruct (Hm g) as (x & g1 & -> & Hx).
  apply (Hk x Hx).
Qed.

Lemma yields_weaken {A} (P Q : A -> Prop) (m : M A) :
  yields P m -> (forall x, P x -> Q x) -> yields Q m.
Proof.
  intros Hm H g. destruct (Hm g) as (x & g1 & E & Hx). eauto.
Qed.

Lemma yields_index {A} (l : list A) i :
  (i < length l)%nat -> yields (fun _ => True) (index l i).
Proof.
  intros H g. unfold index. destruct (nth_error l i) as [x|] eqn:E; [eauto|].
  apply nth_error_None in E. lia.
Qed.

Lemma yields_mapM {A B} (f : A -> M B) l :
  (forall a, In a l -> yields (fun _ => True) (f a)) ->
  yields (fun ys => length ys = length l) (mapM f l).
Proof.
  induction l as [|a l IH]; intros Hf; simpl.
  - now apply yields_ret.
  - apply (yields_bind (fun _ => True)); [apply Hf; now left|]. intros y _.
    apply (yields_bind (fun ys => length ys = length l)).
    + apply IH. intros a' Ha'. apply Hf. now right.
    + intros ys Hys. apply yields_ret. simpl. now rewrite Hys.
Qed.

Lemma yields_foldM {A B} (body : A -> B -> M B) l :
  (forall a acc, In a l -> yields (fun _ => True) (body a acc)) ->
  forall acc, yields (fun _ => True) (foldM body l acc).
Proof.
  induction l as [|a l IH]; intros Hb acc; simpl.
  - now apply yields_ret.
  - apply (yields_bind (fun _ => True)); [apply Hb; now left|]. intros acc1 _.
    apply IH. intros a' acc' Ha'. apply Hb. now right.
Qed.

(** A loop raises when one of its iterations does. *)
Lemma foldM_fails {A B} (body : A -> B -> M B) l a :
  In a l -> (forall acc g, body a acc g = None) ->
  forall acc g, foldM body l acc g = None.
Proof.
  induction l as [|a' l IH]; intros Hin Hf acc g; [contradiction|].
  simpl. unfold bind. destruct Hin as [->|Hin].
  - now rewrite Hf.
  - destruct (body a' acc g) as [[acc1 g1]|]; [now apply IH | reflexivity].
Qed.

(** [stable_softmax] raises on an empty list only, and returns as many
    nodes as it gets. *)
Lemma stable_softmax_yields output :
  output <> [] ->
  yields (fun sm => length sm = length output) (stable_softmax output).
Proof.
  intros Hne.
  assert (Hlen : (0 < length output)%nat)
    by (destruct output; [contradiction | simpl; lia]).
  unfold stable_softmax.
  apply (yields_bind (fun _ => True)); [now apply yields_index|]. intros m0 _.
  apply (yields_bind (fun _ => True)).
  { apply yields_foldM. intros i acc Hi. unfold range in Hi. apply in_seq in Hi.
    apply (yields_bind (fun _ => True)); [apply yields_index; lia|].
    intros o _. apply yields_new. }
  intros max_ _.
  apply (yields_bind (fun l => length l = length output)).
  { apply yields_mapM. intros o _. unfold sub, mul, add.
    apply (yields_bind (fun _ => True)); [apply yields_new|]. intros c _.
    apply (yields_bind (fun _ => True)); [apply yields_new|]. intros m _.
    apply yields_new. }
  intros shiftx Hs.
  apply (yields_bind (fun l => length l = length output)).
  { eapply yields_weaken; [apply yields_mapM|].
    - intros o _. apply yields_new.
    - intros l Hl. cbv beta in Hl. congruence. }
  intros exps He.
  apply (yields_bind (fun _ => True)); [apply yields_index; lia|]. intros s0 _.
  apply (yields_bind (fun _ => True)).
  { apply yields_foldM. intros i acc Hi. unfold range in Hi. apply in_seq in Hi.
    apply (yields_bind (fun _ => True)); [apply yields_index; lia|].
    intros o _. apply yields_new. }
  intros sum_ _.
  eapply yields_weaken; [apply yields_mapM|].
  - intros o _. unfold div, pow, mul.
    apply (yields_bind (fun _ => True)); [apply yields_new|]. intros p _.
    apply yields_new.
  - intros l Hl. cbv beta in Hl. congruence.
Qed.

Lemma stable_softmax_empty g : stable_softmax [] g = None.
Proof. reflexivity. Qed.

(** A layer and a model on inputs that are not more than the weights of
    each neuron. *)
Lemma evallayer_yields l x :
  Forall (fun n => (length x <= length (w n))%nat) (neurons l) ->
  yields (fun out => length out = length (neurons l)) (evallayer l x).
Proof.
  intros H. unfold evallayer. apply yields_mapM. intros n Hn g.
  rewrite Forall_forall in H.
  pose proof (proj2 (evalneuron_total n x g) (H n Hn)) as Hs.
  destruct (evalneuron n x g) as [[v g']|]; [eauto | contradiction].
Qed.

Lemma layers_yields sz : forall i lst ls x,
  sz <> [] -> layers_shape sz i lst ls -> length x = hd 0%nat sz ->
  yields (fun out => length out = last sz 0%nat)
         (foldM (fun layer x => evallayer layer x) ls x).
Proof.
  induction sz as [|nin sz IH]; intros i lst ls x Hne Hs Hx; [contradiction|].
  destruct sz as [|nout sz'].
  - destruct ls as [|l ls]; [|contradiction]. simpl. now apply yields_ret.
  - destruct ls as [|l ls]; [contradiction|].
    cbn [layers_shape] in Hs. destruct Hs as [(Hn & HF & _) Hs].
    cbn [foldM]. apply (yields_bind (fun out => length out = nout)).
    + eapply yields_weaken; [apply evallayer_yields|].
      * eapply Forall_impl; [|exact HF]. intros n (Hw & _). simpl in Hx. lia.
      * intros out Ho. cbv beta in Ho. congruence.
    + intros out Ho.
      change (last (nin :: nout :: sz') 0%nat) with (last (nout :: sz') 0%nat).
      apply (IH (S i) lst ls out); [discriminate | exact Hs | exact Ho].
Qed.

Lemma last_cons_default {A} (l : list A) (a d0 : A) :
  last (a :: l) d0 = last l a.
Proof.
  revert a d0. induction l as [|b l IH]; intros a d0; [reflexivity|].
  change (last (a :: b :: l) d0) with (last (b :: l) d0).
  now rewrite (IH b d0), (IH b a).
Qed.

(** The loop of [loss_of] over the targets. *)
Definition loss_body (expected softmax_output : list id) (i : nat)
  (result : id) : M id :=
  exp_ <- index expected i ;;
  act <- index softmax_output i ;;
  c <- new (Const 0.0001) ;;
  s <- add act c ;;
  l <- log s ;;
  m <- mul l exp_ ;;
  add result m.

Lemma loss_of_loop model inp_ expected g :
  loss_of model inp_ expected g =
  (output <- evalmlp model inp_ ;;
   softmax_output <- stable_softmax output ;;
   result <- new (Const 0) ;;
   result <- foldM (loss_body expected softmax_output)
               (range 0 (length expected)) result ;;
   c <- new (Const (-1)) ;;
   mul result c) g.
Proof. reflexivity. Qed.

(** [loss_of] on a model of the shape [sz]: it raises exactly when the
    model has no output or fewer outputs than there are targets. *)
Lemma loss_of_total sz i lst m inp expected g :
  sz <> [] -> layers_shape sz i lst (layers m) -> length inp = hd 0%nat sz ->
  (loss_of m inp expected g <> None <->
   (1 <= last sz 0 /\ length expected <= last sz 0)%nat).
Proof.
  intros Hne Hs Hx. rewrite loss_of_loop.
  unfold bind at 1.
  destruct (layers_yields sz i lst (layers m) inp Hne Hs Hx g)
    as (output & g1 & Em & Hlen).
  unfold evalmlp. rewrite Em.
  destruct (Nat.eq_dec (length output) 0) as [H0|H0].
  { destruct output; [|discriminate]. unfold bind at 1.
    rewrite stable_softmax_empty. split; [congruence|]. simpl in Hlen. lia. }
  assert (Hout : output <> []) by (intros ->; simpl in H0; lia).
  unfold bind at 1.
  destruct (stable_softmax_yields output Hout g1) as (sm & g2 & Esm & Hsm).
  rewrite Esm. unfold bind at 1. unfold new at 1.
  destruct (le_lt_dec (length expected) (length output)) as [Hle|Hlt].
  - split; [intros _; lia|]. intros _.
    assert (Hy : yields (fun _ => True)
              (foldM (loss_body expected sm) (range 0 (length expected))
                 (length g2))).
    { apply yields_foldM. intros j acc Hj. unfold range in Hj.
      apply in_seq in Hj. unfold loss_body, add, mul, log.
      apply (yields_bind (fun _ => True)); [apply yields_index; lia|]. intros e0 _.
      apply (yields_bind (fun _ => True)); [apply yields_index; lia|]. intros a0 _.
      repeat (apply (yields_bind (fun _ => True)); [apply yields_new|]; intros ? _).
      apply yields_new. }
    unfold bind at 1.
    destruct (Hy (g2 ++ [Const 0])) as (r & g3 & -> & _).
    unfold bind, new, mul. discriminate.
  - split; [|intros; lia]. intros Hc. exfalso. apply Hc.
    unfold bind at 1.
    rewrite (foldM_fails (loss_body expected sm) (range 0 (length expected))
               (length output)); [reflexivity | |].
    + unfold range. apply in_seq. lia.
    + intros acc g0. unfold loss_body, bind, index.
      destruct (nth_error expected (length output)); [|reflexivity].
      destruct (nth_error sm (length output)) eqn:E; [|reflexivity].
      assert (length output < length sm)%nat by (apply nth_error_Some; congruence).
      lia.
Qed.

(** The three allocations at the start of [make_main]. *)
Lemma setup dim nouts ndigits wd :
  exists inp m expd mem3 rng3,
    let g3 := nodes wd
              ++ repeat Value (dim + param_count dim nouts + ndigits) in
    (forall fuel,
       make_env dim nouts ndigits fuel wd =
       match loss_of m inp expd g3 with
       | Some (loss, g) =>
           match topo fuel g loss (fun _ => false) with
           | Some (_, T) =>
               Some (mkEnv g inp m expd loss T (mlp_parameters m)
                       (filter (fun p => not_in p (mlp_parameters m)) T) (rev T),
                     mkWorld g mem3 rng3)
           | None => None
           end
       | None => None
       end) /\
    length inp = dim /\ length expd = ndigits /\
    Forall (is_leaf g3) inp /\ Forall (is_leaf g3) expd /\
    model_leaves g3 m /\
    layers_shape (dim :: nouts) 0 (Z.of_nat (length nouts) - 1) (layers m).
Proof.
  destruct (new_Values dim wd) as [inp wd1] eqn:E1.
  destruct (new_MLP dim nouts wd1) as [m wd2] eqn:E2.
  destruct (new_Values ndigits wd2) as [expd wd3] eqn:E3.
  exists inp, m, expd, (mem wd3), (rng wd3). cbv zeta.
  pose proof (new_Values_spec _ _ _ _ E1) as [Hinp Hn1].
  pose proof (new_MLP_spec _ _ _ _ _ E2) as (k0 & _ & _ & Hfields).
  pose proof (new_MLP_layout _ _ _ _ _ E2) as (Hsh & Hw & Hn2 & Hp & _).
  pose proof (new_Values_spec _ _ _ _ E3) as [Hexp Hn3].
  set (n0 := length (nodes wd)) in *.
  set (k := param_count dim nouts) in *.
  assert (Hl1 : length (nodes wd1) = (n0 + dim)%nat)
    by (rewrite Hn1, length_app, repeat_length; reflexivity).
  assert (Hl2 : length (nodes wd2) = (n0 + dim + k)%nat)
    by (rewrite Hn2, length_app, repeat_length, Hl1; reflexivity).
  assert (Hn3' : nodes wd3 = nodes wd ++ repeat Value (dim + k + ndigits)).
  { rewrite Hn3, Hn2, Hn1, <- !app_assoc, <- !repeat_app.
    f_equal. f_equal. lia. }
  rewrite <- Hn3'.
  assert (Hleaf : forall v, (n0 <= v < n0 + (dim + k + ndigits))%nat ->
            is_leaf (nodes wd3) v).
  { intros v Hv. rewrite Hn3'. now apply leaf_in_repeat. }
  split; [|split; [|split; [|split; [|split; [|split]]]]].
  - intros fuel. unfold make_env. rewrite E1, E2, E3. reflexivity.
  - now rewrite Hinp, length_seq.
  - now rewrite Hexp, length_seq.
  - apply Forall_forall. intros v Hv. rewrite Hinp in Hv. apply in_seq in Hv.
    apply Hleaf. fold n0 in Hv. lia.
  - apply Forall_forall. intros v Hv. rewrite Hexp, Hl2 in Hv.
    apply in_seq in Hv. apply Hleaf. lia.
  - assert (Hparams : forall p, In p (mlp_parameters m) -> is_leaf (nodes wd3) p).
    { intros p Hin. rewrite Hp, Hl1 in Hin. apply in_seq in Hin.
      apply Hleaf. fold k in Hin. lia. }
    unfold model_leaves. eapply Forall_impl; [|exact Hfields].
    intros ly Hly. eapply Forall_impl; [|exact Hly]. intros n Hn. split.
    + apply Forall_forall. intros v Hv. apply Hparams, Hn. now left.
    + apply Hparams, Hn. now right.
  - exact Hsh.
Qed.

(** The body of [make_main] up to the closures raises exactly when the
    model has no output or fewer outputs than there are targets. *)
Lemma make_env_total dim nouts ndigits wd :
  wf (nodes wd) ->
  ((exists fuel e wd', make_env dim nouts ndigits fuel wd = Some (e, wd')) <->
   (1 <= last nouts dim /\ ndigits <= last nouts dim)%nat).
Proof.
  intros Hwf.
  destruct (setup dim nouts ndigits wd)
    as (inp & m & expd & mem3 & rng3 & Hmk & Hli & Hle & Hil & Hel & Hml & Hsh).
  cbv zeta in *.
  set (g3 := nodes wd ++ repeat Value (dim + param_count dim nouts + ndigits)) in *.
  pose proof (loss_of_total (dim :: nouts) 0 _ m inp expd g3
                ltac:(discriminate) Hsh Hli) as Ht.
  rewrite last_cons_default, Hle in Ht.
  split.
  - intros (fuel & e & wd' & E). rewrite Hmk in E. apply Ht.
    destruct (loss_of m inp expd g3); [discriminate | discriminate].
  - intros Hc. apply Ht in Hc.
    destruct (loss_of m inp expd g3) as [[l g1]|] eqn:El; [|contradiction].
    assert (Hwf3 : wf g3) by (unfold g3; now apply wf_leaves).
    destruct (loss_of_spec _ _ _ _ _ _ Hwf3 Hml Hil Hel El)
      as (output & gm & _ & _ & Hwf1 & _).
    destruct (topo_fresh g1 l (S l) Hwf1 (Nat.lt_succ_diag_r l))
      as (f & T & ET & _).
    exists (S l). rewrite Hmk, ET. eauto.
Qed.

(** *** Reading the data set

    An open file is the list of the bytes that are still to be read; a
    call may raise. *)

Inductive exn : Type :=
| AssertionError
| StructError
| TypeError
| StopIteration.

Inductive outcome (A : Type) : Type :=
| Ret (x : A)
| Raise (e : exn).

Arguments Ret {A} x.
Arguments Raise {A} e.

Definition file := list Byte.byte.

(** [f.read(n)]: at most [n] bytes, fewer at the end of the file. *)
Definition read (n : nat) (f : file) : list Byte.byte * file :=
  (firstn n f, skipn n f).

(** [struct.unpack(">L", s)]: a big-endian unsigned 32-bit integer;
    [struct.error] unless [s] has 4 bytes. *)
Definition unpack_L (s : list Byte.byte) : outcome Z :=
  match s with
  | [b0; b1; b2; b3] =>
      Ret (((Z.of_N (Byte.to_N b0) * 256 + Z.of_N (Byte.to_N b1)) * 256
            + Z.of_N (Byte.to_N b2)) * 256 + Z.of_N (Byte.to_N b3))%Z
  | _ => Raise StructError
  end.

Definition IMAGE_HEIGHT : Z := 28%Z.
Definition IMAGE_WIDTH : Z := 28%Z.
Definition PIXEL_LENGTH : nat := Z.to_nat (IMAGE_HEIGHT * IMAGE_WIDTH).

(** An object of class [images]. *)
Record images : Type := mkImages {
  images_file : file;
  labels_file : file;
  idx : Z;
  num_images : Z;
  num_labels : Z
}.

Definition images_magic : list Byte.byte :=
  [Byte.x00; Byte.x00; Byte.x08; Byte.x03].
Definition labels_magic : list Byte.byte :=
  [Byte.x00; Byte.x00; Byte.x08; Byte.x01].

Definition bytes_eq (s s' : list Byte.byte) : bool :=
  if list_eq_dec Byte.byte_eq_dec s s' then true else false.

(** [images.read_magic], run by [__init__] on the two files just opened
    with [idx = 0]. *)
Definition read_magic (images_ labels : file) : outcome images :=
  let '(magic, images_) := read 4 images_ in
  if negb (bytes_eq magic images_magic) then Raise AssertionError else
  let '(magic, labels) := read 4 labels in
  if negb (bytes_eq magic labels_magic) then Raise AssertionError else
  let '(s, images_) := read 4 images_ in
  match unpack_L s with
  | Raise e => Raise e
  | Ret num_images =>
      let '(s, labels) := read 4 labels in
      match unpack_L s with
      | Raise e => Raise e
      | Ret num_labels =>
          if negb (num_images =? num_labels)%Z then Raise AssertionError else
          let '(nrows, images_) := read 4 images_ in
          match unpack_L nrows with
          | Raise e => Raise e
          | Ret nrows =>
              if negb (nrows =? IMAGE_HEIGHT)%Z then Raise AssertionError else
              let '(ncols, images_) := read 4 images_ in
              match unpack_L ncols with
              | Raise e => Raise e
              | Ret ncols =>
                  if negb (ncols =? IMAGE_WIDTH)%Z then Raise AssertionError
                  else Ret (mkImages images_ labels 0 num_images num_labels)
              end
          end
      end
  end.

(** [images.read_image]. *)
Definition read_image (self : images) : outcome (image * images) :=
  let '(label_bytes, labels) := read 1 (labels_file self) in
  match label_bytes with
  | [] => Raise AssertionError
  | [b] =>
      let label := Byte.to_nat b in
      let '(pixels, images_) := read PIXEL_LENGTH (images_file self) in
      match pixels with
      | [] => Raise AssertionError
      | _ =>
          Ret (mkImage label (map Byte.to_nat pixels),
               mkImages images_ labels (idx self + 1)
                        (num_images self) (num_labels self))
      end
  | _ => Raise TypeError
  end.

(** [images.next]. *)
Definition next (self : images) : outcome (image * images) :=
  if (idx self >=? num_images self)%Z then Raise StopIteration
  else read_image self.

(** [images.num_left]. *)
Definition num_left (self : images) : Z := (num_images self - idx self)%Z.

(** [list(self)]: [next] until it raises [StopIteration]. *)
Fixpoint list_ (fuel : nat) (self : images) : option (outcome (list image)) :=
  match fuel with
  | O => None
  | S fuel' =>
      match next self with
      | Raise StopIteration => Some (Ret [])
      | Raise e => Some (Raise e)
      | Ret (im, self') =>
          match list_ fuel' self' with
          | Some (Ret l) => Some (Ret (im :: l))
          | r => r
          end
      end
  end.

Lemma unpack_L_length s n : unpack_L s = Ret n -> length s = 4%nat.
Proof.
  destruct s as [|b0 [|b1 [|b2 [|b3 [|b4 s]]]]]; simpl; intros H;
    try discriminate; reflexivity.
Qed.

Lemma unpack_L_range s n : unpack_L s = Ret n -> (0 <= n < 2 ^ 32)%Z.
Proof.
  destruct s as [|b0 [|b1 [|b2 [|b3 [|b4 s]]]]]; simpl; intros H;
    try discriminate.
  injection H as <-.
  pose proof (Byte.to_N_bounded b0). pose proof (Byte.to_N_bounded b1).
  pose proof (Byte.to_N_bounded b2). pose proof (Byte.to_N_bounded b3).
  lia.
Qed.

Lemma bytes_eq_true s s' : bytes_eq s s' = true <-> s = s'.
Proof. unfold bytes_eq. destruct (list_eq_dec _ s s'); split; congruence. Qed.

(** The files that [images(...)] accepts: the two magic numbers, the same
    count in both headers, and 28 rows and 28 columns. *)
Definition well_formed (images_ labels : file) (n : Z)
  (body lbls : list Byte.byte) : Prop :=
  exists c c' r k,
    images_ = images_magic ++ c ++ r ++ k ++ body /\
    labels = labels_magic ++ c' ++ lbls /\
    unpack_L c = Ret n /\ unpack_L c' = Ret n /\
    unpack_L r = Ret IMAGE_HEIGHT /\ unpack_L k = Ret IMAGE_WIDTH.

Lemma read_magic_spec images_ labels self :
  read_magic images_ labels = Ret self <->
  exists n body lbls,
    well_formed images_ labels n body lbls /\
    self = mkImages body lbls 0 n n.
Proof.
  unfold read_magic, read. split.
  - intros H.
    destruct (bytes_eq (firstn 4 images_) images_magic) eqn:E1; [|discriminate].
    destruct (bytes_eq (firstn 4 labels) labels_magic) eqn:E2; [|discriminate].
    cbn [negb] in H.
    destruct (unpack_L (firstn 4 (skipn 4 images_))) as [n|] eqn:E3; [|discriminate].
    destruct (unpack_L (firstn 4 (skipn 4 labels))) as [n'|] eqn:E4; [|discriminate].
    destruct (Z.eqb_spec n n') as [<-|]; [|discriminate]. cbn [negb] in H.
    destruct (unpack_L (firstn 4 (skipn 4 (skipn 4 images_)))) as [r|] eqn:E5;
      [|discriminate].
    destruct (Z.eqb_spec r IMAGE_HEIGHT) as [->|]; [|discriminate]. cbn [negb] in H.
    destruct (unpack_L (firstn 4 (skipn 4 (skipn 4 (skipn 4 images_))))) as [k|] eqn:E6;
      [|discriminate].
    destruct (Z.eqb_spec k IMAGE_WIDTH) as [->|]; [|discriminate]. cbn [negb] in H.
    injection H as <-.
    apply bytes_eq_true in E1, E2.
    exists n, (skipn 4 (skipn 4 (skipn 4 (skipn 4 images_)))),
      (skipn 4 (skipn 4 labels)).
    split; [|reflexivity].
    exists (firstn 4 (skipn 4 images_)), (firstn 4 (skipn 4 labels)),
      (firstn 4 (skipn 4 (skipn 4 images_))),
      (firstn 4 (skipn 4 (skipn 4 (skipn 4 images_)))).
    rewrite <- E1, <- E2, !firstn_skipn. repeat split; assumption.
  - intros (n & body & lbls & (c & c' & r & k & -> & -> & Ec & Ec' & Er & Ek) & ->).
    pose proof (unpack_L_length _ _ Ec) as Lc.
    pose proof (unpack_L_length _ _ Ec') as Lc'.
    pose proof (unpack_L_length _ _ Er) as Lr.
    pose proof (unpack_L_length _ _ Ek) as Lk.
    assert (Hf : forall (a b : list Byte.byte), length a = 4%nat ->
              firstn 4 (a ++ b) = a /\ skipn 4 (a ++ b) = b).
    { intros a b Ha.
      destruct a as [|a0 [|a1 [|a2 [|a3 [|a4 a]]]]]; try discriminate.
      split; reflexivity. }
    destruct (Hf images_magic (c ++ r ++ k ++ body) eq_refl) as [-> ->].
    destruct (Hf labels_magic (c' ++ lbls) eq_refl) as [-> ->].
    assert (B1 : bytes_eq images_magic images_magic = true) by now apply bytes_eq_true.
    assert (B2 : bytes_eq labels_magic labels_magic = true) by now apply bytes_eq_true.
    rewrite B1, B2. cbn [negb].
    destruct (Hf c (r ++ k ++ body) Lc) as [-> ->]. rewrite Ec.
    destruct (Hf c' lbls Lc') as [-> ->]. rewrite Ec'.
    rewrite Z.eqb_refl. cbn [negb].
    destruct (Hf r (k ++ body) Lr) as [-> ->]. rewrite Er.
    rewrite Z.eqb_refl. cbn [negb].
    destruct (Hf k body Lk) as [-> ->]. rewrite Ek.
    rewrite Z.eqb_refl. reflexivity.
Qed.

(** The [k]-th image of the pixel bytes and the label bytes that follow
    the headers. *)
Definition image_at (body lbls : list Byte.byte) (k : nat) : image :=
  mkImage (Byte.to_nat (nth k lbls Byte.x00))
          (map Byte.to_nat
               (firstn PIXEL_LENGTH (skipn (PIXEL_LENGTH * k) body))).

Lemma image_at_shift body b lbls k :
  image_at body (b :: lbls) (S k)
  = image_at (skipn PIXEL_LENGTH body) lbls k.
Proof.
  unfold image_at. cbn [nth]. rewrite skipn_skipn.
  replace (PIXEL_LENGTH * S k)%nat with (PIXEL_LENGTH * k + PIXEL_LENGTH)%nat
    by lia.
  reflexivity.
Qed.

(** Enough labels and enough pixel bytes for [k] more images: every image
    but the last needs all of its bytes, the last needs one. *)
Definition enough (k : nat) (body lbls : list Byte.byte) : bool :=
  (k <=? length lbls)%nat
  && ((k =? 0)%nat || (PIXEL_LENGTH * (k - 1) <? length body)%nat).

Lemma list_spec k : forall fuel body lbls i n nl,
  (k < fuel)%nat -> (n - i = Z.of_nat k)%Z ->
  list_ fuel (mkImages body lbls i n nl)
  = Some (if enough k body lbls
          then Ret (map (image_at body lbls) (seq 0 k))
          else Raise AssertionError).
Proof.
  assert (HP : (0 < PIXEL_LENGTH)%nat) by (unfold PIXEL_LENGTH; simpl; lia).
  induction k as [|k IH]; intros fuel body lbls i n nl Hf Hk;
    (destruct fuel as [|fuel]; [lia|]); cbn [list_]; unfold next; cbn [idx num_images].
  - destruct (Z.geb_spec i n); [|lia]. reflexivity.
  - destruct (Z.geb_spec i n); [lia|].
    unfold read_image, read. cbn [labels_file images_file idx num_images num_labels].
    destruct lbls as [|b lbls].
    { reflexivity. }
    cbn [firstn length].
    destruct body as [|p body].
    { rewrite firstn_nil. unfold enough. cbn [length].
      replace (PIXEL_LENGTH * (S k - 1) <? 0)%nat with false
        by (symmetry; apply Nat.ltb_ge; lia).
      now rewrite andb_false_r. }
    destruct (firstn PIXEL_LENGTH (p :: body)) as [|q qs] eqn:Eq.
    { exfalso. destruct PIXEL_LENGTH; [lia | discriminate]. }
    rewrite <- Eq. clear Eq q qs.
    rewrite (IH fuel _ _ (i + 1)%Z n nl) by lia.
    assert (Hen : enough (S k) (p :: body) (b :: lbls)
                  = enough k (skipn PIXEL_LENGTH (p :: body)) (skipn 1 (b :: lbls))).
    { unfold enough. cbn [skipn length]. rewrite length_skipn. cbn [length].
      replace (S k - 1)%nat with k by lia.
      destruct k as [|k].
      - rewrite Nat.mul_0_r. reflexivity.
      - replace (S k - 1)%nat with k by lia. cbn [Nat.eqb orb].
        f_equal.
        destruct (Nat.ltb_spec (PIXEL_LENGTH * S k) (S (length body))),
                 (Nat.ltb_spec (PIXEL_LENGTH * k) (S (length body) - PIXEL_LENGTH));
          try reflexivity; lia. }
    rewrite Hen. cbn [skipn].
    destruct (enough k _ lbls); [|reflexivity].
    f_equal. f_equal. cbn [seq map].
    assert (E0 : image_at (p :: body) (b :: lbls) 0
                 = mkImage (Byte.to_nat b)
                     (map Byte.to_nat (firstn PIXEL_LENGTH (p :: body)))).
    { unfold image_at. cbn [nth]. rewrite Nat.mul_0_r. reflexivity. }
    rewrite E0. f_equal.
    rewrite <- seq_shift, map_map. apply map_ext. intros j.
    symmetry. apply image_at_shift.
Qed.

(** *** Shuffling and batching *)

(** [int(x)] on a float: truncation towards zero. *)
Definition py_int (x : R) : Z :=
  if Rle_dec 0 x then Int_part x else (- Int_part (- x))%Z.

(** [randbelow(n)]. *)
Definition randbelow (n : Z) (r : Random) : Z * Random :=
  let '(u, r) := random r in (py_int (IZR n * u), r).

(** The position that the index [j] denotes in [l]: a negative index
    counts from the end; IndexError outside of [-len(l) .. len(l) - 1]. *)
Definition position {A} (l : list A) (j : Z) : option nat :=
  if (0 <=? j)%Z then
    (if (j <? Z.of_nat (length l))%Z then Some (Z.to_nat j) else None)
  else if (- Z.of_nat (length l) <=? j)%Z
       then Some (Z.to_nat (Z.of_nat (length l) + j))
       else None.

(** [l[j]]. *)
Definition getitem {A} (l : list A) (j : Z) : option A :=
  match position l j with
  | Some k => nth_error l k
  | None => None
  end.

Fixpoint set_nth {A} (l : list A) (k : nat) (x : A) : list A :=
  match l, k with
  | [], _ => []
  | _ :: l', O => x :: l'
  | y :: l', S k' => y :: set_nth l' k' x
  end.

(** [l[j] = x]. *)
Definition setitem {A} (l : list A) (j : Z) (x : A) : option (list A) :=
  match position l j with
  | Some k => Some (set_nth l k x)
  | None => None
  end.

(** [x[i], x[j] = x[j], x[i]]: the right-hand side is read first, from
    left to right, then the two targets are assigned from left to right. *)
Definition swap {A} (x : list A) (i j : Z) : option (list A) :=
  match getitem x j with
  | Some xj =>
      match getitem x i with
      | Some xi =>
          match setitem x i xj with
          | Some x => setitem x j xi
          | None => None
          end
      | None => None
      end
  | None => None
  end.

(** [range(start, stop, -1)]. *)
Definition range_down (start stop : Z) : list Z :=
  map (fun k => (start - Z.of_nat k)%Z) (seq 0 (Z.to_nat (start - stop))).

(** The loop of [shuffle] over the values of [i]. *)
Fixpoint shuffle_loop {A} (is_ : list Z) (x : list A) (r : Random)
  : option (list A * Random) :=
  match is_ with
  | [] => Some (x, r)
  | i :: is' =>
      let '(j, r) := randbelow (i + 1) r in
      match swap x i j with
      | Some x => shuffle_loop is' x r
      | None => None
      end
  end.

(** [shuffle(x)]: the list after the call and the generator. *)
Definition shuffle {A} (x : list A) (r : Random) : option (list A * Random) :=
  shuffle_loop (range_down (Z.of_nat (length x) - 1) 0) x r.

(** The closure [shuffle_and_group] of [make_main]; [db] is the list it
    captures.  The batches hold images and the fill value [None]. *)
Definition shuffle_and_group (db : list image)
  (batch_size num_training_images : Z) (r : Random)
  : option (list (list (option image)) * Random) :=
  let l := if (num_training_images <? 0)%Z then db
           else firstn (Z.to_nat num_training_images) db in
  match shuffle l r with
  | Some (l, r) => Some (grouper batch_size (map Some l) None, r)
  | None => None
  end.

(** *** Facts about shuffling *)

Lemma py_int_below n u :
  (0 < n)%Z -> 0 <= u < 1 -> (0 <= py_int (IZR n * u) < n)%Z.
Proof.
  intros Hn [Hu0 Hu1]. unfold py_int.
  assert (Hn' : 0 < IZR n) by (apply IZR_lt; lia).
  assert (H0 : 0 <= IZR n * u) by (apply Rmult_le_pos; lra).
  assert (H1 : IZR n * u < IZR n) by nra.
  destruct (Rle_dec 0 (IZR n * u)); [|contradiction].
  destruct (base_Int_part (IZR n * u)) as [Hlo Hhi].
  split.
  - assert (IZR (-1) < IZR (Int_part (IZR n * u))) by (simpl; lra).
    apply lt_IZR in H. lia.
  - apply lt_IZR. lra.
Qed.

Lemma set_nth_length {A} (l : list A) : forall k x,
  length (set_nth l k x) = length l.
Proof.
  induction l as [|y l IH]; intros [|k] x; simpl; auto.
Qed.

Lemma nth_error_set_nth {A} (l : list A) : forall k x n,
  nth_error (set_nth l k x) n
  = if Nat.eqb n k then (if Nat.ltb k (length l) then Some x else None)
    else nth_error l n.
Proof.
  induction l as [|y l IH]; intros k x n.
  - destruct k, n; simpl; try reflexivity.
    now destruct (Nat.eqb n k).
  - destruct k as [|k], n as [|n]; simpl; try reflexivity.
    rewrite IH. reflexivity.
Qed.

Lemma position_in_range {A} (l : list A) (j : Z) :
  (0 <= j < Z.of_nat (length l))%Z -> position l j = Some (Z.to_nat j).
Proof.
  intros H. unfold position.
  destruct (Z.leb_spec 0 j); [|lia].
  destruct (Z.ltb_spec j (Z.of_nat (length l))); [reflexivity | lia].
Qed.

(** Exchanging two positions of a list gives a permutation of it. *)
Lemma swap_spec {A} (x : list A) (i j : Z) :
  (0 <= i < Z.of_nat (length x))%Z -> (0 <= j < Z.of_nat (length x))%Z ->
  exists x', swap x i j = Some x' /\ Permutation x x' /\ length x' = length x.
Proof.
  intros Hi Hj. unfold swap, getitem, setitem.
  rewrite (position_in_range x j Hj), (position_in_range x i Hi).
  set (a := Z.to_nat i). set (b := Z.to_nat j).
  assert (Ha : (a < length x)%nat) by (unfold a; lia).
  assert (Hb : (b < length x)%nat) by (unfold b; lia).
  destruct (nth_error x b) as [xj|] eqn:Exj.
  2:{ apply nth_error_None in Exj. lia. }
  destruct (nth_error x a) as [xi|] eqn:Exi.
  2:{ apply nth_error_None in Exi. lia. }
  rewrite position_in_range by (rewrite set_nth_length; exact Hj).
  fold b. eexists. split; [reflexivity|].
  split; [|now rewrite !set_nth_length].
  apply Permutation_nth_error. split; [now rewrite !set_nth_length|].
  exists (fun n => if Nat.eqb n b then a else if Nat.eqb n a then b else n).
  split.
  - intros n m.
    destruct (Nat.eqb_spec n b), (Nat.eqb_spec m b),
             (Nat.eqb_spec n a), (Nat.eqb_spec m a); lia.
  - intros n. rewrite !nth_error_set_nth, set_nth_length.
    destruct (Nat.eqb_spec n b) as [->|Hnb].
    + destruct (Nat.ltb_spec b (length x)); [|lia]. now rewrite Exi.
    + destruct (Nat.eqb_spec n a) as [->|Hna].
      * destruct (Nat.ltb_spec a (length x)); [|lia]. now rewrite Exj.
      * reflexivity.
Qed.

Lemma shuffle_loop_spec {A} (is_ : list Z) : forall (x : list A) (r : Random),
  (forall k, 0 <= r k < 1) ->
  Forall (fun i => (0 < i < Z.of_nat (length x))%Z) is_ ->
  exists x' r',
    shuffle_loop is_ x r = Some (x', r') /\
    Permutation x x' /\
    (forall k, r' k = r (length is_ + k)%nat).
Proof.
  induction is_ as [|i is_ IH]; intros x r Hr Hi.
  - exists x, r. split; [reflexivity|]. split; [apply Permutation_refl|].
    intros k. reflexivity.
  - inversion Hi as [|? ? Hi0 Hi']; subst.
    cbn [shuffle_loop]. unfold randbelow, random.
    pose proof (py_int_below (i + 1) (r O) ltac:(lia) (Hr O)) as Hj.
    destruct (swap_spec x i (py_int (IZR (i + 1) * r O))) as (x1 & E1 & P1 & L1);
      [lia | lia |].
    rewrite E1.
    destruct (IH x1 (fun n => r (S n))) as (x' & r' & E & P & Hr').
    { intros k. apply Hr. }
    { rewrite L1. exact Hi'. }
    exists x', r'. split; [exact E|]. split.
    + eapply Permutation_trans; eassumption.
    + intros k. rewrite Hr'. reflexivity.
Qed.

Lemma range_down_spec start :
  (0 <= start)%Z ->
  Forall (fun i => (0 < i < start + 1)%Z) (range_down start 0) /\
  length (range_down start 0) = Z.to_nat start.
Proof.
  intros Hs. unfold range_down. rewrite Z.sub_0_r. split.
  - apply Forall_forall. intros i Hi. apply in_map_iff in Hi.
    destruct Hi as (k & <- & Hk). apply in_seq in Hk. lia.
  - now rewrite length_map, length_seq.
Qed.

(** With a generator whose numbers lie in [0, 1), [shuffle] returns a
    permutation of its argument and takes [len(x) - 1] numbers. *)
Lemma shuffle_spec {A} (x : list A) (r : Random) :
  (forall k, 0 <= r k < 1) ->
  exists x' r',
    shuffle x r = Some (x', r') /\
    Permutation x x' /\
    (forall k, r' k = r (length x - 1 + k)%nat).
Proof.
  intros Hr. unfold shuffle.
  destruct x as [|a x].
  - exists [], r. split; [reflexivity|]. split; [constructor|].
    intros k. reflexivity.
  - destruct (range_down_spec (Z.of_nat (length (a :: x)) - 1)) as [HF HL].
    { cbn [length]. lia. }
    destruct (shuffle_loop_spec (range_down (Z.of_nat (length (a :: x)) - 1) 0)
                (a :: x) r Hr) as (x' & r' & E & P & Hr').
    { eapply Forall_impl; [|exact HF]. intros i Hi. cbv beta in *. lia. }
    exists x', r'. split; [exact E|]. split; [exact P|].
    intros k. rewrite Hr', HL. f_equal. cbn [length]. lia.
Qed.

(** One epoch's batches: every batch has [batch_size] entries, and read in
    order they hold each selected image once, in the shuffled order,
    followed by at least one and at most [batch_size] fill values. *)
Lemma shuffle_and_group_spec db batch_size num r :
  (forall k, 0 <= r k < 1) -> (0 < batch_size)%Z ->
  exists l' batches r' pad,
    shuffle_and_group db batch_size num r = Some (batches, r') /\
    Permutation (if (num <? 0)%Z then db else firstn (Z.to_nat num) db) l' /\
    concat batches = map Some l' ++ repeat None pad /\
    (0 < pad <= Z.to_nat batch_size)%nat /\
    Forall (fun b => Z.of_nat (length b) = batch_size) batches.
Proof.
  intros Hr Hn. unfold shuffle_and_group.
  set (sel := if (num <? 0)%Z then db else firstn (Z.to_nat num) db).
  destruct (shuffle_spec sel r Hr) as (l' & r' & E & P & _).
  rewrite E.
  destruct (grouper_spec batch_size (map Some l') None Hn)
    as (G & rest & EG & Hcat & HF & Hrest).
  exists l', (grouper batch_size (map Some l') None), r',
    (Z.to_nat (batch_size - Z.of_nat (length rest))).
  split; [reflexivity|]. split; [exact P|]. split; [|split].
  - rewrite EG, concat_app. cbn [concat]. rewrite app_nil_r, app_assoc, Hcat.
    reflexivity.
  - lia.
  - rewrite EG. apply Forall_app. split; [exact HF|].
    constructor; [|constructor].
    rewrite length_app, repeat_length. lia.
Qed.

End Mnist.

(** * Properties of the two engines and of the trainer *)

Open Scope R_scope.

(** Adding [x] to the gradient of [target] and to no other. *)
Definition routed (target : id) (x : R) (grad grad' : id -> R) : Prop :=
  forall v, grad' v = if Nat.eqb v target then grad v + x else grad v.

Definition c5_heap : Engine.heap :=
  [Engine.mkValue 2 Engine.Leaf; Engine.mkValue 2 Engine.Leaf].

Definition c5_graph : Mnist.graph := [Mnist.Value; Mnist.Value; Mnist.Max 0 1].

(** C5. The value of max(a, b) is a when a > b and b otherwise, in both
    engines; its backward rule adds the whole gradient of the output to
    the gradient of a when a.data > b.data and otherwise, ties included,
    to that of b, and changes no other gradient. *)
Theorem C5_max_routes_to_one_operand
  (h : Engine.heap) (g : Mnist.graph) (data grad : id -> R) (a b out : id) :
  (a < length h)%nat -> (b < length h)%nat ->
  Mnist.wf g -> Mnist.cls g out = Mnist.Max a b ->
  (let (h', o) := Engine.Max h a b in
   let da := Engine.data (Engine.get h' a) in
   let db := Engine.data (Engine.get h' b) in
   da = Engine.data (Engine.get h a) /\ db = Engine.data (Engine.get h b) /\
   Engine.data (Engine.get h' o) = (if Rgt_dec da db then da else db) /\
   exists grad', Engine._backward h' o grad = Some grad' /\
     routed (if Rgt_dec da db then a else b) (grad o) grad grad') /\
  (let da := Mnist.get_data g data a in
   let db := Mnist.get_data g data b in
   Mnist._forward g out data
     = Some (upd data out (if Rgt_dec da db then da else db)) /\
   exists grad', Mnist._backward g data out grad = Some grad' /\
     routed (if Rgt_dec da db then a else b) (grad out) grad grad').
Proof.
  intros Ha Hb Hwf Hcls. split.
  - unfold Engine.Max, Engine.alloc.
    set (n := Engine.mkValue
                (py_max (Engine.data (Engine.get h a)) (Engine.data (Engine.get h b)))
                (Engine.MaxOp a b)).
    assert (Hga : Engine.get (h ++ [n]) a = Engine.get h a)
      by (unfold Engine.get; now rewrite app_nth1).
    assert (Hgb : Engine.get (h ++ [n]) b = Engine.get h b)
      by (unfold Engine.get; now rewrite app_nth1).
    assert (Hnew : Engine.get (h ++ [n]) (length h) = n)
      by (unfold Engine.get; rewrite app_nth2, Nat.sub_diag by lia; reflexivity).
    cbv zeta. unfold Engine._backward. rewrite Hga, Hgb, Hnew. simpl.
    rewrite ?Hga, ?Hgb.
    split; [reflexivity|]. split; [reflexivity|]. split.
    + unfold py_max.
      destruct (Rgt_dec _ _) as [H1|H1], (Rgt_dec _ _) as [H2|H2];
        unfold Rgt in *; lra.
    + destruct (Rgt_dec _ _); eexists; (split; [reflexivity|]);
        intros v; unfold upd;
        match goal with |- context [Nat.eqb v ?x] =>
          destruct (Nat.eqb_spec v x) as [->|] end; reflexivity.
  - cbv zeta. split.
    + unfold Mnist._forward, Mnist.forward_value. rewrite Hcls. cbv zeta.
      unfold float_gt. destruct (Rgt_dec _ _); do 2 f_equal; lra.
    + assert (Hao : a <> out).
      { assert (In a (Mnist._prev g out)) as H
          by (unfold Mnist._prev; rewrite Hcls; now left).
        apply Hwf in H. lia. }
      unfold Mnist._backward. rewrite Hcls. cbv zeta.
      eexists. split; [reflexivity|]. intros v.
      unfold float_gt, upd.
      destruct (Rgt_dec _ _) as [Hgt|Hgt].
      * destruct (Nat.eqb_spec v b) as [->|Hvb].
        -- destruct (Nat.eqb_spec b a) as [->|Hba];
             [unfold Rgt in Hgt; lra|].
           destruct (Nat.eqb_spec out a); [congruence|]. ring.
        -- destruct (Nat.eqb_spec v a) as [->|]; ring.
      * destruct (Nat.eqb_spec v b) as [->|Hvb].
        -- destruct (Nat.eqb_spec out a); [congruence|].
           destruct (Nat.eqb_spec b a) as [->|Hba]; ring.
        -- destruct (Nat.eqb_spec v a) as [->|]; ring.
Qed.

Lemma C5_max_routes_to_one_operand_witness :
  (0 < length c5_heap)%nat /\ (1 < length c5_heap)%nat /\
  Mnist.wf c5_graph /\ Mnist.cls c5_graph 2 = Mnist.Max 0 1 /\
  exists grad',
    Mnist._backward c5_graph (fun _ => 2) 2 (fun _ => 1) = Some grad' /\
    routed (if Rgt_dec (Mnist.get_data c5_graph (fun _ => 2) 0)
                       (Mnist.get_data c5_graph (fun _ => 2) 1)
            then 0%nat else 1%nat) 1 (fun _ => 1) grad'.
Proof.
  assert (H0 : (0 < length c5_heap)%nat) by (simpl; lia).
  assert (H1 : (1 < length c5_heap)%nat) by (simpl; lia).
  assert (Hwf : Mnist.wf c5_graph) by (apply Mnist.mnist_wf_check_sound; reflexivity).
  assert (Hc : Mnist.cls c5_graph 2 = Mnist.Max 0 1) by reflexivity.
  repeat (split; [assumption|]).
  exact (proj2 (proj2 (C5_max_routes_to_one_operand c5_heap c5_graph
                        (fun _ => 2) (fun _ => 1) 0%nat 1%nat 2%nat H0 H1 Hwf Hc))).
Defined.

Close Scope R_scope.

(** A leaf, a constant and their sum, as built by [x.add(Const(1))]. *)
Definition c3_graph : Mnist.graph :=
  [Mnist.Value; Mnist.Const 1; Mnist.AddValue 0 1].

(** The same shape in the eager engine: [x + y]. *)
Definition c3_heap : Engine.heap :=
  [Engine.mkValue 2 Engine.Leaf; Engine.mkValue 1 Engine.Leaf;
   Engine.mkValue 3 (Engine.Add 0 1)].

(** C3, as stated, fails for [mnist.py]: the constant operand of the root
    can be reached from the root, yet the order leaves it out. *)
Lemma C3_const_operand_not_listed :
  option_map snd (Mnist.topo 3 c3_graph 2 (fun _ => false)) = Some [0; 2] /\
  reach (Mnist._prev c3_graph) 2 1 /\
  ~ In 1 [0; 2].
Proof.
  split; [reflexivity|]. split.
  - apply (reach_step _ 2 2 1); [apply reach_refl|]. simpl. tauto.
  - simpl. lia.
Qed.

(** C3 (amended). On a graph whose operands precede their consumers, with
    enough recursion depth: [build_topo] of [engine.py] returns, without
    repetition, exactly the nodes reachable from the root, each at a
    position strictly after those of all its operands, the root last, and
    the list is the left-to-right post-order with every node kept at its
    first occurrence.  [topo] of [mnist.py], run while no node is marked,
    returns the same for the nodes that are not [Const]: constants are
    never listed, every listed node comes strictly after its non-constant
    operands, a non-constant root is last and a constant root gives the
    empty order. *)
Theorem C3_topological_order
  (h : Engine.heap) (g : Mnist.graph) (r fuel : nat) :
  Engine.wf h -> Mnist.wf g -> r < fuel ->
  (exists s T,
     Engine.build_topo fuel h r (empty_set nat, []) = Some (s, T) /\
     NoDup T /\
     (forall x, In x T <-> reach (Engine._prev h) r x) /\
     (forall i x c, nth_error T i = Some x -> In c (Engine._prev h x) ->
        exists j, j < i /\ nth_error T j = Some c) /\
     (exists T', T = T' ++ [r]) /\
     T = keep_first [] (tree_post (Engine._prev h) (fun _ => false) fuel r)) /\
  (exists f T,
     Mnist.topo fuel g r (fun _ => false) = Some (f, T) /\
     NoDup T /\
     (forall x, In x T <->
        reach (Mnist._prev g) r x /\ Mnist.is_const g x = false) /\
     (forall i x c, nth_error T i = Some x -> In c (Mnist._prev g x) ->
        Mnist.is_const g c = false ->
        exists j, j < i /\ nth_error T j = Some c) /\
     (Mnist.is_const g r = false -> exists T', T = T' ++ [r]) /\
     (Mnist.is_const g r = true -> T = []) /\
     T = keep_first [] (tree_post (Mnist._prev g) (Mnist.is_const g) fuel r)).
Proof.
  intros Hh Hg Hr. split.
  - destruct (Engine.build_topo_fresh h r fuel Hh Hr)
      as (s & T & E & Hnd & Hts & Hin & Hlast & Hk).
    exists s, T. repeat (split; [assumption|]). split; [|split; assumption].
    intros i x c Hi Hc.
    apply (topo_sorted_index (Engine._prev h) (fun _ => false) T i x c); auto.
  - destruct (Mnist.topo_fresh g r fuel Hg Hr)
      as (f & T & E & Hnd & Hts & Hin & Hlast & Hempty & _ & Hk).
    exists f, T. repeat (split; [assumption|]).
    split; [|repeat (split; [assumption|]); assumption].
    intros i x c Hi Hc Hs.
    apply (topo_sorted_index (Mnist._prev g) (Mnist.is_const g) T i x c); auto.
Qed.

Lemma C3_topological_order_witness :
  Engine.wf c3_heap /\ Mnist.wf c3_graph /\ 2 < 3 /\
  (exists s T,
     Engine.build_topo 3 c3_heap 2 (empty_set nat, []) = Some (s, T) /\
     NoDup T /\
     (forall x, In x T <-> reach (Engine._prev c3_heap) 2 x) /\
     (forall i x c, nth_error T i = Some x -> In c (Engine._prev c3_heap x) ->
        exists j, j < i /\ nth_error T j = Some c) /\
     (exists T', T = T' ++ [2]) /\
     T = keep_first []
           (tree_post (Engine._prev c3_heap) (fun _ => false) 3 2)).
Proof.
  assert (Hh : Engine.wf c3_heap) by (apply Engine.engine_wf_check_sound; reflexivity).
  assert (Hg : Mnist.wf c3_graph) by (apply Mnist.mnist_wf_check_sound; reflexivity).
  assert (Hr : 2 < 3) by lia.
  repeat (split; [assumption|]).
  exact (proj1 (C3_topological_order c3_heap c3_graph 2 3 Hh Hg Hr)).
Defined.

(** C9. When the length of the input is a multiple of a positive group
    size (the empty input included), [grouper] ends its result with one
    more group made of [n] copies of the fill value; and whatever the
    length, the last group of the result holds a fill value. *)
Theorem C9_grouper_trailing_fill_group
  {A} (n k : Z) (l : list A) (fillvalue : A) :
  (0 < n)%Z -> Z.of_nat (length l) = (k * n)%Z ->
  (exists G,
     Mnist.grouper n l fillvalue = G ++ [repeat fillvalue (Z.to_nat n)] /\
     concat G = l /\ Forall (Mnist.full n) G) /\
  (forall l' : list A, exists G last,
     Mnist.grouper n l' fillvalue = G ++ [last] /\ In fillvalue last) /\
  Mnist.grouper 3 [Some 1; Some 2; Some 3; Some 4; Some 5; Some 6]%Z None
  = [[Some 1; Some 2; Some 3]; [Some 4; Some 5; Some 6]; [None; None; None]]%Z.
Proof.
  intros Hn Hlen. split; [|split; [|reflexivity]].
  - destruct (Mnist.grouper_spec n l fillvalue Hn)
      as (G & rest & E & Hcat & HF & Hr).
    assert (Hrest : rest = []).
    { pose proof (Mnist.concat_full_length n G HF) as HG.
      rewrite <- Hcat, length_app, Nat2Z.inj_add, HG in Hlen.
      destruct rest as [|x rest]; [reflexivity|]. exfalso.
      assert (Hpos : (0 < Z.of_nat (length (x :: rest)))%Z) by (simpl; lia).
      set (m := Z.of_nat (length (x :: rest))) in *.
      set (q := Z.of_nat (length G)) in *.
      assert (Hm : ((k - q) * n = m)%Z) by lia.
      destruct (Z_le_gt_dec (k - q) 0) as [Hd|Hd]; nia. }
    subst rest. rewrite app_nil_r in Hcat. simpl in E.
    rewrite Z.sub_0_r in E. exists G. auto.
  - intros l'. destruct (Mnist.grouper_spec n l' fillvalue Hn)
      as (G & rest & E & _ & _ & Hr).
    exists G, (rest ++ repeat fillvalue (Z.to_nat (n - Z.of_nat (length rest)))).
    split; [exact E|]. apply in_or_app. right.
    destruct (Z.to_nat (n - Z.of_nat (length rest))) eqn:Ek; [lia|].
    now left.
Qed.

Lemma C9_grouper_trailing_fill_group_witness :
  (0 < 3)%Z /\
  Z.of_nat (length [Some 1; Some 2; Some 3; Some 4; Some 5; Some 6]%Z)
    = (2 * 3)%Z /\
  exists G,
    Mnist.grouper 3 [Some 1; Some 2; Some 3; Some 4; Some 5; Some 6]%Z None
      = G ++ [repeat None (Z.to_nat 3)] /\
    concat G = [Some 1; Some 2; Some 3; Some 4; Some 5; Some 6]%Z /\
    Forall (Mnist.full 3) G.
Proof.
  assert (H3 : (0 < 3)%Z) by lia.
  assert (Hl : Z.of_nat (length [Some 1; Some 2; Some 3; Some 4; Some 5; Some 6]%Z)
               = (2 * 3)%Z) by reflexivity.
  split; [exact H3|]. split; [exact Hl|].
  exact (proj1 (C9_grouper_trailing_fill_group 3 2
                  [Some 1; Some 2; Some 3; Some 4; Some 5; Some 6]%Z None H3 Hl)).
Defined.

(** A group size has to be positive: with size 0 nothing is grouped. *)
Example grouper_size_zero :
  Mnist.grouper 0 [Some 1; Some 2]%Z None = [] /\
  Mnist.grouper 0 (@nil (option Z)) None = [].
Proof. split; reflexivity. Qed.

(** C8. Seven elements in groups of three with fill value [None] give two
    full groups and a last group padded with the fill value; every group
    has three elements; and the batch loop leaves the store and the batch
    loss as they are on a [None] entry, so a batch is processed as if its
    padding were not there. *)
Theorem C8_grouper_pads_and_loop_skips :
  Mnist.grouper 3
    [Some 1; Some 2; Some 3; Some 4; Some 5; Some 6; Some 7]%Z None
  = [[Some 1; Some 2; Some 3]; [Some 4; Some 5; Some 6];
     [Some 7; None; None]]%Z /\
  Forall (Mnist.full 3)
    (Mnist.grouper 3
       [Some 1; Some 2; Some 3; Some 4; Some 5; Some 6; Some 7]%Z None) /\
  (forall e st, Mnist.example_step e None st = Some st) /\
  (forall e batch st,
     for_each (Mnist.example_step e) batch st
     = for_each (Mnist.example_step e)
         (filter (fun im => match im with Some _ => true | None => false end)
                 batch) st).
Proof.
  split; [reflexivity|]. split; [|split].
  - repeat constructor.
  - reflexivity.
  - intros e batch. induction batch as [|[im|] batch IH]; intros st.
    + reflexivity.
    + cbn [filter for_each].
      destruct (Mnist.example_step e (Some im) st); [apply IH | reflexivity].
    + cbn [filter for_each Mnist.example_step]. apply IH.
Qed.

Open Scope R_scope.

(** [x * two + (x + two)]: the leaf [x] has two consumers. *)
Definition c1_heap : Engine.heap :=
  [Engine.mkValue 3 Engine.Leaf; Engine.mkValue 2 Engine.Leaf;
   Engine.mkValue 6 (Engine.Mul 0 1); Engine.mkValue 5 (Engine.Add 0 1);
   Engine.mkValue 11 (Engine.Add 2 3)].


(** On [x * two + (x + two)] with [x = 3] and [two = 2], the gradient of
    [x] is [two + 1]: both consumers count. *)
Example engine_shared_leaf_gradient :
  exists G, Engine.backward 5 c1_heap 4 (fun _ => 0) = Some G /\ G 0%nat = 3.
Proof.
  eexists. split; [reflexivity|]. unfold upd. simpl. lra.
Qed.

(** [x + x] with [x = 2], and the gradients that a first [backward] from
    the sum leaves behind. *)
Definition c2_heap : Engine.heap :=
  [Engine.mkValue 2 Engine.Leaf; Engine.mkValue 4 (Engine.Add 0 0)].

Definition c2_grad : id -> R :=
  fun v => match v with 0%nat => 2 | 1%nat => 1 | _ => 0 end.

(** The backward evaluator as the specification words it: the root's gradient is
    set to 1 and every other gradient to 0, then the rules run in reverse
    topological order. *)
Definition backward_resetting_all (fuel : nat) (h : Engine.heap) (self : id)
  (grad : id -> R) : option (id -> R) :=
  match Engine.build_topo fuel h self (empty_set nat, []) with
  | Some (_, topo) =>
      let grad := fun v => if Nat.eqb v self then 1 else 0 in
      for_each (Engine._backward h) (rev topo) grad
  | None => None
  end.

(** C2, as stated, fails: [backward] does not reset the gradients of the
    other nodes.  A second [backward] on [x + x] adds to the gradient that
    the first one left in [x]. *)
Lemma C2_backward_does_not_reset :
  (exists G0, Engine.backward 2 c2_heap 1 (fun _ => 0) = Some G0 /\
     forall v, G0 v = c2_grad v) /\
  exists G G',
    Engine.backward 2 c2_heap 1 c2_grad = Some G /\
    backward_resetting_all 2 c2_heap 1 c2_grad = Some G' /\
    G 0%nat = 4 /\ G' 0%nat = 2 /\ G 0%nat <> G' 0%nat.
Proof.
  split.
  - eexists. split; [reflexivity|].
    intros [|[|v]]; unfold upd, c2_grad; simpl; lra.
  - eexists. eexists. split; [reflexivity|]. split; [reflexivity|].
    unfold upd, c2_grad. simpl. repeat split; lra.
Qed.

(** A neuron [b + w * x] without activation, times [Const(-1)], and one
    target leaf. *)
Definition tiny_graph : Mnist.graph :=
  [Mnist.Value; Mnist.Value; Mnist.Value; Mnist.MulValue 1 0;
   Mnist.AddValue 2 3; Mnist.Const (-1); Mnist.MulValue 4 5; Mnist.Value].

Definition tiny_model : Mnist.MLP :=
  Mnist.mkMLP
    [Mnist.mkLayer [Mnist.mkNeuron [1%nat] 2%nat false [1%nat; 2%nat]]
                   [1%nat; 2%nat]]
    [1%nat; 2%nat].

Definition tiny_env : Mnist.env :=
  Mnist.mkEnv tiny_graph [0%nat] tiny_model [7%nat] 6%nat
    [2; 1; 0; 3; 4; 6]%nat [1; 2]%nat [0; 3; 4; 6]%nat [6; 4; 3; 0; 1; 2]%nat.

Lemma tiny_env_ok : Mnist.env_ok tiny_env.
Proof.
  constructor; simpl.
  - apply Mnist.mnist_wf_check_sound. reflexivity.
  - exists 7%nat. eexists. split; [lia | reflexivity].
  - reflexivity.
  - reflexivity.
  - reflexivity.
  - intros p [<-|[<-|[]]]; reflexivity.
  - repeat constructor; simpl; intuition lia.
  - exists 4%nat, 5%nat. reflexivity.
Qed.

(** One example whose single pixel is 255, followed by padding. *)
Definition tiny_batch : list (option Mnist.image) :=
  [Some (Mnist.mkImage 0 [255%nat]); None].

Definition tiny_store : Mnist.store := Mnist.mkStore (fun _ => 1) (fun _ => 0).

(** An empty world whose generator returns 1/2 forever. *)
Definition c6_world : Mnist.world :=
  Mnist.mkWorld [] (Mnist.mkStore (fun _ => 0) (fun _ => 0)) (fun _ => 1 / 2).

(** C6, as stated, fails for the bias: it is not initialised from the
    generator.  With a generator that only returns 1/2, the bias of
    [Neuron(0)] holds 0.0, which is none of its draws, and the generator
    has not moved. *)
Lemma C6_bias_is_not_drawn :
  let '(n, wd) := Mnist.new_Neuron 0 true c6_world in
  Mnist.data (Mnist.mem wd) (Mnist.b n) = 0 /\
  (forall k, Mnist.rng c6_world k = 1 / 2) /\
  ~ (exists k, Mnist.data (Mnist.mem wd) (Mnist.b n) = Mnist.rng c6_world k) /\
  (forall k, Mnist.rng wd k = Mnist.rng c6_world k).
Proof.
  simpl. split; [now rewrite upd_eq|]. split; [reflexivity|]. split.
  - intros (k & Hk). rewrite upd_eq in Hk. lra.
  - reflexivity.
Qed.

(** C6 (amended).  [Neuron(nin, nonlin)] creates [nin] weight leaves and
    then one bias leaf.  The data of the k-th weight is the k-th number
    the generator returns, hence in [0,1) when the generator's numbers
    are; the data of the bias is 0.0 and takes no number from the
    generator, which has advanced by exactly [nin] draws.  All new
    gradients are 0, and the parameters are the weights followed by the
    bias. *)
Theorem C6_neuron_initialisation (nin : nat) (nonlin : bool) (wd : Mnist.world) :
  let '(n, wd') := Mnist.new_Neuron nin nonlin wd in
  let n0 := length (Mnist.nodes wd) in
  Mnist.w n = seq n0 nin /\ Mnist.b n = (n0 + nin)%nat /\
  Mnist.nonlin n = nonlin /\
  Mnist.neuron_parameters n = Mnist.w n ++ [Mnist.b n] /\
  Mnist.nodes wd' = Mnist.nodes wd ++ repeat Mnist.Value (S nin) /\
  (forall k, (k < nin)%nat ->
     Mnist.data (Mnist.mem wd') (n0 + k)%nat = Mnist.rng wd k) /\
  ((forall k, 0 <= Mnist.rng wd k < 1) ->
   forall p, In p (Mnist.w n) -> 0 <= Mnist.data (Mnist.mem wd') p < 1) /\
  Mnist.data (Mnist.mem wd') (Mnist.b n) = 0 /\
  (forall p, In p (Mnist.neuron_parameters n) ->
     Mnist.grad (Mnist.mem wd') p = 0) /\
  (forall k, Mnist.rng wd' k = Mnist.rng wd (nin + k)%nat).
Proof.
  destruct (Mnist.new_Neuron nin nonlin wd) as [n wd'] eqn:E.
  apply Mnist.new_Neuron_spec in E. cbv zeta in *.
  destruct E as (Hw & Hb & Hnl & Hp & Hn & Hd & Hb0 & Hg & _ & Hr).
  repeat (split; [assumption|]).
  split; [|split; [assumption|split; [|assumption]]].
  - intros Hu p Hin. rewrite Hw in Hin. apply in_seq in Hin.
    replace p with (length (Mnist.nodes wd) + (p - length (Mnist.nodes wd)))%nat
      by lia.
    rewrite Hd by lia. apply Hu.
  - intros p Hin. rewrite Hp, Hw, Hb in Hin. apply in_app_or in Hin.
    destruct Hin as [Hin|[<-|[]]].
    + apply in_seq in Hin.
      replace p with (length (Mnist.nodes wd) + (p - length (Mnist.nodes wd)))%nat
        by lia.
      apply Hg. lia.
    + apply Hg. lia.
Qed.

Lemma C6_neuron_initialisation_witness :
  (forall k, 0 <= Mnist.rng c6_world k < 1) /\
  let '(n, wd') := Mnist.new_Neuron 2 true c6_world in
  (forall p, In p (Mnist.w n) -> 0 <= Mnist.data (Mnist.mem wd') p < 1) /\
  Mnist.data (Mnist.mem wd') (Mnist.b n) = 0.
Proof.
  assert (Hu : forall k, 0 <= Mnist.rng c6_world k < 1) by (intros k; simpl; lra).
  split; [exact Hu|].
  pose proof (C6_neuron_initialisation 2 true c6_world) as H.
  destruct (Mnist.new_Neuron 2 true c6_world) as [n wd'].
  exact (conj (proj1 (proj2 (proj2 (proj2 (proj2 (proj2 (proj2 H)))))) Hu)
              (proj1 (proj2 (proj2 (proj2 (proj2 (proj2 (proj2 (proj2 H))))))))).
Defined.



Lemma evals_data_agree G d d' (l : list id) (vs : list R) :
  Forall2 (Mnist.evals G d) l vs ->
  (forall v, In v l -> Mnist.evals G d v (d' v)) ->
  map d' l = vs.
Proof.
  induction 1 as [|v x l vs Hv _ IH]; intros H; simpl; [reflexivity|].
  f_equal.
  - eapply Mnist.evals_fun; [apply H; now left | exact Hv].
  - apply IH. intros u Hu. apply H. now right.
Qed.

(** C7.  Take the nodes [sm] that [stable_softmax] builds from the nodes
    [output], and any root [r] above them that evaluates.  After the
    forward sweep over the order of [r], the data of [sm] are the softmax
    of the values [os] of [output]: they add up to 1, and a sweep from
    data under which every value of [output] is larger by the same [c]
    leaves the same data in [sm]. *)
Theorem C7_softmax_sums_to_one_and_ignores_shifts
  (output sm : list id) (g0 g1 G : Mnist.graph) (r fuel : nat)
  (d d2 : id -> R) (os : list R) (c x x2 : R) :
  Mnist.wf g0 -> Forall (Mnist.bnd g0) output ->
  Mnist.stable_softmax output g0 = Some (sm, g1) ->
  Mnist.ext g1 G -> Mnist.wf G -> (r < fuel)%nat ->
  Mnist.is_const G r = false ->
  (forall v, In v sm -> reach (Mnist._prev G) r v) ->
  Forall2 (Mnist.evals G d) output os -> Mnist.evals G d r x ->
  Forall2 (Mnist.evals G d2) output (map (fun o => o + c) os) ->
  Mnist.evals G d2 r x2 ->
  exists f T d' d2',
    Mnist.topo fuel G r (fun _ => false) = Some (f, T) /\
    for_each (Mnist._forward G) T d = Some d' /\
    for_each (Mnist._forward G) T d2 = Some d2' /\
    map d' sm = Mnist.softmax os /\
    Mnist.Rsum_list (map d' sm) = 1 /\
    map d2' sm = map d' sm.
Proof.
  intros Hwf0 Hout E Hext HwfG Hr Hnc Hreach Hos Hx Hos2 Hx2.
  destruct (Mnist.stable_softmax_spec output g0 sm g1 Hwf0) as (_ & _ & Hq);
    [|exact E|].
  { intros G' HG'. eapply Forall_impl; [|exact Hout].
    intros v. now apply Mnist.ext_bnd. }
  destruct (Hq G Hext) as (Hsm & _ & Hne & Hsem).
  destruct (Mnist.forward_root G d r x fuel HwfG Hr Hnc Hx)
    as (f & T & d' & ET & Ed & Hsw & Hin & _ & _).
  destruct (Mnist.forward_root G d2 r x2 fuel HwfG Hr Hnc Hx2)
    as (f2 & T2 & d2' & ET2 & Ed2 & Hsw2 & _ & _ & _).
  rewrite ET in ET2. inversion ET2; subst f2 T2. clear ET2.
  assert (HsmT : forall v, In v sm -> In v T).
  { intros v Hv. apply Hin. split; [now apply Hreach|].
    rewrite Forall_forall in Hsm. now apply Hsm. }
  assert (E1 : map d' sm = Mnist.softmax os).
  { apply (evals_data_agree G d); [now apply Hsem|].
    intros v Hv. apply (proj1 Hsw). now apply HsmT. }
  assert (E2 : map d2' sm = Mnist.softmax (map (fun o => o + c) os)).
  { apply (evals_data_agree G d2); [now apply Hsem|].
    intros v Hv. apply (proj1 Hsw2). now apply HsmT. }
  exists f, T, d', d2'. repeat (split; [assumption|]). split.
  - rewrite E1. apply Mnist.softmax_sums_to_one.
    apply Forall2_length in Hos. destruct output; [congruence|].
    destruct os; discriminate.
  - rewrite E1, E2. apply Mnist.softmax_shift.
Qed.

(** Two leaves, the graph that [stable_softmax] builds on them, and the
    sum of the two softmax nodes as a root. *)
Definition c7_graph : Mnist.graph := [Mnist.Value; Mnist.Value].

Definition c7_built : Mnist.graph :=
  [Mnist.Value; Mnist.Value; Mnist.Max 0 1;
   Mnist.Const (-1); Mnist.MulValue 2 3; Mnist.AddValue 0 4;
   Mnist.Const (-1); Mnist.MulValue 2 6; Mnist.AddValue 1 7;
   Mnist.ExpValue 5; Mnist.ExpValue 8; Mnist.AddValue 9 10;
   Mnist.PowValue 11 (-1); Mnist.MulValue 9 12;
   Mnist.PowValue 11 (-1); Mnist.MulValue 10 14].

Definition c7_full : Mnist.graph := c7_built ++ [Mnist.AddValue 13 15].

Example stable_softmax_of_two_leaves :
  Mnist.stable_softmax [0%nat; 1%nat] c7_graph
  = Some ([13%nat; 15%nat], c7_built).
Proof. reflexivity. Qed.

Lemma C7_softmax_sums_to_one_and_ignores_shifts_witness :
  Mnist.wf c7_graph /\ Forall (Mnist.bnd c7_graph) [0%nat; 1%nat] /\
  Mnist.stable_softmax [0%nat; 1%nat] c7_graph
    = Some ([13%nat; 15%nat], c7_built) /\
  Mnist.ext c7_built c7_full /\ Mnist.wf c7_full /\ (16 < 17)%nat /\
  exists f T d' d2',
    Mnist.topo 17 c7_full 16 (fun _ => false) = Some (f, T) /\
    for_each (Mnist._forward c7_full) T (fun _ => 0) = Some d' /\
    for_each (Mnist._forward c7_full) T (fun _ => 1) = Some d2' /\
    map d' [13%nat; 15%nat] = Mnist.softmax [0; 0] /\
    Mnist.Rsum_list (map d' [13%nat; 15%nat]) = 1 /\
    map d2' [13%nat; 15%nat] = map d' [13%nat; 15%nat].
Proof.
  assert (Hwf : Mnist.wf c7_graph) by (apply Mnist.mnist_wf_check_sound; reflexivity).
  assert (Hb : Forall (Mnist.bnd c7_graph) [0%nat; 1%nat])
    by (repeat constructor).
  assert (Hext : Mnist.ext c7_built c7_full) by (eexists; reflexivity).
  assert (HwfG : Mnist.wf c7_full) by (apply Mnist.mnist_wf_check_sound; reflexivity).
  assert (Hlt : (16 < 17)%nat) by lia.
  assert (Hsem : forall d os,
            Forall2 (Mnist.evals c7_full d) [0%nat; 1%nat] os ->
            exists y, Mnist.evals c7_full d 16 y).
  { intros d os Hos.
    destruct (Mnist.stable_softmax_spec [0%nat; 1%nat] c7_graph
                [13%nat; 15%nat] c7_built Hwf)
      as (_ & _ & Hq); [| exact stable_softmax_of_two_leaves |].
    { intros G' HG'. eapply Forall_impl; [|exact Hb].
      intros v. now apply Mnist.ext_bnd. }
    destruct (Hq _ Hext) as (_ & _ & _ & Hs).
    specialize (Hs d os Hos).
    inversion Hs as [|v0 y0 l0 ys0 Hy0 Hrest]; subst.
    inversion Hrest as [|v1 y1 l1 ys1 Hy1 _]; subst.
    exists (y0 + y1).
    eapply Mnist.ev_add; [reflexivity | exact Hy0 | exact Hy1]. }
  assert (Hl : forall d, Forall2 (Mnist.evals c7_full d) [0%nat; 1%nat]
                           [d 0%nat; d 1%nat])
    by (intros d; apply Forall2_cons; [|apply Forall2_cons; [|apply Forall2_nil]];
        apply Mnist.ev_leaf; reflexivity).
  destruct (Hsem (fun _ => 0) _ (Hl (fun _ => 0))) as (x & Hx).
  destruct (Hsem (fun _ => 1) _ (Hl (fun _ => 1))) as (x2 & Hx2).
  assert (Hl2 : Forall2 (Mnist.evals c7_full (fun _ => 1)) [0%nat; 1%nat]
                  (map (fun o => o + 1) [0; 0])).
  { simpl. apply Forall2_cons; [|apply Forall2_cons; [|apply Forall2_nil]];
      (eapply Mnist.evals_eq; [apply Mnist.ev_leaf; reflexivity | simpl; lra]). }
  assert (Hreach : forall v, In v [13%nat; 15%nat] ->
                     reach (Mnist._prev c7_full) 16 v).
  { intros v [<-|[<-|[]]];
      (eapply reach_step; [apply reach_refl | simpl; tauto]). }
  repeat (split; [assumption || exact stable_softmax_of_two_leaves|]).
  exact (C7_softmax_sums_to_one_and_ignores_shifts [0%nat; 1%nat] [13%nat; 15%nat]
           c7_graph c7_built c7_full 16 17 (fun _ => 0) (fun _ => 1) [0; 0] 1 x x2
           Hwf Hb stable_softmax_of_two_leaves Hext HwfG Hlt eq_refl Hreach
           (Hl (fun _ => 0)) Hx Hl2 Hx2).
Defined.

Open Scope R_scope.





(** [x + x] in [mnist.py]. *)
Definition c2_graph : Mnist.graph := [Mnist.Value; Mnist.AddValue 0 0].

(** C2 (amended).  [Value.backward], and [BaseValue.backward] on a graph
    without [_visited] marks, set the gradient of the root to 1 and leave
    every other gradient as they find it; the [backward] closure of the
    trainer sets the gradient of the loss to 1, resets to 0 the gradients
    of the other listed nodes that are not parameters, and leaves all
    remaining gradients as they are.  Each then applies the rules along
    the order read backwards, so that the rule of a node runs before the
    rules of its operands.  On a graph whose root is marked, and so after
    a first [topo()] or [backward()] from that root, [BaseValue.backward]
    sets the gradient of the root to 1 and applies no rule. *)
Theorem C2_backward_initialises_and_sweeps
  (h : Engine.heap) (g : Mnist.graph) (e : Mnist.env)
  (data grad : id -> R) (r fuel : nat) :
  Engine.wf h -> Mnist.wf g -> (r < fuel)%nat -> Mnist.env_ok e ->
  (exists s T g1,
     Engine.build_topo fuel h r (empty_set nat, []) = Some (s, T) /\
     Engine.backward fuel h r grad
       = for_each (Engine._backward h) (rev T) g1 /\
     (forall v, g1 v = if Nat.eqb v r then 1 else grad v) /\
     (forall l1 x l2 c, rev T = l1 ++ x :: l2 -> In c (Engine._prev h x) ->
        In c l2 /\ ~ In c (l1 ++ [x]))) /\
  (exists f T g1,
     Mnist.topo fuel g r (fun _ => false) = Some (f, T) /\
     option_map snd (Mnist.backward fuel g data r (fun _ => false) grad)
       = for_each (Mnist._backward g data) (rev T) g1 /\
     (forall v, g1 v = if Nat.eqb v r then 1 else grad v) /\
     (forall l1 x l2 c, rev T = l1 ++ x :: l2 -> In c (Mnist._prev g x) ->
        Mnist.is_const g c = false -> In c l2 /\ ~ In c (l1 ++ [x])) /\
     (Mnist.is_const g r = false -> f r = true)) /\
  (forall f, f r = true ->
     Mnist.topo fuel g r f = Some (f, []) /\
     Mnist.backward fuel g data r f grad = Some (f, upd grad r 1)) /\
  (exists g1,
     Mnist.backward_ e data grad
       = for_each (Mnist._backward (Mnist.g e) data)
           (rev (Mnist.topo_ e)) g1 /\
     (forall v, g1 v =
        if Nat.eqb v (Mnist.loss e) then 1
        else if existsb (Nat.eqb v) (Mnist.topo_ e)
                && Mnist.not_in v (Mnist.params e)
             then 0 else grad v) /\
     (forall l1 x l2 c, rev (Mnist.topo_ e) = l1 ++ x :: l2 ->
        In c (Mnist._prev (Mnist.g e) x) ->
        Mnist.is_const (Mnist.g e) c = false ->
        In c l2 /\ ~ In c (l1 ++ [x]))).
Proof.
  intros Hh Hg Hr He. split; [|split; [|split]].
  - destruct (Engine.build_topo_fresh h r fuel Hh Hr)
      as (s & T & E & Hnd & Hts & _).
    exists s, T, (upd grad r 1). split; [exact E|]. split; [|split].
    + unfold Engine.backward. now rewrite E.
    + intros v. reflexivity.
    + intros l1 x l2 c Erev Hc.
      now apply (topo_sorted_rev (Engine._prev h) (fun _ => false) T l1 x l2 c).
  - destruct (Mnist.topo_fresh g r fuel Hg Hr)
      as (f & T & E & Hnd & Hts & _ & Hlast & _ & Hf & _).
    exists f, T, (upd grad r 1). split; [exact E|]. split; [|split; [|split]].
    + unfold Mnist.backward. rewrite E.
      now destruct (for_each _ _ _).
    + intros v. reflexivity.
    + intros l1 x l2 c Erev Hc Hs.
      now apply (topo_sorted_rev (Mnist._prev g) (Mnist.is_const g) T l1 x l2 c).
    + intros Hnc. apply Hf. destruct (Hlast Hnc) as (T0 & ->).
      apply in_or_app. right. now left.
  - intros f Hf.
    assert (ET : Mnist.topo fuel g r f = Some (f, []))
      by (apply Mnist.topo_marked; [lia | exact Hf]).
    split; [exact ET|]. unfold Mnist.backward. now rewrite ET.
  - destruct (Mnist.topo_facts e He) as (Hnd & Hts & _).
    exists (Mnist.start_grad e grad). split; [|split].
    + unfold Mnist.backward_, Mnist.start_grad.
      now rewrite (Mnist.ok_reverse e He).
    + intros v. now apply Mnist.start_grad_spec.
    + intros l1 x l2 c Erev Hc Hs.
      now apply (topo_sorted_rev (Mnist._prev (Mnist.g e))
                   (Mnist.is_const (Mnist.g e)) (Mnist.topo_ e) l1 x l2 c).
Qed.

Lemma C2_backward_initialises_and_sweeps_witness :
  Engine.wf c2_heap /\ Mnist.wf c2_graph /\ (1 < 2)%nat /\
  Mnist.env_ok tiny_env /\
  (exists s T g1,
     Engine.build_topo 2 c2_heap 1 (empty_set nat, []) = Some (s, T) /\
     Engine.backward 2 c2_heap 1 c2_grad
       = for_each (Engine._backward c2_heap) (rev T) g1 /\
     (forall v, g1 v = if Nat.eqb v 1 then 1 else c2_grad v)) /\
  exists f T,
    Mnist.topo 2 c2_graph 1 (fun _ => false) = Some (f, T) /\
    Mnist.backward 2 c2_graph (fun _ => 2) 1 f c2_grad
      = Some (f, upd c2_grad 1 1).
Proof.
  assert (Hh : Engine.wf c2_heap)
    by (apply Engine.engine_wf_check_sound; reflexivity).
  assert (Hg : Mnist.wf c2_graph)
    by (apply Mnist.mnist_wf_check_sound; reflexivity).
  assert (Hr : (1 < 2)%nat) by lia.
  pose proof tiny_env_ok as He.
  repeat (split; [assumption|]).
  destruct (C2_backward_initialises_and_sweeps c2_heap c2_graph tiny_env
              (fun _ => 2) c2_grad 1 2 Hh Hg Hr He)
    as ((s & T & g1 & E1 & E2 & E3 & _) & (f & T' & _ & ET & _ & _ & _ & Hf)
        & Hmarked & _).
  split; [exists s, T, g1; repeat split; assumption|].
  exists f, T'. split; [exact ET|].
  apply Hmarked. apply Hf. reflexivity.
Defined.

Open Scope R_scope.

(** C10.  What the [backward] closure leaves: 1 in the loss; in every
    other node of [non_params] the contributions of the listed nodes
    only, whatever it held before (it is reset); in a parameter the
    gradient it held before plus the contributions of the listed nodes,
    and these add up to the gradient of the example, that is the
    derivative of the loss with respect to the parameter at the data of
    the example, taken by the chain rule.  So a batch, which starts with
    [zero_grad], ends with each parameter's gradient equal to
    [zero_grad]'s value (0 for a listed parameter) plus the sum of its
    gradients over the examples of the batch that are not padding, and
    [update_params] subtracts 0.1 times that sum from the parameter's
    data. *)
Theorem C10_batch_gradient_accumulates
  (e : Mnist.env) (batch : list (option Mnist.image))
  (st st' : Mnist.store) (batch_loss : R) (p : id) :
  Mnist.env_ok e -> In p (Mnist.params e) ->
  Mnist.train_batch e batch st = Some (st', batch_loss) ->
  (forall d gr G, Mnist.backward_ e d gr = Some G ->
     G (Mnist.loss e) = 1 /\
     (forall v, In v (Mnist.non_params e) -> v <> Mnist.loss e ->
        G v = Rsum (fun u => Mnist.contribution (Mnist.g e) d u (G u) v)
                   (Mnist.topo_ e)) /\
     G p = gr p + Rsum (fun u => Mnist.contribution (Mnist.g e) d u (G u) p)
                       (Mnist.topo_ e) /\
     G p = gr p + Mnist.example_grad e d p) /\
  (In p (Mnist.topo_ e) -> Mnist.zero_grad e (Mnist.grad st) p = 0) /\
  exists st1,
    for_each (Mnist.example_step e) batch
      (Mnist.mkStore (Mnist.data st) (Mnist.zero_grad e (Mnist.grad st)), 0)
      = Some (st1, batch_loss) /\
    Mnist.grad st1 p
      = Mnist.zero_grad e (Mnist.grad st) p
        + Mnist.batch_grad e batch (Mnist.data st) p /\
    st' = Mnist.update_params e st1 /\
    Mnist.grad st' p = Mnist.grad st1 p /\
    Mnist.data st' p = Mnist.data st1 p - 0.1 * Mnist.grad st1 p.
Proof.
  intros He Hp E.
  split.
  { intros d gr G Eb.
    destruct (Mnist.backward_closure_spec e d gr G He Eb) as (Hl & Hn & Hpar).
    split; [exact Hl|]. split; [exact Hn|]. exact (Hpar p Hp). }
  split.
  { intros Hin. rewrite Mnist.zero_grad_spec.
    apply Mnist.existsb_In in Hin. now rewrite Hin. }
  unfold Mnist.train_batch in E.
  destruct (for_each _ _ _) as [[st1 l1]|] eqn:Eloop; [|discriminate].
  inversion E; subst st' batch_loss. exists st1. split; [reflexivity|].
  pose proof (Mnist.batch_accumulates e batch _ _ _ _ p He Hp Eloop) as Hacc.
  simpl in Hacc. split; [exact Hacc|]. split; [reflexivity|].
  assert (Hnd : NoDup (Mnist.mlp_parameters (Mnist.model e))).
  { rewrite <- (Mnist.ok_params e He). apply (Mnist.ok_nodup e He). }
  destruct (Mnist.update_params_spec e st1 Hnd) as (Hg & Hin & _).
  split; [apply Hg|]. apply Hin. now rewrite <- (Mnist.ok_params e He).
Qed.

Lemma C10_batch_gradient_accumulates_witness :
  Mnist.env_ok tiny_env /\ In 1%nat (Mnist.params tiny_env) /\
  exists st' batch_loss,
    Mnist.train_batch tiny_env tiny_batch tiny_store = Some (st', batch_loss) /\
    (forall d gr G, Mnist.backward_ tiny_env d gr = Some G ->
       G 6%nat = 1 /\
       G 1%nat = gr 1%nat + Mnist.example_grad tiny_env d 1%nat) /\
    exists st1,
      Mnist.grad st1 1%nat
        = Mnist.zero_grad tiny_env (Mnist.grad tiny_store) 1%nat
          + Mnist.batch_grad tiny_env tiny_batch (Mnist.data tiny_store) 1%nat /\
      Mnist.data st' 1%nat = Mnist.data st1 1%nat - 0.1 * Mnist.grad st1 1%nat.
Proof.
  pose proof tiny_env_ok as He.
  assert (Hp : In 1%nat (Mnist.params tiny_env)) by (simpl; tauto).
  split; [exact He|]. split; [exact Hp|].
  destruct (Mnist.train_batch tiny_env tiny_batch tiny_store)
    as [[st' batch_loss]|] eqn:E.
  2:{ exfalso. vm_compute in E. discriminate. }
  exists st', batch_loss. split; [reflexivity|].
  destruct (C10_batch_gradient_accumulates tiny_env tiny_batch tiny_store
              st' batch_loss 1%nat He Hp E)
    as (Hb & _ & st1 & _ & Hacc & _ & _ & Hdata).
  split.
  - intros d gr G Eb. destruct (Hb d gr G Eb) as (Hl & _ & _ & Hg).
    split; assumption.
  - exists st1. split; assumption.
Defined.



(** * The two engines compared

    A heap of [engine.py] read as a graph of [mnist.py]: the same
    operations on the same operands, the data that the eager engine has
    stored serving as the data of the build-once engine. *)

Module Compare.

Open Scope R_scope.

Definition to_node (n : Engine.Value) : Mnist.node :=
  match Engine._op n with
  | Engine.Leaf => Mnist.Value
  | Engine.Add a b => Mnist.AddValue a b
  | Engine.Mul a b => Mnist.MulValue a b
  | Engine.Pow a k => Mnist.PowValue a k
  | Engine.ReLU a => Mnist.ReluValue a
  | Engine.Exp a => Mnist.ExpValue a
  | Engine.Log a => Mnist.LogValue a
  | Engine.MaxOp a b => Mnist.Max a b
  end.

Definition to_graph (h : Engine.heap) : Mnist.graph := map to_node h.

Definition heap_data (h : Engine.heap) : id -> R :=
  fun v => Engine.data (Engine.get h v).

(** Two results of a sweep: both raise, or both return and the gradients
    are the same. *)
Definition agree (r r' : option (id -> R)) : Prop :=
  match r, r' with
  | Some G, Some G' => forall v, G v = G' v
  | None, None => True
  | _, _ => False
  end.

Lemma cls_to_graph h v : Mnist.cls (to_graph h) v = to_node (Engine.get h v).
Proof.
  unfold Mnist.cls, to_graph, Engine.get.
  change Mnist.Value with (to_node (Engine.mkValue 0 Engine.Leaf)).
  apply map_nth.
Qed.

Lemma prev_to_graph h v : Mnist._prev (to_graph h) v = Engine._prev h v.
Proof.
  unfold Mnist._prev, Engine._prev. rewrite cls_to_graph. unfold to_node.
  now destruct (Engine._op (Engine.get h v)).
Qed.

Lemma is_const_to_graph h v : Mnist.is_const (to_graph h) v = false.
Proof.
  unfold Mnist.is_const. rewrite cls_to_graph. unfold to_node.
  now destruct (Engine._op (Engine.get h v)).
Qed.

Lemma get_data_to_graph h d v : Mnist.get_data (to_graph h) d v = d v.
Proof.
  unfold Mnist.get_data. rewrite cls_to_graph. unfold to_node.
  now destruct (Engine._op (Engine.get h v)).
Qed.

Lemma wf_to_graph h : Engine.wf h -> Mnist.wf (to_graph h).
Proof. intros H v c Hc. rewrite prev_to_graph in Hc. now apply H. Qed.

(** The rule of a node is the same in both engines. *)
Lemma rule_agree h out g g' :
  (forall v, g v = g' v) ->
  agree (Engine._backward h out g)
        (Mnist._backward (to_graph h) (heap_data h) out g').
Proof.
  intros H. unfold Engine._backward, Mnist._backward.
  rewrite cls_to_graph. unfold to_node.
  destruct (Engine._op (Engine.get h out)) as [|a b|a b|a k|a|a|a|a b];
    cbv zeta; rewrite ?get_data_to_graph; unfold heap_data.
  - exact H.
  - intros v. unfold upd.
    destruct (Nat.eqb v b), (Nat.eqb v a), (Nat.eqb b a);
      rewrite ?H; reflexivity.
  - intros v. unfold upd.
    destruct (Nat.eqb v b), (Nat.eqb v a), (Nat.eqb b a);
      rewrite ?H; reflexivity.
  - destruct (math_pow _ _); [|exact I].
    intros v. unfold upd. destruct (Nat.eqb v a); rewrite ?H; reflexivity.
  - intros v. unfold upd. destruct (Nat.eqb v a); rewrite ?H; reflexivity.
  - intros v. unfold upd. destruct (Nat.eqb v a); rewrite ?H; reflexivity.
  - destruct (py_div _ _); [|exact I].
    intros v. unfold upd. destruct (Nat.eqb v a); rewrite ?H; reflexivity.
  - unfold float_gt.
    destruct (Rgt_dec (Engine.data (Engine.get h a))
                      (Engine.data (Engine.get h b)));
      intros v; unfold upd;
      destruct (Nat.eqb_spec v b), (Nat.eqb_spec v a), (Nat.eqb_spec b a),
               (Nat.eqb_spec out a);
      subst; rewrite ?H; try lra; try congruence.
Qed.

Lemma sweep_agree h l : forall g g',
  (forall v, g v = g' v) ->
  agree (for_each (Engine._backward h) l g)
        (for_each (Mnist._backward (to_graph h) (heap_data h)) l g').
Proof.
  induction l as [|u l IH]; intros g g' H; simpl; [exact H|].
  pose proof (rule_agree h u g g' H) as Hu. unfold agree in Hu.
  destruct (Engine._backward h u g) as [g1|],
           (Mnist._backward (to_graph h) (heap_data h) u g') as [g1'|];
    try contradiction; [now apply IH | exact I].
Qed.

(** The walk depends on the operands and on what is skipped only. *)
Lemma dfs_ext (prev prev' : id -> list id) (skip skip' : id -> bool) :
  (forall v, prev v = prev' v) -> (forall v, skip v = skip' v) ->
  forall fuel v st, dfs prev skip fuel v st = dfs prev' skip' fuel v st.
Proof.
  intros Hp Hs. induction fuel as [|fuel IH]; intros v st; simpl; [reflexivity|].
  rewrite <- Hs, <- Hp. destruct (skip v); [reflexivity|].
  destruct (fst st v); [reflexivity|].
  assert (E : forall l s, for_each (dfs prev skip fuel) l s
                          = for_each (dfs prev' skip' fuel) l s).
  { induction l as [|c l IHl]; intros s; simpl; [reflexivity|].
    rewrite IH. destruct (dfs prev' skip' fuel c s); [apply IHl | reflexivity]. }
  now rewrite E.
Qed.

(** Both engines order the graph in the same way. *)
Lemma topo_agree h fuel r :
  option_map snd (Engine.build_topo fuel h r (empty_set id, []))
  = option_map snd (Mnist.topo fuel (to_graph h) r (fun _ => false)).
Proof.
  unfold Mnist.topo. rewrite Mnist._build_topo_dfs.
  rewrite (dfs_ext _ (Engine._prev h) _ (fun _ => false)
             (prev_to_graph h) (is_const_to_graph h)).
  pose proof (Engine.build_topo_dfs h fuel r (empty_set id) (fun _ => false) [])
    as Hsim.
  unfold Engine.same_walk in Hsim.
  destruct (Engine.build_topo fuel h r (empty_set id, [])) as [[s T]|],
           (dfs (Engine._prev h) (fun _ => false) fuel r (fun _ => false, []))
             as [[f T']|]; simpl.
  - destruct Hsim as [_ ->]; [intros x; reflexivity | reflexivity].
  - exfalso. apply Hsim. intros x. reflexivity.
  - exfalso. apply Hsim. intros x. reflexivity.
  - reflexivity.
Qed.

(** [Value.backward] of [engine.py] and [BaseValue.backward] of [mnist.py]
    on the same graph with the same data and the same gradients: both
    raise, or both return the same gradients. *)
Lemma backward_agree h r fuel g :
  agree (Engine.backward fuel h r g)
        (option_map snd
           (Mnist.backward fuel (to_graph h) (heap_data h) r (fun _ => false) g)).
Proof.
  unfold Engine.backward, Mnist.backward.
  pose proof (topo_agree h fuel r) as HT.
  destruct (Engine.build_topo fuel h r (empty_set id, [])) as [[s T]|],
           (Mnist.topo fuel (to_graph h) r (fun _ => false)) as [[f T']|];
    simpl in HT; try discriminate; [|exact I].
  injection HT as <-.
  pose proof (sweep_agree h (rev T) (upd g r 1) (upd g r 1) (fun v => eq_refl))
    as Hs.
  unfold agree in *.
  destruct (for_each (Engine._backward h) (rev T) (upd g r 1)),
           (for_each (Mnist._backward (to_graph h) (heap_data h)) (rev T)
              (upd g r 1)); simpl; assumption.
Qed.

(** ** The gradient of the eager engine is the derivative *)

Lemma relu_value d : (if Rlt_dec d 0 then 0 else d) = float_gt d 0 * d.
Proof. unfold float_gt. destruct (Rlt_dec d 0), (Rgt_dec d 0); lra. Qed.

Lemma max_value a b : py_max a b = float_gt a b * a + (1 - float_gt a b) * b.
Proof. unfold py_max, float_gt. destruct (Rgt_dec b a), (Rgt_dec a b); lra. Qed.

Lemma evals_power_inv g d v a k y :
  Mnist.cls g v = Mnist.PowValue a k -> Mnist.evals g d v y ->
  exists x, Mnist.evals g d a x /\ math_pow x k = Some y.
Proof.
  intros Hc H. inversion H; subst; try congruence.
  match goal with
  | H1 : Mnist.cls g v = Mnist.PowValue _ _ |- _ =>
      rewrite Hc in H1; inversion H1; subst
  end.
  eauto.
Qed.

Lemma evals_log_inv g d v a y :
  Mnist.cls g v = Mnist.LogValue a -> Mnist.evals g d v y ->
  exists x, Mnist.evals g d a x /\ math_log x = Some y.
Proof.
  intros Hc H. inversion H; subst; try congruence.
  match goal with
  | H1 : Mnist.cls g v = Mnist.LogValue _ |- _ =>
      rewrite Hc in H1; inversion H1; subst
  end.
  eauto.
Qed.

(** Running the construction again evaluates the graph: it goes through
    exactly when every node evaluates, and then every [Value] holds the
    value of its node. *)
Lemma run_evals h ld :
  Engine.wf h ->
  forall suf pre h0,
    h = pre ++ suf -> length h0 = length pre ->
    (forall v, (v < length pre)%nat ->
       Mnist.evals (to_graph h) ld v (Engine.data (Engine.get h0 v))) ->
    match for_each (Engine.step ld) suf h0 with
    | Some h' =>
        forall v, (v < length h)%nat ->
          Mnist.evals (to_graph h) ld v (Engine.data (Engine.get h' v))
    | None =>
        exists v, (v < length h)%nat /\
          forall y, ~ Mnist.evals (to_graph h) ld v y
    end.
Proof.
  intros Hwf. induction suf as [|n suf IH]; intros pre h0 E Hlen Hev.
  - simpl. intros v Hv. apply Hev. rewrite E, app_nil_r in Hv. exact Hv.
  - set (i := length pre).
    assert (Hn : Engine.get h i = n).
    { unfold Engine.get, i. rewrite E, app_nth2, Nat.sub_diag by lia.
      reflexivity. }
    assert (Hi : (i < length h)%nat).
    { rewrite E, length_app. simpl. unfold i. lia. }
    assert (Hcls : Mnist.cls (to_graph h) i = to_node n)
      by (now rewrite cls_to_graph, Hn).
    assert (Hops : forall c, In c (Engine._prev h i) ->
              Mnist.evals (to_graph h) ld c (Engine.data (Engine.get h0 c))).
    { intros c Hc. apply Hev. apply Hwf in Hc. exact Hc. }
    unfold Engine._prev in Hops. rewrite Hn in Hops.
    assert (Hnext : forall m,
              Mnist.evals (to_graph h) ld i (Engine.data m) ->
              match for_each (Engine.step ld) suf (h0 ++ [m]) with
              | Some h' =>
                  forall v, (v < length h)%nat ->
                    Mnist.evals (to_graph h) ld v (Engine.data (Engine.get h' v))
              | None =>
                  exists v, (v < length h)%nat /\
                    forall y, ~ Mnist.evals (to_graph h) ld v y
              end).
    { intros m Hm. apply (IH (pre ++ [n]) (h0 ++ [m])).
      - rewrite E, <- app_assoc. reflexivity.
      - rewrite !length_app. simpl. lia.
      - intros v Hv. rewrite length_app in Hv. simpl in Hv.
        destruct (Nat.eq_dec v i) as [->|Hne].
        + assert (Hg : Engine.get (h0 ++ [m]) i = m)
            by (unfold i; rewrite <- Hlen; apply Engine.get_new).
          rewrite Hg. exact Hm.
        + rewrite Engine.get_app by (fold i in Hv; lia).
          apply Hev. fold i in Hv. fold i. lia. }
    cbn [for_each]. unfold Engine.step, Engine.again. unfold to_node in Hcls.
    destruct (Engine._op n) as [|a b|a b|a k|a|a|a|a b] eqn:Eop;
      rewrite ?Eop; cbn [Engine._op Engine.data].
    + unfold Engine.new_Value, Engine.alloc. cbn [fst].
      apply Hnext. cbn [Engine.data]. rewrite Hlen. fold i.
      now apply Mnist.ev_leaf.
    + unfold Engine.__add__, Engine.alloc. cbn [fst].
      apply Hnext. cbn [Engine.data].
      eapply Mnist.ev_add; [exact Hcls | apply Hops | apply Hops]; simpl; tauto.
    + unfold Engine.__mul__, Engine.alloc. cbn [fst].
      apply Hnext. cbn [Engine.data].
      eapply Mnist.ev_mul; [exact Hcls | apply Hops | apply Hops]; simpl; tauto.
    + unfold Engine.__pow__.
      destruct (math_pow (Engine.data (Engine.get h0 a)) k) as [z|] eqn:Ez.
      * unfold Engine.alloc. cbn [option_map fst].
        apply Hnext. cbn [Engine.data].
        eapply Mnist.ev_pow; [exact Hcls | apply Hops; simpl; tauto | exact Ez].
      * cbn [option_map]. exists i. split; [exact Hi|]. intros y Hy.
        destruct (evals_power_inv _ _ _ _ _ _ Hcls Hy) as (x0 & Hx0 & Hz).
        assert (x0 = Engine.data (Engine.get h0 a)).
        { eapply Mnist.evals_fun; [exact Hx0 | apply Hops; simpl; tauto]. }
        congruence.
    + unfold Engine.relu, Engine.alloc. cbn [fst].
      apply Hnext. cbn [Engine.data]. rewrite relu_value.
      eapply Mnist.ev_relu; [exact Hcls | apply Hops; simpl; tauto].
    + unfold Engine.exp, Engine.alloc. cbn [fst].
      apply Hnext. cbn [Engine.data].
      eapply Mnist.ev_exp; [exact Hcls | apply Hops; simpl; tauto].
    + unfold Engine.log.
      destruct (math_log (Engine.data (Engine.get h0 a))) as [z|] eqn:Ez.
      * unfold Engine.alloc. cbn [option_map fst].
        apply Hnext. cbn [Engine.data].
        eapply Mnist.ev_log; [exact Hcls | apply Hops; simpl; tauto | exact Ez].
      * cbn [option_map]. exists i. split; [exact Hi|]. intros y Hy.
        destruct (evals_log_inv _ _ _ _ _ Hcls Hy) as (x0 & Hx0 & Hz).
        assert (x0 = Engine.data (Engine.get h0 a)).
        { eapply Mnist.evals_fun; [exact Hx0 | apply Hops; simpl; tauto]. }
        congruence.
    + unfold Engine.Max, Engine.alloc. cbn [fst].
      apply Hnext. cbn [Engine.data]. rewrite max_value.
      eapply Mnist.ev_max; [exact Hcls | apply Hops | apply Hops]; simpl; tauto.
Qed.

(** In a heap that the operators have built, every [Value] holds the
    value of its node. *)
Lemma built_evals h :
  Engine.wf h -> Engine.built h ->
  forall v, Mnist.evals (to_graph h) (heap_data h) v (heap_data h v).
Proof.
  intros Hwf Hb v.
  destruct (Nat.lt_ge_cases v (length h)) as [Hv|Hv].
  - pose proof (run_evals h (heap_data h) Hwf h [] [] eq_refl eq_refl) as H.
    unfold Engine.built, Engine.rerun in Hb. fold (Engine.step (heap_data h)) in H.
    change (for_each (Engine.step (heap_data h)) h [] = Some h) in Hb.
    rewrite Hb in H. apply H; [|exact Hv]. intros u Hu. simpl in Hu. lia.
  - apply Mnist.ev_leaf. rewrite cls_to_graph, Engine.get_out_of_range by exact Hv.
    reflexivity.
Qed.

Lemma rerun_complete h ld :
  Engine.wf h ->
  (forall v, (v < length h)%nat -> exists y, Mnist.evals (to_graph h) ld v y) ->
  exists h', Engine.rerun h ld = Some h' /\
    forall v, (v < length h)%nat ->
      Mnist.evals (to_graph h) ld v (Engine.data (Engine.get h' v)).
Proof.
  intros Hwf Hall.
  pose proof (run_evals h ld Hwf h [] [] eq_refl eq_refl) as H.
  change (for_each (Engine.step ld) h []) with (Engine.rerun h ld) in H.
  destruct (Engine.rerun h ld) as [h'|].
  - exists h'. split; [reflexivity|]. apply H. intros u Hu. simpl in Hu. lia.
  - destruct H as (v & Hv & Hno); [intros u Hu; simpl in Hu; lia|].
    destruct (Hall v Hv) as (y & Hy). exfalso. exact (Hno y Hy).
Qed.

Lemma near_forall_lt t0 (P : nat -> R -> Prop) (n : nat) :
  (forall v, (v < n)%nat -> near t0 (P v)) ->
  near t0 (fun t => forall v, (v < n)%nat -> P v t).
Proof.
  induction n as [|n IH]; intros H.
  - apply near_all. intros t v Hv. lia.
  - assert (H1 : near t0 (fun t => forall v, (v < n)%nat -> P v t))
      by (apply IH; intros v Hv; apply H; lia).
    assert (H2 : near t0 (P n)) by (apply H; lia).
    pose proof (near_and _ _ _ H1 H2) as H3. revert H3. apply near_mono.
    intros t [Ha Hb] v Hv.
    destruct (Nat.eq_dec v n) as [->|Hne]; [exact Hb | apply Ha; lia].
Qed.

Lemma smooth_to_graph h v :
  Engine.smooth_at h v -> Mnist.smooth (to_graph h) (heap_data h) v.
Proof.
  unfold Engine.smooth_at, Mnist.smooth. rewrite cls_to_graph. unfold to_node.
  destruct (Engine._op (Engine.get h v)); rewrite ?get_data_to_graph; auto.
Qed.

(** [Value.backward], run from gradients that are all 0 on a heap that the
    operators have built, leaves in a leaf [x] the derivative of the data
    of the root with respect to the data of [x]. *)
Lemma engine_backward_derivative h x r fuel G :
  Engine.wf h -> Engine.built h ->
  Engine._op (Engine.get h x) = Engine.Leaf ->
  (r < fuel)%nat -> (r < length h)%nat ->
  (forall v, Engine.smooth_at h v) ->
  Engine.backward fuel h r (fun _ => 0) = Some G ->
  exists F : R -> R,
    near (heap_data h x)
      (fun t => exists h',
         Engine.rerun h (upd (heap_data h) x t) = Some h' /\
         Engine.data (Engine.get h' r) = F t) /\
    derivable_pt_lim F (heap_data h x) (G x).
Proof.
  intros Hwf Hb Hx Hr Hrl Hsm EG.
  set (g := to_graph h). set (d := heap_data h).
  assert (Hwfg : Mnist.wf g) by now apply wf_to_graph.
  assert (Hxg : Mnist.cls g x = Mnist.Value).
  { unfold g. rewrite cls_to_graph. unfold to_node. now rewrite Hx. }
  assert (Hev : forall v, Mnist.evals g d v (d v)) by now apply built_evals.
  assert (Hsmg : forall u, Mnist.smooth g d u)
    by (intros u; apply smooth_to_graph, Hsm).
  pose proof (backward_agree h r fuel (fun _ => 0)) as Hag.
  rewrite EG in Hag. unfold agree in Hag. fold g d in Hag.
  destruct (Mnist.backward fuel g d r (fun _ => false) (fun _ => 0))
    as [[f G']|] eqn:EB; simpl in Hag; [|contradiction].
  destruct (Mnist.topo_fresh g r fuel Hwfg Hr)
    as (f0 & T & ET & Hnd & Hts & Hin & Hlast & _).
  assert (Hnc : Mnist.is_const g r = false) by apply is_const_to_graph.
  assert (HrT : In r T).
  { destruct (Hlast Hnc) as (T' & ->). apply in_or_app. right. now left. }
  unfold Mnist.backward in EB. rewrite ET in EB.
  destruct (for_each (Mnist._backward g d) (rev T) (upd (fun _ => 0) r 1))
    as [G0|] eqn:Es; [|discriminate].
  inversion EB; subst f0 G0. clear EB.
  assert (Hop : operands_earlier (Mnist._prev g) T).
  { apply (topo_sorted_operands_earlier _ (Mnist.is_const g)); auto.
    intros u Hu. now apply Hin in Hu. }
  pose proof (sweep_adjoint (Mnist._prev g) (Mnist._backward g d)
                (Mnist.contribution g d)
                (fun u a c => Mnist.mnist_backward_accumulates g d u a c Hwfg)
                (Mnist.mnist_contribution_operand g d) T
                (upd (fun _ => 0) r 1) G' Hop Es) as HG.
  assert (Hsw : Mnist.swept g d T d).
  { split; [intros u _; apply Hev | reflexivity]. }
  destruct (Mnist.adjoint_is_derivative g d x r T d G' Hwfg Hxg Hnd Hts Hin
              HrT Hsw (fun u _ => Hsmg u))
    as (F & HnF & HdF).
  { intros v. rewrite (HG v). unfold upd. reflexivity. }
  exists F. split; [|rewrite Hag; exact HdF].
  assert (Hall : near (d x)
            (fun t => forall v, (v < length h)%nat ->
                        exists y, Mnist.evals g (upd d x t) v y)).
  { apply near_forall_lt. intros v Hv.
    destruct (Mnist.tangent_is_derivative g d d x Hwfg Hxg v (d v) (Hev v))
      as (Fv & Hn & _).
    - intros u _. unfold g. rewrite get_data_to_graph. apply Hev.
    - intros u _. apply Hsmg.
    - revert Hn. apply near_mono. eauto. }
  pose proof (near_and _ _ _ HnF Hall) as Hn. revert Hn. apply near_mono.
  intros t [H1 H2].
  destruct (rerun_complete h (upd d x t) Hwf H2) as (h' & E & Hh').
  exists h'. split; [exact E|].
  eapply Mnist.evals_fun; [apply Hh'; exact Hrl | exact H1].
Qed.

End Compare.

(** * Further properties of the trainer *)

Open Scope R_scope.

(** A product of two leaves. *)
Definition product_graph : Mnist.graph :=
  [Mnist.Value; Mnist.Value; Mnist.MulValue 0 1].

(** X1. The two sweeps of [make_main], on any graph.  The order [topo]
    is taken once, by [r.topo()] on a graph that has not been walked.
    When the forward sweep ([node._forward()] along [topo]) and then the
    reverse sweep ([node._backward()] along [topo] reversed, from
    gradients that are 0 but for 1 in [r]) return, every leaf [x] holds
    in its gradient the derivative of the data of [r] with respect to the
    data of [x]: the forward sweep, rerun with the data of [x] replaced
    by [t], goes through for all [t] near the data of [x], the data it
    leaves in [r] is a function [F] of [t], and the gradient of [x] is
    the derivative of [F] there.  The point must be smooth: no [relu] of
    0, no [Max] of two equal operands, no power of 0 with an exponent
    that is not a positive whole number. *)
Theorem X1_backward_gradient_is_derivative
  (g : Mnist.graph) (d : id -> R) (x r fuel : nat)
  (f : id -> bool) (T : list id) (d' G : id -> R) :
  Mnist.wf g -> (r < fuel)%nat ->
  Mnist.cls g x = Mnist.Value -> Mnist.is_const g r = false ->
  Mnist.topo fuel g r (fun _ => false) = Some (f, T) ->
  for_each (Mnist._forward g) T d = Some d' ->
  (forall u, In u T -> Mnist.smooth g d' u) ->
  for_each (Mnist._backward g d') (rev T) (upd (fun _ => 0) r 1) = Some G ->
  exists F : R -> R,
    near (d x)
      (fun t => exists dt,
         for_each (Mnist._forward g) T (upd d x t) = Some dt /\
         dt r = F t) /\
    derivable_pt_lim F (d x) (G x).
Proof.
  intros Hwf Hr Hx Hnc ET Ef Hsm Eb.
  apply (Mnist.mnist_backward_derivative g d x r fuel f T d' f G); auto.
  unfold Mnist.backward. now rewrite ET, Eb.
Qed.

Lemma X1_backward_gradient_is_derivative_witness :
  exists f T d' G,
    Mnist.topo 3 product_graph 2 (fun _ => false) = Some (f, T) /\
    for_each (Mnist._forward product_graph) T (fun _ => 3) = Some d' /\
    for_each (Mnist._backward product_graph d') (rev T) (upd (fun _ => 0) 2%nat 1)
      = Some G /\
    exists F : R -> R,
      near 3
        (fun t => exists dt,
           for_each (Mnist._forward product_graph) T (upd (fun _ => 3) 0%nat t)
             = Some dt /\
           dt 2%nat = F t) /\
      derivable_pt_lim F 3 (G 0%nat).
Proof.
  do 4 eexists. split; [reflexivity|]. split; [reflexivity|].
  split; [reflexivity|].
  refine (X1_backward_gradient_is_derivative product_graph (fun _ => 3) 0 2 3
            _ _ _ _ _ _ eq_refl eq_refl eq_refl eq_refl _ eq_refl).
  - apply Mnist.mnist_wf_check_sound. reflexivity.
  - lia.
  - intros u [<-|[<-|[<-|[]]]]; exact I.
Defined.

(** X2. [images.read_magic], run by [images.__init__] on the two files:
    it returns exactly when the image file starts with the magic number
    00 00 08 03, a count, and the sizes 28 and 28, each in four bytes, and
    the label file with the magic number 00 00 08 01 and the same count;
    the object then holds that count twice and the index 0, and both
    files are positioned behind their headers. *)
Theorem X2_read_magic_accepts_well_formed_headers
  (images_ labels : Mnist.file) (self : Mnist.images) :
  Mnist.read_magic images_ labels = Mnist.Ret self <->
  exists n body lbls,
    Mnist.well_formed images_ labels n body lbls /\
    self = Mnist.mkImages body lbls 0 n n.
Proof. apply Mnist.read_magic_spec. Qed.

(** X3. [list(images(...))] on an object that has [k] images left: when
    there are at least [k] label bytes and the pixel bytes reach into the
    last image, the result is the [k] images in file order, image [j] with
    the [j]-th label and the (at most 784) pixel bytes from offset 784 j
    on; otherwise an assertion of [read_image] fails. *)
Theorem X3_list_of_images
  (k fuel : nat) (body lbls : list Byte.byte) (i n nl : Z) :
  (k < fuel)%nat -> (n - i = Z.of_nat k)%Z ->
  Mnist.list_ fuel (Mnist.mkImages body lbls i n nl)
  = Some (if Mnist.enough k body lbls
          then Mnist.Ret (map (Mnist.image_at body lbls) (seq 0 k))
          else Mnist.Raise Mnist.AssertionError).
Proof. apply Mnist.list_spec. Qed.

Lemma X3_list_of_images_witness :
  (1 < 2)%nat /\ (1 - 0 = Z.of_nat 1)%Z /\
  Mnist.list_ 2 (Mnist.mkImages [Byte.x07] [Byte.x05] 0 1 1)
  = Some (Mnist.Ret [Mnist.image_at [Byte.x07] [Byte.x05] 0]).
Proof.
  assert (H1 : (1 < 2)%nat) by lia.
  assert (H2 : (1 - 0 = Z.of_nat 1)%Z) by reflexivity.
  split; [exact H1|]. split; [exact H2|].
  exact (X3_list_of_images 1 2 [Byte.x07] [Byte.x05] 0 1 1 H1 H2).
Defined.

(** X4. With a generator whose numbers lie in [0, 1), [shuffle(x)] does
    not raise, leaves in [x] a permutation of its elements, and takes
    [len(x) - 1] numbers from the generator (none for an empty list). *)
Theorem X4_shuffle_permutes
  (A : Type) (x : list A) (r : Mnist.Random) :
  (forall k, 0 <= r k < 1) ->
  exists x' r',
    Mnist.shuffle x r = Some (x', r') /\
    Permutation x x' /\
    (forall k, r' k = r (length x - 1 + k)%nat).
Proof. apply Mnist.shuffle_spec. Qed.

Lemma X4_shuffle_permutes_witness :
  (forall k : nat, 0 <= (fun _ : nat => 1 / 2) k < 1) /\
  exists x' r',
    Mnist.shuffle [1; 2; 3]%nat (fun _ => 1 / 2) = Some (x', r') /\
    Permutation [1; 2; 3]%nat x'.
Proof.
  assert (H : forall k : nat, 0 <= (fun _ : nat => 1 / 2) k < 1)
    by (intros k; lra).
  split; [exact H|].
  destruct (X4_shuffle_permutes nat [1; 2; 3]%nat (fun _ => 1 / 2) H)
    as (x' & r' & E & P & _).
  exists x', r'. split; assumption.
Defined.

(** X5. One epoch's batches, from [shuffle_and_group(batch_size,
    num_training_images)] with a positive batch size: the images are all
    of [db] when [num_training_images] is negative and its first
    [num_training_images] otherwise; every batch has [batch_size]
    entries; read in order the batches hold each selected image once, in
    the shuffled order, followed by fill values [None], of which there
    are at least one and at most [batch_size]. *)
Theorem X5_shuffle_and_group_batches
  (db : list Mnist.image) (batch_size num : Z) (r : Mnist.Random) :
  (forall k, 0 <= r k < 1) -> (0 < batch_size)%Z ->
  exists l' batches r' pad,
    Mnist.shuffle_and_group db batch_size num r = Some (batches, r') /\
    Permutation (if (num <? 0)%Z then db else firstn (Z.to_nat num) db) l' /\
    concat batches = map Some l' ++ repeat None pad /\
    (0 < pad <= Z.to_nat batch_size)%nat /\
    Forall (fun b => Z.of_nat (length b) = batch_size) batches.
Proof. apply Mnist.shuffle_and_group_spec. Qed.

Lemma X5_shuffle_and_group_batches_witness :
  (forall k : nat, 0 <= (fun _ : nat => 1 / 2) k < 1) /\ (0 < 2)%Z /\
  exists batches r',
    Mnist.shuffle_and_group
      [Mnist.mkImage 0 []; Mnist.mkImage 1 []] 2 (-1) (fun _ => 1 / 2)
      = Some (batches, r') /\
    Forall (fun b => Z.of_nat (length b) = 2%Z) batches.
Proof.
  assert (H : forall k : nat, 0 <= (fun _ : nat => 1 / 2) k < 1)
    by (intros k; lra).
  assert (H2 : (0 < 2)%Z) by lia.
  split; [exact H|]. split; [exact H2|].
  destruct (X5_shuffle_and_group_batches
              [Mnist.mkImage 0 []; Mnist.mkImage 1 []] 2 (-1)
              (fun _ => 1 / 2) H H2)
    as (l' & batches & r' & pad & E & _ & _ & _ & HF).
  exists batches, r'. split; assumption.
Defined.

(** A power with exponent 1/2 of a leaf. *)
Definition root_graph : Mnist.graph := [Mnist.Value; Mnist.PowValue 0 (1 / 2)].

(** X6. The reverse sweep of [make_main] on any graph, over the order
    that [r.topo()] gave on a graph not yet walked and after a forward
    sweep over it that went through: it returns exactly when the order
    holds no power whose base holds 0 and whose exponent is below 1 (the
    rule then raises 0 to a negative power); no other rule raises, the
    rule of [log] included.  This is for powers whose base is 0 or at
    least 1 in magnitude, or whose exponent is at least 1: for those
    [x ** (k - 1)] is at most 1 or at most [x ** k] in magnitude, so that
    it lies within the floats when [x ** k] does. *)
Theorem X6_backward_raises_only_at_powers_of_zero
  (g : Mnist.graph) (r fuel : nat) (f : id -> bool) (T : list id)
  (d d' gr : id -> R) :
  Mnist.wf g -> (r < fuel)%nat ->
  Mnist.topo fuel g r (fun _ => false) = Some (f, T) ->
  for_each (Mnist._forward g) T d = Some d' ->
  (forall u a k, In u T -> Mnist.cls g u = Mnist.PowValue a k ->
     Mnist.get_data g d' a = 0 \/ 1 <= Rabs (Mnist.get_data g d' a)
     \/ 1 <= k) ->
  ((exists G, for_each (Mnist._backward g d') (rev T) gr = Some G) <->
   (forall u a k, In u T -> Mnist.cls g u = Mnist.PowValue a k ->
      Mnist.get_data g d' a <> 0 \/ 1 <= k)).
Proof.
  intros Hwf Hr ET Ef _.
  pose proof (Mnist.backward_after_forward g r fuel f T d d' gr
                Hwf Hr ET Ef) as H.
  assert (Hs : (forall u, In u T -> Mnist.pow_safe g d' u) <->
               (forall u a k, In u T -> Mnist.cls g u = Mnist.PowValue a k ->
                  Mnist.get_data g d' a <> 0 \/ 1 <= k)).
  { unfold Mnist.pow_safe. split.
    - intros Hp u a k Hu Hc. specialize (Hp u Hu). now rewrite Hc in Hp.
    - intros Hp u Hu. destruct (Mnist.cls g u) eqn:Hc; try exact I.
      eapply Hp; eassumption. }
  split.
  - intros HG. apply (proj1 Hs), (proj1 H), HG.
  - intros Hp. apply (proj2 H), (proj2 Hs), Hp.
Qed.

Lemma X6_backward_raises_only_at_powers_of_zero_witness :
  exists f T d',
    Mnist.topo 2 root_graph 1 (fun _ => false) = Some (f, T) /\
    for_each (Mnist._forward root_graph) T (fun _ => 0) = Some d' /\
    ~ (exists G,
         for_each (Mnist._backward root_graph d') (rev T) (fun _ => 0)
         = Some G).
Proof.
  assert (Hwf : Mnist.wf root_graph)
    by (apply Mnist.mnist_wf_check_sound; reflexivity).
  assert (Hr : (1 < 2)%nat) by lia.
  assert (Hpow : math_pow 0 (1 / 2) = Some 0).
  { unfold math_pow. destruct (Rlt_dec 0 0); [lra|].
    destruct (Req_dec_T 0 0); [|lra].
    destruct (Rlt_dec 0 (1 / 2)); [reflexivity | lra]. }
  assert (Ef : for_each (Mnist._forward root_graph) [0; 1]%nat (fun _ => 0)
               = Some (upd (fun _ => 0) 1%nat 0)).
  { cbn. unfold Mnist._forward. cbn. rewrite Hpow. reflexivity. }
  exists (upd (upd (fun _ => false) 1%nat true) 0%nat true), [0; 1]%nat,
    (upd (fun _ => 0) 1%nat 0).
  split; [reflexivity|]. split; [exact Ef|].
  intros Hb.
  assert (Hrange : forall u a k, In u [0; 1]%nat ->
            Mnist.cls root_graph u = Mnist.PowValue a k ->
            Mnist.get_data root_graph (upd (fun _ => 0) 1%nat 0) a = 0
            \/ 1 <= Rabs (Mnist.get_data root_graph (upd (fun _ => 0) 1%nat 0) a)
            \/ 1 <= k).
  { intros u a k [<-|[<-|[]]] Hc; [discriminate|].
    injection Hc as <- _. left. reflexivity. }
  pose proof (proj1 (X6_backward_raises_only_at_powers_of_zero root_graph 1 2
                       _ _ (fun _ => 0) _ (fun _ => 0) Hwf Hr eq_refl Ef
                       Hrange) Hb
                1%nat 0%nat (1 / 2) (or_intror (or_introl eq_refl)) eq_refl) as H.
  cbn in H. destruct H as [H|H]; lra.
Defined.

(** X7. [MLP(nin, nouts)] builds one layer per entry of [nouts]; layer
    [j] has [nouts[j]] neurons, each with as many weights as the layer
    before it is wide ([nin] for the first), and only the last layer is
    linear.  Its parameters are [(nin + 1) * nouts[0] + (nouts[0] + 1) *
    nouts[1] + ...] new leaves in allocation order, the parameters of a
    layer being those of its neurons in order and those of a neuron its
    weights followed by its bias; the generator has given one number per
    weight. *)
Theorem X7_mlp_layout (nin : nat) (nouts : list nat) (wd : Mnist.world) :
  let '(m, wd') := Mnist.new_MLP nin nouts wd in
  Mnist.layers_shape (nin :: nouts) 0 (Z.of_nat (length nouts) - 1)
    (Mnist.layers m) /\
  map (fun l => length (Mnist.neurons l)) (Mnist.layers m) = nouts /\
  Mnist.nodes wd'
    = Mnist.nodes wd ++ repeat Mnist.Value (Mnist.param_count nin nouts) /\
  Mnist.mlp_parameters m
    = seq (length (Mnist.nodes wd)) (Mnist.param_count nin nouts) /\
  Mnist.mlp_parameters m
    = flat_map Mnist.layer_parameters (Mnist.layers m) /\
  (forall k, Mnist.rng wd' k
             = Mnist.rng wd (Mnist.weight_count nin nouts + k)%nat).
Proof.
  destruct (Mnist.new_MLP nin nouts wd) as [m wd'] eqn:E.
  pose proof (Mnist.new_MLP_flat _ _ _ _ _ E) as Hflat.
  apply Mnist.new_MLP_layout in E.
  destruct E as (H1 & H2 & H3 & H4 & H5). auto 10.
Qed.

(** X8. [evalmlp] returns as many nodes as the last layer has neurons,
    and its argument when the model has no layer. *)
Theorem X8_evalmlp_output_width
  (m : Mnist.MLP) (x : list id) (g : Mnist.graph)
  (out : list id) (g' : Mnist.graph) :
  Mnist.evalmlp m x g = Some (out, g') ->
  length out
  = last (map (fun l => length (Mnist.neurons l)) (Mnist.layers m)) (length x).
Proof. apply Mnist.evalmlp_length. Qed.

(** One linear neuron with one weight. *)
Definition small_model : Mnist.MLP :=
  Mnist.mkMLP
    [Mnist.mkLayer [Mnist.mkNeuron [0%nat] 1%nat false [0%nat; 1%nat]]
                   [0%nat; 1%nat]]
    [0%nat; 1%nat].

Lemma X8_evalmlp_output_width_witness :
  exists out g',
    Mnist.evalmlp small_model [2%nat] (repeat Mnist.Value 3) = Some (out, g') /\
    length out = 1%nat.
Proof.
  destruct (Mnist.evalmlp small_model [2%nat] (repeat Mnist.Value 3))
    as [[out g']|] eqn:E.
  - exists out, g'. split; [reflexivity|].
    exact (X8_evalmlp_output_width small_model [2%nat]
             (repeat Mnist.Value 3) out g' E).
  - vm_compute in E. discriminate.
Defined.

(** An empty world whose generator returns 1/2 forever. *)
Definition half_world : Mnist.world :=
  Mnist.mkWorld [] (Mnist.mkStore (fun _ => 0) (fun _ => 0)) (fun _ => 1 / 2).

(** X9. The closure [forward] of [make_main], in an environment built for
    [dim] inputs and a model whose last layer has [ndigits] neurons.  On
    an image whose label is below [ndigits] and that has at least [dim]
    pixels it does not raise; it sets input [j] to pixel [j] divided by
    255 and the targets to the one-hot vector of the label, leaves the
    data of the parameters as they are, and returns [- ln (s + 0.0001)]
    for the softmax value [s] of the output at the label.  On any other
    image it raises. *)
Theorem X9_forward_closure
  (dim : nat) (nouts : list nat) (ndigits fuel : nat)
  (wd : Mnist.world) (e : Mnist.env) (wd' : Mnist.world)
  (im : Mnist.image) (d : id -> R) :
  Mnist.wf (Mnist.nodes wd) ->
  Mnist.make_env dim nouts ndigits fuel wd = Some (e, wd') ->
  last nouts dim = ndigits ->
  ((Mnist.label im < ndigits)%nat /\ (dim <= length (Mnist.pixels im))%nat ->
   exists d' output gm os,
     Mnist.forward e im d
       = Some (d', - ln (nth (Mnist.label im) (Mnist.softmax os) 0 + 0.0001)) /\
     Mnist.evalmlp (Mnist.model e) (Mnist.inp_ e)
       (Mnist.nodes wd
        ++ repeat Mnist.Value (dim + Mnist.param_count dim nouts + ndigits))
       = Some (output, gm) /\
     Forall2 (Mnist.evals (Mnist.g e) d') output os /\
     length os = ndigits /\
     (forall j v, nth_error (Mnist.inp_ e) j = Some v ->
        d' v = INR (nth j (Mnist.pixels im) 0%nat) / 255) /\
     (forall j v, nth_error (Mnist.expected_onehot e) j = Some v ->
        d' v = if Nat.eqb j (Mnist.label im) then 1 else 0) /\
     (forall p, In p (Mnist.mlp_parameters (Mnist.model e)) -> d' p = d p)) /\
  (~ ((Mnist.label im < ndigits)%nat /\ (dim <= length (Mnist.pixels im))%nat) ->
   Mnist.forward e im d = None).
Proof.
  intros Hwf E Hlast.
  destruct (Mnist.forward_closure dim nouts ndigits fuel wd e wd'
              Hwf E Hlast im d) as [Hok Hbad].
  split; [|exact Hbad].
  intros Hv.
  destruct (Hok Hv) as (d' & dl & output & gm & os & H1 & _ & H2 & H3).
  exists d', output, gm, os. split; [exact H1|]. split; [exact H2 | exact H3].
Qed.

Lemma X9_forward_closure_witness :
  exists e wd',
    Mnist.make_env 1 [1%nat] 1 40 half_world = Some (e, wd') /\
    (exists d' l,
       Mnist.forward e (Mnist.mkImage 0 [255%nat]) (fun _ => 0) = Some (d', l)) /\
    Mnist.forward e (Mnist.mkImage 1 [255%nat]) (fun _ => 0) = None.
Proof.
  assert (Hwf : Mnist.wf (Mnist.nodes half_world))
    by (apply Mnist.mnist_wf_check_sound; reflexivity).
  destruct (Mnist.make_env 1 [1%nat] 1 40 half_world) as [[e wd']|] eqn:E.
  - exists e, wd'. split; [reflexivity|]. split.
    + destruct (proj1 (X9_forward_closure 1 [1%nat] 1 40 half_world e wd'
                         (Mnist.mkImage 0 [255%nat]) (fun _ => 0)
                         Hwf E eq_refl))
        as (d' & output & gm & os & H & _).
      * simpl. lia.
      * eauto.
    + apply (proj2 (X9_forward_closure 1 [1%nat] 1 40 half_world e wd'
                      (Mnist.mkImage 1 [255%nat]) (fun _ => 0) Hwf E eq_refl)).
      simpl. lia.
  - vm_compute in E. discriminate.
Defined.

(** X10. The loss that [forward] returns for an example lies between
    [- ln 1.0001], which is below 0, and [- ln 0.0001], both included:
    the softmax value of the label is in [0, 1] and 0.0001 is added
    before the logarithm.  (Over the reals the softmax value is above 0
    and the upper bound is not reached; in floats [exp] of a very
    negative number is 0.0 and the bound is reached.) *)
Theorem X10_example_loss_bounds
  (dim : nat) (nouts : list nat) (ndigits fuel : nat)
  (wd : Mnist.world) (e : Mnist.env) (wd' : Mnist.world)
  (im : Mnist.image) (d d' : id -> R) (l : R) :
  Mnist.wf (Mnist.nodes wd) ->
  Mnist.make_env dim nouts ndigits fuel wd = Some (e, wd') ->
  last nouts dim = ndigits ->
  Mnist.forward e im d = Some (d', l) ->
  - ln 1.0001 <= l <= - ln 0.0001.
Proof.
  intros Hwf E Hlast Ef.
  destruct (Mnist.forward_closure dim nouts ndigits fuel wd e wd'
              Hwf E Hlast im d) as [Hok Hbad].
  destruct (Mnist.valid_dec dim ndigits im) as [Hv|Hv].
  2:{ rewrite (Hbad Hv) in Ef. discriminate. }
  destruct (Hok Hv) as (d1 & dl & output & gm & os & H1 & _ & _ & _ & Hlen & _).
  rewrite H1 in Ef. injection Ef as _ <-.
  set (s := nth (Mnist.label im) (Mnist.softmax os) 0).
  assert (Hs : 0 < s <= 1).
  { apply (Mnist.softmax_le_1 os). apply nth_In.
    rewrite Mnist.softmax_length, Hlen. apply Hv. }
  assert (H0 : ln 0.0001 < ln (s + 0.0001)) by (apply ln_increasing; lra).
  assert (H2 : ln (s + 0.0001) <= ln 1.0001).
  { destruct (Req_dec s 1) as [Hs1|Hs1].
    - rewrite Hs1. replace (1 + 0.0001) with 1.0001 by lra. lra.
    - apply Rlt_le, ln_increasing; lra. }
  lra.
Qed.

Lemma X10_example_loss_bounds_witness :
  exists e wd' d' l,
    Mnist.make_env 1 [1%nat] 1 40 half_world = Some (e, wd') /\
    Mnist.forward e (Mnist.mkImage 0 [255%nat]) (fun _ => 0) = Some (d', l) /\
    - ln 1.0001 <= l <= - ln 0.0001.
Proof.
  assert (Hwf : Mnist.wf (Mnist.nodes half_world))
    by (apply Mnist.mnist_wf_check_sound; reflexivity).
  destruct (Mnist.make_env 1 [1%nat] 1 40 half_world) as [[e wd']|] eqn:E.
  - destruct (proj1 (Mnist.forward_closure 1 [1%nat] 1 40 half_world e wd'
                       Hwf E eq_refl (Mnist.mkImage 0 [255%nat]) (fun _ => 0)))
      as (d' & dl & output & gm & os & H & _).
    + split; simpl; lia.
    + exists e, wd', d'. eexists. split; [reflexivity|]. split; [exact H|].
      exact (X10_example_loss_bounds 1 [1%nat] 1 40 half_world e wd'
               (Mnist.mkImage 0 [255%nat]) (fun _ => 0) d' _ Hwf E eq_refl H).
  - vm_compute in E. discriminate.
Defined.

(** X11. One training step ([zero_grad], the examples of the batch,
    [update_params]) in the environment of [make_main], built on a world
    whose only powers are inverses: it raises exactly when the batch holds
    an image whose label is not below [ndigits] or that has fewer than
    [dim] pixels.  The fill value [None] is skipped, and after [forward]
    no rule of [backward] raises. *)
Theorem X11_training_step_raises_only_on_bad_images
  (dim : nat) (nouts : list nat) (ndigits fuel : nat)
  (wd : Mnist.world) (e : Mnist.env) (wd' : Mnist.world)
  (batch : list (option Mnist.image)) (st : Mnist.store) :
  Mnist.wf (Mnist.nodes wd) ->
  Forall Mnist.inverse_only (Mnist.nodes wd) ->
  Mnist.make_env dim nouts ndigits fuel wd = Some (e, wd') ->
  last nouts dim = ndigits ->
  ((exists st' batch_loss,
      Mnist.train_batch e batch st = Some (st', batch_loss)) <->
   (forall im, In (Some im) batch ->
      (Mnist.label im < ndigits)%nat /\ (dim <= length (Mnist.pixels im))%nat)).
Proof.
  intros Hwf Hwd E Hlast.
  rewrite (Mnist.train_batch_total dim nouts ndigits fuel wd e wd'
             Hwf Hwd E Hlast batch st).
  rewrite Forall_forall. split.
  - intros H im Hin. exact (H (Some im) Hin).
  - intros H [im|] Hin; [exact (H im Hin) | exact I].
Qed.

Lemma X11_training_step_raises_only_on_bad_images_witness :
  exists e wd',
    Mnist.make_env 1 [1%nat] 1 40 half_world = Some (e, wd') /\
    exists st' batch_loss,
      Mnist.train_batch e [Some (Mnist.mkImage 0 [255%nat]); None]
        (Mnist.mkStore (fun _ => 1) (fun _ => 0)) = Some (st', batch_loss).
Proof.
  assert (Hwf : Mnist.wf (Mnist.nodes half_world))
    by (apply Mnist.mnist_wf_check_sound; reflexivity).
  assert (Hwd : Forall Mnist.inverse_only (Mnist.nodes half_world))
    by constructor.
  destruct (Mnist.make_env 1 [1%nat] 1 40 half_world) as [[e wd']|] eqn:E.
  - exists e, wd'. split; [reflexivity|].
    apply (proj2 (X11_training_step_raises_only_on_bad_images
                    1 [1%nat] 1 40 half_world e wd' _ _ Hwf Hwd E eq_refl)).
    intros im [H|[H|[]]]; [|discriminate].
    injection H as <-. simpl. lia.
  - vm_compute in E. discriminate.
Defined.

Open Scope R_scope.

(** X12. The two engines on the same graph: [Value.backward] of
    [engine.py], on a heap, and [BaseValue.backward] of [mnist.py], on the
    graph with the same operations and operands, with the data that the
    heap stores and without [_visited] marks, started from the same
    gradients, either both raise or both return, and then they leave the
    same gradient in every node. *)
Theorem X12_engines_compute_same_gradients
  (h : Engine.heap) (r fuel : nat) (grad : id -> R) :
  match Engine.backward fuel h r grad,
        Mnist.backward fuel (Compare.to_graph h) (Compare.heap_data h) r
          (fun _ => false) grad with
  | Some G, Some (_, G') => forall v, G v = G' v
  | None, None => True
  | _, _ => False
  end.
Proof.
  pose proof (Compare.backward_agree h r fuel grad) as H.
  unfold Compare.agree in H.
  destruct (Engine.backward fuel h r grad) as [G|],
           (Mnist.backward fuel (Compare.to_graph h) (Compare.heap_data h) r
              (fun _ => false) grad) as [[f G']|]; exact H.
Qed.

(** The product of two leaves that hold 2 and 3. *)
Definition product_heap : Engine.heap :=
  [Engine.mkValue 2 Engine.Leaf; Engine.mkValue 3 Engine.Leaf;
   Engine.mkValue (2 * 3) (Engine.Mul 0 1)].

(** X13. [Value.backward], run from gradients that are all 0 on a heap
    that the operators have built and whose data have not been assigned
    since, leaves in every leaf [x] the derivative of the data of the
    root [r] with respect to the data of [x]: running the same operations
    again with [Value(t)] in place of [x] goes through for all [t] near
    the data of [x], the data of [r] is then a function [F] of [t], and
    the gradient of [x] is the derivative of [F] at the data of [x].  The
    point must be smooth: no [relu] of 0, no [Max] of two equal operands,
    no power of 0 with an exponent that is not a positive whole
    number. *)
Theorem X13_engine_gradient_is_derivative
  (h : Engine.heap) (x r fuel : nat) (G : id -> R) :
  Engine.wf h -> Engine.built h ->
  Engine._op (Engine.get h x) = Engine.Leaf ->
  (r < fuel)%nat -> (r < length h)%nat ->
  (forall v, Engine.smooth_at h v) ->
  Engine.backward fuel h r (fun _ => 0) = Some G ->
  exists F : R -> R,
    near (Engine.data (Engine.get h x))
      (fun t => exists h',
         Engine.rerun h (upd (fun v => Engine.data (Engine.get h v)) x t)
           = Some h' /\
         Engine.data (Engine.get h' r) = F t) /\
    derivable_pt_lim F (Engine.data (Engine.get h x)) (G x).
Proof. apply Compare.engine_backward_derivative. Qed.

Lemma X13_engine_gradient_is_derivative_witness :
  exists G,
    Engine.backward 3 product_heap 2 (fun _ => 0) = Some G /\
    exists F : R -> R,
      near 2
        (fun t => exists h',
           Engine.rerun product_heap
             (upd (fun v => Engine.data (Engine.get product_heap v)) 0%nat t)
             = Some h' /\
           Engine.data (Engine.get h' 2%nat) = F t) /\
      derivable_pt_lim F 2 (G 0%nat).
Proof.
  eexists. split; [reflexivity|].
  refine (X13_engine_gradient_is_derivative product_heap 0 2 3 _ _ eq_refl
            eq_refl _ _ _ eq_refl).
  - apply Engine.engine_wf_check_sound. reflexivity.
  - lia.
  - simpl. lia.
  - intros v. unfold Engine.smooth_at, Engine.get.
    destruct v as [|[|[|[|v]]]]; exact I.
Defined.


(** Two leaves that hold 2 and 3. *)
Definition two_leaves : Engine.heap :=
  [Engine.mkValue 2 Engine.Leaf; Engine.mkValue 3 Engine.Leaf].


(** The data of the [Value] that an operator returns. *)
Definition result_data (r : Engine.heap * id) : R :=
  Engine.data (Engine.get (fst r) (snd r)).

(** X15. The values of the derived operators, for a [Value] [self] with
    data [a] and an operand (a [Value] or a number) with data [b]:
    [-self] holds [- a], [self - other] holds [a - b], [x - self] holds
    [x - a], [other + self] holds [a + b], [other * self] holds [a * b];
    [self / other] raises when [b] is 0 and, when it returns, holds
    [a / b]; [x / self] raises when [a] is 0 and, when it returns, holds
    [x / a].  (A division is a product with a power of exponent -1, which
    in floats also raises when that power is beyond the floats.) *)
Theorem X15_derived_operator_values
  (h : Engine.heap) (self : id) (other : Engine.operand) (x : R) :
  (self < length h)%nat -> Engine.operand_ok h other ->
  let a := Engine.data (Engine.get h self) in
  let b := Engine.operand_data h other in
  result_data (Engine.__neg__ h self) = - a /\
  result_data (Engine.__sub__ h self other) = a - b /\
  result_data (Engine.__rsub__ h self x) = x - a /\
  result_data (Engine.__radd__ h self other) = a + b /\
  result_data (Engine.__rmul__ h self other) = a * b /\
  (b = 0 -> Engine.__div__ h self other = None) /\
  (forall r, Engine.__div__ h self other = Some r ->
     result_data r = a / b) /\
  (a = 0 -> Engine.__rdiv__ h self x = None) /\
  (forall r, Engine.__rdiv__ h self x = Some r -> result_data r = x / a).
Proof.
  intros Hs Ho a b. unfold result_data.
  pose proof (Engine.engine_neg_spec h self Hs) as S1.
  pose proof (Engine.engine_sub_spec h self other Hs Ho) as S2.
  pose proof (Engine.engine_rsub_spec h self x Hs) as S3.
  pose proof (Engine.engine_add_operand_spec h self other Hs Ho) as S4.
  pose proof (Engine.engine_mul_operand_spec h self other Hs Ho) as S5.
  pose proof (Engine.engine_div_spec h self other Hs Ho) as S6.
  pose proof (Engine.engine_rdiv_spec h self x Hs) as S7.
  unfold Engine.__radd__, Engine.__rmul__.
  destruct (Engine.__neg__ h self), (Engine.__sub__ h self other),
           (Engine.__rsub__ h self x), (Engine.add_operand h self other),
           (Engine.mul_operand h self other).
  cbn [fst snd].
  split; [apply S1|]. split; [apply S2|]. split; [apply S3|].
  split; [apply S4|]. split; [apply S5|].
  split; [|split; [|split]].
  - intros Hb. destruct (Engine.__div__ h self other) as [[h6 o6]|];
      [|reflexivity].
    cbn [fst snd] in S6. tauto.
  - intros [h6 o6] E. rewrite E in S6. cbn [fst snd] in *. tauto.
  - intros Ha. destruct (Engine.__rdiv__ h self x) as [[h7 o7]|];
      [|reflexivity].
    cbn [fst snd] in S7. tauto.
  - intros [h7 o7] E. rewrite E in S7. cbn [fst snd] in *. tauto.
Qed.

Lemma X15_derived_operator_values_witness :
  result_data (Engine.__sub__ two_leaves 0 (Engine.Obj 1)) = 2 - 3 /\
  Engine.__div__ two_leaves 0 (Engine.Num 0) = None /\
  exists r, Engine.__div__ two_leaves 0 (Engine.Obj 1) = Some r /\
    result_data r = 2 / 3.
Proof.
  assert (H0 : (0 < length two_leaves)%nat) by (simpl; lia).
  assert (H1 : (1 < length two_leaves)%nat) by (simpl; lia).
  split; [|split].
  - exact (proj1 (proj2 (X15_derived_operator_values two_leaves 0
                           (Engine.Obj 1) 0 H0 H1))).
  - exact (proj1 (proj2 (proj2 (proj2 (proj2 (proj2
             (X15_derived_operator_values two_leaves 0 (Engine.Num 0) 0
                H0 I)))))) eq_refl).
  - pose proof (Engine.engine_div_spec two_leaves 0 (Engine.Obj 1) H0 H1)
      as S.
    destruct (Engine.__div__ two_leaves 0 (Engine.Obj 1)) as [r|] eqn:E.
    + exists r. split; [reflexivity|].
      exact (proj1 (proj2 (proj2 (proj2 (proj2 (proj2 (proj2
               (X15_derived_operator_values two_leaves 0 (Engine.Obj 1) 0
                  H0 H1))))))) r E).
    + exfalso. simpl in S. lra.
Defined.



(** X17. [evalneuron(x)] raises exactly when it gets more inputs than
    the neuron has weights (the index [self.w[i]] is then out of range);
    with fewer inputs it does not raise and ignores the weights that are
    left. *)
Theorem X17_evalneuron_raises_on_too_many_inputs
  (self : Mnist.Neuron) (x : list id) (g : Mnist.graph) :
  Mnist.evalneuron self x g = None <->
  (length (Mnist.w self) < length x)%nat.
Proof.
  pose proof (Mnist.evalneuron_total self x g) as H.
  destruct (Mnist.evalneuron self x g) as [r|].
  - split; [discriminate|]. intros Hlt.
    assert (Hle : (length x <= length (Mnist.w self))%nat)
      by (apply H; discriminate).
    lia.
  - split; [|reflexivity]. intros _.
    destruct (le_lt_dec (length x) (length (Mnist.w self))) as [Hle|Hlt];
      [|exact Hlt].
    exfalso. now apply (proj2 H Hle).
Qed.

(** X18. What the model computes: on a table whose operands precede
    their consumers and in which the parameters of the model are leaves,
    the nodes that [evalmlp(x)] returns evaluate, whatever the data, to
    the values of the layers applied one after the other to the values
    of [x], the value of a neuron being its bias plus the products of its
    weights and its inputs, added from left to right, through [relu]
    (written [(a > 0) * a]) unless the neuron is linear. *)
Theorem X18_evalmlp_computes_the_layers
  (m : Mnist.MLP) (x : list id) (g : Mnist.graph)
  (out : list id) (g' : Mnist.graph) (d : id -> R) (xs : list R) :
  Mnist.wf g -> Mnist.model_leaves g m ->
  Forall (fun v => (v < length g)%nat) x ->
  Mnist.evalmlp m x g = Some (out, g') ->
  Forall2 (Mnist.evals g' d) x xs ->
  Forall2 (Mnist.evals g' d) out
    (fold_left
       (fun xs l =>
          map (fun n =>
                 let act :=
                   fold_left (fun acc p => acc + fst p * snd p)
                     (combine (map d (Mnist.w n)) xs) (d (Mnist.b n)) in
                 if Mnist.nonlin n then float_gt act 0 * act else act)
              (Mnist.neurons l))
       (Mnist.layers m) xs).
Proof.
  intros Hwf Hm Hx E Hxs.
  exact (Mnist.evalmlp_computes m x g out g' Hwf Hm Hx E d xs Hxs).
Qed.

Lemma X18_evalmlp_computes_the_layers_witness :
  exists out g',
    Mnist.evalmlp small_model [2%nat] (repeat Mnist.Value 3) = Some (out, g') /\
    Forall2 (Mnist.evals g' (fun _ => 2)) out [2 + 2 * 2].
Proof.
  destruct (Mnist.evalmlp small_model [2%nat] (repeat Mnist.Value 3))
    as [[out g']|] eqn:E.
  - exists out, g'. split; [reflexivity|].
    assert (Hwf : Mnist.wf (repeat Mnist.Value 3))
      by (apply Mnist.mnist_wf_check_sound; reflexivity).
    assert (Hm : Mnist.model_leaves (repeat Mnist.Value 3) small_model).
    { repeat constructor. }
    assert (Hx : Forall (fun v => (v < length (repeat Mnist.Value 3))%nat)
                   [2%nat]) by (repeat constructor).
    assert (Hxs : Forall2 (Mnist.evals g' (fun _ => 2)) [2%nat] [2]).
    { constructor; [|constructor].
      apply (Mnist.ev_leaf g' (fun _ => 2) 2%nat).
      pose proof E as E'. vm_compute in E'. injection E' as _ <-.
      reflexivity. }
    exact (X18_evalmlp_computes_the_layers small_model [2%nat]
             (repeat Mnist.Value 3) out g' (fun _ => 2) [2] Hwf Hm Hx E Hxs).
  - vm_compute in E. discriminate.
Defined.

(** X19. The first lines of [make_main], which build the inputs, the
    model, the targets, the loss and its order, for [dim] inputs, layers
    of the widths [nouts] and [ndigits] targets, on a table whose
    operands precede their consumers: they raise exactly when the model
    has no output ([stable_softmax] reads [output[0]]) or fewer outputs
    than there are targets ([loss_of] reads [softmax_output[i]] for every
    target).  The widths of [make_main] itself, 784 inputs, layers of 50
    and 10 neurons and 10 targets, do not raise. *)
Theorem X19_make_main_construction_raises
  (dim : nat) (nouts : list nat) (ndigits : nat) (wd : Mnist.world) :
  Mnist.wf (Mnist.nodes wd) ->
  ((exists fuel e wd',
      Mnist.make_env dim nouts ndigits fuel wd = Some (e, wd')) <->
   (1 <= last nouts dim /\ ndigits <= last nouts dim)%nat) /\
  exists fuel e wd', Mnist.make_main fuel wd = Some (e, wd').
Proof.
  intros Hwf. split; [now apply Mnist.make_env_total|].
  unfold Mnist.make_main.
  apply (Mnist.make_env_total Mnist.DIM [50%nat; Mnist.NUM_DIGITS]
           Mnist.NUM_DIGITS wd Hwf).
  unfold Mnist.NUM_DIGITS. simpl. lia.
Qed.

Lemma X19_make_main_construction_raises_witness :
  Mnist.wf (Mnist.nodes half_world) /\
  (forall fuel, Mnist.make_env 1 [0%nat] 0 fuel half_world = None) /\
  exists fuel e wd', Mnist.make_main fuel half_world = Some (e, wd').
Proof.
  assert (Hwf : Mnist.wf (Mnist.nodes half_world))
    by (apply Mnist.mnist_wf_check_sound; reflexivity).
  pose proof (X19_make_main_construction_raises 1 [0%nat] 0 half_world Hwf)
    as [H _].
  split; [exact Hwf|]. split.
  - intros fuel.
    destruct (Mnist.make_env 1 [0%nat] 0 fuel half_world) as [[e wd']|] eqn:E;
      [|reflexivity].
    exfalso. assert (Hc : (1 <= last [0%nat] 1%nat)%nat) by (apply H; eauto).
    simpl in Hc. lia.
  - exact (proj2 (X19_make_main_construction_raises Mnist.DIM
                    [50%nat; Mnist.NUM_DIGITS] Mnist.NUM_DIGITS half_world Hwf)).
Defined.
